(** * to-use: a lazy, hierarchical key/value resolution engine

    A shallow embedding of the two revisions of the container that the
    repository holds, and the properties of its per-key state machine:

    - [UseThis]: [src/use-this.ts] (compiled as [src/cjs/use-this.js]);
      entries inherit from the parent's entry through the JS prototype chain
      ([Object.create]).
    - [ToUse]: the later [to-use.ts] (compiled as [src/cjs/to-use.js]);
      entries are copied from the nearest ancestor with an object spread.

    The library code is embedded as Rocq functions over an explicit world
    (the registries, the module variables [ctx] and [used], a counter that
    gives fresh object identities).  The clients of the library, the
    factories, are programs over the library's API ([Prog]); a code table
    maps a function identity to its body. *)

From stdpp Require Import gmap list.
From Stdlib Require Import ZArith.

(** ** Values *)

(** Keys are opaque identities ([type Key]). *)
Abbreviation Key := nat (only parsing).
(** A context is named by the index of its registry in the world. Index 0 is
    the global context [use]. *)
Abbreviation CtxId := nat (only parsing).
(** The identity of a JS function; its body is given by the code table. *)
Abbreviation FunId := nat (only parsing).

(** The class of a JS error object. *)
Inductive ErrClass := TypeError | Error | ReferenceError.

(** [String(x)] as it appears in the messages, for the payload of an entry. *)
Inductive Shown :=
| ShownFun (f : FunId)      (* the source text of a function *)
| ShownDefault              (* the source text of [defaultLookup] *)
| ShownOther.               (* any other value *)

(** The messages of the errors the library creates. *)
Inductive Msg :=
| NoCurrentContext                        (* "No current context" *)
| AlreadyRead (key : Key)                 (* `Already read: ${String(key)}` *)
| DidntResolve (fac : Shown) (key : Key)  (* `Factory ${String(entry.v)} didn't resolve ${String(key)}` *)
| NoConfig (key : Key)                    (* `No config for ${String(key)}` *)
| NotCallable                             (* the engine's "is not a function" *)
| Custom (n : nat).                       (* a message of the client's *)

(** JS values: objects and errors carry the identity they were allocated
    with; the numbers are the integers and [NaN]. *)
Inductive Value :=
| VUndefined
| VNull
| VNum (n : Z)
| VNaN
| VObj (id : nat)
| VFun (f : FunId)
| VDefault                                 (* the function [defaultLookup] *)
| VCtx (c : CtxId)                         (* a context handle *)
| VErr (id : nat) (cls : ErrClass) (msg : Msg).

Global Instance ErrClass_eq_dec : EqDecision ErrClass.
Proof. solve_decision. Defined.
Global Instance Shown_eq_dec : EqDecision Shown.
Proof. solve_decision. Defined.
Global Instance Msg_eq_dec : EqDecision Msg.
Proof. solve_decision. Defined.
Global Instance Value_eq_dec : EqDecision Value.
Proof. solve_decision. Defined.

(** [a === b]: the same object, or the same primitive value, except that
    [NaN] is not [===] to any value, itself included. *)
Definition strict_eq (a b : Value) : bool :=
  match a with
  | VNaN => false
  | _ => bool_decide (a = b)
  end.

Definition String_ (x : Value) : Shown :=
  match x with
  | VFun f => ShownFun f
  | VDefault => ShownDefault
  | _ => ShownOther
  end.

(** What [defaultLookup] sees in a key: a [use.me] method, a class, or neither. *)
Inductive KeyShape :=
| Recipe (method : FunId)    (* typeof key[useMe] === "function" *)
| Class (ctor : FunId)       (* isClass(key): [new key()] runs the constructor *)
| Plain.

(** ** Client programs *)

(** The body of a factory, a constructor or a test: a tree of calls to the
    API of the library, with the value each call returns passed on. *)
Inductive Prog :=
| Ret (x : Value)                                          (* return x *)
| Throw (x : Value)                                        (* throw x *)
| New (cont : Value -> Prog)                               (* a fresh object *)
| NewError (n : nat) (cont : Value -> Prog)                (* new Error(...) *)
| Use (c : CtxId) (key : Key) (cont : Value -> Prog)       (* c(key); c = 0 is use(key) *)
| This (cont : Value -> Prog)                              (* use.this *)
| SetV (c : CtxId) (key : Key) (x : Value) (cont : Prog)   (* c.set(key, x) *)
| Def (c : CtxId) (key : Key) (fac : Value) (cont : Prog)  (* c.def(key, fac) *)
| Fork (c : CtxId) (key : option Key) (cont : Value -> Prog)  (* c.fork(key?) *)
| Try (body : Prog) (handler : Value -> Prog) (cont : Value -> Prog).
                                                   (* try { body } catch (e) { handler e } *)

(** ** Computations: a result, an exception or no result at all *)

Inductive Outcome (A : Type) :=
| Ok (a : A)
| Thrown (e : Value)
| Diverge.          (* out of fuel: the JS call never returns *)
Arguments Ok {A} a.
Arguments Thrown {A} e.
Arguments Diverge {A}.

Definition M (W A : Type) : Type := W -> Outcome A * W.

Definition ret {W A} (a : A) : M W A := fun w => (Ok a, w).
Definition throw {W A} (e : Value) : M W A := fun w => (Thrown e, w).
Definition bind {W A B} (m : M W A) (k : A -> M W B) : M W B :=
  fun w => match m w with
           | (Ok a, w') => k a w'
           | (Thrown e, w') => (Thrown e, w')
           | (Diverge, w') => (Diverge, w')
           end.

Notation "'let*' x := m 'in' k" := (bind m (fun x => k))
  (at level 10, x name, m at level 100, k at level 200).

(** The interface of a context, [Configurable] and [GlobalContext] in the
    source, as the interpreter of client programs needs it. *)
Record Api (W : Type) := {
  api_use : CtxId -> Key -> M W Value;           (* c(key) *)
  api_this : M W Value;                          (* use.this *)
  api_set : CtxId -> Key -> Value -> M W Value;  (* c.set(key, x) *)
  api_def : CtxId -> Key -> Value -> M W Value;  (* c.def(key, fac) *)
  api_fork : CtxId -> option Key -> M W Value;   (* c.fork(key?) *)
  api_new : M W Value;                           (* a fresh object *)
  api_error : nat -> M W Value                   (* new Error(...) *)
}.
Arguments api_use {W}. Arguments api_this {W}. Arguments api_set {W}.
Arguments api_def {W}. Arguments api_fork {W}. Arguments api_new {W}.
Arguments api_error {W}.

Fixpoint run {W} (api : Api W) (p : Prog) : M W Value :=
  match p with
  | Ret x => ret x
  | Throw x => throw x
  | New cont => let* x := api_new api in run api (cont x)
  | NewError n cont => let* x := api_error api n in run api (cont x)
  | Use c key cont => let* x := api_use api c key in run api (cont x)
  | This cont => let* x := api_this api in run api (cont x)
  | SetV c key x cont => let* _ := api_set api c key x in run api cont
  | Def c key fac cont => let* _ := api_def api c key fac in run api cont
  | Fork c key cont => let* x := api_fork api c key in run api (cont x)
  | Try body handler cont =>
      fun w => match run api body w with
               | (Ok x, w') => run api (cont x) w'
               | (Thrown e, w') => (let* x := run api (handler e) in run api (cont x)) w'
               | (Diverge, w') => (Diverge, w')
               end
  end.

(** ** The validation of dependencies, in the words of the specification *)

(** How a check of the dependencies ends. *)
Inductive Verdict :=
| Same                 (* every key has the same value in both contexts *)
| Differ               (* a key has two values that are not [===] *)
| Raised (e : Value).  (* a lookup threw [e] *)

(** What the check gives to the lookup that runs it. *)
Definition ends (v : Verdict) : Outcome bool :=
  match v with
  | Same => Ok true
  | Differ => Ok false
  | Raised e => Thrown e
  end.

(** [checked look me origin keys v seen w w']: starting in [w], the keys
    are taken in the order of the list; each is resolved in [me], then in
    [origin].  While the two values are [===] the check goes on to the next
    key; at the first key where they are not it stops with [Differ], and at
    the first lookup that throws it stops with [Raised]; no later key is
    looked up.  When no key differs, it ends with [Same].  [seen] lists the
    keys whose lookup in [me] returned, and [w'] is the world after the
    last lookup. *)
Inductive checked {W} (look : CtxId -> Key -> M W Value) (me origin : CtxId)
  : list Key -> Verdict -> list Key -> W -> W -> Prop :=
| checked_nil w : checked look me origin [] Same [] w w
| checked_same k keys v seen w w1 w2 w3 a a' :
    look me k w = (Ok a, w1) ->
    look origin k w1 = (Ok a', w2) ->
    strict_eq a a' = true ->
    checked look me origin keys v seen w2 w3 ->
    checked look me origin (k :: keys) v (k :: seen) w w3
| checked_diff k keys w w1 w2 a a' :
    look me k w = (Ok a, w1) ->
    look origin k w1 = (Ok a', w2) ->
    strict_eq a a' = false ->
    checked look me origin (k :: keys) Differ [k] w w2
| checked_raised k keys w w1 e :
    look me k w = (Thrown e, w1) ->
    checked look me origin (k :: keys) (Raised e) [] w w1
| checked_raised_origin k keys w w1 w2 a e :
    look me k w = (Ok a, w1) ->
    look origin k w1 = (Thrown e, w2) ->
    checked look me origin (k :: keys) (Raised e) [k] w w2.

(** ** Factories that only read *)

(** A factory that reads and does not configure: it calls the global context
    [use], the context [me] it runs in and contexts made since it started
    (those from [L] on), it may fork, and it calls neither [set] nor [def]. *)
Inductive reader (L : nat) (me : CtxId) : Prog → Prop :=
| reader_ret x : reader L me (Ret x)
| reader_throw x : reader L me (Throw x)
| reader_new cont : (∀ x, reader L me (cont x)) → reader L me (New cont)
| reader_error n cont : (∀ x, reader L me (cont x)) → reader L me (NewError n cont)
| reader_use c key cont :
    c = 0 ∨ c = me ∨ L ≤ c → (∀ x, reader L me (cont x)) → reader L me (Use c key cont)
| reader_this cont : reader L me (cont (VCtx me)) → reader L me (This cont)
| reader_fork c cont :
    (∀ c', L ≤ c' → reader L me (cont (VCtx c'))) → reader L me (Fork c None cont)
| reader_fork_key c key cont :
    (∀ x, reader L me (cont x)) → reader L me (Fork c (Some key) cont)
| reader_try body handler cont :
    reader L me body → (∀ e, reader L me (handler e)) → (∀ x, reader L me (cont x)) →
    reader L me (Try body handler cont).

Definition readers (code : FunId → CtxId → Key → Prog) : Prop :=
  ∀ f me key L, me < L → reader L me (code f me key).

(** * The later revision: [to-use.ts] *)

Module ToUse.

(** [const enum State { wasRead = 0, hasValue, hasFactory, hasError, isCreating }] *)
Inductive State := wasRead | hasValue | hasFactory | hasError | isCreating.

(** [type Deps<T> = {c: Context, k: Key[], f: Factory<T>}] *)
Record Deps := { d_c : CtxId; d_k : list Key; d_f : Value }.

(** [type Entry<T> = {s: State, v: T | Factory<T>, d?: Deps<T>}]; an absent
    or [null] [d] is [None]. *)
Record Entry := { e_s : State; e_v : Value; e_d : option Deps }.

(** [type Registry = Map<Key, Entry<any>> & {prev?: Registry}] *)
Record Registry := { entries : gmap nat Entry; prev : option CtxId }.

(** The registries of all contexts made so far and the module variables
    [ctx] and [used]; [next] numbers the objects allocated so far.  [used]
    refers to the array that the innermost running [exec] was given, and
    only [exec] assigns it, so the array is held by value. *)
Record World := {
  ctxs : list Registry;
  ctx : option CtxId;
  used : option (list Key);
  next : nat
}.

Global Instance State_eq_dec : EqDecision State.
Proof. solve_decision. Defined.
Global Instance Deps_eq_dec : EqDecision Deps.
Proof. solve_decision. Defined.
Global Instance Entry_eq_dec : EqDecision Entry.
Proof. solve_decision. Defined.

Definition set_ctxs (cs : list Registry) (w : World) : World :=
  {| ctxs := cs; ctx := ctx w; used := used w; next := next w |}.
Definition set_ambient (c : option CtxId) (u : option (list Key)) (w : World) : World :=
  {| ctxs := ctxs w; ctx := c; used := u; next := next w |}.
Definition set_next (n : nat) (w : World) : World :=
  {| ctxs := ctxs w; ctx := ctx w; used := used w; next := n |}.

(** [registry.get(key)] in context [c]. *)
Definition entry_of (w : World) (c : CtxId) (key : Key) : option Entry :=
  match ctxs w !! c with
  | Some r => entries r !! key
  | None => None
  end.

(** [registry.set(key, e)] in context [c]. *)
Definition store (c : CtxId) (key : Key) (e : Entry) (w : World) : World :=
  set_ctxs (alter (fun r => {| entries := <[key := e]> (entries r); prev := prev r |})
                  c (ctxs w)) w.

(** An assignment to fields of the entry object that [c]'s registry holds
    for [key]. *)
Definition update (c : CtxId) (key : Key) (f : Entry -> Entry) (w : World) : World :=
  set_ctxs (alter (fun r => {| entries := alter f key (entries r); prev := prev r |})
                  c (ctxs w)) w.

Definition with_s (s : State) (e : Entry) : Entry :=
  {| e_s := s; e_v := e_v e; e_d := e_d e |}.
Definition with_v (x : Value) (e : Entry) : Entry :=
  {| e_s := e_s e; e_v := x; e_d := e_d e |}.
Definition with_d (d : option Deps) (e : Entry) : Entry :=
  {| e_s := e_s e; e_v := e_v e; e_d := d |}.

(** The module as loaded: [use = newCtx()], [ctx] and [used] undefined. *)
Definition init : World :=
  {| ctxs := [ {| entries := ∅; prev := None |} ]; ctx := None; used := None; next := 0 |}.

(** [new C(msg)] for an error class [C]. *)
Definition new_error {A} (cls : ErrClass) (msg : Msg) : M World A :=
  fun w => (Thrown (VErr (next w) cls msg), set_next (S (next w)) w).

(** [newCtx(prev)]: a context with an empty registry. *)
Definition newCtx (p : option CtxId) : M World CtxId :=
  fun w => (Ok (length (ctxs w)),
            set_ctxs (ctxs w ++ [ {| entries := ∅; prev := p |} ]) w).

(** [setEntry(reg, key, s, v)] on the registry of [c]. *)
Definition setEntry (c : CtxId) (key : Key) (s : State) (x : Value) : M World unit :=
  fun w =>
    match entry_of w c key with
    | Some entry =>
        match e_s entry with
        | wasRead => new_error Error (AlreadyRead key) w
        | _ => (Ok tt, update c key (fun _ => {| e_s := s; e_v := x; e_d := None |}) w)
        end
    | None => (Ok tt, store c key {| e_s := s; e_v := x; e_d := None |} w)
    end.

(** A method of the context [me]: a handle stands for a context that exists. *)
Definition method {A} (me : CtxId) (m : M World A) : M World A :=
  fun w => match ctxs w !! me with
           | Some _ => m w
           | None => (Diverge, w)
           end.

(** [def(key, factory)] and [set(key, value)]; both return [me]. *)
Definition def (me : CtxId) (key : Key) (fac : Value) : M World Value :=
  method me (let* _ := setEntry me key hasFactory fac in ret (VCtx me)).
Definition set (me : CtxId) (key : Key) (x : Value) : M World Value :=
  method me (let* _ := setEntry me key hasValue x in ret (VCtx me)).

(** The getter of [use.this]. *)
Definition this : M World Value :=
  fun w => match ctx w with
           | Some c => (Ok (VCtx c), w)
           | None => new_error TypeError NoCurrentContext w
           end.

(** [exec(fn, key, deps)] of context [me], for a body [fn(me, key)]: besides
    the result it gives the contents of the array [deps] after the call. *)
Definition exec {A} (me : CtxId) (deps : option (list Key)) (body : M World A)
  : World -> Outcome A * option (list Key) * World :=
  fun w =>
    let (r, w') := body (set_ambient (Some me) deps w) in
    (r, used w', set_ambient (ctx w) (used w) w').

(** [if (ctx === me && used) used.push(key)] *)
Definition push (me : CtxId) (key : Key) (w : World) : World :=
  match ctx w, used w with
  | Some c, Some log =>
      if decide (c = me) then set_ambient (ctx w) (Some (log ++ [key])) w else w
  | _, _ => w
  end.

(** The walk over the ancestors, [for (let r = registry.prev; r; r = r.prev)]:
    the entry the first ancestor holds for the key, spread into a new object
    with [s: entry.s || State.hasValue].  [n] bounds the length of the chain. *)
Fixpoint inherited (n : nat) (cs : list Registry) (r : option CtxId) (key : Key)
  : option Entry :=
  match n, r with
  | S n', Some c =>
      match cs !! c with
      | Some reg =>
          match entries reg !! key with
          | Some entry =>
              Some {| e_s := match e_s entry with wasRead => hasValue | s => s end;
                      e_v := e_v entry; e_d := e_d entry |}
          | None => inherited n' cs (prev reg) key
          end
      | None => None
      end
  | _, _ => None
  end.

(** The first lines of a lookup: the local entry, made from the nearest
    ancestor's or from [defaultLookup] when there is none yet. *)
Definition materialize (me : CtxId) (key : Key) (w : World) : World :=
  match ctxs w !! me with
  | Some reg =>
      match entries reg !! key with
      | Some _ => w
      | None =>
          let entry :=
            match inherited (length (ctxs w)) (ctxs w) (prev reg) key with
            | Some e => e
            | None => {| e_s := hasFactory; e_v := VDefault; e_d := None |}
            end in
          store me key entry w
      end
  | None => w
  end.

Section Semantics.

(** The bodies of the functions of the client, [fn(me, key)], and the shape
    of each key. *)
Variable code : FunId -> CtxId -> Key -> Prog.
Variable shape : Key -> KeyShape.

Section Body.

(** The calls of contexts made while a lookup runs. *)
Variable look : CtxId -> Key -> M World Value.

(** [fork(key?)] *)
Definition fork (me : CtxId) (key : option Key) : M World Value :=
  method me (let* c := newCtx (Some me) in
             match key with
             | Some k => look c k
             | None => ret (VCtx c)
             end).

Definition api : Api World := {|
  api_use := look;
  api_this := this;
  api_set := set;
  api_def := def;
  api_fork := fork;
  api_new := fun w => (Ok (VObj (next w)), set_next (S (next w)) w);
  api_error := fun n w => (Ok (VErr (next w) Error (Custom n)), set_next (S (next w)) w)
|}.

(** [defaultLookup(ctx, key)] *)
Definition defaultLookup (c : CtxId) (key : Key) : M World Value :=
  match shape key with
  | Recipe method => run api (code method c key)
  | Class ctor => run api (code ctor c key)
  | Plain => new_error ReferenceError (NoConfig key)
  end.

(** The call [fn(me, key)] of a payload. *)
Definition call (fn : Value) (me : CtxId) (key : Key) : M World Value :=
  match fn with
  | VFun f => run api (code f me key)
  | VDefault => defaultLookup me key
  | _ => new_error TypeError NotCallable
  end.

(** [keys.every((k) => me(k) === origin(k))] *)
Fixpoint every (me origin : CtxId) (keys : list Key) : M World bool :=
  match keys with
  | [] => ret true
  | k :: keys' =>
      let* a := look me k in
      let* b := look origin k in
      if strict_eq a b then every me origin keys' else ret false
  end.

(** [case State.wasRead] *)
Definition case_wasRead (me : CtxId) (key : Key) : M World Value :=
  fun w =>
    match entry_of w me key with
    | Some entry => (Ok (e_v entry), push me key w)
    | None => (Diverge, w)
    end.

(** [case State.hasFactory], entered with the factory in [entry.v]. *)
Definition case_hasFactory (me : CtxId) (key : Key) : M World Value :=
  fun w =>
    let w1 := update me key (with_s isCreating) w in
    match entry_of w1 me key with
    | Some entry =>
        let factory := e_v entry in
        let caught e w' :=
          (Thrown e, update me key (fun _ => {| e_s := hasError; e_v := e; e_d := None |}) w') in
        match exec me (Some []) (call factory me key) w1 with
        | (Ok x, keys, w2) =>
            match setEntry me key wasRead x w2 with
            | (Ok _, w3) =>
                let w4 := match keys with
                          | Some ((_ :: _) as ks) =>
                              update me key
                                (with_d (Some {| d_c := me; d_k := ks; d_f := factory |})) w3
                          | _ => w3
                          end in
                case_wasRead me key w4
            | (Thrown e, w3) => caught e w3
            | (Diverge, w3) => (Diverge, w3)
            end
        | (Thrown e, _, w2) => caught e w2
        | (Diverge, _, w2) => (Diverge, w2)
        end
    | None => (Diverge, w1)
    end.

(** [case State.hasValue] *)
Definition case_hasValue (me : CtxId) (key : Key) (entry : Entry) : M World Value :=
  fun w =>
    match e_d entry with
    | None => case_wasRead me key (update me key (with_s wasRead) w)
    | Some deps =>
        match exec me None (every me (d_c deps) (d_k deps)) w with
        | (Ok true, _, w') => case_wasRead me key (update me key (with_s wasRead) w')
        | (Ok false, _, w') => case_hasFactory me key (update me key (with_v (d_f deps)) w')
        | (Thrown e, _, w') => (Thrown e, w')
        | (Diverge, _, w') => (Diverge, w')
        end
    end.

(** [for(;;) switch (entry.s)] *)
Definition state_machine (me : CtxId) (key : Key) : M World Value :=
  fun w =>
    match entry_of w me key with
    | Some entry =>
        match e_s entry with
        | wasRead => case_wasRead me key w
        | hasValue => case_hasValue me key entry w
        | hasFactory => case_hasFactory me key w
        | hasError => (Thrown (e_v entry), w)
        | isCreating =>
            new_error Error (DidntResolve (String_ (e_v entry)) key) w
        end
    | None => (Diverge, w)
    end.

(** The function a context is, [me(key)]: the global context delegates to
    [use.this]. *)
Definition lookup (me : CtxId) (key : Key) : M World Value :=
  fun w =>
    match ctxs w !! me with
    | Some reg =>
        match prev reg with
        | None =>
            match this w with
            | (Ok (VCtx c), w') => look c key w'
            | (Ok _, w') => (Diverge, w')
            | (Thrown e, w') => (Thrown e, w')
            | (Diverge, w') => (Diverge, w')
            end
        | Some _ => state_machine me key (materialize me key w)
        end
    | None => (Diverge, w)
    end.

End Body.

(** A context called with [fuel] nested calls of contexts left. *)
Fixpoint invoke (fuel : nat) (me : CtxId) (key : Key) : M World Value :=
  match fuel with
  | 0 => fun w => (Diverge, w)
  | S n => lookup (invoke n) me key
  end.

(** A client program, run at top level. *)
Definition script (fuel : nat) (p : Prog) : M World Value := run (api (invoke fuel)) p.

End Semantics.


(** ** What the operations keep *)

(** An entry in state [wasRead]. *)
Definition resolved (w : World) (c : CtxId) (key : Key) (x : Value) : Prop :=
  ∃ e, entry_of w c key = Some e ∧ e_s e = wasRead ∧ e_v e = x.

(** A context other than the global one: its registry has a [prev]. *)
Definition regular (w : World) (c : CtxId) : Prop :=
  ∃ r p, ctxs w !! c = Some r ∧ prev r = Some p.

(** The [prev] of a registry is a registry made before it. *)
Definition chain_ok (w : World) : Prop :=
  ∀ c r p, ctxs w !! c = Some r → prev r = Some p → p < c.

(** [stable P w w']: from [w] to [w'] the ambient context is the same, the
    dependency log has only grown, no context and no entry has gone, the
    [prev] links are the same, and every entry that was [wasRead] in [w], at
    a key of a context that [P] selects, is the same in [w']. *)
Record stable (P : CtxId → Key → Prop) (w w' : World) : Prop := {
  st_ctx : ctx w' = ctx w;
  st_used : match used w with
            | Some l => ∃ l', used w' = Some (l ++ l')
            | None => used w' = None
            end;
  st_next : next w ≤ next w';
  st_len : length (ctxs w) ≤ length (ctxs w');
  st_chain : chain_ok w → chain_ok w';
  st_prev : ∀ c r, ctxs w !! c = Some r → ∃ r', ctxs w' !! c = Some r' ∧ prev r' = prev r;
  st_some : ∀ c k, is_Some (entry_of w c k) → is_Some (entry_of w' c k);
  st_read : ∀ c k e, P c k → entry_of w c k = Some e → e_s e = wasRead →
                     entry_of w' c k = Some e
}.

Definition evolves : World → World → Prop := stable (λ _ _, True).


(** Every key of every context but [key] of [me]. *)
Definition others (me : CtxId) (key : Key) : CtxId → Key → Prop :=
  λ c k, (c, k) ≠ (me, key).

(** The dependency record that [case State.hasFactory] stores with the
    result of a factory that has logged [keys]:
    [if (keys.length) entry.d = {c: me, f: factory, k: keys}]. *)
Definition recorded (me : CtxId) (factory : Value) (keys : option (list Key)) : option Deps :=
  match keys with
  | Some ((_ :: _) as ks) => Some {| d_c := me; d_k := ks; d_f := factory |}
  | _ => None
  end.


(** ** The ancestor walk, in the words of the specification *)

(** [nearest cs key r res]: walking the ancestors from [r] upwards, nearest
    first, [res] is the first one that holds an entry for [key], with that
    entry; it is [None] when no ancestor holds one. *)
Inductive nearest (cs : list Registry) (key : Key)
  : option CtxId → option (CtxId * Entry) → Prop :=
| nearest_none : nearest cs key None None
| nearest_here c reg entry :
    cs !! c = Some reg → entries reg !! key = Some entry →
    nearest cs key (Some c) (Some (c, entry))
| nearest_up c reg res :
    cs !! c = Some reg → entries reg !! key = None →
    nearest cs key (prev reg) res →
    nearest cs key (Some c) res.

(** The local entry that the specification asks for: payload and dependency
    record of the ancestor's entry, state [hasValue]. *)
Definition forced (entry : Entry) : Entry :=
  {| e_s := hasValue; e_v := e_v entry; e_d := e_d entry |}.

(** The local entry that the source makes: the state is the ancestor's,
    except that [wasRead] becomes [hasValue]. *)
Definition spread (entry : Entry) : Entry :=
  {| e_s := match e_s entry with wasRead => hasValue | s => s end;
     e_v := e_v entry; e_d := e_d entry |}.


(** ** What a lookup writes to *)

(** An entry in a state in which a lookup writes nothing to it: [wasRead],
    [hasError] or [isCreating]. *)
Definition settled (w : World) (c : CtxId) (key : Key) : Prop :=
  ∃ e, entry_of w c key = Some e ∧ e_s e ≠ hasValue ∧ e_s e ≠ hasFactory.

Definition mono (w w' : World) : Prop :=
  ∀ c key, settled w c key → settled w' c key.

(** The worlds that the library makes: a dependency record names a context
    other than the global one and keys that are settled there, and so does
    the log of the running factory; the registry at index 0 is the global
    one and the only one without a [prev]. *)
Record sound (w : World) : Prop := {
  deps_ok : ∀ c key e d, entry_of w c key = Some e → e_d e = Some d →
              regular w (d_c d) ∧ ∀ k, k ∈ d_k d → settled w (d_c d) k;
  rooted : (∃ r, ctxs w !! 0 = Some r ∧ prev r = None) ∧
           ∀ c r, ctxs w !! c = Some r → c ≠ 0 → is_Some (prev r);
  log_ok : ∀ c l, ctx w = Some c → used w = Some l → ∀ k, k ∈ l → settled w c k;
  ambient_ok : ∀ c, ctx w = Some c → regular w c
}.

(** The context whose registry a call [c(key)] works on. *)
Definition target (w : World) (c : CtxId) : option CtxId :=
  match ctxs w !! c with
  | Some r => match prev r with Some _ => Some c | None => ctx w end
  | None => None
  end.

(** [keeps A w w']: the registries of the contexts in [A] that [w] has are
    the same in [w']: no entry was added, removed or changed. *)
Definition keeps (A : CtxId → Prop) (w w' : World) : Prop :=
  ∀ a, A a → a < length (ctxs w) → ctxs w' !! a = ctxs w !! a.

(** The result of an operation that starts in a sound world. *)
Record good (A : CtxId → Prop) (w w' : World) : Prop := {
  g_sound : sound w';
  g_mono : mono w w';
  g_keeps : keeps A w w';
  g_ctx : ctx w' = ctx w;
  g_len : length (ctxs w) ≤ length (ctxs w');
  g_reg : ∀ c, regular w c → regular w' c
}.

End ToUse.

(** * The earlier revision: [use-this.ts] *)

Module UseThis.

(** [const enum State { wasRead = 0, isUnset, hasValue, hasFactory, isCreating, hasError }] *)
Inductive State := wasRead | isUnset | hasValue | hasFactory | isCreating | hasError.

(** [type Deps<T> = {c: Context, k: Key[], f: Factory<T>}] *)
Record Deps := { d_c : CtxId; d_k : list Key; d_f : Value }.

(** An entry object, [{s: State, v: T | Factory<T>, d?: Deps<T>}]: the
    properties it has of its own ([Some]) and its prototype, the address of
    the entry it was made from with [Object.create].  An own [d] that is
    [null] is [Some None]. *)
Record Obj := {
  o_s : option State;
  o_v : option Value;
  o_d : option (option Deps);
  proto : option nat
}.

(** [type Registry = Map<Key, Entry<any>> & {prev?: Registry}]: a registry
    holds references to entry objects. *)
Record Registry := { entries : gmap nat nat; prev : option CtxId }.

(** The entry objects by address, the registries of all contexts, and the
    module variables [ctx] and [used]. *)
Record World := {
  heap : list Obj;
  ctxs : list Registry;
  ctx : option CtxId;
  used : option (list Key);
  next : nat
}.

Global Instance State_eq_dec : EqDecision State.
Proof. solve_decision. Defined.
Global Instance Deps_eq_dec : EqDecision Deps.
Proof. solve_decision. Defined.

Definition set_heap (h : list Obj) (w : World) : World :=
  {| heap := h; ctxs := ctxs w; ctx := ctx w; used := used w; next := next w |}.
Definition set_ctxs (cs : list Registry) (w : World) : World :=
  {| heap := heap w; ctxs := cs; ctx := ctx w; used := used w; next := next w |}.
Definition set_ambient (c : option CtxId) (u : option (list Key)) (w : World) : World :=
  {| heap := heap w; ctxs := ctxs w; ctx := c; used := u; next := next w |}.
Definition set_next (n : nat) (w : World) : World :=
  {| heap := heap w; ctxs := ctxs w; ctx := ctx w; used := used w; next := n |}.

(** A property read, [entry.p]: the own property, else the prototype's.
    [n] bounds the length of the prototype chain. *)
Fixpoint get {A} (p : Obj -> option A) (n : nat) (h : list Obj) (a : nat) : option A :=
  match n with
  | 0 => None
  | S n' =>
      match h !! a with
      | Some o =>
          match p o with
          | Some x => Some x
          | None => match proto o with
                    | Some a' => get p n' h a'
                    | None => None
                    end
          end
      | None => None
      end
  end.

(** [entry.s], [entry.v] and [entry.d]; a property that no object of the
    chain has reads [undefined], and an [undefined] [d] is as good as [null]. *)
Definition read_s (w : World) (a : nat) : option State := get o_s (length (heap w)) (heap w) a.
Definition read_v (w : World) (a : nat) : Value :=
  default VUndefined (get o_v (length (heap w)) (heap w) a).
Definition read_d (w : World) (a : nat) : option Deps :=
  default None (get o_d (length (heap w)) (heap w) a).

(** Property writes, [entry.p = x]: always on the object itself. *)
Definition write_s (a : nat) (s : State) (w : World) : World :=
  set_heap (alter (fun o => {| o_s := Some s; o_v := o_v o; o_d := o_d o; proto := proto o |})
                  a (heap w)) w.
Definition write_v (a : nat) (x : Value) (w : World) : World :=
  set_heap (alter (fun o => {| o_s := o_s o; o_v := Some x; o_d := o_d o; proto := proto o |})
                  a (heap w)) w.
Definition write_d (a : nat) (d : option Deps) (w : World) : World :=
  set_heap (alter (fun o => {| o_s := o_s o; o_v := o_v o; o_d := Some d; proto := proto o |})
                  a (heap w)) w.

(** A new object; its address is the length of the heap. *)
Definition alloc (o : Obj) (w : World) : nat * World :=
  (length (heap w), set_heap (heap w ++ [o]) w).

(** [registry.get(key)] and [registry.set(key, entry)] in context [c]. *)
Definition entry_of (w : World) (c : CtxId) (key : Key) : option nat :=
  match ctxs w !! c with
  | Some r => entries r !! key
  | None => None
  end.
Definition store (c : CtxId) (key : Key) (a : nat) (w : World) : World :=
  set_ctxs (alter (fun r => {| entries := <[key := a]> (entries r); prev := prev r |})
                  c (ctxs w)) w.

(** The module as loaded: [use = newCtx()], [ctx] and [used] undefined. *)
Definition init : World :=
  {| heap := []; ctxs := [ {| entries := ∅; prev := None |} ];
     ctx := None; used := None; next := 0 |}.

Definition new_error {A} (cls : ErrClass) (msg : Msg) : M World A :=
  fun w => (Thrown (VErr (next w) cls msg), set_next (S (next w)) w).

(** [newCtx(prev)] *)
Definition newCtx (p : option CtxId) : M World CtxId :=
  fun w => (Ok (length (ctxs w)),
            set_ctxs (ctxs w ++ [ {| entries := ∅; prev := p |} ]) w).

(** [getEntry(key, reg)] as the context [me] runs it: whatever registry the
    walk is at, the new entry goes to [registry], the one of [me].  [n]
    bounds the length of the chain of registries. *)
Fixpoint getEntry (n : nat) (me : CtxId) (key : Key) (reg : CtxId) : M World nat :=
  fun w =>
    match n with
    | 0 => (Diverge, w)
    | S n' =>
        match ctxs w !! reg with
        | Some r =>
            match entries r !! key with
            | Some entry => (Ok entry, w)
            | None =>
                match prev r with
                | Some p =>
                    match getEntry n' me key p w with
                    | (Ok parent, w1) =>
                        let (entry, w2) :=
                          alloc {| o_s := None; o_v := None; o_d := None;
                                   proto := Some parent |} w1 in
                        let w3 := match read_s w2 entry with
                                  | Some wasRead | None => write_s entry hasValue w2
                                  | _ => w2
                                  end in
                        (Ok entry, store me key entry w3)
                    | other => other
                    end
                | None =>
                    let (entry, w1) :=
                      alloc {| o_s := Some isUnset; o_v := Some VNull; o_d := Some None;
                               proto := None |} w in
                    (Ok entry, store me key entry w1)
                end
            end
        | None => (Diverge, w)
        end
    end.

(** [getEntry(key, registry)] *)
Definition entry_for (me : CtxId) (key : Key) : M World nat :=
  fun w => getEntry (S (length (ctxs w))) me key me w.

(** [setEntry(key, state, value, entry)]; the caller returns [me]. *)
Definition setEntry (key : Key) (s : State) (x : Value) (entry : nat) : M World unit :=
  fun w =>
    match read_s w entry with
    | Some wasRead | None => new_error Error (AlreadyRead key) w
    | _ => (Ok tt, write_d entry None (write_v entry x (write_s entry s w)))
    end.

(** A method of the context [me]: a handle stands for a context that exists. *)
Definition method {A} (me : CtxId) (m : M World A) : M World A :=
  fun w => match ctxs w !! me with
           | Some _ => m w
           | None => (Diverge, w)
           end.

(** [def(key, factory)] and [set(key, value)] *)
Definition def (me : CtxId) (key : Key) (fac : Value) : M World Value :=
  method me (let* entry := entry_for me key in
             let* _ := setEntry key hasFactory fac entry in ret (VCtx me)).
Definition set (me : CtxId) (key : Key) (x : Value) : M World Value :=
  method me (let* entry := entry_for me key in
             let* _ := setEntry key hasValue x entry in ret (VCtx me)).

(** The getter of [use.this]. *)
Definition this : M World Value :=
  fun w => match ctx w with
           | Some c => (Ok (VCtx c), w)
           | None => new_error TypeError NoCurrentContext w
           end.

(** [exec(fn, key, deps)] of context [me]: besides the result it gives the
    contents of the array [deps] after the call. *)
Definition exec {A} (me : CtxId) (deps : option (list Key)) (body : M World A)
  : World -> Outcome A * option (list Key) * World :=
  fun w =>
    let (r, w') := body (set_ambient (Some me) deps w) in
    (r, used w', set_ambient (ctx w) (used w) w').

(** [if (ctx === me && used) used.push(key)] *)
Definition push (me : CtxId) (key : Key) (w : World) : World :=
  match ctx w, used w with
  | Some c, Some log =>
      if decide (c = me) then set_ambient (ctx w) (Some (log ++ [key])) w else w
  | _, _ => w
  end.

Section Semantics.

Variable code : FunId -> CtxId -> Key -> Prog.
Variable shape : Key -> KeyShape.

Section Body.

Variable look : CtxId -> Key -> M World Value.

(** [fork(key?)] *)
Definition fork (me : CtxId) (key : option Key) : M World Value :=
  method me (let* c := newCtx (Some me) in
             match key with
             | Some k => look c k
             | None => ret (VCtx c)
             end).

Definition api : Api World := {|
  api_use := look;
  api_this := this;
  api_set := set;
  api_def := def;
  api_fork := fork;
  api_new := fun w => (Ok (VObj (next w)), set_next (S (next w)) w);
  api_error := fun n w => (Ok (VErr (next w) Error (Custom n)), set_next (S (next w)) w)
|}.

(** [defaultLookup(ctx, key)] *)
Definition defaultLookup (c : CtxId) (key : Key) : M World Value :=
  match shape key with
  | Recipe method => run api (code method c key)
  | Class ctor => run api (code ctor c key)
  | Plain => new_error ReferenceError (NoConfig key)
  end.

(** The call [fn(me, key)] of a payload. *)
Definition call (fn : Value) (me : CtxId) (key : Key) : M World Value :=
  match fn with
  | VFun f => run api (code f me key)
  | VDefault => defaultLookup me key
  | _ => new_error TypeError NotCallable
  end.

(** [keys.every((k) => me(k) === origin(k))] *)
Fixpoint every (me origin : CtxId) (keys : list Key) : M World bool :=
  match keys with
  | [] => ret true
  | k :: keys' =>
      let* a := look me k in
      let* b := look origin k in
      if strict_eq a b then every me origin keys' else ret false
  end.

(** [case State.wasRead] *)
Definition case_wasRead (me : CtxId) (key : Key) (entry : nat) : M World Value :=
  fun w => (Ok (read_v w entry), push me key w).

(** [resolve(key, entry, factory)], and the [case State.wasRead] that the
    loop comes to when it returns. *)
Definition resolve (me : CtxId) (key : Key) (entry : nat) (factory : Value) : M World Value :=
  fun w =>
    let w1 := write_v entry factory (write_s entry isCreating w) in
    match exec me (Some []) (call factory me key) w1 with
    | (Ok x, deps, w2) =>
        match setEntry key wasRead x entry w2 with
        | (Ok _, w3) =>
            let w4 := match deps with
                      | Some ((_ :: _) as ks) =>
                          write_d entry (Some {| d_c := me; d_k := ks; d_f := factory |}) w3
                      | _ => w3
                      end in
            case_wasRead me key entry w4
        | (Thrown e, w3) => (Thrown e, w3)
        | (Diverge, w3) => (Diverge, w3)
        end
    | (Thrown e, _, w2) => (Thrown e, w2)
    | (Diverge, _, w2) => (Diverge, w2)
    end.

(** [case State.hasValue] *)
Definition case_hasValue (me : CtxId) (key : Key) (entry : nat) : M World Value :=
  fun w =>
    let share deps w' :=
      let w1 := write_s entry wasRead w' in
      case_wasRead me key entry (write_d entry deps (write_v entry (read_v w1 entry) w1)) in
    match read_d w entry with
    | None => share None w
    | Some deps =>
        match exec me None (every me (d_c deps) (d_k deps)) w with
        | (Ok true, _, w') => share (Some deps) w'
        | (Ok false, _, w') =>
            let w'' := write_d entry None
                         (write_v entry (d_f deps) (write_s entry hasFactory w')) in
            resolve me key entry (d_f deps) w''
        | (Thrown e, _, w') => (Thrown e, w')
        | (Diverge, _, w') => (Diverge, w')
        end
    end.

(** [for(;;) switch (entry.s)]; with no [s] at all no case matches and the
    loop spins. *)
Definition state_machine (me : CtxId) (key : Key) (entry : nat) : M World Value :=
  fun w =>
    match read_s w entry with
    | Some wasRead => case_wasRead me key entry w
    | Some isUnset => resolve me key entry VDefault w
    | Some hasValue => case_hasValue me key entry w
    | Some hasFactory => resolve me key entry (read_v w entry) w
    | Some isCreating =>
        let e := VErr (next w) Error (DidntResolve (String_ (read_v w entry)) key) in
        match setEntry key hasError e entry (set_next (S (next w)) w) with
        | (Ok _, w') => (Thrown (read_v w' entry), w')
        | (Thrown e', w') => (Thrown e', w')
        | (Diverge, w') => (Diverge, w')
        end
    | Some hasError => (Thrown (read_v w entry), w)
    | None => (Diverge, w)
    end.

(** The function a context is, [me(key)]. *)
Definition lookup (me : CtxId) (key : Key) : M World Value :=
  fun w =>
    match ctxs w !! me with
    | Some reg =>
        match prev reg with
        | None =>
            match this w with
            | (Ok (VCtx c), w') => look c key w'
            | (Ok _, w') => (Diverge, w')
            | (Thrown e, w') => (Thrown e, w')
            | (Diverge, w') => (Diverge, w')
            end
        | Some _ => (let* entry := entry_for me key in state_machine me key entry) w
        end
    | None => (Diverge, w)
    end.

End Body.

Fixpoint invoke (fuel : nat) (me : CtxId) (key : Key) : M World Value :=
  match fuel with
  | 0 => fun w => (Diverge, w)
  | S n => lookup (invoke n) me key
  end.

Definition script (fuel : nat) (p : Prog) : M World Value := run (api (invoke fuel)) p.

End Semantics.


(** ** What the operations keep *)

(** A context other than the global one: its registry has a [prev]. *)
Definition regular (w : World) (c : CtxId) : Prop :=
  ∃ r p, ctxs w !! c = Some r ∧ prev r = Some p.

(** [frozen h a x]: the entry at [a] reads [wasRead] with value [x], from
    the object itself or from the nearest object of its prototype chain
    that has a state of its own. *)
Inductive frozen (h : list Obj) : nat → Value → Prop :=
| frozen_own a o x :
    h !! a = Some o → o_s o = Some wasRead → o_v o = Some x → frozen h a x
| frozen_inherited a o a' x :
    h !! a = Some o → o_s o = None → o_v o = None → proto o = Some a' →
    frozen h a' x → frozen h a x.

(** An entry of a registry that was read. *)
Definition resolved (w : World) (c : CtxId) (key : Key) (x : Value) : Prop :=
  ∃ a, entry_of w c key = Some a ∧ frozen (heap w) a x.

(** The [prev] of a registry is a registry made before it. *)
Definition chain_ok (w : World) : Prop :=
  ∀ c r p, ctxs w !! c = Some r → prev r = Some p → p < c.

(** The worlds the library makes: a prototype is an older object, a payload
    of its own comes with a state of its own, an own state [wasRead] comes
    with a payload, the registries refer to objects of the heap, no object
    is the entry of two keys or of two registries, and the registry at
    index 0 is the global one and the only one without a [prev]. *)
Record wf (w : World) : Prop := {
  wf_proto : ∀ a o p, heap w !! a = Some o → proto o = Some p → p < a;
  wf_payload : ∀ a o, heap w !! a = Some o → o_s o = None → o_v o = None;
  wf_read : ∀ a o, heap w !! a = Some o → o_s o = Some wasRead → is_Some (o_v o);
  wf_entry : ∀ c k a, entry_of w c k = Some a → a < length (heap w);
  wf_inj : ∀ c k c' k' a,
      entry_of w c k = Some a → entry_of w c' k' = Some a → c = c' ∧ k = k';
  wf_rooted : (∃ r, ctxs w !! 0 = Some r ∧ prev r = None) ∧
              ∀ c r, ctxs w !! c = Some r → c ≠ 0 → is_Some (prev r)
}.

(** [kept h0 w]: the objects that were frozen in the heap [h0] are in [w]
    as they were in [h0]. *)
Definition kept (h0 : list Obj) (w : World) : Prop :=
  ∀ a x o, frozen h0 a x → h0 !! a = Some o → heap w !! a = Some o.

(** [stable h0 Q w w']: from [w] to [w'] the ambient context is the same, the
    dependency log has only grown, no context and no object has gone, the
    [prev] links are the same, the registries hold the same object at every
    key that [Q] selects, and the objects that were frozen in [h0], if they
    were kept up to [w], are kept in [w']. *)
Record stable (h0 : list Obj) (Q : CtxId → Key → Prop) (w w' : World) : Prop := {
  st_ctx : ctx w' = ctx w;
  st_used : match used w with
            | Some l => ∃ l', used w' = Some (l ++ l')
            | None => used w' = None
            end;
  st_next : next w ≤ next w';
  st_len : length (ctxs w) ≤ length (ctxs w');
  st_heap : length (heap w) ≤ length (heap w');
  st_chain : chain_ok w → chain_ok w';
  st_wf : wf w → wf w';
  st_prev : ∀ c r, ctxs w !! c = Some r → ∃ r', ctxs w' !! c = Some r' ∧ prev r' = prev r;
  st_entry : ∀ c k a, Q c k → entry_of w c k = Some a → entry_of w' c k = Some a;
  st_kept : kept h0 w → kept h0 w'
}.

(** Every operation keeps what was frozen when it started. *)
Definition evolves (w w' : World) : Prop := stable (heap w) (λ _ _, True) w w'.

(** Every key of every context but [key] of [me]. *)
Definition others (me : CtxId) (key : Key) : CtxId → Key → Prop :=
  λ c k, (c, k) ≠ (me, key).

(** An assignment to properties of the object at [b]. *)
Definition modify (b : nat) (f : Obj → Obj) (w : World) : World :=
  set_heap (alter f b (heap w)) w.

(** The dependency record that [resolve] stores with the result of a
    factory that has logged [keys]:
    [if (deps.length) entry.d = {c: me, f: factory, k: deps}]. *)
Definition recorded (me : CtxId) (factory : Value) (keys : option (list Key)) : option Deps :=
  match keys with
  | Some ((_ :: _) as ks) => Some {| d_c := me; d_k := ks; d_f := factory |}
  | _ => None
  end.


(** ** The ancestor walk, in the words of the specification *)

(** [nearest cs key r res]: walking the registries from [r] upwards, nearest
    first, [res] is the first one that holds an entry for [key], with the
    address of that entry; it is [None] when none holds one. *)
Inductive nearest (cs : list Registry) (key : Key)
  : option CtxId → option (CtxId * nat) → Prop :=
| nearest_none : nearest cs key None None
| nearest_here c reg entry :
    cs !! c = Some reg → entries reg !! key = Some entry →
    nearest cs key (Some c) (Some (c, entry))
| nearest_up c reg res :
    cs !! c = Some reg → entries reg !! key = None →
    nearest cs key (prev reg) res →
    nearest cs key (Some c) res.

(** The state that a new entry reads when the entry it was made from reads
    [s]: the same, except that [wasRead] becomes [hasValue]. *)
Definition inherited_state (s : option State) : option State :=
  match s with
  | Some wasRead | None => Some hasValue
  | _ => s
  end.


(** ** What a lookup writes to *)

(** The context whose registry a call [c(key)] works on. *)
Definition target (w : World) (c : CtxId) : option CtxId :=
  match ctxs w !! c with
  | Some r => match prev r with Some _ => Some c | None => ctx w end
  | None => None
  end.

(** [keeps P w w']: from [w] to [w'] the registries of the contexts in [P]
    are the same, and so is every object that only registries of [P] hold,
    if any. *)
Record keeps (P : CtxId → Prop) (w w' : World) : Prop := {
  k_ctxs : ∀ c, P c → c < length (ctxs w) → ctxs w' !! c = ctxs w !! c;
  k_objs : ∀ a o, heap w !! a = Some o →
             (∀ c k, entry_of w c k = Some a → P c) → heap w' !! a = Some o
}.

(** [inv P w]: a world of the library in which every dependency record that
    names a context of [P] as its origin lists keys that were read there. *)
Record inv (P : CtxId → Prop) (w : World) : Prop := {
  i_wf : wf w;
  i_deps : ∀ a d, read_d w a = Some d → P (d_c d) →
             regular w (d_c d) ∧ ∀ k, k ∈ d_k d → ∃ x, resolved w (d_c d) k x
}.

(** [frame P w w']: what an operation that works outside of [P] does: it
    keeps [P], a dependency record with its origin in [P] that some object
    has in [w'] is one that some object had in [w], an object of [w] that a
    registry holds in [w'] was held by it in [w], the ambient context is the
    same, and no context and no object has gone. *)
Record frame (P : CtxId → Prop) (w w' : World) : Prop := {
  f_keeps : keeps P w w';
  f_prov : ∀ a d, read_d w' a = Some d → P (d_c d) → ∃ a0, read_d w a0 = Some d;
  f_old : ∀ c k a, entry_of w' c k = Some a → a < length (heap w) →
            entry_of w c k = Some a;
  f_ctx : ctx w' = ctx w;
  f_ctxs : length (ctxs w) ≤ length (ctxs w');
  f_heap : length (heap w) ≤ length (heap w')
}.

End UseThis.


(** * Example configurations *)

(** The factories and keys of the examples, after the test suite of the
    repository: key 1 is a plain key, keys 5 and 6 are the classes [S1] and
    [S2], and the constructor of [S2] reads [S1]. *)
Module Examples.

(** A continuation that expects a context. *)
Definition on (x : Value) (k : CtxId → Prog) : Prog :=
  match x with
  | VCtx c => k c
  | _ => Throw VUndefined
  end.

(** [code 0]: [() => use(1)], [code 1]: [() => { throw new Error }],
    [code 2]: the constructor of [S1], [code 3]: the constructor of [S2],
    [class S2 { s1 = use(S1) }]. *)
Definition code (f : FunId) (me : CtxId) (key : Key) : Prog :=
  match f with
  | 0 => Use 0 1 Ret
  | 1 => NewError 7 Throw
  | 2 => New Ret
  | 3 => Use 0 5 (λ _, New Ret)
  | _ => Ret VUndefined
  end.

Definition shape (key : Key) : KeyShape :=
  match key with
  | 5 => Class 2
  | 6 => Class 3
  | _ => Plain
  end.

(** [c1 = use.fork(); c2 = c1.fork()]: the contexts 1 and 2. *)
Definition two_contexts (then_ : CtxId → CtxId → Prog) : Prog :=
  Fork 0 None (λ x1, on x1 (λ c1, Fork c1 None (λ x2, on x2 (λ c2, then_ c1 c2)))).

(** [c1.use(S2)] *)
Definition shared : Prog := two_contexts (λ c1 _, Use c1 6 Ret).

(** [c1.def(1, () => { throw new Error })] *)
Definition failing : Prog := two_contexts (λ c1 _, Def c1 1 (VFun 1) (Ret VNull)).

(** [c1.def(1, () => use(1))] *)
Definition cyclic : Prog := two_contexts (λ c1 _, Def c1 1 (VFun 0) (Ret VNull)).

(** [c1.def(1, S1)], a factory in the parent of [c2]. *)
Definition defined : Prog := two_contexts (λ c1 _, Def c1 1 (VFun 2) (Ret VNull)).

(** The worlds that the programs leave, starting from the module as
    loaded. *)
Definition to_use (p : Prog) : ToUse.World :=
  (ToUse.script code shape 20 p ToUse.init).2.
Definition use_this (p : Prog) : UseThis.World :=
  (UseThis.script code shape 20 p UseThis.init).2.

(** The inherited entry of [S2] in [c2] and the world after its
    dependencies were checked, in [to-use.ts]. *)
Definition deps_t : ToUse.Deps := {| ToUse.d_c := 1; ToUse.d_k := [5]; ToUse.d_f := VDefault |}.
Definition inherited_t : ToUse.Entry :=
  {| ToUse.e_s := ToUse.hasValue; ToUse.e_v := VObj 1; ToUse.e_d := Some deps_t |}.
Definition validated_t : ToUse.World :=
  Eval vm_compute in
    (ToUse.every (ToUse.invoke code shape 10) 2 1 [5]
       (ToUse.set_ambient (Some 2) None (ToUse.materialize 2 6 (to_use shared)))).2.

(** The same in [use-this.ts]; the entry of [S2] in [c2] is the object 4. *)
Definition deps_u : UseThis.Deps :=
  {| UseThis.d_c := 1; UseThis.d_k := [5]; UseThis.d_f := VDefault |}.
Definition inherited_u : UseThis.World :=
  Eval vm_compute in (UseThis.entry_for 2 6 (use_this shared)).2.
Definition validated_u : UseThis.World :=
  Eval vm_compute in
    (UseThis.every (UseThis.invoke code shape 10) 2 1 [5]
       (UseThis.set_ambient (Some 2) None inherited_u)).2.

(** The world in which the factory of key 1 runs in [c1], the entry being
    [isCreating], and the outcome of that run, in [to-use.ts]. *)
Definition resolving_t : ToUse.World :=
  Eval vm_compute in
    ToUse.set_ambient (Some 1) (Some [])
      (ToUse.update 1 1 (ToUse.with_s ToUse.isCreating)
         (ToUse.materialize 1 1 (to_use cyclic))).
Definition thrown_t : ToUse.World :=
  Eval vm_compute in
    (ToUse.exec 1 (Some [])
       (ToUse.call code shape (ToUse.invoke code shape 10) (VFun 0) 1 1)
       (ToUse.update 1 1 (ToUse.with_s ToUse.isCreating)
          (ToUse.materialize 1 1 (to_use cyclic)))).2.

(** The same in [use-this.ts]; the entry of key 1 in [c1] is the object 1. *)
Definition resolving_u : UseThis.World :=
  Eval vm_compute in
    UseThis.set_ambient (Some 1) (Some [])
      (UseThis.write_v 1 (VFun 0) (UseThis.write_s 1 UseThis.isCreating (use_this cyclic))).
Definition thrown_u : UseThis.World :=
  Eval vm_compute in
    (UseThis.exec 1 (Some [])
       (UseThis.call code shape (UseThis.invoke code shape 10) (VFun 0) 1 1)
       (UseThis.write_v 1 (VFun 0)
          (UseThis.write_s 1 UseThis.isCreating (use_this cyclic)))).2.

(** [c2] with the entry of [S2] inherited and not yet looked up, in
    [to-use.ts]. *)
Definition pending_t : ToUse.World :=
  Eval vm_compute in ToUse.materialize 2 6 (to_use shared).

End Examples.

(** * More example configurations *)

Module Scenarios.
Import Examples.

(** [c1.set(1, 23)] *)
Definition configured : Prog := two_contexts (λ c1 _, SetV c1 1 (VNum 23) (Ret VNull)).

(** [c2.set(S1, 3); c2(S2)]: the child overrides a dependency of [S2] and
    computes its own [S2]. *)
Definition overriding : Prog := SetV 2 5 (VNum 3) (Use 2 6 Ret).

(** [c1.def(1, () => use(1)); try { c1(1) } catch {}]: the lookup ran into
    the cycle and threw. *)
Definition cycled : Prog :=
  two_contexts (λ c1 _, Def c1 1 (VFun 0) (Try (Use c1 1 Ret) (λ _, Ret VNull) Ret)).

(** The world that the failing factory of key 1 leaves when it has run in
    [c1], in [to-use.ts]. *)
Definition failed_t : ToUse.World :=
  Eval vm_compute in
    (ToUse.exec 1 (Some [])
       (ToUse.call code shape (ToUse.invoke code shape 10) (VFun 1) 1 1)
       (ToUse.update 1 1 (ToUse.with_s ToUse.isCreating)
          (ToUse.materialize 1 1 (to_use failing)))).2.

(** [c1] and [c2], with nothing configured. *)
Definition forked : Prog := two_contexts (λ _ _, Ret VNull).

(** The worlds that the constructor of [S2] leaves when it has run in [c1]:
    it has read [S1], and [exec] has restored the module variables. *)
Definition built_t : ToUse.World :=
  Eval vm_compute in
    (ToUse.exec 1 (Some [])
       (ToUse.call code shape (ToUse.invoke code shape 10) VDefault 1 6)
       (ToUse.update 1 6 (ToUse.with_s ToUse.isCreating)
          (ToUse.materialize 1 6 (to_use forked)))).2.
Definition unset_u : UseThis.World :=
  Eval vm_compute in (UseThis.entry_for 1 6 (use_this forked)).2.
Definition built_u : UseThis.World :=
  Eval vm_compute in
    (UseThis.exec 1 (Some [])
       (UseThis.call code shape (UseThis.invoke code shape 10) VDefault 1 6)
       (UseThis.write_v 1 VDefault (UseThis.write_s 1 UseThis.isCreating unset_u))).2.

(** More factories, beside those of [Examples.code]:
    [factories 4]: [() => { try { return use(1) } catch (e) { return 1 } }], a
    factory that catches the error of its own cycle;
    [factories 5]: [() => c1(2)], a factory that calls the context [c1];
    [factories 6]: [(me) => { me.set(2, 5); me(3); return 7 }], a factory that
    configures the key it is making;
    [factories 7]: [() => use(2)]; [factories 8]: [() => use.this]. *)
Definition factories (f : FunId) (me : CtxId) (key : Key) : Prog :=
  match f with
  | 4 => Try (Use 0 1 Ret) (λ _, Ret (VNum 1)) Ret
  | 5 => Use 1 2 Ret
  | 6 => SetV me 2 (VNum 5) (Use me 3 (λ _, Ret (VNum 7)))
  | 7 => Use 0 2 Ret
  | 8 => This Ret
  | _ => Examples.code f me key
  end.

(** The worlds that programs with these factories leave. *)
Definition to_use (p : Prog) : ToUse.World :=
  (ToUse.script factories shape 20 p ToUse.init).2.
Definition use_this (p : Prog) : UseThis.World :=
  (UseThis.script factories shape 20 p UseThis.init).2.

(** [c1.def(1, () => { try { return use(1) } catch (e) { return 1 } })] *)
Definition catching : Prog := two_contexts (λ c1 _, Def c1 1 (VFun 4) (Ret VNull)).

(** [c1.set(2, 1); c2.def(3, () => c1(2))] *)
Definition reaching : Prog :=
  two_contexts (λ c1 c2, SetV c1 2 (VNum 1) (Def c2 3 (VFun 5) (Ret VNull))).

(** [c1.def(2, (me) => { me.set(2, 5); me(3); return 7 }); c1.def(3, () => use(2));
    try { c1(2) } catch (e) {}; c1.set(2, 43)]: in [to-use.ts] the entry of
    key 3 in [c1] was read and its record lists key 2, whose entry in [c1]
    is a value that was not read. *)
Definition rewritten : Prog :=
  two_contexts (λ c1 _,
    Def c1 2 (VFun 6) (Def c1 3 (VFun 7)
      (Try (Use c1 2 Ret) (λ _, Ret VNull) (λ _, SetV c1 2 (VNum 43) (Ret VNull))))).

(** [c1.set(S1, NaN); c1(S2)] *)
Definition not_a_number : Prog := two_contexts (λ c1 _, SetV c1 5 VNaN (Use c1 6 Ret)).

(** [c1(S2); c2.def(S1, () => { throw new Error })]: the dependency of [S2]
    cannot be made in [c2]. *)
Definition broken : Prog :=
  two_contexts (λ c1 c2, Use c1 6 (λ _, Def c2 5 (VFun 1) (Ret VNull))).

(** [c1(S2); c2.set(S1, 3)]: the dependency of [S2] is another one in [c2]. *)
Definition replaced : Prog :=
  two_contexts (λ c1 c2, Use c1 6 (λ _, SetV c2 5 (VNum 3) (Ret VNull))).

(** [c1.set(2, 42); c1.def(3, () => use(2)); c1.def(4, () => use.this); c1(2)] *)
Definition delegating : Prog :=
  two_contexts (λ c1 _,
    SetV c1 2 (VNum 42) (Def c1 3 (VFun 7) (Def c1 4 (VFun 8) (Use c1 2 Ret)))).

End Scenarios.

(** * The module variables after a lookup *)

Module Ambient.

(** [t_traces me key w r]: the outcome [r] of a lookup of [key] that the
    context [me] served, when it started with the module variables of [w]:
    [ctx] is what it was, and [used] is what it was but for the line
    [if (ctx === me && used) used.push(key)] of a lookup that returned. *)
Definition t_traces (me key : nat) (w : ToUse.World) (r : Outcome Value * ToUse.World)
  : Prop :=
  ToUse.ctx r.2 = ToUse.ctx w ∧
  match r.1 with
  | Ok _ => ToUse.used r.2 = ToUse.used (ToUse.push me key w)
  | Thrown _ => ToUse.used r.2 = ToUse.used w
  | Diverge => True
  end.

Definition u_traces (me key : nat) (w : UseThis.World) (r : Outcome Value * UseThis.World)
  : Prop :=
  UseThis.ctx r.2 = UseThis.ctx w ∧
  match r.1 with
  | Ok _ => UseThis.used r.2 = UseThis.used (UseThis.push me key w)
  | Thrown _ => UseThis.used r.2 = UseThis.used w
  | Diverge => True
  end.

End Ambient.

(** * The global registry *)

Module Root.

(** An entry of a [to-use.ts] registry that no lookup has read. *)
Definition t_unread (r : ToUse.Registry) : Prop :=
  ∀ k e, ToUse.entries r !! k = Some e → ToUse.e_s e ≠ ToUse.wasRead.

(** [t_rooted w]: the registry at index 0 is the global one, the only one
    without a [prev], and none of its entries was read. *)
Definition t_rooted (w : ToUse.World) : Prop :=
  (∃ r, ToUse.ctxs w !! 0 = Some r ∧ ToUse.prev r = None ∧ t_unread r) ∧
  ∀ c r, ToUse.ctxs w !! c = Some r → c ≠ 0 → is_Some (ToUse.prev r).

(** The same for [use-this.ts]: the entries of the global registry are
    objects with a state of their own, which is not [wasRead]. *)
Definition u_unread (h : list UseThis.Obj) (r : UseThis.Registry) : Prop :=
  ∀ k a, UseThis.entries r !! k = Some a →
    ∃ o s, h !! a = Some o ∧ UseThis.o_s o = Some s ∧ s ≠ UseThis.wasRead.

Definition u_rooted (w : UseThis.World) : Prop :=
  UseThis.wf w ∧
  ∃ r, UseThis.ctxs w !! 0 = Some r ∧ UseThis.prev r = None ∧ u_unread (UseThis.heap w) r.

End Root.

(** * A child of the context that made a value *)

Module Sharing.

(** [t_plain me origin K w]: [me] is a child of [origin], and every key of
    [K] was read in [origin], with a value other than [NaN], and has no
    dependency record there, while [me] holds no entry for it, or holds the
    one of [origin]. *)
Definition t_plain (me origin : nat) (K : list nat) (w : ToUse.World) : Prop :=
  ToUse.chain_ok w ∧
  (∃ r, ToUse.ctxs w !! me = Some r ∧ ToUse.prev r = Some origin) ∧
  ToUse.regular w origin ∧
  ∀ k, k ∈ K →
    ∃ ek, ToUse.entry_of w origin k = Some ek ∧
          ToUse.e_s ek = ToUse.wasRead ∧ ToUse.e_d ek = None ∧
          ToUse.e_v ek ≠ VNaN ∧
          (ToUse.entry_of w me k = None ∨ ToUse.entry_of w me k = Some ek).

(** The same for [use-this.ts]: [me] holds no entry for the key, or has
    read the value that [origin] has read. *)
Definition u_plain (me origin : nat) (K : list nat) (w : UseThis.World) : Prop :=
  UseThis.wf w ∧ UseThis.chain_ok w ∧
  (∃ r, UseThis.ctxs w !! me = Some r ∧ UseThis.prev r = Some origin) ∧
  UseThis.regular w origin ∧
  ∀ k, k ∈ K →
    ∃ a x, UseThis.entry_of w origin k = Some a ∧
           UseThis.frozen (UseThis.heap w) a x ∧ UseThis.read_d w a = None ∧
           x ≠ VNaN ∧
           (UseThis.entry_of w me k = None ∨ UseThis.resolved w me k x).

End Sharing.

(** Short names for the two revisions. *)
Module T := ToUse.
Module U := UseThis.

(** * Properties of the validation, for both revisions *)

(** Every value but [NaN] is [===] to itself, and only to itself. *)
Lemma strict_eq_refl x : x ≠ VNaN → strict_eq x x = true.
Proof. intros H. destruct x; try done; simpl; by rewrite bool_decide_eq_true. Qed.

Lemma strict_eq_true a b : strict_eq a b = true → a = b ∧ a ≠ VNaN.
Proof.
  destruct a; simpl; try done; intros H; apply bool_decide_eq_true in H; by subst.
Qed.

(** The check is a function of the world it starts in. *)
Lemma checked_functional {W} (look : nat → nat → M W Value) me origin keys
      v seen w w1 v' seen' w1' :
  checked look me origin keys v seen w w1 →
  checked look me origin keys v' seen' w w1' →
  v = v' ∧ seen = seen' ∧ w1 = w1'.
Proof.
  intros H. revert v' seen' w1'.
  induction H as [w|k keys v seen w w1 w2 w3 a a' H1 H2 He H IH
                  |k keys w w1 w2 a a' H1 H2 He|k keys w w1 e H1
                  |k keys w w1 w2 a e H1 H2];
    intros v' seen' w1' H'; inversion H'; subst;
    repeat match goal with
           | Ha : look ?c ?k ?u = _, Hb : look ?c ?k ?u = _ |- _ =>
               rewrite Ha in Hb; injection Hb as ?; subst
           end; try done; try congruence.
  match goal with
  | Hc : checked _ _ _ keys _ _ _ _ |- _ => by destruct (IH _ _ _ Hc) as (-> & -> & ->)
  end.
Qed.

(** * Properties of [to-use.ts] *)

Module ToUseFacts.
Import ToUse.

(** ** Reading the registries after a write *)

Lemma entry_of_update c k f w c' k' :
  entry_of (update c k f w) c' k' =
  if decide (c = c' ∧ k = k') then f <$> entry_of w c' k' else entry_of w c' k'.
Proof.
  unfold entry_of, update; simpl. rewrite list_lookup_alter.
  destruct (decide (c = c')) as [->|Hc].
  - destruct (ctxs w !! c') as [r|]; simpl.
    + rewrite lookup_alter. destruct (decide (k = k')) as [->|Hk].
      * rewrite decide_True by done. done.
      * rewrite decide_False by (intros [? ?]; done). done.
    + by destruct (decide _).
  - rewrite decide_False by (intros [? ?]; done). done.
Qed.

Lemma entry_of_update_eq c k f w :
  entry_of (update c k f w) c k = f <$> entry_of w c k.
Proof. rewrite entry_of_update, decide_True; done. Qed.

Lemma entry_of_update_ne c k f w c' k' :
  (c, k) ≠ (c', k') → entry_of (update c k f w) c' k' = entry_of w c' k'.
Proof. intros H. rewrite entry_of_update, decide_False; [done|]. intros [-> ->]. done. Qed.

Lemma entry_of_store c k e w c' k' :
  entry_of (store c k e w) c' k' =
  if decide (c = c' ∧ k = k')
  then match ctxs w !! c' with Some _ => Some e | None => None end
  else entry_of w c' k'.
Proof.
  unfold entry_of, store; simpl. rewrite list_lookup_alter.
  destruct (decide (c = c')) as [->|Hc].
  - destruct (ctxs w !! c') as [r|]; simpl.
    + rewrite lookup_insert. destruct (decide (k = k')) as [->|Hk].
      * rewrite decide_True by done. done.
      * rewrite decide_False by (intros [? ?]; done). done.
    + by destruct (decide _).
  - rewrite decide_False by (intros [? ?]; done). done.
Qed.

Lemma entry_of_set_ambient c u w c' k' :
  entry_of (set_ambient c u w) c' k' = entry_of w c' k'.
Proof. done. Qed.

Lemma entry_of_set_next n w c' k' : entry_of (set_next n w) c' k' = entry_of w c' k'.
Proof. done. Qed.

Lemma update_update c k f g w :
  update c k f (update c k g w) = update c k (f ∘ g) w.
Proof.
  unfold update, set_ctxs; simpl.
  rewrite list_alter_alter_eq. f_equal. apply list_alter_ext; [|done].
  intros r _. simpl. f_equal. apply map_eq. intros i.
  destruct (decide (k = i)) as [->|].
  - rewrite !lookup_alter_eq. by destruct (entries r !! i).
  - by rewrite !lookup_alter_ne.
Qed.

Lemma update_ext c k f g w :
  (∀ e, entry_of w c k = Some e → f e = g e) → update c k f w = update c k g w.
Proof.
  intros H. unfold update, set_ctxs. f_equal.
  apply list_alter_ext; [|done]. intros r Hr. f_equal.
  apply map_eq. intros i.
  destruct (decide (k = i)) as [->|]; [|by rewrite !lookup_alter_ne].
  rewrite !lookup_alter_eq.
  destruct (entries r !! i) as [e|] eqn:E; [|done]. simpl. f_equal.
  apply H. unfold entry_of. by rewrite Hr.
Qed.

(** The prev links and the number of registries after a write. *)
Lemma prev_update c k f w c' :
  prev <$> ctxs (update c k f w) !! c' = prev <$> ctxs w !! c'.
Proof.
  unfold update; simpl. rewrite list_lookup_alter.
  destruct (decide (c = c')) as [->|]; [|done]. by destruct (ctxs w !! c').
Qed.

Lemma prev_store c k e w c' :
  prev <$> ctxs (store c k e w) !! c' = prev <$> ctxs w !! c'.
Proof.
  unfold store; simpl. rewrite list_lookup_alter.
  destruct (decide (c = c')) as [->|]; [|done]. by destruct (ctxs w !! c').
Qed.

(** ** Stability *)

Lemma used_grows_refl (u : option (list nat)) :
  match u with Some l => ∃ l', u = Some (l ++ l') | None => u = None end.
Proof. destruct u as [l|]; [|done]. exists []. by rewrite app_nil_r. Qed.

Lemma chain_ok_prev w w' :
  (∀ c, prev <$> ctxs w' !! c = prev <$> ctxs w !! c) → chain_ok w → chain_ok w'.
Proof.
  intros E H c r p Hr Hp. specialize (E c). rewrite Hr in E. simpl in E.
  destruct (ctxs w !! c) as [r0|] eqn:Hr0; [|done]. simpl in E.
  apply (H c r0 p Hr0). congruence.
Qed.

Lemma prev_lookup w w' c r :
  prev <$> ctxs w' !! c = prev <$> ctxs w !! c → ctxs w !! c = Some r →
  ∃ r', ctxs w' !! c = Some r' ∧ prev r' = prev r.
Proof.
  intros E Hr. rewrite Hr in E. destruct (ctxs w' !! c) as [r'|]; [|done].
  exists r'. split; [done|]. simpl in E. congruence.
Qed.

Lemma stable_refl P w : stable P w w.
Proof.
  split; try done.
  - apply used_grows_refl.
  - intros c r Hr. by exists r.
Qed.

Lemma stable_trans P w1 w2 w3 : stable P w1 w2 → stable P w2 w3 → stable P w1 w3.
Proof.
  intros [H1 H2 H3 H4 Hc H5 H6 H7] [G1 G2 G3 G4 Gc G5 G6 G7]. split.
  - congruence.
  - destruct (used w1) as [l|].
    + destruct H2 as [l' H2]. rewrite H2 in G2. destruct G2 as [l'' G2].
      exists (l' ++ l''). by rewrite app_assoc.
    + by rewrite H2 in G2.
  - lia.
  - lia.
  - auto.
  - intros c r Hr. destruct (H5 c r Hr) as (r' & Hr' & E).
    destruct (G5 c r' Hr') as (r'' & Hr'' & E'). exists r''. split; [done|congruence].
  - auto.
  - intros c k e HP He Hs. apply G7; auto.
Qed.

Lemma stable_weaken (P Q : CtxId → Key → Prop) w w' :
  (∀ c k, Q c k → P c k) → stable P w w' → stable Q w w'.
Proof. intros HPQ [H1 H2 H3 H4 Hc H5 H6 H7]. split; auto. Qed.

(** The steps of the library. *)

Lemma stable_set_next P n w : next w ≤ n → stable P w (set_next n w).
Proof.
  intros Hn. split; try done.
  - apply used_grows_refl.
  - intros c r Hr. by exists r.
Qed.

Lemma stable_push P key w l :
  used w = Some l → stable P w (set_ambient (ctx w) (Some (l ++ [key])) w).
Proof.
  intros Hl. split; try done.
  - rewrite Hl. simpl. by exists [key].
  - intros c r Hr. by exists r.
Qed.

Lemma stable_push_use P me key w : stable P w (push me key w).
Proof.
  unfold push. destruct (ctx w) eqn:Hc; [|apply stable_refl].
  destruct (used w) eqn:Hu; [|apply stable_refl].
  destruct (decide _); [|apply stable_refl].
  rewrite <- Hc. by apply stable_push.
Qed.

(** A write to the entry of [key] in [me]. *)
Lemma stable_update P me key f w :
  (∀ e, P me key → entry_of w me key = Some e → e_s e = wasRead → f e = e) →
  stable P w (update me key f w).
Proof.
  intros Hf. split; try done.
  - apply used_grows_refl.
  - unfold update; simpl. by rewrite length_alter.
  - apply chain_ok_prev. apply prev_update.
  - intros c r. apply prev_lookup, prev_update.
  - intros c k [e He]. rewrite entry_of_update. destruct (decide _); rewrite He; eauto.
  - intros c k e HP He Hs. rewrite entry_of_update.
    destruct (decide _) as [[-> ->]|]; [|done]. rewrite He. simpl. f_equal. auto.
Qed.

Lemma stable_store P me key e0 w :
  entry_of w me key = None → stable P w (store me key e0 w).
Proof.
  intros Hnone. split; try done.
  - apply used_grows_refl.
  - unfold store; simpl. by rewrite length_alter.
  - apply chain_ok_prev. apply prev_store.
  - intros c r. apply prev_lookup, prev_store.
  - intros c k [e He]. rewrite entry_of_store.
    destruct (decide _) as [[-> ->]|]; [congruence|eauto].
  - intros c k e HP He Hs. rewrite entry_of_store.
    destruct (decide _) as [[-> ->]|]; [congruence|done].
Qed.

Lemma entry_of_newCtx p w c k :
  entry_of (newCtx p w).2 c k = entry_of w c k.
Proof.
  unfold entry_of, newCtx; simpl.
  destruct (decide (c < length (ctxs w))) as [Hlt|Hge].
  - by rewrite lookup_app_l.
  - rewrite (lookup_ge_None_2 (ctxs w)) by lia.
    rewrite lookup_app_r by lia.
    destruct (c - length (ctxs w)) as [|n]; simpl; [by rewrite lookup_empty|done].
Qed.

Lemma stable_newCtx P me w :
  me < length (ctxs w) → stable P w (newCtx (Some me) w).2.
Proof.
  intros Hme. split; try done.
  - apply used_grows_refl.
  - simpl. rewrite length_app. lia.
  - intros H c r p. simpl. intros Hr Hp.
    destruct (decide (c < length (ctxs w))) as [Hlt|Hge].
    + rewrite lookup_app_l in Hr by done. by apply (H c r p).
    + rewrite lookup_app_r in Hr by lia.
      destruct (c - length (ctxs w)) as [|n] eqn:E; simpl in Hr; [|done].
      injection Hr as <-. simpl in Hp. injection Hp as <-. lia.
  - intros c r Hr. exists r. split; [|done]. simpl. by apply lookup_app_l_Some.
  - intros c k. by rewrite entry_of_newCtx.
  - intros c k e _ He _. by rewrite entry_of_newCtx.
Qed.

Lemma stable_setEntry P c key s x w : stable P w (setEntry c key s x w).2.
Proof.
  unfold setEntry. destruct (entry_of w c key) as [e|] eqn:He.
  - destruct (e_s e) eqn:Hs; simpl;
      try (apply stable_update; intros e' _ He' Hs'; congruence).
    apply stable_set_next. lia.
  - simpl. by apply stable_store.
Qed.

Lemma stable_method {A} P me (m : M World A) w :
  (me < length (ctxs w) → stable P w (m w).2) → stable P w (method me m w).2.
Proof.
  intros H. unfold method. destruct (ctxs w !! me) eqn:E; [|apply stable_refl].
  apply H. by eapply lookup_lt_Some.
Qed.

Lemma stable_set P me key x w : stable P w (set me key x w).2.
Proof.
  apply stable_method. intros _.
  unfold bind. pose proof (stable_setEntry P me key hasValue x w) as H.
  destruct (setEntry me key hasValue x w) as [[]]; done.
Qed.

Lemma stable_def P me key x w : stable P w (def me key x w).2.
Proof.
  apply stable_method. intros _.
  unfold bind. pose proof (stable_setEntry P me key hasFactory x w) as H.
  destruct (setEntry me key hasFactory x w) as [[]]; done.
Qed.

Lemma stable_this P w : stable P w (this w).2.
Proof.
  unfold this. destruct (ctx w); simpl; [apply stable_refl|apply stable_set_next; lia].
Qed.

Lemma stable_new_error {A} P cls msg w : stable P w (@new_error A cls msg w).2.
Proof. apply stable_set_next. simpl. lia. Qed.

(** [exec] restores the ambient context and the log. *)
Lemma stable_exec {A} P me deps (body : M World A) w :
  stable P (set_ambient (Some me) deps w) (body (set_ambient (Some me) deps w)).2 →
  stable P w (exec me deps body w).2.
Proof.
  unfold exec. destruct (body _) as [r w']. simpl.
  intros [H1 H2 H3 H4 Hc H5 H6 H7]. split; try done.
  apply used_grows_refl.
Qed.

(** ** Every operation is stable *)

Lemma stable_bind {A B} P (m : M World A) (k : A → M World B) w :
  stable P w (m w).2 → (∀ a w', stable P w' (k a w').2) → stable P w (bind m k w).2.
Proof.
  intros Hm Hk. unfold bind. destruct (m w) as [[a|e|] w']; simpl in *; [|done..].
  eapply stable_trans; [exact Hm|apply Hk].
Qed.

Lemma evolves_others me key w w' : evolves w w' → stable (others me key) w w'.
Proof. apply stable_weaken. done. Qed.

Lemma others_evolves me key w w' :
  (∀ e, entry_of w me key = Some e → e_s e ≠ wasRead) →
  stable (others me key) w w' → evolves w w'.
Proof.
  intros Hne [H1 H2 H3 H4 Hc H5 H6 H7]. split; try done.
  intros c k e _ He Hs. apply H7; [|done..].
  intros [= -> ->]. by eapply Hne.
Qed.

Section Step.
Context (code : nat → nat → nat → Prog) (shape : nat → KeyShape).
Context (look : nat → nat → M World Value).
Hypothesis Hlook : ∀ c k w, evolves w (look c k w).2.

Lemma evolves_fork me key w : evolves w (fork look me key w).2.
Proof.
  apply stable_method. intros Hme.
  apply stable_bind; [by apply stable_newCtx|].
  intros c w'. destruct key; [apply Hlook|apply stable_refl].
Qed.

Lemma evolves_run p w : evolves w (run (api look) p w).2.
Proof.
  revert w. induction p as [x|x|cont IH|n cont IH|c key cont IH|cont IH|c key x cont IH
                           |c key fac cont IH|c key cont IH|body IHb handler IHh cont IHc];
    intros w; simpl.
  - apply stable_refl.
  - apply stable_refl.
  - apply stable_bind; [apply stable_set_next; simpl; lia|auto].
  - apply stable_bind; [apply stable_set_next; simpl; lia|auto].
  - apply stable_bind; [apply Hlook|auto].
  - apply stable_bind; [apply stable_this|auto].
  - apply stable_bind; [apply stable_set|auto].
  - apply stable_bind; [apply stable_def|auto].
  - apply stable_bind; [apply evolves_fork|auto].
  - pose proof (IHb w) as Hb. destruct (run (api look) body w) as [[x|e|] w']; simpl in *.
    + eapply stable_trans; [exact Hb|apply IHc].
    + eapply stable_trans; [exact Hb|]. apply stable_bind; [apply IHh|intros; apply IHc].
    + done.
Qed.

Lemma evolves_call fn me key w : evolves w (call code shape look fn me key w).2.
Proof.
  unfold call, defaultLookup.
  destruct fn; try apply stable_new_error; try apply evolves_run.
  destruct (shape key); try apply evolves_run. apply stable_new_error.
Qed.

Lemma evolves_every me origin keys w : evolves w (every look me origin keys w).2.
Proof.
  revert w. induction keys as [|k keys IH]; intros w; simpl; [apply stable_refl|].
  apply stable_bind; [apply Hlook|]. intros a w1.
  apply stable_bind; [apply Hlook|]. intros b w2.
  destruct (strict_eq a b); [apply IH|apply stable_refl].
Qed.

Lemma stable_case_wasRead P me key w : stable P w (case_wasRead me key w).2.
Proof.
  unfold case_wasRead. destruct (entry_of w me key); simpl; [|apply stable_refl].
  apply stable_push_use.
Qed.

Lemma stable_update_own me key f w : stable (others me key) w (update me key f w).
Proof. apply stable_update. intros e H. by destruct H. Qed.

Lemma stable_case_hasFactory me key w :
  stable (others me key) w (case_hasFactory code shape look me key w).2.
Proof.
  unfold case_hasFactory.
  eapply stable_trans; [apply (stable_update_own me key (with_s isCreating))|].
  set (w1 := update me key (with_s isCreating) w).
  destruct (entry_of w1 me key) as [entry|]; [|apply stable_refl].
  pose proof (stable_exec (λ _ _, True) me (Some []) (call code shape look (e_v entry) me key) w1
                (evolves_call _ _ _ _)) as Hx.
  destruct (exec me (Some []) (call code shape look (e_v entry) me key) w1) as [[r keys] w2].
  simpl in Hx. apply evolves_others with (me := me) (key := key) in Hx.
  eapply stable_trans; [exact Hx|].
  destruct r as [x|e|]; simpl.
  - pose proof (stable_setEntry (others me key) me key wasRead x w2) as Hs.
    destruct (setEntry me key wasRead x w2) as [[[]|e|] w3]; simpl in *.
    + eapply stable_trans; [exact Hs|].
      destruct keys as [[|k ks]|]; try apply stable_case_wasRead.
      eapply stable_trans; [apply stable_update_own|apply stable_case_wasRead].
    + eapply stable_trans; [exact Hs|apply stable_update_own].
    + done.
  - apply stable_update_own.
  - apply stable_refl.
Qed.

Lemma stable_case_hasValue me key entry w :
  stable (others me key) w (case_hasValue code shape look me key entry w).2.
Proof.
  unfold case_hasValue. destruct (e_d entry) as [deps|].
  - pose proof (stable_exec (λ _ _, True) me None (every look me (d_c deps) (d_k deps)) w
                  (evolves_every _ _ _ _)) as Hx.
    destruct (exec me None (every look me (d_c deps) (d_k deps)) w) as [[r log] w'].
    simpl in Hx. apply evolves_others with (me := me) (key := key) in Hx.
    eapply stable_trans; [exact Hx|].
    destruct r as [[]|e|]; simpl; try apply stable_refl.
    + eapply stable_trans; [apply stable_update_own|apply stable_case_wasRead].
    + eapply stable_trans; [apply stable_update_own|apply stable_case_hasFactory].
  - eapply stable_trans; [apply stable_update_own|apply stable_case_wasRead].
Qed.

Lemma stable_state_machine me key w :
  stable (others me key) w (state_machine code shape look me key w).2.
Proof.
  unfold state_machine. destruct (entry_of w me key) as [entry|]; [|apply stable_refl].
  destruct (e_s entry).
  - apply stable_case_wasRead.
  - apply stable_case_hasValue.
  - apply stable_case_hasFactory.
  - apply stable_refl.
  - apply stable_new_error.
Qed.

Lemma stable_materialize P me key w : stable P w (materialize me key w).
Proof.
  unfold materialize. destruct (ctxs w !! me) as [reg|] eqn:Hr; [|apply stable_refl].
  destruct (entries reg !! key) eqn:He; [apply stable_refl|].
  apply stable_store. unfold entry_of. by rewrite Hr.
Qed.

(** A lookup of an entry that is [wasRead] is a read. *)
Lemma lookup_wasRead me key e w :
  regular w me → entry_of w me key = Some e → e_s e = wasRead →
  lookup code shape look me key w = case_wasRead me key w.
Proof.
  intros (r & p & Hr & Hp) He Hs. unfold lookup. rewrite Hr, Hp.
  unfold materialize. rewrite Hr. unfold entry_of in He. rewrite Hr in He. rewrite He.
  unfold state_machine, entry_of. rewrite Hr, He, Hs. done.
Qed.

Lemma evolves_lookup me key w : evolves w (lookup code shape look me key w).2.
Proof.
  destruct (ctxs w !! me) as [reg|] eqn:Hr;
    [|unfold lookup; rewrite Hr; apply stable_refl].
  destruct (prev reg) as [p|] eqn:Hp.
  - assert (regular w me) as Hreg by (by exists reg, p).
    assert (stable (others me key) w (lookup code shape look me key w).2) as Hst.
    { unfold lookup. rewrite Hr, Hp.
      eapply stable_trans; [apply stable_materialize|apply stable_state_machine]. }
    destruct (entry_of w me key) as [e|] eqn:He.
    + destruct (decide (e_s e = wasRead)) as [Hs|Hs].
      * rewrite (lookup_wasRead me key e w) by done. apply stable_case_wasRead.
      * apply (others_evolves me key); [intros e' He'; congruence|done].
    + apply (others_evolves me key); [intros e' He'; congruence|done].
  - unfold lookup. rewrite Hr, Hp.
    pose proof (stable_this (λ _ _, True) w) as Ht.
    destruct (this w) as [[[]|?|] w']; simpl in *; try done.
    eapply stable_trans; [exact Ht|apply Hlook].
Qed.

End Step.

(** Whatever the factories do, an operation of the library keeps the entries
    that were read. *)
Lemma evolves_invoke code shape fuel me key w :
  evolves w (invoke code shape fuel me key w).2.
Proof.
  revert me key w. induction fuel as [|n IH]; intros me key w; simpl.
  - apply stable_refl.
  - apply evolves_lookup. apply IH.
Qed.

Lemma evolves_script code shape fuel p w : evolves w (script code shape fuel p w).2.
Proof. apply evolves_run. intros c k w'. apply evolves_invoke. Qed.

(** ** The cases of the state machine *)

Lemma entry_of_push me key w c k : entry_of (push me key w) c k = entry_of w c k.
Proof.
  unfold push. destruct (ctx w); [|done]. destruct (used w); [|done].
  by destruct (decide _).
Qed.

Lemma ctxs_push me key w : ctxs (push me key w) = ctxs w.
Proof.
  unfold push. destruct (ctx w); [|done]. destruct (used w); [|done].
  by destruct (decide _).
Qed.

Lemma regular_stable P w w' c : stable P w w' → regular w c → regular w' c.
Proof.
  intros Hst (r & p & Hr & Hp). destruct (st_prev _ _ _ Hst c r Hr) as (r' & Hr' & E).
  exists r', p. split; [done|congruence].
Qed.

Lemma resolved_stable w w' c key x : evolves w w' → resolved w c key x → resolved w' c key x.
Proof.
  intros Hst (e & He & Hs & Hv). exists e. split; [|done].
  by apply (st_read _ _ _ Hst).
Qed.

Lemma materialize_present me key e w :
  entry_of w me key = Some e → materialize me key w = w.
Proof.
  unfold entry_of, materialize. destruct (ctxs w !! me); [|done]. by intros ->.
Qed.

Section Cases.
Context (code : nat → nat → nat → Prog) (shape : nat → KeyShape).
Context (look : nat → nat → M World Value).

(** A lookup of an entry that was read returns its payload; nothing is
    computed and only the dependency log can change. *)
Lemma lookup_resolved me key x w :
  regular w me → resolved w me key x →
  lookup code shape look me key w = (Ok x, push me key w).
Proof.
  intros Hreg (e & He & Hs & Hv).
  rewrite (lookup_wasRead code shape look me key e w) by done.
  unfold case_wasRead. rewrite He. by rewrite Hv.
Qed.

Lemma case_wasRead_ok me key w x w' :
  case_wasRead me key w = (Ok x, w') →
  ∃ e, entry_of w me key = Some e ∧ e_v e = x ∧ w' = push me key w.
Proof.
  unfold case_wasRead. destruct (entry_of w me key) as [e|]; [|done].
  intros [= <- <-]. by exists e.
Qed.

Lemma case_hasFactory_ok me key w x w' :
  case_hasFactory code shape look me key w = (Ok x, w') → resolved w' me key x.
Proof.
  unfold case_hasFactory.
  destruct (entry_of (update me key (with_s isCreating) w) me key) as [entry|]; [|done].
  destruct (exec _ _ _ _) as [[[y|e|] keys] w2]; [|done..].
  unfold setEntry.
  destruct (entry_of w2 me key) as [e2|] eqn:He2.
  - destruct (e_s e2) eqn:Hs2; simpl; try done;
      (intros H; apply case_wasRead_ok in H as (e & He & Hv & ->);
       exists e; rewrite entry_of_push; split; [done|]; split; [|done];
       destruct keys as [[|k ks]|];
       rewrite ?entry_of_update_eq, ?He2 in He; simpl in He;
       injection He as <-; done).
  - simpl. intros H. apply case_wasRead_ok in H as (e & He & Hv & ->).
    exists e. rewrite entry_of_push. split; [done|]. split; [|done].
    destruct keys as [[|k ks]|];
      rewrite ?entry_of_update_eq, ?entry_of_store, ?decide_True in He by done;
      destruct (ctxs w2 !! me); simpl in He; try done; injection He as <-; done.
Qed.

Lemma state_machine_ok me key w x w' :
  state_machine code shape look me key w = (Ok x, w') → resolved w' me key x.
Proof.
  unfold state_machine. destruct (entry_of w me key) as [entry|] eqn:He; [|done].
  destruct (e_s entry) eqn:Hs.
  - intros H. apply case_wasRead_ok in H as (e & He' & Hv & ->).
    exists e. rewrite entry_of_push. split; [done|]. split; congruence.
  - unfold case_hasValue. destruct (e_d entry) as [deps|].
    + destruct (exec _ _ _ _) as [[[[]|e|] keys] w1]; try done.
      * intros H. apply case_wasRead_ok in H as (e & He' & Hv & ->).
        exists e. rewrite entry_of_push. split; [done|]. split; [|done].
        rewrite entry_of_update_eq in He'. destruct (entry_of w1 me key); [|done].
        by injection He' as <-.
      * apply case_hasFactory_ok.
    + intros H. apply case_wasRead_ok in H as (e & He' & Hv & ->).
      exists e. rewrite entry_of_push. split; [done|]. split; [|done].
      rewrite entry_of_update_eq, He in He'. by injection He' as <-.
  - apply case_hasFactory_ok.
  - done.
  - done.
Qed.

(** A lookup that returns leaves the entry in state [wasRead], with the
    value it returned. *)
Lemma lookup_ok_resolved me key w x w' :
  regular w me → lookup code shape look me key w = (Ok x, w') → resolved w' me key x.
Proof.
  intros (r & p & Hr & Hp). unfold lookup. rewrite Hr, Hp. apply state_machine_ok.
Qed.

(** A lookup of an entry in state [hasError] throws its payload. *)
Lemma lookup_hasError me key e w :
  regular w me → entry_of w me key = Some e → e_s e = hasError →
  lookup code shape look me key w = (Thrown (e_v e), w).
Proof.
  intros (r & p & Hr & Hp) He Hs. unfold lookup. rewrite Hr, Hp.
  rewrite (materialize_present me key e w) by done.
  unfold state_machine. by rewrite He, Hs.
Qed.

End Cases.

(** [set] and [def] on an entry that was read. *)
Lemma setEntry_resolved c key s y x w :
  resolved w c key x →
  setEntry c key s y w = (Thrown (VErr (next w) Error (AlreadyRead key)), set_next (S (next w)) w).
Proof. intros (e & He & Hs & _). unfold setEntry. by rewrite He, Hs. Qed.

Lemma method_resolved {A} me key x (m : M World A) w :
  resolved w me key x → method me m w = m w.
Proof.
  intros (e & He & _). unfold method. unfold entry_of in He.
  by destruct (ctxs w !! me).
Qed.

Lemma set_resolved me key y x w :
  resolved w me key x →
  set me key y w = (Thrown (VErr (next w) Error (AlreadyRead key)), set_next (S (next w)) w).
Proof.
  intros H. unfold set. rewrite (method_resolved me key x) by done.
  unfold bind. by rewrite (setEntry_resolved _ _ _ _ x).
Qed.

Lemma def_resolved me key y x w :
  resolved w me key x →
  def me key y w = (Thrown (VErr (next w) Error (AlreadyRead key)), set_next (S (next w)) w).
Proof.
  intros H. unfold def. rewrite (method_resolved me key x) by done.
  unfold bind. by rewrite (setEntry_resolved _ _ _ _ x).
Qed.

(** [setEntry] on a context that has the key in another state, or not at all. *)
Lemma setEntry_ok c key s y w r :
  ctxs w !! c = Some r →
  (∀ e, entry_of w c key = Some e → e_s e ≠ wasRead) →
  ∃ w', setEntry c key s y w = (Ok tt, w') ∧
        entry_of w' c key = Some {| e_s := s; e_v := y; e_d := None |} ∧
        (∀ c' k', (c', k') ≠ (c, key) → entry_of w' c' k' = entry_of w c' k') ∧
        ctx w' = ctx w ∧ used w' = used w ∧
        ∀ c', prev <$> ctxs w' !! c' = prev <$> ctxs w !! c'.
Proof.
  intros Hr Hne. unfold setEntry. destruct (entry_of w c key) as [e|] eqn:He.
  - specialize (Hne e eq_refl).
    exists (update c key (λ _, {| e_s := s; e_v := y; e_d := None |}) w).
    split; [by destruct (e_s e)|]. split; [by rewrite entry_of_update_eq, He|].
    split; [intros c' k' Hn; by rewrite entry_of_update_ne|].
    split; [done|]. split; [done|]. intros c'. apply prev_update.
  - exists (store c key {| e_s := s; e_v := y; e_d := None |} w).
    split; [done|]. split; [by rewrite entry_of_store, decide_True, Hr|].
    split; [intros c' k' Hn; rewrite entry_of_store, decide_False; [done|]; by intros [-> ->]|].
    split; [done|]. split; [done|]. intros c'. apply prev_store.
Qed.

(** The check [every] of the source does what the specification says. *)
Lemma every_checked look me origin keys v w w' :
  every look me origin keys w = (ends v, w') ↔
  ∃ seen, checked look me origin keys v seen w w'.
Proof.
  split.
  - revert w. induction keys as [|k keys IH]; intros w; simpl.
    + destruct v; intros [= <-]. exists []. constructor.
    + unfold bind. destruct (look me k w) as [[a|e|] w1] eqn:H1.
      * destruct (look origin k w1) as [[a'|e|] w2] eqn:H2.
        -- destruct (strict_eq a a') eqn:He.
           ++ intros H. destruct (IH _ H) as [seen Hc].
              exists (k :: seen). by eapply checked_same.
           ++ destruct v; intros [= <-]. exists [k]. by eapply checked_diff.
        -- destruct v; intros [= <- <-]. exists [k]. by eapply checked_raised_origin.
        -- by destruct v.
      * destruct v; intros [= <- <-]. exists []. by eapply checked_raised.
      * by destruct v.
  - intros [seen H]. induction H as [w|k keys v seen w w1 w2 w3 a a' H1 H2 He H IH
                                     |k keys w w1 w2 a a' H1 H2 He|k keys w w1 e H1
                                     |k keys w w1 w2 a e H1 H2]; simpl.
    + done.
    + unfold bind. rewrite H1, H2. by rewrite He.
    + unfold bind. rewrite H1, H2. by rewrite He.
    + unfold bind. by rewrite H1.
    + unfold bind. by rewrite H1, H2.
Qed.

(** ** Materialize *)

Lemma inherited_nearest cs key n r res :
  (∀ c reg p, cs !! c = Some reg → prev reg = Some p → p < c) →
  (∀ c, r = Some c → c < n) →
  nearest cs key r res → inherited n cs r key = spread <$> (snd <$> res).
Proof.
  intros Hchain Hn H. revert n Hn.
  induction H as [|c reg entry Hc He|c reg res Hc He H IH]; intros n Hn.
  - by destruct n.
  - destruct n as [|n]; [specialize (Hn c eq_refl); lia|]. simpl. by rewrite Hc, He.
  - destruct n as [|n]; [specialize (Hn c eq_refl); lia|]. simpl. rewrite Hc, He.
    apply IH. intros p Hp. specialize (Hn c eq_refl). specialize (Hchain c reg p Hc Hp). lia.
Qed.

(** What the first lines of a lookup leave in the registries. *)
Lemma materialize_spec me key w reg res :
  chain_ok w → ctxs w !! me = Some reg → entries reg !! key = None →
  nearest (ctxs w) key (prev reg) res →
  entry_of (materialize me key w) me key =
    Some (match res with
          | Some (_, entry) => spread entry
          | None => {| e_s := hasFactory; e_v := VDefault; e_d := None |}
          end)
  ∧ (∀ c k, (c, k) ≠ (me, key) → entry_of (materialize me key w) c k = entry_of w c k)
  ∧ ctx (materialize me key w) = ctx w ∧ used (materialize me key w) = used w.
Proof.
  intros Hchain Hr He Hn. unfold materialize. rewrite Hr, He.
  rewrite (inherited_nearest _ _ _ _ res); [|done| |done].
  - split; [|split; [|done]].
    + rewrite entry_of_store, decide_True, Hr by done. by destruct res as [[]|].
    + intros c k Hne. rewrite entry_of_store, decide_False; [done|]. by intros [-> ->].
  - intros p Hp. specialize (Hchain me reg p Hr Hp).
    apply lookup_lt_Some in Hr. lia.
Qed.

(** ** Writes *)

Lemma method_present {A} me r (m : M World A) w :
  ctxs w !! me = Some r → method me m w = m w.
Proof. intros H. unfold method. by rewrite H. Qed.

Lemma set_ok me key x w w' y :
  set me key x w = (Ok y, w') →
  y = VCtx me ∧ entry_of w' me key = Some {| e_s := hasValue; e_v := x; e_d := None |}
  ∧ (∀ c, prev <$> ctxs w' !! c = prev <$> ctxs w !! c).
Proof.
  unfold set, method. destruct (ctxs w !! me) as [r|] eqn:Hr; [|done].
  unfold bind, setEntry. destruct (entry_of w me key) as [e|] eqn:He.
  - destruct (e_s e); try done; intros [= <- <-];
      (split; [done|]; split; [by rewrite entry_of_update_eq, He|apply prev_update]).
  - intros [= <- <-]. split; [done|].
    split; [by rewrite entry_of_store, decide_True, Hr|apply prev_store].
Qed.

Lemma def_ok me key x w w' y :
  def me key x w = (Ok y, w') →
  y = VCtx me ∧ entry_of w' me key = Some {| e_s := hasFactory; e_v := x; e_d := None |}
  ∧ (∀ c, prev <$> ctxs w' !! c = prev <$> ctxs w !! c).
Proof.
  unfold def, method. destruct (ctxs w !! me) as [r|] eqn:Hr; [|done].
  unfold bind, setEntry. destruct (entry_of w me key) as [e|] eqn:He.
  - destruct (e_s e); try done; intros [= <- <-];
      (split; [done|]; split; [by rewrite entry_of_update_eq, He|apply prev_update]).
  - intros [= <- <-]. split; [done|].
    split; [by rewrite entry_of_store, decide_True, Hr|apply prev_store].
Qed.

Lemma regular_prev w w' c :
  (∀ c, prev <$> ctxs w' !! c = prev <$> ctxs w !! c) → regular w c → regular w' c.
Proof.
  intros E (r & p & Hr & Hp). destruct (prev_lookup w w' c r (E c) Hr) as (r' & Hr' & E').
  exists r', p. split; [done|congruence].
Qed.

Section Local.
Context (code : nat → nat → nat → Prog) (shape : nat → KeyShape).
Context (look : nat → nat → M World Value).

(** A lookup of a plain value, one without a dependency record. *)
Lemma lookup_plain_value me key e w :
  regular w me → entry_of w me key = Some e → e_s e = hasValue → e_d e = None →
  lookup code shape look me key w =
    (Ok (e_v e), push me key (update me key (with_s wasRead) w)).
Proof.
  intros (r & p & Hr & Hp) He Hs Hd. unfold lookup. rewrite Hr, Hp.
  rewrite (materialize_present me key e w) by done.
  unfold state_machine. rewrite He, Hs. unfold case_hasValue. rewrite Hd.
  unfold case_wasRead. rewrite entry_of_update_eq, He. done.
Qed.

(** A lookup while the entry is [isCreating]. *)
Lemma lookup_isCreating me key e w :
  regular w me → entry_of w me key = Some e → e_s e = isCreating →
  lookup code shape look me key w =
    (Thrown (VErr (next w) Error (DidntResolve (String_ (e_v e)) key)),
     set_next (S (next w)) w).
Proof.
  intros (r & p & Hr & Hp) He Hs. unfold lookup. rewrite Hr, Hp.
  rewrite (materialize_present me key e w) by done.
  unfold state_machine. by rewrite He, Hs.
Qed.

(** [case State.hasFactory] reads the entry after it has set its state. *)
Lemma case_hasFactory_update me key f g w :
  (∀ e, with_s isCreating (f e) = with_s isCreating (g e)) →
  case_hasFactory code shape look me key (update me key f w) =
  case_hasFactory code shape look me key (update me key g w).
Proof.
  intros H. unfold case_hasFactory. rewrite !update_update.
  rewrite (update_ext me key (with_s isCreating ∘ f) (with_s isCreating ∘ g) w); [done|].
  intros e _. apply H.
Qed.

(** The global context: a call is a call of [use.this]. *)
Lemma lookup_global g key r w :
  ctxs w !! g = Some r → prev r = None →
  lookup code shape look g key w =
    match ctx w with
    | Some c => look c key w
    | None => (Thrown (VErr (next w) TypeError NoCurrentContext), set_next (S (next w)) w)
    end.
Proof.
  intros Hr Hp. unfold lookup. rewrite Hr, Hp. unfold this. by destruct (ctx w).
Qed.

End Local.

(** ** The claims, on [to-use.ts] *)

Section Claims.
Context (code : nat → nat → nat → Prog) (shape : nat → KeyShape).

Lemma evolves_checked n me origin keys v seen w w1 :
  checked (invoke code shape n) me origin keys v seen w w1 → evolves w w1.
Proof.
  induction 1 as [w|k keys v seen w w1 w2 w3 a a' H1 H2 He H IH
                  |k keys w w1 w2 a a' H1 H2 He|k keys w w1 e H1
                  |k keys w w1 w2 a e H1 H2].
  - apply stable_refl.
  - pose proof (evolves_invoke code shape n me k w) as E1. rewrite H1 in E1.
    pose proof (evolves_invoke code shape n origin k w1) as E2. rewrite H2 in E2.
    eapply stable_trans; [exact E1|]. eapply stable_trans; [exact E2|exact IH].
  - pose proof (evolves_invoke code shape n me k w) as E1. rewrite H1 in E1.
    pose proof (evolves_invoke code shape n origin k w1) as E2. rewrite H2 in E2.
    eapply stable_trans; [exact E1|exact E2].
  - pose proof (evolves_invoke code shape n me k w) as E1. by rewrite H1 in E1.
  - pose proof (evolves_invoke code shape n me k w) as E1. rewrite H1 in E1.
    pose proof (evolves_invoke code shape n origin k w1) as E2. rewrite H2 in E2.
    eapply stable_trans; [exact E1|exact E2].
Qed.

Lemma invoke_ok_resolved n me key w x w' :
  regular w me → invoke code shape n me key w = (Ok x, w') → resolved w' me key x.
Proof. destruct n; [done|]. apply lookup_ok_resolved. Qed.

(** The keys whose lookup in [me] returned are resolved in [me] when the
    check ends. *)
Lemma checked_resolved n me origin keys v seen w w1 :
  regular w me →
  checked (invoke code shape n) me origin keys v seen w w1 →
  ∀ k, k ∈ seen → ∃ x, resolved w1 me k x.
Proof.
  intros Hreg H. induction H as [w|k keys v seen w w1 w2 w3 a a' H1 H2 He H IH
                                 |k keys w w1 w2 a a' H1 H2 He|k keys w w1 e H1
                                 |k keys w w1 w2 a e H1 H2]; intros k0 Hk0.
  - by apply elem_of_nil in Hk0.
  - pose proof (evolves_invoke code shape n me k w) as E1. rewrite H1 in E1.
    pose proof (evolves_invoke code shape n origin k w1) as E2. rewrite H2 in E2.
    apply elem_of_cons in Hk0 as [->|Hk0].
    + exists a. eapply resolved_stable; [apply (evolves_checked _ _ _ _ _ _ _ _ H)|].
      eapply resolved_stable; [exact E2|]. by eapply invoke_ok_resolved.
    + apply IH; [|done]. eapply regular_stable; [exact E2|].
      eapply regular_stable; [exact E1|done].
  - pose proof (evolves_invoke code shape n origin k w1) as E2. rewrite H2 in E2.
    apply list_elem_of_singleton in Hk0 as ->. exists a.
    eapply resolved_stable; [exact E2|]. by eapply invoke_ok_resolved.
  - by apply elem_of_nil in Hk0.
  - pose proof (evolves_invoke code shape n origin k w1) as E2. rewrite H2 in E2.
    apply list_elem_of_singleton in Hk0 as ->. exists a.
    eapply resolved_stable; [exact E2|]. by eapply invoke_ok_resolved.
Qed.

(** *** Smart sharing *)

Lemma exec_checked n me origin keys v seen w w1 :
  checked (invoke code shape n) me origin keys v seen (set_ambient (Some me) None w) w1 →
  exec me None (every (invoke code shape n) me origin keys) w =
    (ends v, used w1, set_ambient (ctx w) (used w) w1).
Proof.
  intros H. unfold exec.
  assert (every (invoke code shape n) me origin keys (set_ambient (Some me) None w)
          = (ends v, w1))
    as -> by (apply every_checked; eauto).
  done.
Qed.

(** [case State.hasFactory] when the factory returns and the entry was not
    read meanwhile. *)
Lemma case_hasFactory_returns n me key w e0 x keys w2 :
  regular w me → entry_of w me key = Some e0 →
  exec me (Some []) (call code shape (invoke code shape n) (e_v e0) me key)
       (update me key (with_s isCreating) w) = (Ok x, keys, w2) →
  (∀ e2, entry_of w2 me key = Some e2 → e_s e2 ≠ wasRead) →
  ∃ w', case_hasFactory code shape (invoke code shape n) me key w = (Ok x, w') ∧
        entry_of w' me key
          = Some {| e_s := wasRead; e_v := x; e_d := recorded me (e_v e0) keys |}.
Proof.
  intros Hreg He Hx Hne.
  assert (regular w2 me) as (r2 & p2 & Hr2 & _).
  { pose proof (stable_exec (λ _ _, True) me (Some [])
                  (call code shape (invoke code shape n) (e_v e0) me key)
                  (update me key (with_s isCreating) w)) as H.
    rewrite Hx in H. eapply regular_stable.
    - apply H. apply evolves_call. intros c k w'. apply evolves_invoke.
    - eapply (regular_stable (others me key)); [apply stable_update_own|done]. }
  destruct (setEntry_ok me key wasRead x w2 r2 Hr2 Hne) as (w3 & H3 & He3 & _).
  set (w4 := match keys with
             | Some ((_ :: _) as ks) =>
                 update me key (with_d (Some {| d_c := me; d_k := ks; d_f := e_v e0 |})) w3
             | _ => w3
             end).
  assert (entry_of w4 me key
          = Some {| e_s := wasRead; e_v := x; e_d := recorded me (e_v e0) keys |}) as He4.
  { unfold w4, recorded. destruct keys as [[|k ks]|]; try done.
    by rewrite entry_of_update_eq, He3. }
  exists (push me key w4). split; [|by rewrite entry_of_push].
  unfold case_hasFactory. rewrite entry_of_update_eq, He.
  change (with_s isCreating <$> Some e0) with (Some (with_s isCreating e0)).
  cbv beta iota zeta. change (e_v (with_s isCreating e0)) with (e_v e0).
  rewrite Hx. cbv beta iota zeta. rewrite H3. cbv beta iota zeta.
  change (case_wasRead me key w4 = (Ok x, push me key w4)).
  unfold case_wasRead. by rewrite He4.
Qed.

(** A lookup that finds the entry in state [hasValue]. *)
Lemma to_use_lookup_hasValue n me key w e :
  regular w me → entry_of (materialize me key w) me key = Some e → e_s e = hasValue →
  invoke code shape (S n) me key w =
  case_hasValue code shape (invoke code shape n) me key e (materialize me key w).
Proof.
  intros (r & p & Hr & Hp) He Hs. simpl. unfold lookup. rewrite Hr, Hp.
  unfold state_machine. by rewrite He, Hs.
Qed.

Lemma ambient_materialize me key w :
  ctx (materialize me key w) = ctx w ∧ used (materialize me key w) = used w.
Proof.
  unfold materialize. destruct (ctxs w !! me); [|done]. by destruct (entries r !! key).
Qed.

Lemma smart_sharing n me key w e deps v seen w1 :
  regular w me →
  entry_of (materialize me key w) me key = Some e →
  e_s e = hasValue → e_d e = Some deps →
  checked (invoke code shape n) me (d_c deps) (d_k deps) v seen
          (set_ambient (Some me) None (materialize me key w)) w1 →
  let w2 := set_ambient (ctx w) (used w) w1 in
  ∃ e1, entry_of w1 me key = Some e1 ∧
    match v with
    | Same =>
        let w3 := push me key (update me key (with_s wasRead) w2) in
        invoke code shape (S n) me key w = (Ok (e_v e1), w3) ∧
        entry_of w3 me key = Some (with_s wasRead e1)
    | Differ =>
        let w3 := update me key (with_v (d_f deps)) w2 in
        invoke code shape (S n) me key w
          = case_hasFactory code shape (invoke code shape n) me key w3 ∧
        entry_of w3 me key = Some (with_v (d_f deps) e1) ∧
        ∀ x keys w4,
          exec me (Some []) (call code shape (invoke code shape n) (d_f deps) me key)
               (update me key (with_s isCreating) w3) = (Ok x, keys, w4) →
          (∀ e4, entry_of w4 me key = Some e4 → e_s e4 ≠ wasRead) →
          ∃ w', invoke code shape (S n) me key w = (Ok x, w') ∧
                entry_of w' me key
                  = Some {| e_s := wasRead; e_v := x;
                            e_d := recorded me (d_f deps) keys |}
    | Raised err =>
        invoke code shape (S n) me key w = (Thrown err, w2) ∧
        entry_of w2 me key = Some e1
    end.
Proof.
  intros Hreg He Hs Hd Hc w2.
  destruct (ambient_materialize me key w) as [Ec Eu].
  pose proof (evolves_checked _ _ _ _ _ _ _ _ Hc) as E.
  destruct (st_some _ _ _ E me key) as [e1 He1]; [by rewrite entry_of_set_ambient, He|].
  exists e1. split; [done|].
  assert (entry_of w2 me key = Some e1) as He2 by done.
  rewrite (to_use_lookup_hasValue n me key w e Hreg He Hs). unfold case_hasValue. rewrite Hd.
  rewrite (exec_checked _ _ _ _ _ _ _ _ Hc). rewrite Ec, Eu. fold w2.
  destruct v as [| |err]; cbn [ends].
  - cbv zeta. unfold case_wasRead. rewrite entry_of_update_eq, He2. simpl. split; [done|].
    by rewrite entry_of_push, entry_of_update_eq, He2.
  - cbv zeta. split; [done|]. split; [by rewrite entry_of_update_eq, He2|].
    intros x keys w4 Hx Hne.
    assert (regular w1 me) as (r1 & p1 & Hr1 & Hp1).
    { eapply regular_stable; [exact E|].
      assert (regular (materialize me key w) me) as (r0 & p0 & Hr0 & Hp0); [|by exists r0, p0].
      eapply regular_stable; [apply (stable_materialize (λ _ _, True))|done]. }
    apply (case_hasFactory_returns n me key (update me key (with_v (d_f deps)) w2)
             (with_v (d_f deps) e1) x keys w4); [| |exact Hx|exact Hne].
    + assert (regular w2 me) as Hreg2 by (by exists r1, p1).
      eapply (regular_stable (others me key)); [apply stable_update_own|done].
    + by rewrite entry_of_update_eq, He2.
  - done.
Qed.


(** *** Lookups are idempotent, and a key that was read cannot be written *)

Lemma lookup_idempotent n me key w x w1 :
  regular w me → invoke code shape n me key w = (Ok x, w1) →
  ∀ fuel p r w2, script code shape fuel p w1 = (r, w2) →
  ∀ m, invoke code shape (S m) me key w2 = (Ok x, push me key w2).
Proof.
  intros Hreg H fuel p r w2 Hp m.
  pose proof (evolves_invoke code shape n me key w) as E1. rewrite H in E1.
  pose proof (evolves_script code shape fuel p w1) as E2. rewrite Hp in E2. simpl in *.
  apply lookup_resolved.
  - eapply regular_stable; [exact E2|]. eapply regular_stable; [exact E1|done].
  - eapply resolved_stable; [exact E2|]. by eapply invoke_ok_resolved.
Qed.

Lemma write_after_read n me key w x w1 :
  regular w me → invoke code shape n me key w = (Ok x, w1) →
  ∀ fuel p r w2, script code shape fuel p w1 = (r, w2) →
  ∀ y, set me key y w2
         = (Thrown (VErr (next w2) Error (AlreadyRead key)), set_next (S (next w2)) w2)
     ∧ def me key y w2
         = (Thrown (VErr (next w2) Error (AlreadyRead key)), set_next (S (next w2)) w2).
Proof.
  intros Hreg H fuel p r w2 Hp y.
  pose proof (evolves_script code shape fuel p w1) as E2. rewrite Hp in E2. simpl in *.
  assert (resolved w2 me key x) as Hres.
  { eapply resolved_stable; [exact E2|]. by eapply invoke_ok_resolved. }
  split; [by eapply set_resolved|by eapply def_resolved].
Qed.

Lemma write_before_read me key y w r :
  ctxs w !! me = Some r →
  (∀ e, entry_of w me key = Some e → e_s e ≠ wasRead) →
  (∃ w', set me key y w = (Ok (VCtx me), w') ∧
         entry_of w' me key = Some {| e_s := hasValue; e_v := y; e_d := None |}) ∧
  (∃ w', def me key y w = (Ok (VCtx me), w') ∧
         entry_of w' me key = Some {| e_s := hasFactory; e_v := y; e_d := None |}).
Proof.
  intros Hr Hne. split.
  - destruct (setEntry_ok me key hasValue y w r Hr Hne) as (w' & H & He & _).
    exists w'. split; [|done]. unfold set. rewrite (method_present me r) by done.
    unfold bind. by rewrite H.
  - destruct (setEntry_ok me key hasFactory y w r Hr Hne) as (w' & H & He & _).
    exists w'. split; [|done]. unfold def. rewrite (method_present me r) by done.
    unfold bind. by rewrite H.
Qed.

(** *** Writes clear the dependency record *)

Lemma write_clears_deps me key x w y w1 :
  set me key x w = (Ok y, w1) →
  entry_of w1 me key = Some {| e_s := hasValue; e_v := x; e_d := None |} ∧
  (regular w me → ∀ n,
     invoke code shape (S n) me key w1
       = (Ok x, push me key (update me key (with_s wasRead) w1)) ∧
     entry_of (push me key (update me key (with_s wasRead) w1)) me key
       = Some {| e_s := wasRead; e_v := x; e_d := None |}).
Proof.
  intros H. apply set_ok in H as (_ & He & Hprev). split; [done|].
  intros Hreg n. split.
  - simpl. rewrite (lookup_plain_value code shape _ me key _ w1 (regular_prev _ _ _ Hprev Hreg) He);
      done.
  - by rewrite entry_of_push, entry_of_update_eq, He.
Qed.

Lemma def_clears_deps me key fac w y w1 :
  def me key fac w = (Ok y, w1) →
  entry_of w1 me key = Some {| e_s := hasFactory; e_v := fac; e_d := None |}.
Proof. intros H. by apply def_ok in H as (_ & He & _). Qed.

(** *** The global context *)

Lemma global_delegation n g key r w :
  ctxs w !! g = Some r → prev r = None →
  match ctx w with
  | None =>
      invoke code shape (S n) g key w
        = (Thrown (VErr (next w) TypeError NoCurrentContext), set_next (S (next w)) w) ∧
      this w = (Thrown (VErr (next w) TypeError NoCurrentContext), set_next (S (next w)) w)
  | Some c =>
      invoke code shape (S n) g key w = invoke code shape n c key w ∧
      this w = (Ok (VCtx c), w)
  end.
Proof.
  intros Hr Hp. simpl. rewrite (lookup_global code shape _ g key r w Hr Hp).
  unfold this. by destruct (ctx w).
Qed.

(** No context is ambient at top level: whatever ran before has restored
    [ctx]. *)
Lemma top_level_ambient fuel p w :
  ctx w = None → ctx (script code shape fuel p w).2 = None.
Proof.
  intros H. pose proof (evolves_script code shape fuel p w) as E.
  by rewrite (st_ctx _ _ _ E).
Qed.

(** While [exec] of [me] runs a function, [me] is the ambient context: a
    call of the global context is a call of [me], and [use.this] is [me]. *)
Lemma exec_global n g r me log key w :
  ctxs w !! g = Some r → prev r = None →
  exec me log (invoke code shape (S n) g key) w
    = exec me log (invoke code shape n me key) w.
Proof.
  intros Hr Hp. unfold exec.
  assert (invoke code shape (S n) g key (set_ambient (Some me) log w)
          = invoke code shape n me key (set_ambient (Some me) log w)) as ->; [|done].
  change (lookup code shape (invoke code shape n) g key (set_ambient (Some me) log w)
          = invoke code shape n me key (set_ambient (Some me) log w)).
  by rewrite (lookup_global code shape _ g key r (set_ambient (Some me) log w) Hr Hp).
Qed.

Lemma exec_this me log w : (exec me log this w).1 = (Ok (VCtx me), log).
Proof. done. Qed.

(** A lookup that finds the entry in state [hasFactory]. *)
Lemma lookup_hasFactory n me key w e :
  regular w me → entry_of (materialize me key w) me key = Some e → e_s e = hasFactory →
  invoke code shape (S n) me key w =
  case_hasFactory code shape (invoke code shape n) me key (materialize me key w).
Proof.
  intros (r & p & Hr & Hp) He Hs. simpl. unfold lookup. rewrite Hr, Hp.
  unfold state_machine. by rewrite He, Hs.
Qed.

(** The factory [() => use.this] gives the context that makes the value. *)
Lemma factory_this n me key w e f :
  regular w me → entry_of (materialize me key w) me key = Some e → e_s e = hasFactory →
  e_v e = VFun f → code f me key = This Ret →
  ∃ w', invoke code shape (S n) me key w = (Ok (VCtx me), w') ∧
        entry_of w' me key = Some {| e_s := wasRead; e_v := VCtx me; e_d := None |}.
Proof.
  intros Hreg He Hs Hv Hf.
  rewrite (lookup_hasFactory n me key w e Hreg He Hs).
  set (wm := materialize me key w) in *.
  set (w1 := update me key (with_s isCreating) wm).
  assert (regular wm me) as Hregm
    by (eapply regular_stable; [apply (stable_materialize (λ _ _, True))|done]).
  destruct (case_hasFactory_returns n me key wm e (VCtx me) (Some [])
              (set_ambient (ctx w1) (used w1) (set_ambient (Some me) (Some []) w1)))
    as (w' & H & He'); [done|done| | |by exists w'].
  - rewrite Hv. unfold exec, call. by rewrite Hf.
  - intros e2. rewrite !entry_of_set_ambient. unfold w1. rewrite entry_of_update_eq, He.
    intros [= <-]. done.
Qed.

(** The factory [() => use(k)], for a key [k] that [me] has read, gives the
    value that [me] holds for [k], and [k] is its dependency. *)
Lemma factory_use n g r me key w e f k x :
  ctxs w !! g = Some r → prev r = None → regular w me →
  entry_of (materialize me key w) me key = Some e → e_s e = hasFactory →
  e_v e = VFun f → code f me key = Use g k Ret → resolved w me k x →
  ∃ w', invoke code shape (S (S (S n))) me key w = (Ok x, w') ∧
        entry_of w' me key
          = Some {| e_s := wasRead; e_v := x;
                    e_d := Some {| d_c := me; d_k := [k]; d_f := VFun f |} |}.
Proof.
  intros Hr Hp Hreg He Hs Hv Hf Hk.
  rewrite (lookup_hasFactory _ me key w e Hreg He Hs).
  set (wm := materialize me key w) in *.
  set (w1 := update me key (with_s isCreating) wm).
  set (wa := set_ambient (Some me) (Some []) w1).
  assert (k ≠ key) as Hne.
  { intros ->. destruct Hk as (e0 & He0 & Hs0 & _).
    unfold wm in He. rewrite (materialize_present me key e0 w He0) in He. congruence. }
  assert (evolves w wm) as E0 by apply stable_materialize.
  assert (regular wm me) as Hregm by (by eapply regular_stable).
  assert (stable (others me key) wm w1) as E1 by apply stable_update_own.
  assert (resolved wa me k x) as Hka.
  { destruct (resolved_stable w wm me k x E0 Hk) as (e0 & He0 & Hs0 & Hv0).
    exists e0. split; [|done]. unfold wa. rewrite entry_of_set_ambient.
    unfold w1. by rewrite entry_of_update_ne by congruence. }
  assert (regular wa me) as Hrega.
  { assert (regular w1 me) as (r1 & p1 & ? & ?) by (by eapply regular_stable).
    by exists r1, p1. }
  assert (∃ r', ctxs wa !! g = Some r' ∧ prev r' = prev r) as (r' & Hr' & Hp').
  { destruct (st_prev _ _ _ E0 g r Hr) as (r0 & Hr0 & Hp0).
    destruct (st_prev _ _ _ E1 g r0 Hr0) as (r1 & Hr1 & Hp1).
    exists r1. split; [done|congruence]. }
  assert (invoke code shape (S (S n)) g k wa = (Ok x, push me k wa)) as Hrun.
  { change (invoke code shape (S (S n)) g k wa)
      with (lookup code shape (invoke code shape (S n)) g k wa).
    rewrite (lookup_global code shape _ g k r' wa Hr') by congruence.
    change (ctx wa) with (Some me). cbv beta iota.
    change (invoke code shape (S n) me k wa)
      with (lookup code shape (invoke code shape n) me k wa).
    by apply lookup_resolved. }
  destruct (case_hasFactory_returns (S (S n)) me key wm e x (Some [k])
              (set_ambient (ctx w1) (used w1) (push me k wa)))
    as (w' & H & He'); [done|done| | |].
  - rewrite Hv. unfold exec, call. rewrite Hf. fold w1. fold wa.
    change (run (api (invoke code shape (S (S n)))) (Use g k Ret) wa)
      with (bind (invoke code shape (S (S n)) g k) (λ y, ret y) wa).
    unfold bind. rewrite Hrun. unfold ret. f_equal. f_equal.
    unfold push, wa. simpl. by rewrite decide_True.
  - intros e2. rewrite entry_of_set_ambient, entry_of_push. unfold wa.
    rewrite entry_of_set_ambient. unfold w1. rewrite entry_of_update_eq, He.
    intros [= <-]. done.
  - exists w'. split; [done|]. rewrite He'. by rewrite Hv.
Qed.

(** *** Errors of factories *)

Lemma factory_error_cached n me key w e err log w2 :
  regular w me →
  entry_of (materialize me key w) me key = Some e → e_s e = hasFactory →
  exec me (Some []) (call code shape (invoke code shape n) (e_v e) me key)
       (update me key (with_s isCreating) (materialize me key w)) = (Thrown err, log, w2) →
  let w3 := update me key (λ _, {| e_s := hasError; e_v := err; e_d := None |}) w2 in
  invoke code shape (S n) me key w = (Thrown err, w3) ∧
  entry_of w3 me key = Some {| e_s := hasError; e_v := err; e_d := None |} ∧
  ∀ m, invoke code shape (S m) me key w3 = (Thrown err, w3).
Proof.
  intros Hreg He Hs Hx w3.
  set (wm := materialize me key w) in *.
  set (w1 := update me key (with_s isCreating) wm) in *.
  assert (evolves w1 w2) as E.
  { pose proof (stable_exec (λ _ _, True) me (Some [])
                  (call code shape (invoke code shape n) (e_v e) me key) w1) as H.
    rewrite Hx in H. apply H. apply evolves_call. intros c k w'. apply evolves_invoke. }
  assert (entry_of w1 me key = Some (with_s isCreating e)) as He1.
  { unfold w1. by rewrite entry_of_update_eq, He. }
  assert (is_Some (entry_of w2 me key)) as [e2 He2].
  { apply (st_some _ _ _ E). by rewrite He1. }
  assert (entry_of w3 me key = Some {| e_s := hasError; e_v := err; e_d := None |}) as He3.
  { unfold w3. by rewrite entry_of_update_eq, He2. }
  assert (regular w3 me) as Hreg3.
  { unfold w3. eapply (regular_stable (others me key)); [apply stable_update_own|].
    eapply regular_stable; [exact E|].
    eapply (regular_stable (others me key)); [apply stable_update_own|].
    eapply regular_stable; [apply (stable_materialize (λ _ _, True))|done]. }
  split; [|split; [done|]].
  - destruct Hreg as (r & p & Hr & Hp). simpl. unfold lookup. rewrite Hr, Hp.
    fold wm. unfold state_machine. rewrite He, Hs.
    unfold case_hasFactory. fold w1. rewrite He1. simpl. by rewrite Hx.
  - intros m. simpl.
    by rewrite (lookup_hasError code shape _ me key _ w3 Hreg3 He3).
Qed.

(** *** Cycles *)

Lemma cycle_detected n me key w e :
  regular w me → entry_of w me key = Some e → e_s e = isCreating →
  invoke code shape (S n) me key w =
    (Thrown (VErr (next w) Error (DidntResolve (String_ (e_v e)) key)),
     set_next (S (next w)) w).
Proof. intros. simpl. by apply lookup_isCreating. Qed.

(** *** Validation resolves the dependencies *)

Lemma validation_resolves n me key w e deps v seen w1 :
  regular w me →
  entry_of (materialize me key w) me key = Some e →
  e_s e = hasValue → e_d e = Some deps →
  checked (invoke code shape n) me (d_c deps) (d_k deps) v seen
          (set_ambient (Some me) None (materialize me key w)) w1 →
  used w1 = None ∧
  (∀ k, k ∈ seen → ∃ x, resolved w1 me k x) ∧
  ∀ r w', invoke code shape (S n) me key w = (r, w') →
    ∀ k, k ∈ seen → v ≠ Differ ∨ k ≠ key →
    ∀ fuel p r2 w2, script code shape fuel p w' = (r2, w2) →
    ∀ y, set me k y w2
           = (Thrown (VErr (next w2) Error (AlreadyRead k)), set_next (S (next w2)) w2)
       ∧ def me k y w2
           = (Thrown (VErr (next w2) Error (AlreadyRead k)), set_next (S (next w2)) w2).
Proof.
  intros Hreg He Hs Hd Hc.
  set (wm := materialize me key w) in *.
  assert (regular (set_ambient (Some me) None wm) me) as Hreg0.
  { assert (regular wm me) as (r0 & p0 & Hr0 & Hp0); [|by exists r0, p0].
    eapply regular_stable; [apply (stable_materialize (λ _ _, True))|done]. }
  pose proof (checked_resolved _ _ _ _ _ _ _ _ Hreg0 Hc) as Hres.
  pose proof (evolves_checked _ _ _ _ _ _ _ _ Hc) as E.
  split; [|split; [done|]].
  - pose proof (st_used _ _ _ E) as Hu. simpl in Hu. done.
  - intros r w' Hi k Hk Hbk fuel p r2 w2 Hp y.
    assert (∃ x, resolved w' me k x) as [x Hx].
    { destruct (Hres k Hk) as [x Hx].
      rewrite (to_use_lookup_hasValue n me key w e Hreg He Hs) in Hi. fold wm in Hi.
      unfold case_hasValue in Hi. rewrite Hd in Hi.
      rewrite (exec_checked _ _ _ _ _ _ _ _ Hc) in Hi.
      set (w2' := set_ambient (ctx wm) (used wm) w1) in *.
      assert (resolved w2' me k x) as Hx2 by done.
      destruct v as [| |err]; cbn [ends] in Hi.
      - unfold case_wasRead in Hi.
        destruct (entry_of (update me key (with_s wasRead) w2') me key) as [e'|]; [|].
        + injection Hi as <- <-. exists x. destruct Hx2 as (e0 & He0 & Hs0 & Hv0).
          exists e0. rewrite entry_of_push, entry_of_update, He0.
          destruct (decide _) as [[_ ->]|]; [|done].
          simpl. split; [|done]. f_equal. destruct e0; simpl in *. by rewrite Hs0.
        + injection Hi as <- <-. exists x. destruct Hx2 as (e0 & He0 & Hs0 & Hv0).
          exists e0. rewrite entry_of_update, He0.
          destruct (decide _) as [[_ ->]|]; [|done].
          simpl. split; [|done]. f_equal. destruct e0; simpl in *. by rewrite Hs0.
      - destruct Hbk as [|Hne]; [done|].
        pose proof (stable_case_hasFactory code shape (invoke code shape n)
                      (λ c k0 w0, evolves_invoke code shape n c k0 w0) me key
                      (update me key (with_v (d_f deps)) w2')) as Hst.
        rewrite Hi in Hst. simpl in Hst.
        pose proof (stable_update_own me key (with_v (d_f deps)) w2') as Hst0.
        exists x. destruct Hx2 as (e0 & He0 & Hs0 & Hv0). exists e0. split; [|done].
        apply (st_read _ _ _ Hst); [intros [= ]; done| |done].
        apply (st_read _ _ _ Hst0); [intros [= ]; done|done..].
      - injection Hi as <- <-. by exists x. }
    pose proof (evolves_script code shape fuel p w') as E2. rewrite Hp in E2. simpl in E2.
    assert (resolved w2 me k x) as Hres2 by (by eapply resolved_stable).
    split; [by eapply set_resolved|by eapply def_resolved].
Qed.

End Claims.

(** ** Parent registries are not written to *)

Lemma entry_of_ctxs w w' c k : ctxs w' = ctxs w → entry_of w' c k = entry_of w c k.
Proof. unfold entry_of. by intros ->. Qed.

Lemma settled_ctxs w w' c k : ctxs w' = ctxs w → settled w c k → settled w' c k.
Proof. intros E (e & He & H). exists e. by rewrite (entry_of_ctxs w w'). Qed.

Lemma regular_ctxs w w' c : ctxs w' = ctxs w → regular w c → regular w' c.
Proof. intros E (r & p & Hr & Hp). exists r, p. by rewrite E. Qed.

Lemma resolved_settled w c k x : resolved w c k x → settled w c k.
Proof. intros (e & He & Hs & _). exists e. rewrite Hs. done. Qed.

Lemma mono_refl w : mono w w.
Proof. by intros c k. Qed.

Lemma mono_trans w1 w2 w3 : mono w1 w2 → mono w2 w3 → mono w1 w3.
Proof. intros H1 H2 c k H. by apply H2, H1. Qed.

Lemma mono_ctxs w w' : ctxs w' = ctxs w → mono w w'.
Proof. intros E c k. by apply settled_ctxs. Qed.

(** A write that leaves a settled entry settled. *)
Lemma mono_update me key f w :
  (∀ e, entry_of w me key = Some e →
        e_s e ≠ hasValue → e_s e ≠ hasFactory →
        e_s (f e) ≠ hasValue ∧ e_s (f e) ≠ hasFactory) →
  mono w (update me key f w).
Proof.
  intros Hf c k (e & He & H1 & H2). unfold settled. rewrite entry_of_update.
  destruct (decide _) as [[-> ->]|].
  - exists (f e). rewrite He. split; [done|]. by apply Hf.
  - by exists e.
Qed.

Lemma mono_store me key e0 w : entry_of w me key = None → mono w (store me key e0 w).
Proof.
  intros Hn c k (e & He & H). exists e. split; [|done].
  rewrite entry_of_store. destruct (decide _) as [[-> ->]|]; [congruence|done].
Qed.

Lemma keeps_refl A w : keeps A w w.
Proof. by intros a. Qed.

Lemma keeps_trans A w1 w2 w3 :
  length (ctxs w1) ≤ length (ctxs w2) → keeps A w1 w2 → keeps A w2 w3 → keeps A w1 w3.
Proof. intros Hl H1 H2 a Ha Hlt. rewrite H2; [by apply H1|done|lia]. Qed.

Lemma keeps_weaken (A B : CtxId → Prop) w w' :
  (∀ a, B a → a < length (ctxs w) → A a) → keeps A w w' → keeps B w w'.
Proof. intros HAB H a Ha Hlt. apply H; auto. Qed.

Lemma keeps_ctxs A w w' : ctxs w' = ctxs w → keeps A w w'.
Proof. intros E a _ _. by rewrite E. Qed.

Lemma keeps_update (A : CtxId → Prop) me key f w : ¬ A me → keeps A w (update me key f w).
Proof.
  intros Hme a Ha _. unfold update; simpl. rewrite list_lookup_alter_ne; [done|].
  by intros ->.
Qed.

Lemma keeps_store (A : CtxId → Prop) me key e w : ¬ A me → keeps A w (store me key e w).
Proof.
  intros Hme a Ha _. unfold store; simpl. rewrite list_lookup_alter_ne; [done|].
  by intros ->.
Qed.

Lemma keeps_newCtx A p w : keeps A w (newCtx p w).2.
Proof. intros a _ Hlt. simpl. by rewrite lookup_app_l. Qed.

(** Soundness after the steps of the library. *)

Lemma sound_init : sound init.
Proof.
  split.
  - intros c key e d He. unfold entry_of, init in He. simpl in He.
    destruct c as [|c]; simpl in He; [by rewrite lookup_empty in He|done].
  - split; [by eexists|]. intros c r Hr Hc. destruct c as [|c]; [done|].
    by destruct c.
  - done.
  - done.
Qed.

Lemma sound_ctxs w w' :
  ctxs w' = ctxs w → ctx w' = ctx w → used w' = used w → sound w → sound w'.
Proof.
  intros E Ec Eu [H1 H2 H3 H4]. split.
  - intros c key e d He Hd. rewrite (entry_of_ctxs w w') in He by done.
    destruct (H1 c key e d He Hd) as [Hr Hk]. split; [by apply (regular_ctxs w)|].
    intros k Hin. by apply (settled_ctxs w), Hk.
  - by rewrite E.
  - intros c l Hc Hl k Hin. rewrite Ec in Hc. rewrite Eu in Hl.
    by apply (settled_ctxs w), (H3 c l).
  - intros c Hc. rewrite Ec in Hc. by apply (regular_ctxs w), H4.
Qed.

Lemma sound_set_next n w : sound w → sound (set_next n w).
Proof. by apply sound_ctxs. Qed.

(** Entering [exec]: the log is empty or there is none. *)
Lemma sound_enter me u w :
  (∀ l, u = Some l → l = []) → regular w me → sound w → sound (set_ambient (Some me) u w).
Proof.
  intros Hu Hreg [H1 H2 H3 H4]. split; try done.
  - simpl. intros c l _ -> k Hin. rewrite (Hu l eq_refl) in Hin. by apply elem_of_nil in Hin.
  - simpl. by intros c [= <-].
Qed.

(** Leaving [exec]: the ambient context and the log of the caller are back. *)
Lemma sound_leave w wb :
  sound w → sound wb → mono w wb → (∀ c, regular w c → regular wb c) →
  sound (set_ambient (ctx w) (used w) wb).
Proof.
  intros [H1 H2 H3 H4] [G1 G2 G3 G4] Hm E. split; try done.
  - simpl. intros c l Hc Hl k Hin. apply (settled_ctxs wb); [done|]. apply Hm. by apply (H3 c l).
  - simpl. intros c Hc. apply (regular_ctxs wb); [done|]. by apply E, H4.
Qed.

Lemma sound_push me key w :
  sound w → settled w me key → sound (push me key w).
Proof.
  intros Hs Hk. unfold push. destruct (ctx w) as [c|] eqn:Hc; [|done].
  destruct (used w) as [l|] eqn:Hl; [|done].
  destruct (decide (c = me)) as [->|]; [|done].
  destruct Hs as [H1 H2 H3 H4]. split; try done.
  - simpl. intros c l' [= <-] [= <-] k Hin.
    apply elem_of_app in Hin as [Hin|Hin].
    + by apply (H3 me l).
    + apply list_elem_of_singleton in Hin as ->. done.
  - simpl. intros c [= <-]. by apply H4.
Qed.

(** A write to an entry: its new dependency record, if any, has to be sound. *)
Lemma sound_update me key f w :
  sound w → mono w (update me key f w) →
  (∀ e d, entry_of w me key = Some e → e_d (f e) = Some d →
          regular w (d_c d) ∧ ∀ k, k ∈ d_k d → settled (update me key f w) (d_c d) k) →
  sound (update me key f w).
Proof.
  intros [H1 H2 H3 H4] Hm Hf.
  assert (∀ c, regular w c → regular (update me key f w) c) as Hreg.
  { intros c. apply regular_prev. intros c'. apply prev_update. }
  split.
  - intros c k e d He Hd. rewrite entry_of_update in He.
    destruct (decide _) as [[<- <-]|].
    + destruct (entry_of w me key) as [e0|] eqn:He0; [|done]. injection He as <-.
      destruct (Hf e0 d eq_refl Hd) as [Hr Hk]. split; [by apply Hreg|done].
    + destruct (H1 c k e d He Hd) as [Hr Hk]. split; [by apply Hreg|].
      intros k0 Hin. by apply Hm, Hk.
  - destruct H2 as [(r & Hr & Hp) Hothers]. split.
    + destruct (prev_lookup w (update me key f w) 0 r (prev_update _ _ _ _ _) Hr) as (r' & Hr' & E).
      exists r'. split; [done|congruence].
    + intros c r' Hr' Hc. pose proof (prev_update me key f w c) as E. rewrite Hr' in E.
      destruct (ctxs w !! c) as [r0|] eqn:Hr0; [|done]. simpl in E.
      injection E as ->. by apply (Hothers c r0).
  - intros c l Hc Hl k Hin. apply Hm. by apply (H3 c l).
  - intros c Hc. by apply Hreg, H4.
Qed.

Lemma sound_store me key e0 w :
  sound w → entry_of w me key = None →
  (∀ d, e_d e0 = Some d → regular w (d_c d) ∧ ∀ k, k ∈ d_k d → settled w (d_c d) k) →
  sound (store me key e0 w).
Proof.
  intros [H1 H2 H3 H4] Hn Hd0.
  pose proof (mono_store me key e0 w Hn) as Hm.
  assert (∀ c, regular w c → regular (store me key e0 w) c) as Hreg.
  { intros c. apply regular_prev. intros c'. apply prev_store. }
  split.
  - intros c k e d He Hd. rewrite entry_of_store in He.
    destruct (decide _) as [[<- <-]|].
    + destruct (ctxs w !! me); [|done]. injection He as <-.
      destruct (Hd0 d Hd) as [Hr Hk]. split; [by apply Hreg|]. intros k Hin. by apply Hm, Hk.
    + destruct (H1 c k e d He Hd) as [Hr Hk]. split; [by apply Hreg|].
      intros k0 Hin. by apply Hm, Hk.
  - destruct H2 as [(r & Hr & Hp) Hothers]. split.
    + destruct (prev_lookup w (store me key e0 w) 0 r (prev_store _ _ _ _ _) Hr) as (r' & Hr' & E).
      exists r'. split; [done|congruence].
    + intros c r' Hr' Hc. pose proof (prev_store me key e0 w c) as E. rewrite Hr' in E.
      destruct (ctxs w !! c) as [r0|] eqn:Hr0; [|done]. simpl in E.
      injection E as ->. by apply (Hothers c r0).
  - intros c l Hc Hl k Hin. apply Hm. by apply (H3 c l).
  - intros c Hc. by apply Hreg, H4.
Qed.

Lemma sound_newCtx me w :
  me < length (ctxs w) → sound w → sound (newCtx (Some me) w).2.
Proof.
  intros Hme [H1 H2 H3 H4].
  assert (∀ c k, settled w c k → settled (newCtx (Some me) w).2 c k) as Hm.
  { intros c k (e & He & H). exists e. by rewrite entry_of_newCtx. }
  assert (∀ c, regular w c → regular (newCtx (Some me) w).2 c) as Hreg.
  { intros c (r & p & Hr & Hp). exists r, p. split; [|done]. simpl. by apply lookup_app_l_Some. }
  split.
  - intros c k e d He Hd. rewrite entry_of_newCtx in He.
    destruct (H1 c k e d He Hd) as [Hr Hk]. split; [by apply Hreg|].
    intros k0 Hin. by apply Hm, Hk.
  - destruct H2 as [(r & Hr & Hp) Hothers]. split.
    + exists r. split; [|done]. simpl. by apply lookup_app_l_Some.
    + intros c r' Hr' Hc. simpl in Hr'.
      destruct (decide (c < length (ctxs w))) as [Hlt|Hge].
      * rewrite lookup_app_l in Hr' by done. by apply (Hothers c).
      * rewrite lookup_app_r in Hr' by lia.
        destruct (c - length (ctxs w)) as [|n]; simpl in Hr'; [|done].
        injection Hr' as <-. by eexists.
  - intros c l Hc Hl k Hin. apply Hm. by apply (H3 c l).
  - intros c Hc. by apply Hreg, H4.
Qed.

Lemma good_refl A w : sound w → good A w w.
Proof. intros H. split; [done|apply mono_refl|apply keeps_refl|done..]. Qed.

Lemma good_trans' (A B : CtxId → Prop) w1 w2 w3 :
  (∀ a, A a → a < length (ctxs w1) → B a) →
  good A w1 w2 → good B w2 w3 → good A w1 w3.
Proof.
  intros HAB [H1 H2 H3 H4 H5 H6] [G1 G2 G3 G4 G5 G6]. split; [done| | | | |].
  - by eapply mono_trans.
  - intros a Ha Hlt. rewrite G3; [by apply H3|by apply HAB|lia].
  - congruence.
  - lia.
  - auto.
Qed.

Lemma good_trans A w1 w2 w3 : good A w1 w2 → good A w2 w3 → good A w1 w3.
Proof. apply good_trans'. auto. Qed.

Lemma good_weaken (A B : CtxId → Prop) w w' :
  (∀ a, B a → a < length (ctxs w) → A a) → good A w w' → good B w w'.
Proof. intros HAB [H1 H2 H3 H4 H5 H6]. split; try done. by eapply keeps_weaken. Qed.

(** A step that leaves the registries as they are. *)
Lemma good_ctxs A w w' :
  ctxs w' = ctxs w → ctx w' = ctx w → sound w' → good A w w'.
Proof.
  intros E Ec Hs. split; [done|by apply mono_ctxs|by apply keeps_ctxs|done|by rewrite E|].
  intros c. by apply regular_ctxs.
Qed.

Lemma good_set_next A n w : sound w → good A w (set_next n w).
Proof. intros Hs. apply good_ctxs; [done..|]. by apply sound_set_next. Qed.

Lemma target_regular w c : regular w c → target w c = Some c.
Proof. intros (r & p & Hr & Hp). unfold target. by rewrite Hr, Hp. Qed.

Lemma target_other w c : sound w → c ≠ 0 → target w c = Some c ∨ target w c = None.
Proof.
  intros Hs Hc. unfold target. destruct (ctxs w !! c) as [r|] eqn:Hr; [|by right].
  destruct (proj2 (rooted _ Hs) c r Hr Hc) as [p ->]. by left.
Qed.

Lemma target_global w : sound w → target w 0 = ctx w.
Proof.
  intros Hs. destruct (proj1 (rooted _ Hs)) as (r & Hr & Hp). unfold target. by rewrite Hr, Hp.
Qed.

Lemma regular_not_global w c : sound w → regular w c → c ≠ 0.
Proof.
  intros Hs (r & p & Hr & Hp) ->. destruct (proj1 (rooted _ Hs)) as (r0 & Hr0 & Hp0).
  congruence.
Qed.

Section Frame.
Context (code : nat → nat → nat → Prog) (shape : nat → KeyShape).
Hypothesis Hreaders : readers code.
Context (look : nat → nat → M World Value).
Hypothesis Hgood : ∀ c k w, sound w → good (λ a, Some a ≠ target w c) w (look c k w).2.
Hypothesis Hpure : ∀ c k w, regular w c → settled w c k → ctxs (look c k w).2 = ctxs w.

Lemma good_fork me key w : sound w → good (λ _, True) w (fork look me key w).2.
Proof.
  intros Hs. unfold fork, method. destruct (ctxs w !! me) as [r|] eqn:Hr; [|by apply good_refl].
  assert (me < length (ctxs w)) as Hme by (by eapply lookup_lt_Some).
  assert (good (λ _, True) w (newCtx (Some me) w).2) as G1.
  { split; [by apply sound_newCtx| |apply keeps_newCtx|done| |].
    - intros c k (e & He & H). exists e. by rewrite entry_of_newCtx.
    - simpl. rewrite length_app. lia.
    - intros c (r0 & p & Hr0 & Hp). exists r0, p. split; [|done].
      simpl. by apply lookup_app_l_Some. }
  unfold bind. simpl. destruct key as [k|]; [|exact G1].
  eapply good_trans'; [|exact G1|apply Hgood, (g_sound _ _ _ G1)].
  intros a _ Hlt. simpl. unfold target. simpl.
  rewrite lookup_app_r by lia. rewrite Nat.sub_diag. simpl. intros [= ->]. lia.
Qed.

Lemma good_run L me p w :
  reader L me p → sound w → ctx w = Some me → me < L → L ≤ length (ctxs w) →
  good (λ a, a < L ∧ a ≠ me) w (run (api look) p w).2.
Proof.
  intros Hp. revert w.
  induction Hp as [x|x|cont _ IH|n cont _ IH|c key cont Hc _ IH|cont _ IH|c cont _ IH
                  |c key cont _ IH|body handler cont _ IHb _ IHh _ IHc];
    intros w Hs Hctx Hme HL; simpl.
  - by apply good_refl.
  - by apply good_refl.
  - unfold bind. simpl.
    apply (good_trans _ _ (set_next (S (next w)) w)); [by apply good_set_next|].
    apply IH; try done. by apply sound_set_next.
  - unfold bind. simpl.
    apply (good_trans _ _ (set_next (S (next w)) w)); [by apply good_set_next|].
    apply IH; try done. by apply sound_set_next.
  - assert (good (λ a, a < L ∧ a ≠ me) w (look c key w).2) as G1.
    { eapply good_weaken; [|by apply Hgood]. intros a [Ha1 Ha2] _. simpl.
      destruct Hc as [->|[->|Hc]].
      - rewrite target_global by done. rewrite Hctx. by intros [= ->].
      - rewrite target_regular; [by intros [= ->]|]. by apply (ambient_ok _ Hs).
      - destruct (target_other w c Hs ltac:(lia)) as [-> | ->]; [|done]. intros [= ->]. lia. }
    unfold bind. destruct (look c key w) as [[x|e|] w1]; simpl in *; try done.
    eapply good_trans; [exact G1|]. apply IH.
    + apply (g_sound _ _ _ G1).
    + by rewrite (g_ctx _ _ _ G1).
    + done.
    + pose proof (g_len _ _ _ G1). lia.
  - unfold bind, this. rewrite Hctx. by apply IH.
  - assert (good (λ a, a < L ∧ a ≠ me) w (fork look c None w).2) as G1.
    { eapply good_weaken; [|by apply good_fork]. done. }
    unfold bind. destruct (fork look c None w) as [[x|e|] w1] eqn:Hf; simpl in *; try done.
    eapply good_trans; [exact G1|].
    assert (∃ c', x = VCtx c' ∧ L ≤ c') as (c' & -> & Hc').
    { unfold fork, method in Hf. destruct (ctxs w !! c); [|done].
      unfold bind in Hf. simpl in Hf. injection Hf as <- <-. eauto. }
    apply IH; try done.
    + apply (g_sound _ _ _ G1).
    + by rewrite (g_ctx _ _ _ G1).
    + pose proof (g_len _ _ _ G1). lia.
  - assert (good (λ a, a < L ∧ a ≠ me) w (fork look c (Some key) w).2) as G1.
    { eapply good_weaken; [|by apply good_fork]. done. }
    unfold bind. destruct (fork look c (Some key) w) as [[x|e|] w1] eqn:Hf; simpl in *; try done.
    eapply good_trans; [exact G1|].
    apply IH; try done.
    + apply (g_sound _ _ _ G1).
    + by rewrite (g_ctx _ _ _ G1).
    + pose proof (g_len _ _ _ G1). lia.
  - pose proof (IHb w Hs Hctx Hme HL) as G1.
    destruct (run (api look) body w) as [[x|e|] w1]; simpl in *; try done.
    + eapply good_trans; [exact G1|]. apply IHc; try done.
      * apply (g_sound _ _ _ G1).
      * by rewrite (g_ctx _ _ _ G1).
      * pose proof (g_len _ _ _ G1). lia.
    + eapply good_trans; [exact G1|].
      assert (sound w1) as Hs1 by apply (g_sound _ _ _ G1).
      assert (ctx w1 = Some me) as Hc1 by (by rewrite (g_ctx _ _ _ G1)).
      assert (L ≤ length (ctxs w1)) as HL1
          by (pose proof (g_len _ _ _ G1); lia).
      pose proof (IHh e w1 Hs1 Hc1 Hme HL1) as G2.
      unfold bind. destruct (run (api look) (handler e) w1) as [[x|e'|] w2]; simpl in *; try done.
      eapply good_trans; [exact G2|]. apply IHc; try done.
      * apply (g_sound _ _ _ G2).
      * by rewrite (g_ctx _ _ _ G2).
      * pose proof (g_len _ _ _ G2). lia.
Qed.

Lemma good_new_error {X} A cls msg w : sound w → good A w (@new_error X cls msg w).2.
Proof. intros Hs. by apply good_set_next. Qed.

Lemma good_call fn me key w :
  sound w → ctx w = Some me → regular w me →
  good (λ a, a ≠ me) w (call code shape look fn me key w).2.
Proof.
  intros Hs Hctx Hreg.
  assert (me < length (ctxs w)) as Hme.
  { destruct Hreg as (r & p & Hr & _). by eapply lookup_lt_Some. }
  assert (∀ f, good (λ a, a ≠ me) w (run (api look) (code f me key) w).2) as Hrun.
  { intros f. eapply good_weaken; [|apply (good_run (length (ctxs w)) me); try done].
    - intros a Ha Hlt. done.
    - by apply Hreaders. }
  unfold call, defaultLookup. destruct fn; try (by apply good_new_error); [apply Hrun|].
  destruct (shape key); [apply Hrun|apply Hrun|by apply good_new_error].
Qed.

Lemma good_every me origin keys w :
  sound w → regular w me → regular w origin → (∀ k, k ∈ keys → settled w origin k) →
  good (λ a, a ≠ me) w (every look me origin keys w).2.
Proof.
  revert w. induction keys as [|k keys IH]; intros w Hs Hme Ho Hk; simpl.
  - by apply good_refl.
  - assert (good (λ a, a ≠ me) w (look me k w).2) as G1.
    { eapply good_weaken; [|by apply Hgood]. intros a Ha _. simpl.
      rewrite target_regular by done. by intros [= ->]. }
    unfold bind. destruct (look me k w) as [[a|e|] w1]; simpl in *; try done.
    assert (regular w1 origin) as Ho1 by (by apply (g_reg _ _ _ G1)).
    assert (regular w1 me) as Hme1 by (by apply (g_reg _ _ _ G1)).
    assert (∀ k0, k0 ∈ k :: keys → settled w1 origin k0) as Hk1.
    { intros k0 Hin. by apply (g_mono _ _ _ G1), Hk. }
    assert (good (λ a, a ≠ me) w1 (look origin k w1).2) as G2.
    { pose proof (Hgood origin k w1 (g_sound _ _ _ G1)) as [H1 H2 H3 H4 H5 H6].
      split; try done. apply keeps_ctxs. apply Hpure; [done|]. apply Hk1. by left. }
    eapply good_trans; [exact G1|].
    destruct (look origin k w1) as [[b|e|] w2]; simpl in *; try done.
    eapply good_trans; [exact G2|].
    destruct (strict_eq a b); [|apply good_refl, (g_sound _ _ _ G2)].
    apply IH.
    + apply (g_sound _ _ _ G2).
    + by apply (g_reg _ _ _ G2).
    + by apply (g_reg _ _ _ G2).
    + intros k0 Hin. apply (g_mono _ _ _ G2), Hk1. by right.
Qed.


(** [exec]: the body runs in a sound world and leaves one. *)
Lemma good_exec {X} A me deps (body : M World X) w :
  sound w → regular w me → (∀ l, deps = Some l → l = []) →
  (sound (set_ambient (Some me) deps w) →
   good A (set_ambient (Some me) deps w) (body (set_ambient (Some me) deps w)).2) →
  good A w (exec me deps body w).2 ∧
  ∀ ks, (exec me deps body w).1.2 = Some ks → ∀ k, k ∈ ks → settled (exec me deps body w).2 me k.
Proof.
  intros Hs Hreg Hdeps Hbody.
  assert (sound (set_ambient (Some me) deps w)) as Hs0 by (by apply sound_enter).
  specialize (Hbody Hs0).
  unfold exec in *. destruct (body (set_ambient (Some me) deps w)) as [r wb]. simpl in *.
  destruct Hbody as [G1 G2 G3 G4 G5 G6]. split.
  - split.
    + apply sound_leave; [done|done| |done].
      intros c k H. apply G2. by apply (settled_ctxs w).
    + intros c k H. apply (settled_ctxs wb); [done|]. apply G2. by apply (settled_ctxs w).
    + intros a Ha Hlt. by apply G3.
    + done.
    + done.
    + intros c Hc. apply (regular_ctxs wb); [done|]. apply G6. by apply (regular_ctxs w).
  - intros ks Hks k Hin. apply (settled_ctxs wb); [done|].
    by apply (log_ok _ G1 me ks).
Qed.

(** A write to the entry of [key] in [me]. *)
Lemma good_update me key f w :
  sound w →
  (∀ e, entry_of w me key = Some e →
        e_s e ≠ hasValue → e_s e ≠ hasFactory →
        e_s (f e) ≠ hasValue ∧ e_s (f e) ≠ hasFactory) →
  (∀ e d, entry_of w me key = Some e → e_d (f e) = Some d →
          regular w (d_c d) ∧ ∀ k, k ∈ d_k d → settled w (d_c d) k) →
  good (λ a, a ≠ me) w (update me key f w).
Proof.
  intros Hs Hf Hd. pose proof (mono_update me key f w Hf) as Hm.
  split; [|done|apply keeps_update; by intros H|done| |].
  - apply sound_update; [done..|]. intros e d He Hde.
    destruct (Hd e d He Hde) as [Hr Hk]. split; [done|]. intros k Hin. by apply Hm, Hk.
  - unfold update; simpl. by rewrite length_alter.
  - intros c. apply regular_prev. intros c'. apply prev_update.
Qed.


Lemma ctx_push me key w : ctx (push me key w) = ctx w.
Proof.
  unfold push. destruct (ctx w) eqn:E; [|done]. destruct (used w); [|done].
  by destruct (decide _).
Qed.

Lemma good_case_wasRead A me key w :
  sound w → settled w me key → good A w (case_wasRead me key w).2.
Proof.
  intros Hs Hk. unfold case_wasRead. destruct (entry_of w me key); [|by apply good_refl].
  simpl. apply good_ctxs; [apply ctxs_push|apply ctx_push|by apply sound_push].
Qed.

Lemma settled_update_eq me key f w :
  is_Some (entry_of w me key) →
  (∀ e, e_s (f e) ≠ hasValue ∧ e_s (f e) ≠ hasFactory) →
  settled (update me key f w) me key.
Proof.
  intros [e He] Hf. exists (f e). split; [by rewrite entry_of_update_eq, He|apply Hf].
Qed.

Lemma good_case_hasFactory me key w :
  sound w → regular w me → good (λ a, a ≠ me) w (case_hasFactory code shape look me key w).2.
Proof.
  intros Hs Hreg. unfold case_hasFactory.
  set (w1 := update me key (with_s isCreating) w).
  assert (good (λ a, a ≠ me) w w1) as G0.
  { apply good_update; [done|done|]. intros e d He Hd. by apply (deps_ok _ Hs me key e d). }
  destruct (entry_of w1 me key) as [entry|] eqn:He1; [|done].
  assert (settled w1 me key) as Hk1.
  { exists entry. split; [done|]. unfold w1 in He1. rewrite entry_of_update_eq in He1.
    destruct (entry_of w me key); [|done]. by injection He1 as <-. }
  destruct (good_exec (λ a, a ≠ me) me (Some [])
              (call code shape look (e_v entry) me key) w1 (g_sound _ _ _ G0)
              (g_reg _ _ _ G0 me Hreg)) as [G1 Hlog].
  { by intros l [= <-]. }
  { intros Hs0. apply good_call; [done|done|]. apply (regular_ctxs w1); [done|].
    by apply (g_reg _ _ _ G0). }
  destruct (exec me (Some []) (call code shape look (e_v entry) me key) w1)
    as [[r keys] w2]. simpl in *.
  assert (sound w2) as Hs2 by apply (g_sound _ _ _ G1).
  assert (settled w2 me key) as Hk2 by (by apply (g_mono _ _ _ G1)).
  assert (∀ e w', sound w' → settled w' me key →
            good (λ a, a ≠ me) w'
              (update me key (λ _, {| e_s := hasError; e_v := e; e_d := None |}) w')) as Hcaught.
  { intros e w' Hs' Hk'. by apply good_update. }
  eapply good_trans; [exact G0|]. eapply good_trans; [exact G1|].
  destruct r as [x|e|]; simpl; [|by apply Hcaught|by apply good_refl].
  unfold setEntry. destruct Hk2 as (e2 & He2 & Hne2). rewrite He2.
  assert (settled w2 me key) as Hk2 by (by exists e2).
  set (w3 := update me key (λ _, {| e_s := wasRead; e_v := x; e_d := None |}) w2).
  assert (good (λ a, a ≠ me) w2 w3) as G3 by (by apply good_update).
  assert (settled w3 me key) as Hk3.
  { apply settled_update_eq; [by rewrite He2|done]. }
  assert (∀ w4, good (λ a, a ≠ me) w3 w4 → settled w4 me key →
            good (λ a, a ≠ me) w2 (case_wasRead me key w4).2) as Hread.
  { intros w4 G Hk4. eapply good_trans; [exact G3|]. eapply good_trans; [exact G|].
    apply good_case_wasRead; [apply (g_sound _ _ _ G)|done]. }
  assert (good (λ a, a ≠ me) w2
            (let w4 := match keys with
                       | Some ((_ :: _) as ks) =>
                           update me key
                             (with_d (Some {| d_c := me; d_k := ks; d_f := e_v entry |})) w3
                       | _ => w3
                       end in
             case_wasRead me key w4).2) as G4.
  { destruct keys as [[|k ks]|]; simpl;
      try (apply Hread; [apply good_refl, (g_sound _ _ _ G3)|done]).
    set (d := {| d_c := me; d_k := k :: ks; d_f := e_v entry |}).
    assert (good (λ a, a ≠ me) w3 (update me key (with_d (Some d)) w3)) as G5.
    { apply good_update; [apply (g_sound _ _ _ G3)|done|].
      intros e0 d0 _ [= <-]. simpl. split.
      - apply (g_reg _ _ _ G3), (g_reg _ _ _ G1), (g_reg _ _ _ G0), Hreg.
      - intros k0 Hin. apply (g_mono _ _ _ G3). by apply (Hlog (k :: ks)). }
    apply Hread; [done|]. by apply (g_mono _ _ _ G5). }
  destruct (e_s e2) eqn:Hs2'; simpl; try exact G4.
  eapply good_trans; [by apply (good_set_next _ (S (next w2)))|].
    apply Hcaught; [by apply sound_set_next|done].
Qed.

Lemma good_case_hasValue me key entry w :
  sound w → regular w me → entry_of w me key = Some entry → e_s entry = hasValue →
  good (λ a, a ≠ me) w (case_hasValue code shape look me key entry w).2.
Proof.
  intros Hs Hreg He Hse. unfold case_hasValue.
  assert (∀ w', sound w' →
            good (λ a, a ≠ me) w' (case_wasRead me key (update me key (with_s wasRead) w')).2)
    as Hshare.
  { intros w' Hs'.
    assert (good (λ a, a ≠ me) w' (update me key (with_s wasRead) w')) as G.
    { apply good_update; [done|done|]. intros e d He0 Hd. by apply (deps_ok _ Hs' me key e d). }
    eapply good_trans; [exact G|].
    destruct (entry_of w' me key) as [e'|] eqn:He'.
    - apply good_case_wasRead; [apply (g_sound _ _ _ G)|].
      apply settled_update_eq; [by rewrite He'|done].
    - unfold case_wasRead. rewrite entry_of_update_eq, He'. simpl.
      apply good_refl, (g_sound _ _ _ G). }
  destruct (e_d entry) as [deps|] eqn:Hd; [|by apply Hshare].
  destruct (deps_ok _ Hs me key entry deps He Hd) as [Horigin Hkeys].
  destruct (good_exec (λ a, a ≠ me) me None
              (every look me (d_c deps) (d_k deps)) w Hs Hreg) as [G1 _].
  { done. }
  { intros Hs0. apply good_every; [done|by apply (regular_ctxs w)|by apply (regular_ctxs w)|].
    intros k Hin. by apply (settled_ctxs w), Hkeys. }
  destruct (exec me None (every look me (d_c deps) (d_k deps)) w) as [[r log] w1].
  simpl in *. eapply good_trans; [exact G1|].
  assert (sound w1) as Hs1 by apply (g_sound _ _ _ G1).
  destruct r as [[]|e|]; simpl; try (by apply good_refl).
  - by apply Hshare.
  - assert (good (λ a, a ≠ me) w1 (update me key (with_v (d_f deps)) w1)) as G2.
    { apply good_update; [done|done|]. intros e d He0 Hd0. by apply (deps_ok _ Hs1 me key e d). }
    eapply good_trans; [exact G2|]. apply good_case_hasFactory; [apply (g_sound _ _ _ G2)|].
    apply (g_reg _ _ _ G2), (g_reg _ _ _ G1), Hreg.
Qed.


Lemma inherited_source n cs r key e :
  inherited n cs r key = Some e →
  ∃ c reg e', cs !! c = Some reg ∧ entries reg !! key = Some e' ∧ e = spread e'.
Proof.
  revert r. induction n as [|n IH]; intros r; simpl; [done|].
  destruct r as [c|]; [|done]. destruct (cs !! c) as [reg|] eqn:Hc; [|done].
  destruct (entries reg !! key) as [e'|] eqn:He.
  - intros [= <-]. by exists c, reg, e'.
  - apply IH.
Qed.

Lemma good_store me key e0 w :
  sound w → entry_of w me key = None →
  (∀ d, e_d e0 = Some d → regular w (d_c d) ∧ ∀ k, k ∈ d_k d → settled w (d_c d) k) →
  good (λ a, a ≠ me) w (store me key e0 w).
Proof.
  intros Hs Hn Hd. split.
  - by apply sound_store.
  - by apply mono_store.
  - apply keeps_store. by intros H.
  - done.
  - unfold store; simpl. by rewrite length_alter.
  - intros c. apply regular_prev. intros c'. apply prev_store.
Qed.

Lemma good_materialize me key w :
  sound w → good (λ a, a ≠ me) w (materialize me key w).
Proof.
  intros Hs. unfold materialize. destruct (ctxs w !! me) as [reg|] eqn:Hr; [|by apply good_refl].
  destruct (entries reg !! key) eqn:He; [by apply good_refl|].
  apply good_store; [done|by unfold entry_of; rewrite Hr|].
  destruct (inherited _ _ _ _) as [e|] eqn:Hi; [|done].
  apply inherited_source in Hi as (c & reg' & e' & Hc & He' & ->). simpl.
  intros d Hd. apply (deps_ok _ Hs c key e' d); [|done]. unfold entry_of. by rewrite Hc.
Qed.

Lemma good_state_machine me key w :
  sound w → regular w me → good (λ a, a ≠ me) w (state_machine code shape look me key w).2.
Proof.
  intros Hs Hreg. unfold state_machine.
  destruct (entry_of w me key) as [entry|] eqn:He; [|by apply good_refl].
  destruct (e_s entry) eqn:Hse.
  - apply good_case_wasRead; [done|]. exists entry. by rewrite Hse.
  - by apply good_case_hasValue.
  - by apply good_case_hasFactory.
  - by apply good_refl.
  - by apply good_new_error.
Qed.

Lemma good_lookup me key w :
  sound w → good (λ a, Some a ≠ target w me) w (lookup code shape look me key w).2.
Proof.
  intros Hs. unfold lookup, target.
  destruct (ctxs w !! me) as [reg|] eqn:Hr; [|by apply good_refl].
  destruct (prev reg) as [p|] eqn:Hp.
  - assert (regular w me) as Hreg by (by exists reg, p).
    apply (good_weaken (λ a, a ≠ me)); [by intros a Ha _ ->|].
    pose proof (good_materialize me key w Hs) as G.
    eapply good_trans; [exact G|]. apply good_state_machine; [apply (g_sound _ _ _ G)|].
    by apply (g_reg _ _ _ G).
  - unfold this. destruct (ctx w) as [c|] eqn:Hc; [|by apply good_new_error].
    eapply good_weaken; [|by apply Hgood]. intros a Ha _. simpl.
    rewrite target_regular; [done|]. by apply (ambient_ok _ Hs).
Qed.

(** A lookup of a settled entry writes to no registry. *)
Lemma pure_lookup me key w :
  regular w me → settled w me key → ctxs (lookup code shape look me key w).2 = ctxs w.
Proof.
  intros (r & p & Hr & Hp) (e & He & H1 & H2). unfold lookup. rewrite Hr, Hp.
  rewrite (materialize_present me key e w) by done.
  unfold state_machine. rewrite He. destruct (e_s e); try done.
  unfold case_wasRead. rewrite He. simpl. apply ctxs_push.
Qed.

End Frame.

(** While a context resolves a key, with factories that only read, the
    registries of all other contexts stay as they are. *)
Lemma good_invoke code shape :
  readers code →
  ∀ fuel me key w,
    (sound w → good (λ a, Some a ≠ target w me) w (invoke code shape fuel me key w).2) ∧
    (regular w me → settled w me key → ctxs (invoke code shape fuel me key w).2 = ctxs w).
Proof.
  intros Hreaders. induction fuel as [|n IH]; intros me key w; simpl.
  - split; [apply good_refl|done].
  - split.
    + apply good_lookup; [done|apply IH|apply IH].
    + apply pure_lookup.
Qed.

Lemma sound_invoke code shape fuel me key w :
  readers code → sound w → sound (invoke code shape fuel me key w).2.
Proof. intros Hr Hs. by apply (good_invoke code shape Hr fuel me key w). Qed.

Lemma frame_invoke code shape fuel me key w :
  readers code → sound w → regular w me →
  keeps (λ a, a ≠ me) w (invoke code shape fuel me key w).2.
Proof.
  intros Hr Hs Hreg. eapply keeps_weaken; [|by apply (good_invoke code shape Hr fuel me key w)].
  intros a Ha _. simpl. rewrite target_regular by done. by intros [= ->].
Qed.

(** Writes at top level, to a key that is not settled. *)
Lemma sound_setEntry c key s x w :
  sound w → ¬ settled w c key ∨ (∃ y, resolved w c key y) →
  sound (setEntry c key s x w).2.
Proof.
  intros Hs Hk. unfold setEntry. destruct (entry_of w c key) as [e|] eqn:He.
  - destruct (decide (e_s e = wasRead)) as [Hr|Hr].
    + rewrite Hr. simpl. by apply sound_set_next.
    + assert (¬ settled w c key) as Hn.
      { destruct Hk as [|(y & e' & He' & Hs' & _)]; [done|congruence]. }
      assert (sound (update c key (λ _, {| e_s := s; e_v := x; e_d := None |}) w)).
      { apply sound_update; [done| |done].
        intros c' k' Hset. destruct (decide ((c', k') = (c, key))) as [[= -> ->]|Hne]; [done|].
        destruct Hset as (e' & He' & H). exists e'. by rewrite entry_of_update_ne. }
      by destruct (e_s e).
  - simpl. by apply sound_store.
Qed.

Lemma sound_set me key x w :
  sound w → ¬ settled w me key ∨ (∃ y, resolved w me key y) → sound (set me key x w).2.
Proof.
  intros Hs Hk. unfold set, method. destruct (ctxs w !! me); [|done].
  unfold bind. pose proof (sound_setEntry me key hasValue x w Hs Hk) as H.
  by destruct (setEntry me key hasValue x w) as [[[]|e|] w'].
Qed.

Lemma sound_def me key x w :
  sound w → ¬ settled w me key ∨ (∃ y, resolved w me key y) → sound (def me key x w).2.
Proof.
  intros Hs Hk. unfold def, method. destruct (ctxs w !! me); [|done].
  unfold bind. pose proof (sound_setEntry me key hasFactory x w Hs Hk) as H.
  by destruct (setEntry me key hasFactory x w) as [[[]|e|] w'].
Qed.

Lemma sound_fork look me w : sound w → sound (fork look me None w).2.
Proof.
  intros Hs. unfold fork, method. destruct (ctxs w !! me) eqn:E; [|done].
  simpl. apply sound_newCtx; [|done]. by eapply lookup_lt_Some.
Qed.

End ToUseFacts.


(** * Properties of [use-this.ts] *)

Module UseThisFacts.
Import UseThis.

(** ** Reading the heap *)

(** A read does not depend on the bound, past the address. *)
Lemma get_fuel {A} (p : Obj → option A) h n m a :
  (∀ a o q, h !! a = Some o → proto o = Some q → q < a) →
  a < n → a < m → get p n h a = get p m h a.
Proof.
  intros Hok. revert m a. induction n as [|n IH]; intros m a Hn Hm; [lia|].
  destruct m as [|m]; [lia|]. simpl.
  destruct (h !! a) as [o|] eqn:Ha; [|done].
  destruct (p o); [done|]. destruct (proto o) as [q|] eqn:Hq; [|done].
  specialize (Hok a o q Ha Hq). apply IH; lia.
Qed.

(** A write to another property, or one that leaves the property as it is. *)
Lemma get_alter_same {A} (p : Obj → option A) f b h n a :
  (∀ o, p (f o) = p o) → (∀ o, proto (f o) = proto o) →
  get p n (alter f b h) a = get p n h a.
Proof.
  intros Hp Hproto. revert a. induction n as [|n IH]; intros a; [done|]. simpl.
  rewrite list_lookup_alter. destruct (decide (b = a)) as [->|].
  - destruct (h !! a) as [o|]; [|done]. simpl. rewrite Hp, Hproto.
    destruct (p o); [done|]. by destruct (proto o).
  - destruct (h !! a) as [o|]; [|done]. destruct (p o); [done|]. by destruct (proto o).
Qed.

(** A write of the property, read back from the object. *)
Lemma get_alter_own {A} (p : Obj → option A) f a h n x :
  a < length h → (∀ o, p (f o) = Some x) → get p (S n) (alter f a h) a = Some x.
Proof.
  intros Ha Hp. simpl. rewrite list_lookup_alter_eq.
  destruct (lookup_lt_is_Some_2 h a Ha) as [o ->]. simpl. by rewrite Hp.
Qed.

(** Objects added at the end. *)
Lemma get_app {A} (p : Obj → option A) h t n a :
  (∀ a o q, h !! a = Some o → proto o = Some q → q < a) →
  a < length h → get p n (h ++ t) a = get p n h a.
Proof.
  intros Hok. revert a. induction n as [|n IH]; intros a Ha; [done|]. simpl.
  rewrite lookup_app_l by done.
  destruct (h !! a) as [o|] eqn:Ho; [|done]. destruct (p o); [done|].
  destruct (proto o) as [q|] eqn:Hq; [|done]. apply IH.
  specialize (Hok a o q Ho Hq). lia.
Qed.

(** ** Frozen entries *)

Lemma frozen_lt h a x : frozen h a x → a < length h.
Proof. intros H. destruct H; by eapply lookup_lt_Some. Qed.

(** A frozen entry reads [wasRead] and its value. *)
Lemma frozen_get h a x n :
  (∀ a o q, h !! a = Some o → proto o = Some q → q < a) →
  frozen h a x → a < n → get o_s n h a = Some wasRead ∧ get o_v n h a = Some x.
Proof.
  intros Hok H. revert n. induction H as [a o x Ha Hs Hv|a o a' x Ha Hs Hv Hp H IH];
    intros n Hn; (destruct n as [|n]; [lia|]); simpl; rewrite Ha.
  - by rewrite Hs, Hv.
  - rewrite Hs, Hv, Hp. apply IH. specialize (Hok a o a' Ha Hp). lia.
Qed.

Lemma frozen_read w a x :
  wf w → frozen (heap w) a x → read_s w a = Some wasRead ∧ read_v w a = x.
Proof.
  intros Hwf H. unfold read_s, read_v.
  destruct (frozen_get (heap w) a x (length (heap w)) (wf_proto _ Hwf) H (frozen_lt _ _ _ H))
    as [-> ->]. done.
Qed.

(** An entry that reads [wasRead] is frozen. *)
Lemma get_frozen h n a :
  (∀ a o, h !! a = Some o → o_s o = None → o_v o = None) →
  (∀ a o, h !! a = Some o → o_s o = Some wasRead → is_Some (o_v o)) →
  get o_s n h a = Some wasRead →
  ∃ x, frozen h a x ∧ get o_v n h a = Some x.
Proof.
  intros H1 H2. revert a. induction n as [|n IH]; intros a; [done|]. simpl.
  destruct (h !! a) as [o|] eqn:Ha; [|done].
  destruct (o_s o) as [s|] eqn:Hs.
  - intros [= ->]. destruct (H2 a o Ha Hs) as [x Hx]. exists x. rewrite Hx.
    split; [|done]. by eapply frozen_own.
  - rewrite (H1 a o Ha Hs). destruct (proto o) as [a'|] eqn:Hp; [|done].
    intros H. destruct (IH a' H) as (x & Hf & Hx). exists x. split; [|done].
    eapply frozen_inherited; eauto.
Qed.

Lemma read_frozen w a :
  wf w → read_s w a = Some wasRead → frozen (heap w) a (read_v w a).
Proof.
  intros Hwf H. unfold read_s in H.
  destruct (get_frozen (heap w) _ a (wf_payload _ Hwf) (wf_read _ Hwf) H) as (x & Hf & Hx).
  unfold read_v. by rewrite Hx.
Qed.

(** What is frozen stays frozen when the frozen objects stay as they are. *)
Lemma frozen_kept h h' a x :
  (∀ a x o, frozen h a x → h !! a = Some o → h' !! a = Some o) →
  frozen h a x → frozen h' a x.
Proof.
  intros Hk H. induction H as [a o x Ha Hs Hv|a o a' x Ha Hs Hv Hp H IH].
  - eapply frozen_own; [|done..]. apply (Hk a x); [by eapply frozen_own|done].
  - eapply frozen_inherited; [|done..]. apply (Hk a x); [|done].
    eapply frozen_inherited; eauto.
Qed.


(** ** Stability *)

Lemma ut_used_grows_refl (u : option (list nat)) :
  match u with Some l => ∃ l', u = Some (l ++ l') | None => u = None end.
Proof. destruct u as [l|]; [|done]. exists []. by rewrite app_nil_r. Qed.

Lemma kept_refl w : kept (heap w) w.
Proof. by intros a x o _ H. Qed.

Lemma kept_frozen h0 w a x : kept h0 w → frozen h0 a x → frozen (heap w) a x.
Proof. intros Hk. apply frozen_kept. intros a0 x0 o0 Hf Ho. by apply (Hk a0 x0). Qed.

Lemma ut_stable_refl h0 Q w : stable h0 Q w w.
Proof.
  split; try done.
  - apply ut_used_grows_refl.
  - intros c r Hr. by exists r.
Qed.

Lemma ut_stable_trans h0 Q w1 w2 w3 :
  stable h0 Q w1 w2 → stable h0 Q w2 w3 → stable h0 Q w1 w3.
Proof.
  intros [H1 H2 H3 H4 H5 H6 H7 H8 H9 H10] [G1 G2 G3 G4 G5 G6 G7 G8 G9 G10]. split.
  - congruence.
  - destruct (used w1) as [l|].
    + destruct H2 as [l' H2]. rewrite H2 in G2. destruct G2 as [l'' G2].
      exists (l' ++ l''). by rewrite app_assoc.
    + by rewrite H2 in G2.
  - lia.
  - lia.
  - lia.
  - auto.
  - auto.
  - intros c r Hr. destruct (H8 c r Hr) as (r' & Hr' & E).
    destruct (G8 c r' Hr') as (r'' & Hr'' & E'). exists r''. split; [done|congruence].
  - auto.
  - auto.
Qed.

Lemma ut_stable_weaken h0 (Q Q' : CtxId → Key → Prop) w w' :
  (∀ c k, Q' c k → Q c k) → stable h0 Q w w' → stable h0 Q' w w'.
Proof. intros HQ [H1 H2 H3 H4 H5 H6 H7 H8 H9 H10]. split; auto. Qed.

(** An operation that keeps what was frozen when it started keeps what was
    frozen before. *)
Lemma evolves_stable h0 Q w w' : evolves w w' → stable h0 Q w w'.
Proof.
  intros [H1 H2 H3 H4 H5 H6 H7 H8 H9 H10]. split; auto.
  intros Hk a x o Hf Ho. apply (H10 (kept_refl w) a x); [|by apply (Hk a x)].
  by apply (kept_frozen h0).
Qed.

(** The steps of the library. *)

Lemma stable_same h0 Q w w' :
  heap w' = heap w → ctxs w' = ctxs w → ctx w' = ctx w → next w ≤ next w' →
  match used w with
  | Some l => ∃ l', used w' = Some (l ++ l')
  | None => used w' = None
  end →
  stable h0 Q w w'.
Proof.
  intros Eh Ec Ex En Eu. split; try done.
  - by rewrite Ec.
  - by rewrite Eh.
  - unfold chain_ok. by rewrite Ec.
  - intros [W1 W2 W3 W4 W5 W6]. split; try (by rewrite Eh); try (by unfold entry_of; rewrite Ec).
    intros c k a. unfold entry_of. rewrite Ec, Eh. apply W4.
  - intros c r Hr. exists r. by rewrite Ec.
  - intros c k a _. unfold entry_of. by rewrite Ec.
  - unfold kept. by rewrite Eh.
Qed.

Lemma ut_stable_set_next h0 Q n w : next w ≤ n → stable h0 Q w (set_next n w).
Proof. intros Hn. apply stable_same; try done. apply ut_used_grows_refl. Qed.

Lemma ut_stable_push h0 Q me key w : stable h0 Q w (push me key w).
Proof.
  unfold push. destruct (ctx w) eqn:Hc; [|apply ut_stable_refl].
  destruct (used w) eqn:Hu; [|apply ut_stable_refl].
  destruct (decide _); [|apply ut_stable_refl].
  apply stable_same; try done. rewrite Hu. simpl. by eexists.
Qed.

(** A write to the object at [b], which was not frozen. *)
Lemma stable_modify h0 Q b f w :
  (∀ y, ¬ frozen h0 b y) →
  (∀ o, proto (f o) = proto o) →
  (∀ o, o_s (f o) = None → o_s o = None ∧ o_v (f o) = o_v o) →
  (∀ o, (o_s o = Some wasRead → is_Some (o_v o)) →
        o_s (f o) = Some wasRead → is_Some (o_v (f o))) →
  stable h0 Q w (modify b f w).
Proof.
  intros Hb Hp Hn Hr. split; try done.
  - apply ut_used_grows_refl.
  - unfold modify; simpl. by rewrite length_alter.
  - intros [W1 W2 W3 W4 W5 W6]. split.
    + intros a o q. unfold modify; simpl. rewrite list_lookup_alter.
      destruct (decide (b = a)) as [->|]; [|apply W1].
      destruct (heap w !! a) as [o0|] eqn:E; [|done]. simpl. intros [= <-].
      rewrite Hp. by apply W1.
    + intros a o. unfold modify; simpl. rewrite list_lookup_alter.
      destruct (decide (b = a)) as [->|]; [|apply W2].
      destruct (heap w !! a) as [o0|] eqn:E; [|done]. simpl. intros [= <-] Hs.
      destruct (Hn o0 Hs) as [Hs0 ->]. by apply (W2 a).
    + intros a o. unfold modify; simpl. rewrite list_lookup_alter.
      destruct (decide (b = a)) as [->|]; [|apply W3].
      destruct (heap w !! a) as [o0|] eqn:E; [|done]. simpl. intros [= <-]. apply Hr.
      by apply (W3 a).
    + intros c k a. unfold modify; simpl. rewrite length_alter. apply W4.
    + apply W5.
    + apply W6.
  - intros c r Hr'. by exists r.
  - intros Hk a x o Hf Ho. unfold modify; simpl. rewrite list_lookup_alter_ne.
    + by apply (Hk a x).
    + intros ->. by apply (Hb x).
Qed.

Lemma heap_alloc o w : heap (alloc o w).2 = heap w ++ [o].
Proof. done. Qed.

(** A new object, made from an object of the heap or from none. *)
Lemma stable_alloc h0 Q o w :
  (∀ p, proto o = Some p → p < length (heap w)) →
  (o_s o = None → o_v o = None) →
  (o_s o = Some wasRead → is_Some (o_v o)) →
  stable h0 Q w (alloc o w).2.
Proof.
  intros Hp Hn Hr. split; try done.
  - apply ut_used_grows_refl.
  - simpl. rewrite length_app. lia.
  - intros [W1 W2 W3 W4 W5 W6]. split.
    + intros a o' q. simpl. intros Ha Hq.
      destruct (decide (a < length (heap w))) as [Hlt|Hge].
      * rewrite lookup_app_l in Ha by done. by apply (W1 a o').
      * rewrite lookup_app_r in Ha by lia.
        destruct (a - length (heap w)) as [|n] eqn:E; simpl in Ha; [|done].
        injection Ha as <-. specialize (Hp q Hq). lia.
    + intros a o'. simpl. intros Ha.
      destruct (decide (a < length (heap w))) as [Hlt|Hge].
      * rewrite lookup_app_l in Ha by done. by apply (W2 a o').
      * rewrite lookup_app_r in Ha by lia.
        destruct (a - length (heap w)) as [|n] eqn:E; simpl in Ha; [|done].
        by injection Ha as <-.
    + intros a o'. simpl. intros Ha.
      destruct (decide (a < length (heap w))) as [Hlt|Hge].
      * rewrite lookup_app_l in Ha by done. by apply (W3 a o').
      * rewrite lookup_app_r in Ha by lia.
        destruct (a - length (heap w)) as [|n] eqn:E; simpl in Ha; [|done].
        by injection Ha as <-.
    + intros c k a Ha. simpl. rewrite length_app. specialize (W4 c k a Ha). lia.
    + apply W5.
    + apply W6.
  - intros c r Hr'. by exists r.
  - intros Hk a x o' Hf Ho. simpl. apply lookup_app_l_Some. by apply (Hk a x).
Qed.


(** ** Reading the registries after a write *)

Lemma ut_entry_of_store c k a w c' k' :
  entry_of (store c k a w) c' k' =
  if decide (c = c' ∧ k = k')
  then match ctxs w !! c' with Some _ => Some a | None => None end
  else entry_of w c' k'.
Proof.
  unfold entry_of, store; simpl. rewrite list_lookup_alter.
  destruct (decide (c = c')) as [->|Hc].
  - destruct (ctxs w !! c') as [r|]; simpl.
    + rewrite lookup_insert. destruct (decide (k = k')) as [->|Hk].
      * rewrite decide_True by done. done.
      * rewrite decide_False by (intros [? ?]; done). done.
    + by destruct (decide _).
  - rewrite decide_False by (intros [? ?]; done). done.
Qed.

Lemma ut_prev_store c k a w c' :
  prev <$> ctxs (store c k a w) !! c' = prev <$> ctxs w !! c'.
Proof.
  unfold store; simpl. rewrite list_lookup_alter.
  destruct (decide (c = c')) as [->|]; [|done]. by destruct (ctxs w !! c').
Qed.

Lemma ut_chain_ok_prev w w' :
  (∀ c, prev <$> ctxs w' !! c = prev <$> ctxs w !! c) → chain_ok w → chain_ok w'.
Proof.
  intros E H c r p Hr Hp. specialize (E c). rewrite Hr in E. simpl in E.
  destruct (ctxs w !! c) as [r0|] eqn:Hr0; [|done]. simpl in E.
  apply (H c r0 p Hr0). congruence.
Qed.

Lemma ut_prev_lookup w w' c r :
  prev <$> ctxs w' !! c = prev <$> ctxs w !! c → ctxs w !! c = Some r →
  ∃ r', ctxs w' !! c = Some r' ∧ prev r' = prev r.
Proof.
  intros E Hr. rewrite Hr in E. destruct (ctxs w' !! c) as [r'|]; [|done].
  exists r'. split; [done|]. simpl in E. congruence.
Qed.

Lemma entry_of_heap h w c k : entry_of (set_heap h w) c k = entry_of w c k.
Proof. done. Qed.

Lemma rooted_prev w w' :
  (∀ c, prev <$> ctxs w' !! c = prev <$> ctxs w !! c) →
  (∃ r, ctxs w !! 0 = Some r ∧ prev r = None) ∧
    (∀ c r, ctxs w !! c = Some r → c ≠ 0 → is_Some (prev r)) →
  (∃ r, ctxs w' !! 0 = Some r ∧ prev r = None) ∧
    (∀ c r, ctxs w' !! c = Some r → c ≠ 0 → is_Some (prev r)).
Proof.
  intros E [(r & Hr & Hp) Hothers]. split.
  - destruct (ut_prev_lookup w w' 0 r (E 0) Hr) as (r' & Hr' & E'). exists r'.
    split; [done|congruence].
  - intros c r' Hr' Hc. specialize (E c). rewrite Hr' in E.
    destruct (ctxs w !! c) as [r0|] eqn:Hr0; [|done]. simpl in E.
    injection E as ->. by apply (Hothers c r0).
Qed.

(** [registry.set(key, a)] in [me], for an object [a] that no registry
    holds. *)
Lemma ut_stable_store h0 me key a w :
  a < length (heap w) → (∀ c k, entry_of w c k ≠ Some a) →
  stable h0 (others me key) w (store me key a w).
Proof.
  intros Ha Hfresh. split; try done.
  - apply ut_used_grows_refl.
  - unfold store; simpl. by rewrite length_alter.
  - apply ut_chain_ok_prev. apply ut_prev_store.
  - intros [W1 W2 W3 W4 W5 W6]. split; try done.
    + intros c k a'. rewrite ut_entry_of_store. destruct (decide _) as [[<- <-]|]; [|apply W4].
      destruct (ctxs w !! me); [|done]. by intros [= <-].
    + intros c k c' k' a'. rewrite !ut_entry_of_store.
      destruct (decide (me = c ∧ key = k)) as [[<- <-]|H1];
        destruct (decide (me = c' ∧ key = k')) as [[<- <-]|H2]; try done.
      * destruct (ctxs w !! me); [|done]. intros [= <-] H. by destruct (Hfresh c' k').
      * destruct (ctxs w !! me); [|done]. intros H [= <-]. by destruct (Hfresh c k).
      * apply W5.
    + apply (rooted_prev w); [apply ut_prev_store|done].
  - intros c r. apply ut_prev_lookup, ut_prev_store.
  - intros c k a' Hne. rewrite ut_entry_of_store. by rewrite decide_False by (intros [<- <-]; done).
Qed.

Lemma ut_entry_of_newCtx p w c k : entry_of (newCtx p w).2 c k = entry_of w c k.
Proof.
  unfold entry_of, newCtx; simpl.
  destruct (decide (c < length (ctxs w))) as [Hlt|Hge].
  - by rewrite lookup_app_l.
  - rewrite (lookup_ge_None_2 (ctxs w)) by lia.
    rewrite lookup_app_r by lia.
    destruct (c - length (ctxs w)) as [|n]; simpl; [by rewrite lookup_empty|done].
Qed.

Lemma ut_stable_newCtx h0 Q me w :
  me < length (ctxs w) → stable h0 Q w (newCtx (Some me) w).2.
Proof.
  intros Hme. split; try done.
  - apply ut_used_grows_refl.
  - simpl. rewrite length_app. lia.
  - intros H c r p. simpl. intros Hr Hp.
    destruct (decide (c < length (ctxs w))) as [Hlt|Hge].
    + rewrite lookup_app_l in Hr by done. by apply (H c r p).
    + rewrite lookup_app_r in Hr by lia.
      destruct (c - length (ctxs w)) as [|n] eqn:E; simpl in Hr; [|done].
      injection Hr as <-. simpl in Hp. injection Hp as <-. lia.
  - intros [W1 W2 W3 W4 W5 W6]. split; try done.
    + intros c k a. rewrite ut_entry_of_newCtx. apply W4.
    + intros c k c' k' a. rewrite !ut_entry_of_newCtx. apply W5.
    + destruct W6 as [(r & Hr & Hp) Hothers]. split.
      * exists r. split; [|done]. simpl. by apply lookup_app_l_Some.
      * intros c r' Hr' Hc. simpl in Hr'.
        destruct (decide (c < length (ctxs w))) as [Hlt|Hge].
        -- rewrite lookup_app_l in Hr' by done. by apply (Hothers c).
        -- rewrite lookup_app_r in Hr' by lia.
           destruct (c - length (ctxs w)) as [|n]; simpl in Hr'; [|done].
           injection Hr' as <-. by eexists.
  - intros c r Hr. exists r. split; [|done]. simpl. by apply lookup_app_l_Some.
  - intros c k a _. by rewrite ut_entry_of_newCtx.
Qed.

(** ** [getEntry] *)

Lemma get_fresh {A} (f : Obj → option A) o w :
  wf w → (∀ p, proto o = Some p → p < length (heap w)) →
  get f (length (heap (alloc o w).2)) (heap (alloc o w).2) (length (heap w)) =
    match f o with
    | Some s => Some s
    | None => match proto o with
              | Some p => get f (length (heap w)) (heap w) p
              | None => None
              end
    end.
Proof.
  intros Hwf Hp. simpl. rewrite length_app. simpl.
  rewrite Nat.add_1_r. simpl. rewrite lookup_app_r by lia. rewrite Nat.sub_diag. simpl.
  destruct (f o); [done|]. destruct (proto o) as [p|]; [|done].
  by rewrite (get_app _ _ _ _ _ (wf_proto _ Hwf) (Hp p eq_refl)).
Qed.

Lemma stable_getEntry h0 n me key reg w :
  wf w → length h0 ≤ length (heap w) → is_Some (ctxs w !! me) →
  stable h0 (others me key) w (getEntry n me key reg w).2 ∧
  ∀ b, (getEntry n me key reg w).1 = Ok b →
       b < length (heap (getEntry n me key reg w).2) ∧
       (entry_of w reg key = Some b ∧ (getEntry n me key reg w).2 = w
        ∨ length (heap w) ≤ b ∧ entry_of (getEntry n me key reg w).2 me key = Some b).
Proof.
  revert reg w. induction n as [|n IH]; intros reg w Hwf Hh0 [rme Hme]; simpl.
  { split; [apply ut_stable_refl|done]. }
  destruct (ctxs w !! reg) as [r|] eqn:Hr; [|split; [apply ut_stable_refl|done]].
  destruct (entries r !! key) as [entry|] eqn:He.
  { split; [apply ut_stable_refl|]. simpl. intros b [= <-].
    assert (entry_of w reg key = Some entry) as Hent by (unfold entry_of; by rewrite Hr).
    split; [by apply (wf_entry _ Hwf reg key)|by left]. }
  destruct (prev r) as [p|] eqn:Hp.
  - destruct (IH p w Hwf Hh0 (ex_intro _ rme Hme)) as [St Hb].
    destruct (getEntry n me key p w) as [[parent|e|] w1]; simpl in *;
      [|by split..].
    destruct (Hb parent eq_refl) as [Hparent _].
    assert (wf w1) as Hwf1 by (by apply (st_wf _ _ _ _ St)).
    destruct (st_prev _ _ _ _ St me rme Hme) as (rme1 & Hme1 & _).
    set (o := {| o_s := None; o_v := None; o_d := None; proto := Some parent |}).
    assert (stable h0 (others me key) w1 (alloc o w1).2) as St2.
    { apply stable_alloc; [by intros q [= <-]|done|done]. }
    change (alloc o w1).2 with (set_heap (heap w1 ++ [o]) w1) in St2.
    set (entry := length (heap w1)).
    assert (ctxs (set_heap (heap w1 ++ [o]) w1) !! me = Some rme1) as Hme2 by done.
    set (w2 := set_heap (heap w1 ++ [o]) w1) in *.
    assert (wf w2) as Hwf2 by (by apply (st_wf _ _ _ _ St2)).
    assert (entry < length (heap w2)) as Hentry.
    { unfold w2. simpl. rewrite length_app. simpl. unfold entry. lia. }
    assert (length (heap w) ≤ entry) as Hnew by apply (st_heap _ _ _ _ St).
    assert (stable h0 (others me key) w2 (write_s entry hasValue w2)) as St3.
    { apply (stable_modify h0 _ entry); try done.
      intros y Hy. apply frozen_lt in Hy. lia. }
    assert (∀ w3, stable h0 (others me key) w2 w3 → length (heap w3) = length (heap w2) →
              ctxs w3 = ctxs w2 →
              stable h0 (others me key) w (store me key entry w3) ∧
              entry < length (heap (store me key entry w3)) ∧
              entry_of (store me key entry w3) me key = Some entry) as Hfin.
    { intros w3 St' El Ec. split; [|split; [simpl; lia|]].
      - eapply ut_stable_trans; [exact St|]. eapply ut_stable_trans; [exact St2|].
        eapply ut_stable_trans; [exact St'|]. apply ut_stable_store; [lia|].
        intros c k Hc. unfold entry_of in Hc. rewrite Ec in Hc.
        apply (wf_entry _ Hwf1 c k) in Hc. unfold entry in Hc. lia.
      - rewrite ut_entry_of_store, decide_True by done. by rewrite Ec, Hme2. }
    assert (length (heap (write_s entry hasValue w2)) = length (heap w2)) as El.
    { simpl. by rewrite length_alter. }
    clearbody w2 entry.
    destruct (read_s w2 entry) as [[]|]; simpl;
      (split; [apply Hfin; done || apply ut_stable_refl
              |intros b [= <-]; split; [rewrite ?length_alter; lia|right; split; [done|]];
               apply Hfin; done || apply ut_stable_refl]).
  - set (o := {| o_s := Some isUnset; o_v := Some VNull; o_d := Some None; proto := None |}).
    assert (stable h0 (others me key) w (alloc o w).2) as St2.
    { apply stable_alloc; done. }
    change (alloc o w) with (length (heap w), (alloc o w).2). simpl.
    split.
    + eapply ut_stable_trans; [exact St2|]. apply ut_stable_store; [simpl; rewrite length_app; simpl; lia|].
      intros c k Hc. apply (wf_entry _ Hwf c k) in Hc. lia.
    + intros b [= <-]. split; [rewrite length_app; simpl; lia|right]. split; [lia|].
      rewrite ut_entry_of_store, decide_True by done. simpl. by rewrite Hme.
Qed.


Lemma stable_absent h0 Q me key w w' :
  entry_of w me key = None → stable h0 (others me key) w w' → stable h0 Q w w'.
Proof.
  intros Hn [H1 H2 H3 H4 H5 H6 H7 H8 H9 H10]. split; try done.
  intros c k a _ He. apply H9; [|done]. intros [= -> ->]. congruence.
Qed.

Lemma evolves_trans w1 w2 w3 : evolves w1 w2 → evolves w2 w3 → evolves w1 w3.
Proof.
  intros H1 H2. eapply ut_stable_trans; [exact H1|]. by apply evolves_stable.
Qed.

(** [getEntry(key, registry)]: the entry of [key] in [me], which is new
    unless [me] had one. *)
Lemma entry_for_spec me key w :
  wf w →
  evolves w (entry_for me key w).2 ∧
  ∀ b, (entry_for me key w).1 = Ok b →
       b < length (heap (entry_for me key w).2) ∧
       entry_of (entry_for me key w).2 me key = Some b ∧
       (∀ y, frozen (heap w) b y → (entry_for me key w).2 = w).
Proof.
  intros Hwf. unfold entry_for.
  destruct (ctxs w !! me) as [r|] eqn:Hr.
  - destruct (stable_getEntry (heap w) (S (length (ctxs w))) me key me w Hwf (le_n _)
                (ex_intro _ r Hr)) as [St Hb].
    destruct (entry_of w me key) as [a|] eqn:Ha.
    + assert (getEntry (S (length (ctxs w))) me key me w = (Ok a, w)) as ->.
      { simpl. rewrite Hr. unfold entry_of in Ha. rewrite Hr in Ha. by rewrite Ha. }
      split; [apply ut_stable_refl|]. simpl. intros b [= <-].
      split; [by apply (wf_entry _ Hwf me key)|done].
    + split; [by apply (stable_absent _ _ me key)|].
      intros b Hok. destruct (Hb b Hok) as [Hlt [[Hent _]|[Hge Hent]]]; [congruence|].
      split; [done|]. split; [done|]. intros y Hy. apply frozen_lt in Hy. lia.
  - simpl. rewrite Hr. split; [apply ut_stable_refl|done].
Qed.

(** ** Assignments to an entry *)

Lemma write_svd a s x d w :
  write_d a d (write_v a x (write_s a s w)) =
  modify a (λ o, {| o_s := Some s; o_v := Some x; o_d := Some d; proto := proto o |}) w.
Proof.
  unfold write_d, write_v, write_s, modify, set_heap. simpl. f_equal.
  by rewrite !list_alter_alter_eq.
Qed.

Lemma write_sv a s x w :
  write_v a x (write_s a s w) =
  modify a (λ o, {| o_s := Some s; o_v := Some x; o_d := o_d o; proto := proto o |}) w.
Proof.
  unfold write_v, write_s, modify, set_heap. simpl. f_equal.
  by rewrite !list_alter_alter_eq.
Qed.

Lemma stable_write_svd h0 Q a s x d w :
  (∀ y, ¬ frozen h0 a y) → stable h0 Q w (write_d a d (write_v a x (write_s a s w))).
Proof. intros H. rewrite write_svd. apply stable_modify; try done; simpl; eauto. Qed.

Lemma stable_write_sv h0 Q a s x w :
  (∀ y, ¬ frozen h0 a y) → stable h0 Q w (write_v a x (write_s a s w)).
Proof. intros H. rewrite write_sv. apply stable_modify; try done; simpl; eauto. Qed.

Lemma stable_write_d h0 Q a d w :
  (∀ y, ¬ frozen h0 a y) → stable h0 Q w (write_d a d w).
Proof. intros H. by apply (stable_modify h0 Q a). Qed.

Lemma ut_stable_new_error {A} h0 Q cls msg w : stable h0 Q w (@new_error A cls msg w).2.
Proof. apply ut_stable_set_next. simpl. lia. Qed.

Lemma ut_stable_setEntry h0 Q key s x entry w :
  (∀ y, frozen h0 entry y → read_s w entry = Some wasRead) →
  stable h0 Q w (setEntry key s x entry w).2.
Proof.
  intros H. unfold setEntry.
  destruct (read_s w entry) as [[]|] eqn:E; try apply ut_stable_new_error;
    (apply stable_write_svd; intros y Hy; by specialize (H y Hy)).
Qed.

Lemma evolves_setEntry key s x entry w : wf w → evolves w (setEntry key s x entry w).2.
Proof. intros Hwf. apply ut_stable_setEntry. intros y Hy. by apply (frozen_read w entry y). Qed.

Lemma ut_stable_method {A} h0 Q me (m : M World A) w :
  (me < length (ctxs w) → stable h0 Q w (m w).2) → stable h0 Q w (method me m w).2.
Proof.
  intros H. unfold method. destruct (ctxs w !! me) eqn:E; [|apply ut_stable_refl].
  apply H. by eapply lookup_lt_Some.
Qed.

Lemma evolves_write me key s x w :
  wf w →
  evolves w ((let* entry := entry_for me key in
              let* _ := setEntry key s x entry in ret (VCtx me)) w).2.
Proof.
  intros Hwf. unfold bind. destruct (entry_for_spec me key w Hwf) as [St Hb].
  destruct (entry_for me key w) as [[entry|e|] w1]; simpl in *; [|done..].
  destruct (Hb entry eq_refl) as (_ & _ & Hfr).
  eapply ut_stable_trans; [exact St|].
  assert (stable (heap w) (λ _ _, True) w1 (setEntry key s x entry w1).2) as H.
  { apply ut_stable_setEntry. intros y Hy. rewrite (Hfr y Hy). by apply (frozen_read w entry y). }
  by destruct (setEntry key s x entry w1) as [[]].
Qed.

Lemma evolves_set me key x w : wf w → evolves w (set me key x w).2.
Proof. intros Hwf. apply ut_stable_method. intros _. by apply evolves_write. Qed.

Lemma evolves_def me key x w : wf w → evolves w (def me key x w).2.
Proof. intros Hwf. apply ut_stable_method. intros _. by apply evolves_write. Qed.

Lemma ut_stable_this h0 Q w : stable h0 Q w (this w).2.
Proof.
  unfold this. destruct (ctx w); simpl; [apply ut_stable_refl|apply ut_stable_set_next; lia].
Qed.

Lemma wf_ambient c u w : wf (set_ambient c u w) ↔ wf w.
Proof. split; intros [W1 W2 W3 W4 W5 W6]; by split. Qed.

(** [exec] restores the ambient context and the log. *)
Lemma ut_stable_exec {A} h0 Q me deps (body : M World A) w :
  stable h0 Q (set_ambient (Some me) deps w) (body (set_ambient (Some me) deps w)).2 →
  stable h0 Q w (exec me deps body w).2.
Proof.
  unfold exec. destruct (body _) as [r w']. simpl.
  intros [H1 H2 H3 H4 H5 H6 H7 H8 H9 H10]. split; try done.
  - apply ut_used_grows_refl.
  - intros Hwf. apply wf_ambient. apply H7. by apply wf_ambient.
Qed.

Lemma evolves_exec {A} me deps (body : M World A) w :
  evolves (set_ambient (Some me) deps w) (body (set_ambient (Some me) deps w)).2 →
  evolves w (exec me deps body w).2.
Proof. apply ut_stable_exec. Qed.

Lemma evolves_wf w w' : evolves w w' → wf w → wf w'.
Proof. apply st_wf. Qed.

Lemma evolves_bind {A B} (m : M World A) (k : A → M World B) w :
  wf w → evolves w (m w).2 → (∀ a w', wf w' → evolves w' (k a w').2) →
  evolves w (bind m k w).2.
Proof.
  intros Hwf Hm Hk. unfold bind. destruct (m w) as [[a|e|] w']; simpl in *; [|done..].
  eapply evolves_trans; [exact Hm|]. apply Hk. by apply (evolves_wf w).
Qed.

Lemma evolves_refl w : evolves w w.
Proof. apply ut_stable_refl. Qed.

Section Step.
Context (code : nat → nat → nat → Prog) (shape : nat → KeyShape).
Context (look : nat → nat → M World Value).
Hypothesis Hlook : ∀ c k w, wf w → evolves w (look c k w).2.

Lemma ut_evolves_fork me key w : wf w → evolves w (fork look me key w).2.
Proof.
  intros Hwf. apply ut_stable_method. intros Hme.
  apply evolves_bind; [done|by apply ut_stable_newCtx|].
  intros c w' Hwf'. destruct key; [by apply Hlook|apply ut_stable_refl].
Qed.

Lemma ut_evolves_run p w : wf w → evolves w (run (api look) p w).2.
Proof.
  revert w. induction p as [x|x|cont IH|n cont IH|c key cont IH|cont IH|c key x cont IH
                           |c key fac cont IH|c key cont IH|body IHb handler IHh cont IHc];
    intros w Hwf; simpl.
  - apply ut_stable_refl.
  - apply ut_stable_refl.
  - apply evolves_bind; [done|apply ut_stable_set_next; simpl; lia|auto].
  - apply evolves_bind; [done|apply ut_stable_set_next; simpl; lia|auto].
  - apply evolves_bind; [done|by apply Hlook|auto].
  - apply evolves_bind; [done|apply ut_stable_this|auto].
  - apply evolves_bind; [done|by apply evolves_set|auto].
  - apply evolves_bind; [done|by apply evolves_def|auto].
  - apply evolves_bind; [done|by apply ut_evolves_fork|auto].
  - pose proof (IHb w Hwf) as Hb.
    destruct (run (api look) body w) as [[x|e|] w'] eqn:E; simpl in *.
    + eapply evolves_trans; [exact Hb|]. apply IHc. by apply (evolves_wf w).
    + eapply evolves_trans; [exact Hb|].
      apply evolves_bind; [by apply (evolves_wf w)|apply IHh; by apply (evolves_wf w)|].
      intros; by apply IHc.
    + done.
Qed.

Lemma ut_evolves_call fn me key w : wf w → evolves w (call code shape look fn me key w).2.
Proof.
  intros Hwf. unfold call, defaultLookup.
  destruct fn; try apply ut_stable_new_error; try by apply ut_evolves_run.
  destruct (shape key); try by apply ut_evolves_run. apply ut_stable_new_error.
Qed.

Lemma ut_evolves_every me origin keys w : wf w → evolves w (every look me origin keys w).2.
Proof.
  revert w. induction keys as [|k keys IH]; intros w Hwf; simpl; [apply ut_stable_refl|].
  apply evolves_bind; [done|by apply Hlook|]. intros a w1 Hwf1.
  apply evolves_bind; [done|by apply Hlook|]. intros b w2 Hwf2.
  destruct (strict_eq a b); [by apply IH|apply ut_stable_refl].
Qed.

Lemma ut_stable_case_wasRead h0 Q me key entry w : stable h0 Q w (case_wasRead me key entry w).2.
Proof. apply ut_stable_push. Qed.

Lemma stable_resolve h0 me key entry factory w :
  wf w → (∀ y, ¬ frozen h0 entry y) →
  stable h0 (λ _ _, True) w (resolve code shape look me key entry factory w).2.
Proof.
  intros Hwf Hnf. unfold resolve.
  set (w1 := write_v entry factory (write_s entry isCreating w)).
  assert (stable h0 (λ _ _, True) w w1) as St1 by (by apply stable_write_sv).
  assert (wf w1) as Hwf1 by (by apply (st_wf _ _ _ _ St1)).
  pose proof (evolves_exec me (Some []) (call code shape look factory me key) w1
                (ut_evolves_call _ _ _ _ (proj2 (wf_ambient _ _ _) Hwf1))) as Hx.
  destruct (exec me (Some []) (call code shape look factory me key) w1) as [[r keys] w2].
  simpl in Hx. apply (evolves_stable h0 (λ _ _, True)) in Hx.
  eapply ut_stable_trans; [exact St1|]. eapply ut_stable_trans; [exact Hx|].
  destruct r as [x|e|]; simpl; try apply ut_stable_refl.
  assert (stable h0 (λ _ _, True) w2 (setEntry key wasRead x entry w2).2) as Hs.
  { apply ut_stable_setEntry. intros y Hy. by destruct (Hnf y). }
  destruct (setEntry key wasRead x entry w2) as [[[]|e|] w3]; simpl in *; try done.
  eapply ut_stable_trans; [exact Hs|].
  destruct keys as [[|k ks]|]; try apply ut_stable_push.
  eapply ut_stable_trans; [by apply stable_write_d|apply ut_stable_push].
Qed.

Lemma ut_stable_case_hasValue h0 me key entry w :
  wf w → (∀ y, ¬ frozen h0 entry y) →
  stable h0 (λ _ _, True) w (case_hasValue code shape look me key entry w).2.
Proof.
  intros Hwf Hnf. unfold case_hasValue.
  assert (∀ deps w', stable h0 (λ _ _, True) w'
            (case_wasRead me key entry
               (write_d entry deps
                  (write_v entry (read_v (write_s entry wasRead w') entry)
                     (write_s entry wasRead w')))).2) as Hshare.
  { intros deps w'. eapply ut_stable_trans; [by apply stable_write_svd|apply ut_stable_push]. }
  destruct (read_d w entry) as [deps|]; [|apply Hshare].
  pose proof (evolves_exec me None (every look me (d_c deps) (d_k deps)) w
                (ut_evolves_every _ _ _ _ (proj2 (wf_ambient _ _ _) Hwf))) as Hx.
  destruct (exec me None (every look me (d_c deps) (d_k deps)) w) as [[r log] w'].
  simpl in Hx. assert (wf w') as Hwf' by (by apply (evolves_wf w)).
  apply (evolves_stable h0 (λ _ _, True)) in Hx.
  eapply ut_stable_trans; [exact Hx|].
  destruct r as [[]|e|]; simpl; try apply ut_stable_refl.
  - apply Hshare.
  - eapply ut_stable_trans; [by apply (stable_write_svd h0 _ entry hasFactory (d_f deps) None)|].
    apply stable_resolve; [|done].
    eapply (st_wf h0); [by apply (stable_write_svd h0 (λ _ _, True))|done].
Qed.

Lemma ut_stable_state_machine h0 me key entry w :
  wf w → (∀ y, frozen h0 entry y → read_s w entry = Some wasRead) →
  stable h0 (λ _ _, True) w (state_machine code shape look me key entry w).2.
Proof.
  intros Hwf Hfr. unfold state_machine.
  destruct (read_s w entry) as [[]|] eqn:Hs.
  - apply ut_stable_push.
  - apply stable_resolve; [done|]. intros y Hy. by specialize (Hfr y Hy).
  - apply ut_stable_case_hasValue; [done|]. intros y Hy. by specialize (Hfr y Hy).
  - apply stable_resolve; [done|]. intros y Hy. by specialize (Hfr y Hy).
  - set (e := VErr _ _ _). set (w0 := set_next (S (next w)) w).
    assert (stable h0 (λ _ _, True) w0 (setEntry key hasError e entry w0).2) as H.
    { apply ut_stable_setEntry. intros y Hy. by specialize (Hfr y Hy). }
    assert (stable h0 (λ _ _, True) w w0) as H0 by (apply ut_stable_set_next; simpl; lia).
    destruct (setEntry key hasError e entry w0) as [[[]|?|] w']; simpl in *;
      by eapply ut_stable_trans.
  - apply ut_stable_refl.
  - apply ut_stable_refl.
Qed.

Lemma ut_evolves_lookup me key w : wf w → evolves w (lookup code shape look me key w).2.
Proof.
  intros Hwf. unfold lookup.
  destruct (ctxs w !! me) as [reg|] eqn:Hr; [|apply ut_stable_refl].
  destruct (prev reg) as [p|] eqn:Hp.
  - unfold bind. destruct (entry_for_spec me key w Hwf) as [St Hb].
    destruct (entry_for me key w) as [[entry|e|] w1]; simpl in *; [|done..].
    destruct (Hb entry eq_refl) as (_ & _ & Hfr).
    eapply ut_stable_trans; [exact St|].
    apply ut_stable_state_machine; [by apply (evolves_wf w)|].
    intros y Hy. rewrite (Hfr y Hy). by apply (frozen_read w entry y).
  - pose proof (ut_stable_this (heap w) (λ _ _, True) w) as Ht.
    destruct (this w) as [[[]|?|] w'] eqn:E; simpl in *; try done.
    eapply evolves_trans; [exact Ht|]. apply Hlook. by apply (evolves_wf w).
Qed.

End Step.

(** Whatever the factories do, an operation of the library keeps the entries
    that were read. *)
Lemma ut_evolves_invoke code shape fuel me key w :
  wf w → evolves w (invoke code shape fuel me key w).2.
Proof.
  revert me key w. induction fuel as [|n IH]; intros me key w Hwf; simpl.
  - apply ut_stable_refl.
  - apply ut_evolves_lookup; [apply IH|done].
Qed.

Lemma ut_evolves_script code shape fuel p w : wf w → evolves w (script code shape fuel p w).2.
Proof. apply ut_evolves_run. intros c k w'. apply ut_evolves_invoke. Qed.

Lemma wf_init : wf init.
Proof.
  split; try done.
  - intros [|] k a; unfold entry_of; simpl; [by rewrite lookup_empty|done].
  - intros [|] k c' k' a; unfold entry_of; simpl; [by rewrite lookup_empty|done].
  - split; [by eexists|]. intros [|[|c]] r Hr Hc; done.
Qed.


(** ** The cases of the state machine *)

Lemma ut_entry_of_push me key w c k : entry_of (push me key w) c k = entry_of w c k.
Proof.
  unfold push. destruct (ctx w); [|done]. destruct (used w); [|done].
  by destruct (decide _).
Qed.

Lemma heap_push me key w : heap (push me key w) = heap w.
Proof.
  unfold push. destruct (ctx w); [|done]. destruct (used w); [|done].
  by destruct (decide _).
Qed.

Lemma ut_ctxs_push me key w : ctxs (push me key w) = ctxs w.
Proof.
  unfold push. destruct (ctx w); [|done]. destruct (used w); [|done].
  by destruct (decide _).
Qed.

Lemma ut_regular_stable h0 Q w w' c : stable h0 Q w w' → regular w c → regular w' c.
Proof.
  intros Hst (r & p & Hr & Hp). destruct (st_prev _ _ _ _ Hst c r Hr) as (r' & Hr' & E).
  exists r', p. split; [done|congruence].
Qed.

Lemma ut_resolved_stable w w' c key x : evolves w w' → resolved w c key x → resolved w' c key x.
Proof.
  intros Hst (a & Ha & Hf). exists a. split; [by apply (st_entry _ _ _ _ Hst)|].
  eapply kept_frozen; [|exact Hf]. apply (st_kept _ _ _ _ Hst), kept_refl.
Qed.

Lemma resolved_push me key w c k x : resolved w c k x → resolved (push me key w) c k x.
Proof. intros (a & Ha & Hf). exists a. by rewrite ut_entry_of_push, heap_push. Qed.

Lemma entry_for_present me key a w :
  entry_of w me key = Some a → entry_for me key w = (Ok a, w).
Proof.
  unfold entry_for, entry_of. simpl. destruct (ctxs w !! me); [|done]. by intros ->.
Qed.

(** What an assignment leaves in the object. *)
Lemma lookup_modify a f w : heap (modify a f w) !! a = f <$> heap w !! a.
Proof. unfold modify. simpl. apply list_lookup_alter_eq. Qed.

Lemma frozen_modify a x (d : Obj → option (option Deps)) w :
  a < length (heap w) →
  frozen (heap (modify a (λ o, {| o_s := Some wasRead; o_v := Some x; o_d := d o;
                                 proto := proto o |}) w)) a x.
Proof.
  intros Ha. destruct (lookup_lt_is_Some_2 _ _ Ha) as [o Ho].
  eapply frozen_own; [rewrite lookup_modify, Ho; done|done..].
Qed.

Section Cases.
Context (code : nat → nat → nat → Prog) (shape : nat → KeyShape).
Context (look : nat → nat → M World Value).

(** A lookup of an entry that was read returns its payload; nothing is
    computed and only the dependency log can change. *)
Lemma ut_lookup_resolved me key x w :
  wf w → regular w me → resolved w me key x →
  lookup code shape look me key w = (Ok x, push me key w).
Proof.
  intros Hwf (r & p & Hr & Hp) (a & Ha & Hf). unfold lookup. rewrite Hr, Hp.
  unfold bind. rewrite (entry_for_present me key a w Ha).
  destruct (frozen_read w a x Hwf Hf) as [Hs Hv].
  unfold state_machine. rewrite Hs. unfold case_wasRead. by rewrite Hv.
Qed.

(** A lookup of an entry in state [hasError] throws its payload. *)
Lemma ut_lookup_hasError me key a w :
  regular w me → entry_of w me key = Some a → read_s w a = Some hasError →
  lookup code shape look me key w = (Thrown (read_v w a), w).
Proof.
  intros (r & p & Hr & Hp) Ha Hs. unfold lookup. rewrite Hr, Hp.
  unfold bind. rewrite (entry_for_present me key a w Ha).
  unfold state_machine. by rewrite Hs.
Qed.

End Cases.


Lemma nothing_frozen a y : ¬ frozen [] a y.
Proof. intros H. apply frozen_lt in H. simpl in H. lia. Qed.

Lemma read_s_own a f s w :
  a < length (heap w) → (∀ o, o_s (f o) = Some s) → read_s (modify a f w) a = Some s.
Proof.
  intros Ha Hf. unfold read_s, modify. simpl. rewrite length_alter.
  destruct (length (heap w)) as [|n] eqn:E; [lia|]. apply get_alter_own; [lia|done].
Qed.

Lemma read_v_own a f x w :
  a < length (heap w) → (∀ o, o_v (f o) = Some x) → read_v (modify a f w) a = x.
Proof.
  intros Ha Hf. unfold read_v, modify. simpl. rewrite length_alter.
  destruct (length (heap w)) as [|n] eqn:E; [lia|]. by rewrite (get_alter_own o_v f a _ n x) by (done || lia).
Qed.

Lemma read_d_own a f d w :
  a < length (heap w) → (∀ o, o_d (f o) = Some d) → read_d (modify a f w) a = d.
Proof.
  intros Ha Hf. unfold read_d, modify. simpl. rewrite length_alter.
  destruct (length (heap w)) as [|n] eqn:E; [lia|]. by rewrite (get_alter_own o_d f a _ n d) by (done || lia).
Qed.

Lemma read_s_same a b f w :
  (∀ o, o_s (f o) = o_s o) → (∀ o, proto (f o) = proto o) →
  read_s (modify b f w) a = read_s w a.
Proof.
  intros Hf Hp. unfold read_s, modify. simpl. rewrite length_alter. by apply get_alter_same.
Qed.

Lemma read_v_same a b f w :
  (∀ o, o_v (f o) = o_v o) → (∀ o, proto (f o) = proto o) →
  read_v (modify b f w) a = read_v w a.
Proof.
  intros Hf Hp. unfold read_v, modify. simpl. rewrite length_alter.
  by rewrite get_alter_same.
Qed.

Lemma read_s_write_d a b d w : read_s (write_d b d w) a = read_s w a.
Proof.
  apply (read_s_same a b (λ o, {| o_s := o_s o; o_v := o_v o; o_d := Some d;
                                 proto := proto o |})); done.
Qed.

Lemma read_v_write_d a b d w : read_v (write_d b d w) a = read_v w a.
Proof.
  apply (read_v_same a b (λ o, {| o_s := o_s o; o_v := o_v o; o_d := Some d;
                                 proto := proto o |})); done.
Qed.

(** The loop comes to [case State.wasRead] with an entry that is frozen. *)
Lemma case_wasRead_resolved me key entry w :
  wf w → entry_of w me key = Some entry → read_s w entry = Some wasRead →
  resolved (push me key w) me key (read_v w entry).
Proof.
  intros Hwf He Hs. apply resolved_push. exists entry. split; [done|]. by apply read_frozen.
Qed.

Section Results.
Context (code : nat → nat → nat → Prog) (shape : nat → KeyShape).
Context (look : nat → nat → M World Value).
Hypothesis Hlook : ∀ c k w, wf w → evolves w (look c k w).2.

Lemma resolve_ok me key entry factory w x w' :
  wf w → entry_of w me key = Some entry →
  resolve code shape look me key entry factory w = (Ok x, w') → resolved w' me key x.
Proof.
  intros Hwf He. unfold resolve.
  set (w1 := write_v entry factory (write_s entry isCreating w)).
  assert (stable [] (λ _ _, True) w w1) as St1 by (apply stable_write_sv, nothing_frozen).
  assert (wf w1) as Hwf1 by (by apply (st_wf _ _ _ _ St1)).
  pose proof (evolves_exec me (Some []) (call code shape look factory me key) w1
                (ut_evolves_call code shape look Hlook _ _ _ _ (proj2 (wf_ambient _ _ _) Hwf1))) as Hx.
  destruct (exec me (Some []) (call code shape look factory me key) w1) as [[r keys] w2].
  simpl in Hx. destruct r as [y|e|]; [|done..].
  assert (wf w2) as Hwf2 by (by apply (evolves_wf w1)).
  assert (entry_of w2 me key = Some entry) as He2 by (by apply (st_entry _ _ _ _ Hx)).
  assert (entry < length (heap w2)) as Hlt by (by apply (wf_entry _ Hwf2 me key)).
  unfold setEntry.
  set (w3 := write_d entry None (write_v entry y (write_s entry wasRead w2))).
  assert (case_wasRead me key entry
              match keys with
              | Some ((_ :: _) as ks) =>
                  write_d entry (Some {| d_c := me; d_k := ks; d_f := factory |}) w3
              | _ => w3
              end = (Ok x, w') → resolved w' me key x) as Hfin.
  { intros H.
    assert (stable [] (λ _ _, True) w2 w3) as St3
      by (apply stable_write_svd, nothing_frozen).
    assert (read_s w3 entry = Some wasRead) as Hs3
      by (unfold w3; rewrite write_svd; by apply read_s_own).
    assert (wf w3) as Hwf3 by (by apply (st_wf _ _ _ _ St3)).
    assert (entry_of w3 me key = Some entry) as He3 by done.
    clearbody w3.
    destruct keys as [[|k ks]|]; unfold case_wasRead in H; injection H as <- <-.
    - by apply case_wasRead_resolved.
    - apply case_wasRead_resolved; [|done|].
      + eapply (st_wf [] (λ _ _, True)); [apply stable_write_d, nothing_frozen|done].
      + by rewrite read_s_write_d.
    - by apply case_wasRead_resolved. }
  destruct (read_s w2 entry) as [[]|]; simpl; try done; apply Hfin.
Qed.

Lemma case_hasValue_ok me key entry w x w' :
  wf w → entry_of w me key = Some entry →
  case_hasValue code shape look me key entry w = (Ok x, w') → resolved w' me key x.
Proof.
  intros Hwf He. unfold case_hasValue.
  assert (∀ deps w0, wf w0 → entry_of w0 me key = Some entry →
            case_wasRead me key entry
               (write_d entry deps
                  (write_v entry (read_v (write_s entry wasRead w0) entry)
                     (write_s entry wasRead w0))) = (Ok x, w') →
            resolved w' me key x) as Hshare.
  { intros deps w0 Hwf0 He0 H. unfold case_wasRead in H. injection H as <- <-.
    assert (entry < length (heap w0)) as Hlt by (by apply (wf_entry _ Hwf0 me key)).
    apply case_wasRead_resolved; [|done|].
    - eapply (st_wf [] (λ _ _, True)); [apply stable_write_svd, nothing_frozen|done].
    - rewrite write_svd. by apply read_s_own. }
  destruct (read_d w entry) as [deps|]; [|by apply Hshare].
  pose proof (evolves_exec me None (every look me (d_c deps) (d_k deps)) w
                (ut_evolves_every look Hlook _ _ _ _ (proj2 (wf_ambient _ _ _) Hwf))) as Hx.
  destruct (exec me None (every look me (d_c deps) (d_k deps)) w) as [[r log] w1].
  simpl in Hx. assert (wf w1) as Hwf1 by (by apply (evolves_wf w)).
  assert (entry_of w1 me key = Some entry) as He1 by (by apply (st_entry _ _ _ _ Hx)).
  destruct r as [[]|e|]; [by apply Hshare| |done..].
  apply resolve_ok; [|done].
  eapply (st_wf [] (λ _ _, True)); [apply stable_write_svd, nothing_frozen|done].
Qed.

Lemma ut_state_machine_ok me key entry w x w' :
  wf w → entry_of w me key = Some entry →
  state_machine code shape look me key entry w = (Ok x, w') → resolved w' me key x.
Proof.
  intros Hwf He. unfold state_machine.
  destruct (read_s w entry) as [[]|] eqn:Hs; try done.
  - unfold case_wasRead. intros [= <- <-]. by apply case_wasRead_resolved.
  - by apply resolve_ok.
  - by apply case_hasValue_ok.
  - by apply resolve_ok.
  - by destruct (setEntry _ _ _ _ _) as [[[]|?|] ?].
Qed.

(** A lookup that returns leaves the entry frozen, with the value it
    returned. *)
Lemma ut_lookup_ok_resolved me key w x w' :
  wf w → regular w me → lookup code shape look me key w = (Ok x, w') → resolved w' me key x.
Proof.
  intros Hwf (r & p & Hr & Hp). unfold lookup. rewrite Hr, Hp. unfold bind.
  destruct (entry_for_spec me key w Hwf) as [St Hb].
  destruct (entry_for me key w) as [[entry|e|] w1]; simpl in *; [|done..].
  destruct (Hb entry eq_refl) as (_ & He & _).
  apply ut_state_machine_ok; [by apply (evolves_wf w)|done].
Qed.

End Results.

Lemma ut_invoke_ok_resolved code shape n me key w x w' :
  wf w → regular w me → invoke code shape n me key w = (Ok x, w') → resolved w' me key x.
Proof.
  intros Hwf Hreg. destruct n; [done|]. apply ut_lookup_ok_resolved; [|done..].
  intros c k w0. apply ut_evolves_invoke.
Qed.

(** [set] and [def] on an entry that was read. *)
Lemma write_resolved me key s y x w :
  wf w → resolved w me key x →
  (let* entry := entry_for me key in
   let* _ := setEntry key s y entry in ret (VCtx me)) w
  = (Thrown (VErr (next w) Error (AlreadyRead key)), set_next (S (next w)) w).
Proof.
  intros Hwf (a & Ha & Hf). unfold bind. rewrite (entry_for_present me key a w Ha).
  destruct (frozen_read w a x Hwf Hf) as [Hs _]. unfold setEntry. by rewrite Hs.
Qed.

Lemma ut_method_resolved {A} me key x (m : M World A) w :
  resolved w me key x → method me m w = m w.
Proof.
  intros (e & He & _). unfold method. unfold entry_of in He.
  by destruct (ctxs w !! me).
Qed.

Lemma ut_set_resolved me key y x w :
  wf w → resolved w me key x →
  set me key y w = (Thrown (VErr (next w) Error (AlreadyRead key)), set_next (S (next w)) w).
Proof.
  intros Hwf H. unfold set. rewrite (ut_method_resolved me key x) by done.
  by apply (write_resolved me key hasValue y x).
Qed.

Lemma ut_def_resolved me key y x w :
  wf w → resolved w me key x →
  def me key y w = (Thrown (VErr (next w) Error (AlreadyRead key)), set_next (S (next w)) w).
Proof.
  intros Hwf H. unfold def. rewrite (ut_method_resolved me key x) by done.
  by apply (write_resolved me key hasFactory y x).
Qed.


(** The check [every] of the source does what the specification says. *)
Lemma ut_every_checked look me origin keys v w w' :
  every look me origin keys w = (ends v, w') ↔
  ∃ seen, checked look me origin keys v seen w w'.
Proof.
  split.
  - revert w. induction keys as [|k keys IH]; intros w; simpl.
    + destruct v; intros [= <-]. exists []. constructor.
    + unfold bind. destruct (look me k w) as [[a|e|] w1] eqn:H1.
      * destruct (look origin k w1) as [[a'|e|] w2] eqn:H2.
        -- destruct (strict_eq a a') eqn:He.
           ++ intros H. destruct (IH _ H) as [seen Hc].
              exists (k :: seen). by eapply checked_same.
           ++ destruct v; intros [= <-]. exists [k]. by eapply checked_diff.
        -- destruct v; intros [= <- <-]. exists [k]. by eapply checked_raised_origin.
        -- by destruct v.
      * destruct v; intros [= <- <-]. exists []. by eapply checked_raised.
      * by destruct v.
  - intros [seen H]. induction H as [w|k keys v seen w w1 w2 w3 a a' H1 H2 He H IH
                                     |k keys w w1 w2 a a' H1 H2 He|k keys w w1 e H1
                                     |k keys w w1 w2 a e H1 H2]; simpl.
    + done.
    + unfold bind. rewrite H1, H2. by rewrite He.
    + unfold bind. rewrite H1, H2. by rewrite He.
    + unfold bind. by rewrite H1.
    + unfold bind. by rewrite H1, H2.
Qed.

Lemma ut_method_present {A} me r (m : M World A) w :
  ctxs w !! me = Some r → method me m w = m w.
Proof. intros H. unfold method. by rewrite H. Qed.

Section Local.
Context (code : nat → nat → nat → Prog) (shape : nat → KeyShape).
Context (look : nat → nat → M World Value).

(** The global context: a call is a call of [use.this]. *)
Lemma ut_lookup_global g key r w :
  ctxs w !! g = Some r → prev r = None →
  lookup code shape look g key w =
    match ctx w with
    | Some c => look c key w
    | None => (Thrown (VErr (next w) TypeError NoCurrentContext), set_next (S (next w)) w)
    end.
Proof.
  intros Hr Hp. unfold lookup. rewrite Hr, Hp. unfold this. by destruct (ctx w).
Qed.

(** A lookup while the entry is [isCreating]: the error is made, stored in
    the entry and thrown. *)
Lemma ut_lookup_isCreating me key entry w :
  regular w me → entry_of w me key = Some entry → read_s w entry = Some isCreating →
  entry < length (heap w) →
  let e := VErr (next w) Error (DidntResolve (String_ (read_v w entry)) key) in
  let w' := write_d entry None (write_v entry e (write_s entry hasError
              (set_next (S (next w)) w))) in
  lookup code shape look me key w = (Thrown e, w') ∧
  read_s w' entry = Some hasError ∧ read_v w' entry = e ∧ read_d w' entry = None.
Proof.
  intros (r & p & Hr & Hp) He Hs Hlt e w'.
  assert (read_s w' entry = Some hasError) as Hs'.
  { unfold w'. rewrite write_svd. by apply read_s_own. }
  assert (read_v w' entry = e) as Hv'.
  { unfold w'. rewrite write_svd. by apply read_v_own. }
  assert (read_d w' entry = None) as Hd'.
  { unfold w'. rewrite write_svd. by apply read_d_own. }
  split; [|done].
  unfold lookup. rewrite Hr, Hp.
  unfold bind. rewrite (entry_for_present me key entry w He).
  unfold state_machine. rewrite Hs. unfold setEntry.
  change (read_s (set_next (S (next w)) w) entry) with (read_s w entry). rewrite Hs.
  fold e. fold w'. by rewrite Hv'.
Qed.

(** [resolve] has no handler: an error of the factory goes to the caller
    and the entry stays as the factory left it. *)
Lemma resolve_thrown me key entry factory w err log w2 :
  exec me (Some []) (call code shape look factory me key)
       (write_v entry factory (write_s entry isCreating w)) = (Thrown err, log, w2) →
  resolve code shape look me key entry factory w = (Thrown err, w2).
Proof. intros H. unfold resolve. by rewrite H. Qed.

End Local.

(** ** The claims, on [use-this.ts] *)

Section Claims.
Context (code : nat → nat → nat → Prog) (shape : nat → KeyShape).

Lemma ut_evolves_checked n me origin keys v seen w w1 :
  wf w → checked (invoke code shape n) me origin keys v seen w w1 → evolves w w1.
Proof.
  intros Hwf H.
  induction H as [w|k keys v seen w w1 w2 w3 a a' H1 H2 He H IH
                  |k keys w w1 w2 a a' H1 H2 He|k keys w w1 e H1
                  |k keys w w1 w2 a e H1 H2].
  - apply ut_stable_refl.
  - pose proof (ut_evolves_invoke code shape n me k w Hwf) as E1. rewrite H1 in E1.
    assert (wf w1) as Hwf1 by (by apply (evolves_wf w)).
    pose proof (ut_evolves_invoke code shape n origin k w1 Hwf1) as E2. rewrite H2 in E2.
    assert (wf w2) as Hwf2 by (by apply (evolves_wf w1)).
    eapply evolves_trans; [exact E1|]. eapply evolves_trans; [exact E2|by apply IH].
  - pose proof (ut_evolves_invoke code shape n me k w Hwf) as E1. rewrite H1 in E1.
    assert (wf w1) as Hwf1 by (by apply (evolves_wf w)).
    pose proof (ut_evolves_invoke code shape n origin k w1 Hwf1) as E2. rewrite H2 in E2.
    eapply evolves_trans; [exact E1|exact E2].
  - pose proof (ut_evolves_invoke code shape n me k w Hwf) as E1. by rewrite H1 in E1.
  - pose proof (ut_evolves_invoke code shape n me k w Hwf) as E1. rewrite H1 in E1.
    assert (wf w1) as Hwf1 by (by apply (evolves_wf w)).
    pose proof (ut_evolves_invoke code shape n origin k w1 Hwf1) as E2. rewrite H2 in E2.
    eapply evolves_trans; [exact E1|exact E2].
Qed.

(** The keys whose lookup in [me] returned are resolved in [me] when the
    check ends. *)
Lemma ut_checked_resolved n me origin keys v seen w w1 :
  wf w → regular w me →
  checked (invoke code shape n) me origin keys v seen w w1 →
  ∀ k, k ∈ seen → ∃ x, resolved w1 me k x.
Proof.
  intros Hwf Hreg H.
  induction H as [w|k keys v seen w w1 w2 w3 a a' H1 H2 He H IH
                  |k keys w w1 w2 a a' H1 H2 He|k keys w w1 e H1
                  |k keys w w1 w2 a e H1 H2]; intros k0 Hk0.
  - by apply elem_of_nil in Hk0.
  - pose proof (ut_evolves_invoke code shape n me k w Hwf) as E1. rewrite H1 in E1.
    assert (wf w1) as Hwf1 by (by apply (evolves_wf w)).
    pose proof (ut_evolves_invoke code shape n origin k w1 Hwf1) as E2. rewrite H2 in E2.
    assert (wf w2) as Hwf2 by (by apply (evolves_wf w1)).
    apply elem_of_cons in Hk0 as [->|Hk0].
    + exists a. eapply ut_resolved_stable; [apply (ut_evolves_checked _ _ _ _ _ _ _ _ Hwf2 H)|].
      eapply ut_resolved_stable; [exact E2|].
      exact (ut_invoke_ok_resolved code shape n me k w a w1 Hwf Hreg H1).
    + apply IH; [done| |done]. eapply ut_regular_stable; [exact E2|].
      eapply ut_regular_stable; [exact E1|done].
  - pose proof (ut_evolves_invoke code shape n me k w Hwf) as E1. rewrite H1 in E1.
    assert (wf w1) as Hwf1 by (by apply (evolves_wf w)).
    pose proof (ut_evolves_invoke code shape n origin k w1 Hwf1) as E2. rewrite H2 in E2.
    apply list_elem_of_singleton in Hk0 as ->. exists a.
    eapply ut_resolved_stable; [exact E2|].
    exact (ut_invoke_ok_resolved code shape n me k w a w1 Hwf Hreg H1).
  - by apply elem_of_nil in Hk0.
  - pose proof (ut_evolves_invoke code shape n me k w Hwf) as E1. rewrite H1 in E1.
    assert (wf w1) as Hwf1 by (by apply (evolves_wf w)).
    pose proof (ut_evolves_invoke code shape n origin k w1 Hwf1) as E2. rewrite H2 in E2.
    apply list_elem_of_singleton in Hk0 as ->. exists a.
    eapply ut_resolved_stable; [exact E2|].
    exact (ut_invoke_ok_resolved code shape n me k w a w1 Hwf Hreg H1).
Qed.

Lemma ut_exec_checked n me origin keys v seen w w1 :
  checked (invoke code shape n) me origin keys v seen (set_ambient (Some me) None w) w1 →
  exec me None (every (invoke code shape n) me origin keys) w =
    (ends v, used w1, set_ambient (ctx w) (used w) w1).
Proof.
  intros H. unfold exec.
  assert (every (invoke code shape n) me origin keys (set_ambient (Some me) None w)
          = (ends v, w1))
    as -> by (apply ut_every_checked; eauto).
  done.
Qed.

(** [resolve] when the factory returns and the entry was not read
    meanwhile. *)
Lemma resolve_returns n me key entry factory w x keys w2 :
  wf w → entry_of w me key = Some entry →
  exec me (Some []) (call code shape (invoke code shape n) factory me key)
       (write_v entry factory (write_s entry isCreating w)) = (Ok x, keys, w2) →
  (∃ s, read_s w2 entry = Some s ∧ s ≠ wasRead) →
  ∃ w', resolve code shape (invoke code shape n) me key entry factory w = (Ok x, w') ∧
        entry_of w' me key = Some entry ∧
        read_s w' entry = Some wasRead ∧ read_v w' entry = x ∧
        read_d w' entry = recorded me factory keys.
Proof.
  intros Hwf Hent Hx (s & Hs2 & Hne).
  set (w1 := write_v entry factory (write_s entry isCreating w)) in *.
  assert (wf w1) as Hwf1
    by (eapply (st_wf [] (λ _ _, True)); [apply stable_write_sv, nothing_frozen|done]).
  pose proof (evolves_exec me (Some [])
                (call code shape (invoke code shape n) factory me key) w1
                (ut_evolves_call code shape (invoke code shape n)
                   ltac:(intros c0 k0 w0; apply ut_evolves_invoke) _ _ _ _
                   (proj2 (wf_ambient _ _ _) Hwf1))) as Ex.
  rewrite Hx in Ex. simpl in Ex.
  assert (entry < length (heap w2)) as Hlt2.
  { pose proof (st_heap _ _ _ _ Ex) as Hh.
    pose proof (wf_entry _ Hwf _ _ _ Hent) as Hlt.
    assert (length (heap w1) = length (heap w)) as Hl1
      by (unfold w1; rewrite write_sv; simpl; by rewrite length_alter).
    lia. }
  assert (entry_of w2 me key = Some entry) as Hent2 by (by apply (st_entry _ _ _ _ Ex)).
  set (w3 := write_d entry None (write_v entry x (write_s entry wasRead w2))).
  set (w4 := match keys with
             | Some ((_ :: _) as ks) =>
                 write_d entry (Some {| d_c := me; d_k := ks; d_f := factory |}) w3
             | _ => w3
             end).
  assert (entry < length (heap w3)) as Hlt3
    by (unfold w3; rewrite write_svd; simpl; by rewrite length_alter).
  assert (read_s w3 entry = Some wasRead ∧ read_v w3 entry = x ∧ read_d w3 entry = None)
    as (Hs3 & Hv3 & Hd3).
  { unfold w3. rewrite write_svd.
    split; [by apply read_s_own|]. split; [by apply read_v_own|by apply read_d_own]. }
  assert (read_s w4 entry = Some wasRead ∧ read_v w4 entry = x ∧
          read_d w4 entry = recorded me factory keys) as (Hs4 & Hv4 & Hd4).
  { unfold w4, recorded. destruct keys as [[|k ks]|]; try done.
    rewrite read_s_write_d, read_v_write_d. split; [done|]. split; [done|].
    by apply (read_d_own entry
                (λ o, {| o_s := o_s o; o_v := o_v o;
                         o_d := Some (Some {| d_c := me; d_k := k :: ks; d_f := factory |});
                         proto := proto o |})). }
  exists (push me key w4). split; [|split; [|split; [|split]]].
  - unfold resolve. fold w1. rewrite Hx. unfold setEntry. rewrite Hs2.
    assert (∀ (A : Type) (a b : A), match s with wasRead => a | _ => b end = b) as Hmatch
      by (intros A a b; by destruct s).
    rewrite Hmatch. fold w3. cbv beta iota. fold w4.
    unfold case_wasRead. by rewrite Hv4.
  - rewrite ut_entry_of_push. unfold w4. destruct keys as [[|k ks]|]; exact Hent2.
  - unfold read_s. rewrite heap_push. exact Hs4.
  - unfold read_v. rewrite heap_push. exact Hv4.
  - unfold read_d. rewrite heap_push. exact Hd4.
Qed.

(** *** Smart sharing *)

Lemma lookup_hasValue n me key w entry wm :
  regular w me → entry_for me key w = (Ok entry, wm) → read_s wm entry = Some hasValue →
  invoke code shape (S n) me key w =
  case_hasValue code shape (invoke code shape n) me key entry wm.
Proof.
  intros (r & p & Hr & Hp) He Hs. simpl. unfold lookup. rewrite Hr, Hp.
  unfold bind. rewrite He. unfold state_machine. by rewrite Hs.
Qed.

Lemma ut_smart_sharing n me key w entry wm deps v seen w1 :
  wf w → regular w me →
  entry_for me key w = (Ok entry, wm) →
  read_s wm entry = Some hasValue → read_d wm entry = Some deps →
  checked (invoke code shape n) me (d_c deps) (d_k deps) v seen
          (set_ambient (Some me) None wm) w1 →
  let w2 := set_ambient (ctx wm) (used wm) w1 in
  match v with
  | Same =>
      let w3 := push me key
                  (write_d entry (Some deps)
                     (write_v entry (read_v w1 entry) (write_s entry wasRead w2))) in
      invoke code shape (S n) me key w = (Ok (read_v w1 entry), w3)
      ∧ read_s w3 entry = Some wasRead
      ∧ read_v w3 entry = read_v w1 entry
      ∧ read_d w3 entry = Some deps
  | Differ =>
      let w3 := write_d entry None (write_v entry (d_f deps) (write_s entry hasFactory w2)) in
      invoke code shape (S n) me key w
        = resolve code shape (invoke code shape n) me key entry (d_f deps) w3 ∧
      read_s w3 entry = Some hasFactory ∧ read_v w3 entry = d_f deps ∧
      read_d w3 entry = None ∧
      ∀ x keys w4,
        exec me (Some []) (call code shape (invoke code shape n) (d_f deps) me key)
             (write_v entry (d_f deps) (write_s entry isCreating w3)) = (Ok x, keys, w4) →
        (∃ s, read_s w4 entry = Some s ∧ s ≠ wasRead) →
        ∃ w', invoke code shape (S n) me key w = (Ok x, w') ∧
              entry_of w' me key = Some entry ∧
              read_s w' entry = Some wasRead ∧ read_v w' entry = x ∧
              read_d w' entry = recorded me (d_f deps) keys
  | Raised err =>
      invoke code shape (S n) me key w = (Thrown err, w2) ∧
      read_s w2 entry = read_s w1 entry ∧ read_v w2 entry = read_v w1 entry ∧
      read_d w2 entry = read_d w1 entry
  end.
Proof.
  intros Hwf Hreg He Hs Hd Hc w2.
  rewrite (lookup_hasValue n me key w entry wm Hreg He Hs).
  unfold case_hasValue. rewrite Hd.
  rewrite (ut_exec_checked _ _ _ _ _ _ _ _ Hc). fold w2.
  destruct (entry_for_spec me key w Hwf) as [St Hb]. rewrite He in St, Hb. simpl in St, Hb.
  destruct (Hb entry eq_refl) as (_ & Hent & _).
  assert (wf wm) as Hwfm by (by apply (evolves_wf w)).
  pose proof (ut_evolves_checked _ _ _ _ _ _ _ _ (proj2 (wf_ambient _ _ _) Hwfm) Hc) as E.
  assert (wf w1) as Hwf1 by (apply (evolves_wf _ _ E); by apply wf_ambient).
  assert (wf w2) as Hwf2 by (by apply wf_ambient).
  assert (entry_of w2 me key = Some entry) as Hent2 by (by apply (st_entry _ _ _ _ E)).
  assert (entry < length (heap w2)) as Hlt by (by apply (wf_entry _ Hwf2 me key)).
  destruct v as [| |err]; cbn [ends]; cbv beta iota zeta.
  - assert (read_v (write_s entry wasRead w2) entry = read_v w1 entry) as ->.
    { transitivity (read_v w2 entry); [|done].
      apply (read_v_same entry entry (λ o, {| o_s := Some wasRead; o_v := o_v o; o_d := o_d o;
                                             proto := proto o |})); done. }
    set (w3 := write_d entry (Some deps)
                  (write_v entry (read_v w1 entry) (write_s entry wasRead w2))).
    unfold case_wasRead.
    assert (read_v w3 entry = read_v w1 entry) as Hv3.
    { unfold w3. rewrite write_svd. by apply read_v_own. }
    rewrite Hv3. split; [done|].
    unfold read_s, read_v, read_d. rewrite !heap_push. fold (read_s w3 entry).
    fold (read_v w3 entry). fold (read_d w3 entry). fold (read_v w1 entry).
    split; [unfold w3; rewrite write_svd; by apply read_s_own|].
    split; [done|]. unfold w3. rewrite write_svd. by apply read_d_own.
  - set (w3 := write_d entry None (write_v entry (d_f deps) (write_s entry hasFactory w2))).
    split; [done|].
    split; [unfold w3; rewrite write_svd; by apply read_s_own|].
    split; [unfold w3; rewrite write_svd; by apply read_v_own|].
    split; [unfold w3; rewrite write_svd; by apply read_d_own|].
    intros x keys w4 Hx Hne.
    apply (resolve_returns n me key entry (d_f deps) w3 x keys w4); [| |exact Hx|exact Hne].
    + eapply (st_wf [] (λ _ _, True)); [apply stable_write_svd, nothing_frozen|done].
    + unfold w3. rewrite write_svd. unfold modify. by rewrite entry_of_heap.
  - done.
Qed.

(** *** Lookups are idempotent, and a key that was read cannot be written *)

Lemma ut_lookup_idempotent n me key w x w1 :
  wf w → regular w me → invoke code shape n me key w = (Ok x, w1) →
  ∀ fuel p r w2, script code shape fuel p w1 = (r, w2) →
  ∀ m, invoke code shape (S m) me key w2 = (Ok x, push me key w2).
Proof.
  intros Hwf Hreg H fuel p r w2 Hp m.
  pose proof (ut_evolves_invoke code shape n me key w Hwf) as E1. rewrite H in E1.
  assert (wf w1) as Hwf1 by (by apply (evolves_wf w)).
  pose proof (ut_evolves_script code shape fuel p w1 Hwf1) as E2. rewrite Hp in E2. simpl in *.
  apply ut_lookup_resolved.
  - by apply (evolves_wf w1).
  - eapply ut_regular_stable; [exact E2|]. eapply ut_regular_stable; [exact E1|done].
  - eapply ut_resolved_stable; [exact E2|].
    exact (ut_invoke_ok_resolved code shape n me key w x w1 Hwf Hreg H).
Qed.

Lemma ut_write_after_read n me key w x w1 :
  wf w → regular w me → invoke code shape n me key w = (Ok x, w1) →
  ∀ fuel p r w2, script code shape fuel p w1 = (r, w2) →
  ∀ y, set me key y w2
         = (Thrown (VErr (next w2) Error (AlreadyRead key)), set_next (S (next w2)) w2)
     ∧ def me key y w2
         = (Thrown (VErr (next w2) Error (AlreadyRead key)), set_next (S (next w2)) w2).
Proof.
  intros Hwf Hreg H fuel p r w2 Hp y.
  pose proof (ut_evolves_invoke code shape n me key w Hwf) as E1. rewrite H in E1.
  assert (wf w1) as Hwf1 by (by apply (evolves_wf w)).
  pose proof (ut_evolves_script code shape fuel p w1 Hwf1) as E2. rewrite Hp in E2. simpl in *.
  assert (resolved w2 me key x) as Hres.
  { eapply ut_resolved_stable; [exact E2|].
    exact (ut_invoke_ok_resolved code shape n me key w x w1 Hwf Hreg H). }
  assert (wf w2) as Hwf2 by (by apply (evolves_wf w1)).
  split; [by eapply ut_set_resolved|by eapply ut_def_resolved].
Qed.

(** *** The global context *)

Lemma ut_global_delegation n g key r w :
  ctxs w !! g = Some r → prev r = None →
  match ctx w with
  | None =>
      invoke code shape (S n) g key w
        = (Thrown (VErr (next w) TypeError NoCurrentContext), set_next (S (next w)) w) ∧
      this w = (Thrown (VErr (next w) TypeError NoCurrentContext), set_next (S (next w)) w)
  | Some c =>
      invoke code shape (S n) g key w = invoke code shape n c key w ∧
      this w = (Ok (VCtx c), w)
  end.
Proof.
  intros Hr Hp. simpl. rewrite (ut_lookup_global code shape _ g key r w Hr Hp).
  unfold this. by destruct (ctx w).
Qed.

(** No context is ambient at top level: whatever ran before has restored
    [ctx]. *)
Lemma ut_top_level_ambient fuel p w :
  wf w → ctx w = None → ctx (script code shape fuel p w).2 = None.
Proof.
  intros Hwf H. pose proof (ut_evolves_script code shape fuel p w Hwf) as E.
  by rewrite (st_ctx _ _ _ _ E).
Qed.

(** While [exec] of [me] runs a function, [me] is the ambient context: a
    call of the global context is a call of [me], and [use.this] is [me]. *)
Lemma ut_exec_global n g r me log key w :
  ctxs w !! g = Some r → prev r = None →
  exec me log (invoke code shape (S n) g key) w
    = exec me log (invoke code shape n me key) w.
Proof.
  intros Hr Hp. unfold exec.
  assert (invoke code shape (S n) g key (set_ambient (Some me) log w)
          = invoke code shape n me key (set_ambient (Some me) log w)) as ->; [|done].
  change (lookup code shape (invoke code shape n) g key (set_ambient (Some me) log w)
          = invoke code shape n me key (set_ambient (Some me) log w)).
  by rewrite (ut_lookup_global code shape _ g key r (set_ambient (Some me) log w) Hr Hp).
Qed.

Lemma ut_exec_this me log w : (exec me log this w).1 = (Ok (VCtx me), log).
Proof. done. Qed.

(** A lookup that finds the entry in state [hasFactory]. *)
Lemma ut_lookup_hasFactory n me key w entry wm :
  regular w me → entry_for me key w = (Ok entry, wm) → read_s wm entry = Some hasFactory →
  invoke code shape (S n) me key w =
  resolve code shape (invoke code shape n) me key entry (read_v wm entry) wm.
Proof.
  intros (r & p & Hr & Hp) He Hs. simpl. unfold lookup. rewrite Hr, Hp.
  unfold bind. rewrite He. unfold state_machine. by rewrite Hs.
Qed.

(** The world in which the factory of an entry in state [hasFactory]
    starts. *)
Lemma factory_start me key w entry wm factory :
  wf w → entry_for me key w = (Ok entry, wm) → read_s wm entry = Some hasFactory →
  let w1 := write_v entry factory (write_s entry isCreating wm) in
  wf wm ∧ entry_of wm me key = Some entry ∧ evolves w w1 ∧ wf w1 ∧
  read_s w1 entry = Some isCreating.
Proof.
  intros Hwf He Hs w1.
  destruct (entry_for_spec me key w Hwf) as [E0 Hb]. rewrite He in E0, Hb. simpl in E0, Hb.
  destruct (Hb entry eq_refl) as (Hlt & Hent & _).
  assert (wf wm) as Hwfm by (by apply (evolves_wf w)).
  assert (∀ y, ¬ frozen (heap wm) entry y) as Hnf.
  { intros y Hy. destruct (frozen_read wm entry y Hwfm Hy). congruence. }
  assert (evolves wm w1) as E1 by (by apply stable_write_sv).
  split; [done|]. split; [done|]. split; [by eapply evolves_trans|].
  split; [by apply (evolves_wf wm)|].
  unfold w1. rewrite write_sv. by apply read_s_own.
Qed.

(** The factory [() => use.this] gives the context that makes the value. *)
Lemma ut_factory_this n me key w entry wm f :
  wf w → regular w me → entry_for me key w = (Ok entry, wm) →
  read_s wm entry = Some hasFactory → read_v wm entry = VFun f →
  code f me key = This Ret →
  ∃ w', invoke code shape (S n) me key w = (Ok (VCtx me), w') ∧
        entry_of w' me key = Some entry ∧
        read_s w' entry = Some wasRead ∧ read_v w' entry = VCtx me ∧
        read_d w' entry = None.
Proof.
  intros Hwf Hreg He Hs Hv Hf.
  rewrite (ut_lookup_hasFactory n me key w entry wm Hreg He Hs), Hv.
  destruct (factory_start me key w entry wm (VFun f) Hwf He Hs)
    as (Hwfm & Hent & _ & _ & Hs1).
  set (w1 := write_v entry (VFun f) (write_s entry isCreating wm)) in *.
  apply (resolve_returns n me key entry (VFun f) wm (VCtx me) (Some [])
           (set_ambient (ctx w1) (used w1) (set_ambient (Some me) (Some []) w1)));
    [done|done| |].
  - fold w1. unfold exec, call. by rewrite Hf.
  - by exists isCreating.
Qed.

(** The factory [() => use(k)], for a key [k] that [me] has read, gives the
    value that [me] holds for [k], and [k] is its dependency. *)
Lemma ut_factory_use n g r me key w entry wm f k x :
  wf w → ctxs w !! g = Some r → prev r = None → regular w me →
  entry_for me key w = (Ok entry, wm) →
  read_s wm entry = Some hasFactory → read_v wm entry = VFun f →
  code f me key = Use g k Ret → resolved w me k x →
  ∃ w', invoke code shape (S (S (S n))) me key w = (Ok x, w') ∧
        entry_of w' me key = Some entry ∧
        read_s w' entry = Some wasRead ∧ read_v w' entry = x ∧
        read_d w' entry = Some {| d_c := me; d_k := [k]; d_f := VFun f |}.
Proof.
  intros Hwf Hr Hp Hreg He Hs Hv Hf Hk.
  rewrite (ut_lookup_hasFactory _ me key w entry wm Hreg He Hs), Hv.
  destruct (factory_start me key w entry wm (VFun f) Hwf He Hs)
    as (Hwfm & Hent & E & Hwf1 & Hs1).
  set (w1 := write_v entry (VFun f) (write_s entry isCreating wm)) in *.
  set (wa := set_ambient (Some me) (Some []) w1).
  assert (wf wa) as Hwfa by (by apply wf_ambient).
  assert (resolved wa me k x) as Hka by (by apply (ut_resolved_stable w w1)).
  assert (regular wa me) as Hrega.
  { assert (regular w1 me) as (r1 & p1 & ? & ?) by (by eapply ut_regular_stable).
    by exists r1, p1. }
  destruct (st_prev _ _ _ _ E g r Hr) as (r' & Hr' & Hp').
  assert (invoke code shape (S (S n)) g k wa = (Ok x, push me k wa)) as Hrun.
  { change (invoke code shape (S (S n)) g k wa)
      with (lookup code shape (invoke code shape (S n)) g k wa).
    rewrite (ut_lookup_global code shape _ g k r' wa Hr') by congruence.
    change (ctx wa) with (Some me). cbv beta iota.
    change (invoke code shape (S n) me k wa)
      with (lookup code shape (invoke code shape n) me k wa).
    by apply ut_lookup_resolved. }
  apply (resolve_returns (S (S n)) me key entry (VFun f) wm x (Some [k])
           (set_ambient (ctx w1) (used w1) (push me k wa))); [done|done| |].
  - fold w1. unfold exec, call. rewrite Hf. fold wa.
    change (run (api (invoke code shape (S (S n)))) (Use g k Ret) wa)
      with (bind (invoke code shape (S (S n)) g k) (λ y, ret y) wa).
    unfold bind. rewrite Hrun. unfold ret. f_equal. f_equal.
    unfold push, wa. simpl. by rewrite decide_True.
  - exists isCreating. split; [|done].
    unfold read_s. simpl. rewrite heap_push. exact Hs1.
Qed.

(** *** Cycles *)

Lemma cycle_cached n me key w entry :
  wf w → regular w me → entry_of w me key = Some entry → read_s w entry = Some isCreating →
  let e := VErr (next w) Error (DidntResolve (String_ (read_v w entry)) key) in
  let w' := write_d entry None (write_v entry e (write_s entry hasError
              (set_next (S (next w)) w))) in
  invoke code shape (S n) me key w = (Thrown e, w') ∧
  read_s w' entry = Some hasError ∧ read_v w' entry = e ∧
  ∀ m, invoke code shape (S m) me key w' = (Thrown e, w').
Proof.
  intros Hwf Hreg He Hs e w'.
  assert (entry < length (heap w)) as Hlt by (by apply (wf_entry _ Hwf me key)).
  destruct (ut_lookup_isCreating code shape (invoke code shape n) me key entry w Hreg He Hs Hlt)
    as (H1 & H2 & H3 & _).
  fold e in H1, H3. fold w' in H1, H2, H3.
  split; [done|]. split; [done|]. split; [done|].
  intros m. simpl.
  assert (regular w' me) as Hreg' by done.
  assert (entry_of w' me key = Some entry) as He' by done.
  rewrite (ut_lookup_hasError code shape _ me key entry w' Hreg' He' H2). by rewrite H3.
Qed.

(** An error that goes through [resolve] while the entry holds it. *)
Lemma error_propagated n me key w entry wm factory err log w2 :
  regular w me → entry_for me key w = (Ok entry, wm) →
  (read_s wm entry = Some hasFactory ∧ factory = read_v wm entry
   ∨ read_s wm entry = Some isUnset ∧ factory = VDefault) →
  exec me (Some []) (call code shape (invoke code shape n) factory me key)
       (write_v entry factory (write_s entry isCreating wm)) = (Thrown err, log, w2) →
  invoke code shape (S n) me key w = (Thrown err, w2) ∧
  (regular w2 me → entry_of w2 me key = Some entry →
   read_s w2 entry = Some hasError → read_v w2 entry = err →
   ∀ m, invoke code shape (S m) me key w2 = (Thrown err, w2)).
Proof.
  intros (r & p & Hr & Hp) He Hcase Hx. split.
  - simpl. unfold lookup. rewrite Hr, Hp. unfold bind. rewrite He.
    unfold state_machine.
    destruct Hcase as [[-> ->]|[-> ->]]; by apply (resolve_thrown _ _ _ _ _ _ _ _ _ log).
  - intros Hreg2 He2 Hs2 Hv2 m. simpl.
    rewrite (ut_lookup_hasError code shape _ me key entry w2 Hreg2 He2 Hs2). by rewrite Hv2.
Qed.

End Claims.


(** ** Writes *)

Lemma write_ok me key s x w y w1 :
  wf w →
  (let* entry := entry_for me key in
   let* _ := setEntry key s x entry in ret (VCtx me)) w = (Ok y, w1) →
  y = VCtx me ∧ wf w1 ∧ (∀ c, regular w c → regular w1 c) ∧
  ∃ entry, entry_of w1 me key = Some entry ∧ entry < length (heap w1) ∧
           read_s w1 entry = Some s ∧ read_v w1 entry = x ∧ read_d w1 entry = None.
Proof.
  intros Hwf. pose proof (evolves_write me key s x w Hwf) as E.
  unfold bind in *. destruct (entry_for_spec me key w Hwf) as [St Hb].
  destruct (entry_for me key w) as [[entry|e|] w0]; simpl in *; [|done..].
  destruct (Hb entry eq_refl) as (Hlt & He & _).
  unfold setEntry in *.
  assert (write_d entry None (write_v entry x (write_s entry s w0)) = w1 →
          VCtx me = y →
          y = VCtx me ∧ wf w1 ∧ (∀ c, regular w c → regular w1 c) ∧
          ∃ entry, entry_of w1 me key = Some entry ∧ entry < length (heap w1) ∧
                   read_s w1 entry = Some s ∧ read_v w1 entry = x ∧ read_d w1 entry = None)
    as Hfin.
  { intros <- <-. split; [done|].
    assert (wf w0) as Hwf0 by (by apply (evolves_wf w)).
    split; [eapply (st_wf [] (λ _ _, True)); [apply stable_write_svd, nothing_frozen|done]|].
    split; [intros c Hc; by apply (ut_regular_stable _ _ w w0 c St)|].
    exists entry. split; [done|]. rewrite write_svd.
    split; [unfold modify; simpl; by rewrite length_alter|].
    split; [by apply read_s_own|]. split; [by apply read_v_own|by apply read_d_own]. }
  destruct (read_s w0 entry) as [[]|]; simpl in *; try done;
    intros [= <- <-]; by apply Hfin.
Qed.

Lemma ut_set_ok me key x w y w1 :
  wf w → set me key x w = (Ok y, w1) →
  y = VCtx me ∧ wf w1 ∧ (∀ c, regular w c → regular w1 c) ∧
  ∃ entry, entry_of w1 me key = Some entry ∧ entry < length (heap w1) ∧
           read_s w1 entry = Some hasValue ∧ read_v w1 entry = x ∧ read_d w1 entry = None.
Proof.
  intros Hwf. unfold set, method. destruct (ctxs w !! me); [|done]. by apply write_ok.
Qed.

Lemma ut_def_ok me key x w y w1 :
  wf w → def me key x w = (Ok y, w1) →
  y = VCtx me ∧ wf w1 ∧ (∀ c, regular w c → regular w1 c) ∧
  ∃ entry, entry_of w1 me key = Some entry ∧ entry < length (heap w1) ∧
           read_s w1 entry = Some hasFactory ∧ read_v w1 entry = x ∧ read_d w1 entry = None.
Proof.
  intros Hwf. unfold def, method. destruct (ctxs w !! me); [|done]. by apply write_ok.
Qed.

Section Writes.
Context (code : nat → nat → nat → Prog) (shape : nat → KeyShape).

(** A lookup of a plain value, one without a dependency record. *)
Lemma ut_lookup_plain_value look me key entry w :
  regular w me → entry_of w me key = Some entry → entry < length (heap w) →
  read_s w entry = Some hasValue → read_d w entry = None →
  lookup code shape look me key w =
    (Ok (read_v w entry),
     push me key (write_d entry None (write_v entry (read_v w entry)
                                        (write_s entry wasRead w)))).
Proof.
  intros (r & p & Hr & Hp) He Hlt Hs Hd. unfold lookup. rewrite Hr, Hp.
  unfold bind. rewrite (entry_for_present me key entry w He).
  unfold state_machine. rewrite Hs. unfold case_hasValue. rewrite Hd.
  assert (read_v (write_s entry wasRead w) entry = read_v w entry) as ->.
  { apply (read_v_same entry entry (λ o, {| o_s := Some wasRead; o_v := o_v o; o_d := o_d o;
                                           proto := proto o |})); done. }
  unfold case_wasRead. f_equal. f_equal. rewrite write_svd. by apply read_v_own.
Qed.

Lemma ut_write_clears_deps me key x w y w1 :
  wf w → set me key x w = (Ok y, w1) →
  ∃ entry, entry_of w1 me key = Some entry ∧
    read_s w1 entry = Some hasValue ∧ read_v w1 entry = x ∧ read_d w1 entry = None ∧
    (regular w me → ∀ n,
       invoke code shape (S n) me key w1
         = (Ok x, push me key (write_d entry None (write_v entry x
                                                      (write_s entry wasRead w1))))).
Proof.
  intros Hwf H. apply ut_set_ok in H as (_ & Hwf1 & Hreg1 & entry & He & Hlt & Hs & Hv & Hd); [|done].
  exists entry. split; [done|]. split; [done|]. split; [done|]. split; [done|].
  intros Hreg n. simpl.
  rewrite (ut_lookup_plain_value _ me key entry w1 (Hreg1 _ Hreg) He Hlt Hs Hd). by rewrite Hv.
Qed.

Lemma ut_def_clears_deps me key fac w y w1 :
  wf w → def me key fac w = (Ok y, w1) →
  ∃ entry, entry_of w1 me key = Some entry ∧
    read_s w1 entry = Some hasFactory ∧ read_v w1 entry = fac ∧ read_d w1 entry = None.
Proof.
  intros Hwf H. apply ut_def_ok in H as (_ & _ & _ & entry & He & _ & Hs & Hv & Hd); [|done].
  by exists entry.
Qed.

(** *** Validation resolves the dependencies *)

Lemma ut_validation_resolves n me key w entry wm deps v seen w1 :
  wf w → regular w me →
  entry_for me key w = (Ok entry, wm) →
  read_s wm entry = Some hasValue → read_d wm entry = Some deps →
  checked (invoke code shape n) me (d_c deps) (d_k deps) v seen
          (set_ambient (Some me) None wm) w1 →
  used w1 = None ∧
  (∀ k, k ∈ seen → ∃ x, resolved w1 me k x) ∧
  ((∃ err, v = Raised err) ∨ read_s w1 entry ≠ Some wasRead →
   ∀ r w', invoke code shape (S n) me key w = (r, w') →
    ∀ k, k ∈ seen →
    ∀ fuel p r2 w2, script code shape fuel p w' = (r2, w2) →
    ∀ y, set me k y w2
           = (Thrown (VErr (next w2) Error (AlreadyRead k)), set_next (S (next w2)) w2)
       ∧ def me k y w2
           = (Thrown (VErr (next w2) Error (AlreadyRead k)), set_next (S (next w2)) w2)).
Proof.
  intros Hwf Hreg He Hs Hd Hc.
  destruct (entry_for_spec me key w Hwf) as [St Hb]. rewrite He in St, Hb. simpl in St, Hb.
  assert (wf wm) as Hwfm by (by apply (evolves_wf w)).
  assert (wf (set_ambient (Some me) None wm)) as Hwfa by (by apply wf_ambient).
  assert (regular (set_ambient (Some me) None wm) me) as Hreg0.
  { assert (regular wm me) as (r0 & p0 & Hr0 & Hp0); [|by exists r0, p0].
    eapply ut_regular_stable; [exact St|done]. }
  pose proof (ut_checked_resolved code shape _ _ _ _ _ _ _ _ Hwfa Hreg0 Hc) as Hres.
  pose proof (ut_evolves_checked code shape _ _ _ _ _ _ _ _ Hwfa Hc) as E.
  assert (wf w1) as Hwf1 by (by apply (evolves_wf _ _ E)).
  split; [|split; [done|]].
  - pose proof (st_used _ _ _ _ E) as Hu. simpl in Hu. done.
  - intros Hnr r w' Hi k Hk fuel p r2 w2 Hp y.
    set (w2' := set_ambient (ctx wm) (used wm) w1).
    assert (wf w2') as Hwf2' by (by apply wf_ambient).
    assert (evolves w2' w') as E2.
    { rewrite (lookup_hasValue code shape n me key w entry wm Hreg He Hs) in Hi.
      unfold case_hasValue in Hi. rewrite Hd in Hi.
      rewrite (ut_exec_checked code shape _ _ _ _ _ _ _ _ Hc) in Hi. fold w2' in Hi.
      destruct v as [| |err]; cbn [ends] in Hi.
      - destruct Hnr as [[err [= ]]|Hnr].
        assert (∀ y, ¬ frozen (heap w2') entry y) as Hnf.
        { intros y0 Hy. by destruct (frozen_read w1 entry y0 Hwf1 Hy). }
        unfold case_wasRead in Hi. injection Hi as <- <-.
        eapply ut_stable_trans; [by apply stable_write_svd|apply ut_stable_push].
      - destruct Hnr as [[err [= ]]|Hnr].
        assert (∀ y, ¬ frozen (heap w2') entry y) as Hnf.
        { intros y0 Hy. by destruct (frozen_read w1 entry y0 Hwf1 Hy). }
        pose proof (stable_resolve code shape (invoke code shape n)
                      (λ c k0 w0, ut_evolves_invoke code shape n c k0 w0) (heap w2')
                      me key entry (d_f deps)
                      (write_d entry None (write_v entry (d_f deps)
                                             (write_s entry hasFactory w2')))) as Hst.
        rewrite Hi in Hst. simpl in Hst.
        eapply ut_stable_trans; [by apply (stable_write_svd _ _ entry hasFactory (d_f deps) None)|].
        apply Hst; [|done].
        eapply (st_wf [] (λ _ _, True)); [apply stable_write_svd, nothing_frozen|done].
      - injection Hi as <- <-. apply ut_stable_refl. }
    destruct (Hres k Hk) as [x Hx].
    assert (resolved w' me k x) as Hx' by (by apply (ut_resolved_stable w2' w')).
    assert (wf w') as Hwf' by (by apply (evolves_wf w2')).
    pose proof (ut_evolves_script code shape fuel p w' Hwf') as E3. rewrite Hp in E3. simpl in E3.
    assert (resolved w2 me k x) as Hres2 by (by eapply ut_resolved_stable).
    assert (wf w2) as Hwf2 by (by apply (evolves_wf w')).
    split; [by eapply ut_set_resolved|by eapply ut_def_resolved].
Qed.

End Writes.


(** ** Materialize *)

(** A new object reads what the object it was made from reads. *)
Lemma read_s_fresh p w :
  wf w → p < length (heap w) →
  read_s (alloc {| o_s := None; o_v := None; o_d := None; proto := Some p |} w).2
         (length (heap w)) = read_s w p.
Proof. intros Hwf Hp. unfold read_s. rewrite get_fresh; [done..|]. by intros q [= <-]. Qed.

Lemma read_v_fresh p w :
  wf w → p < length (heap w) →
  read_v (alloc {| o_s := None; o_v := None; o_d := None; proto := Some p |} w).2
         (length (heap w)) = read_v w p.
Proof. intros Hwf Hp. unfold read_v. rewrite get_fresh; [done..|]. by intros q [= <-]. Qed.

Lemma read_d_fresh p w :
  wf w → p < length (heap w) →
  read_d (alloc {| o_s := None; o_v := None; o_d := None; proto := Some p |} w).2
         (length (heap w)) = read_d w p.
Proof. intros Hwf Hp. unfold read_d. rewrite get_fresh; [done..|]. by intros q [= <-]. Qed.

Lemma read_d_same a b f w :
  (∀ o, o_d (f o) = o_d o) → (∀ o, proto (f o) = proto o) →
  read_d (modify b f w) a = read_d w a.
Proof.
  intros Hf Hp. unfold read_d, modify. simpl. rewrite length_alter.
  by rewrite get_alter_same.
Qed.

Lemma inherited_state_idem s : inherited_state (inherited_state s) = inherited_state s.
Proof. by destruct s as [[]|]. Qed.

(** Objects are read through older objects only. *)
Lemma get_agree {A} (p : Obj → option A) h h' n a :
  (∀ a o q, h !! a = Some o → proto o = Some q → q < a) →
  (∀ a', a' ≤ a → h' !! a' = h !! a') → get p n h' a = get p n h a.
Proof.
  intros Hok. revert a. induction n as [|n IH]; intros a Hsame; [done|]. simpl.
  rewrite (Hsame a) by lia. destruct (h !! a) as [o|] eqn:Ho; [|done].
  destruct (p o); [done|]. destruct (proto o) as [q|] eqn:Hq; [|done].
  apply IH. intros a' Ha'. apply Hsame. specialize (Hok a o q Ho Hq). lia.
Qed.

Lemma reads_prefix w w' a :
  wf w → (∀ a, a < length (heap w) → heap w' !! a = heap w !! a) →
  length (heap w) ≤ length (heap w') → a < length (heap w) →
  read_s w' a = read_s w a ∧ read_v w' a = read_v w a ∧ read_d w' a = read_d w a.
Proof.
  intros Hwf Hpre Hlen Ha. unfold read_s, read_v, read_d.
  rewrite !(get_agree _ (heap w) (heap w') _ a (wf_proto _ Hwf))
    by (intros a' Ha'; apply Hpre; lia).
  by rewrite !(get_fuel _ (heap w) (length (heap w')) (length (heap w)) a (wf_proto _ Hwf))
    by lia.
Qed.

(** [Object.create(parent)], the state made writable, and the entry stored. *)
Lemma make_entry me key parent w1 :
  wf w1 → is_Some (ctxs w1 !! me) → parent < length (heap w1) →
  let entry := length (heap w1) in
  let w2 := (alloc {| o_s := None; o_v := None; o_d := None; proto := Some parent |} w1).2 in
  let w3 := match read_s w2 entry with
            | Some wasRead | None => write_s entry hasValue w2
            | _ => w2
            end in
  let w' := store me key entry w3 in
  wf w' ∧ length (heap w') = S (length (heap w1)) ∧ entry_of w' me key = Some entry ∧
  (∀ c k, (c, k) ≠ (me, key) → entry_of w' c k = entry_of w1 c k) ∧
  (∀ a, a < length (heap w1) → heap w' !! a = heap w1 !! a) ∧
  read_s w' entry = inherited_state (read_s w1 parent) ∧
  read_v w' entry = read_v w1 parent ∧ read_d w' entry = read_d w1 parent.
Proof.
  intros Hwf1 [rme Hme1] Hparent entry w2 w3 w'.
  set (o := {| o_s := None; o_v := None; o_d := None; proto := Some parent |}) in *.
  pose proof (read_s_fresh parent w1 Hwf1 Hparent) as Rs.
  pose proof (read_v_fresh parent w1 Hwf1 Hparent) as Rv.
  pose proof (read_d_fresh parent w1 Hwf1 Hparent) as Rd.
  fold o entry w2 in Rs, Rv, Rd.
  assert (stable [] (others me key) w1 w2) as St2.
  { apply stable_alloc; [by intros q [= <-]|done|done]. }
  assert (wf w2) as Hwf2 by (by apply (st_wf _ _ _ _ St2)).
  assert (length (heap w2) = S entry) as Hlen2.
  { unfold w2. simpl. rewrite length_app. simpl. unfold entry. lia. }
  assert (∀ a, a < length (heap w1) → heap w2 !! a = heap w1 !! a) as Hpre2.
  { intros a Ha. unfold w2. simpl. by rewrite lookup_app_l. }
  assert (ctxs w2 = ctxs w1) as Ec2 by done.
  assert (wf w3 ∧ ctxs w3 = ctxs w2 ∧ length (heap w3) = length (heap w2) ∧
          (∀ a, a < length (heap w1) → heap w3 !! a = heap w2 !! a) ∧
          read_s w3 entry = inherited_state (read_s w1 parent) ∧
          read_v w3 entry = read_v w1 parent ∧ read_d w3 entry = read_d w1 parent)
    as (Hwf3 & Ec3 & El3 & Hpre3 & Rs3 & Rv3 & Rd3).
  { assert (wf (write_s entry hasValue w2) ∧
            ctxs (write_s entry hasValue w2) = ctxs w2 ∧
            length (heap (write_s entry hasValue w2)) = length (heap w2) ∧
            (∀ a, a < length (heap w1) → heap (write_s entry hasValue w2) !! a = heap w2 !! a) ∧
            read_s (write_s entry hasValue w2) entry = Some hasValue ∧
            read_v (write_s entry hasValue w2) entry = read_v w1 parent ∧
            read_d (write_s entry hasValue w2) entry = read_d w1 parent) as Hforce.
    { split.
      { eapply (st_wf [] (λ _ _, True)); [|done].
        apply (stable_modify [] _ entry); try done. apply nothing_frozen. }
      split; [done|]. split; [simpl; by rewrite length_alter|].
      split; [intros a Ha; simpl; rewrite list_lookup_alter_ne; [done|unfold entry; lia]|].
      split; [apply (read_s_own entry); [lia|done]|].
      split.
      - rewrite <- Rv.
        apply (read_v_same entry entry (λ o0, {| o_s := Some hasValue; o_v := o_v o0;
                 o_d := o_d o0; proto := proto o0 |})); done.
      - rewrite <- Rd.
        apply (read_d_same entry entry (λ o0, {| o_s := Some hasValue; o_v := o_v o0;
                 o_d := o_d o0; proto := proto o0 |})); done. }
    unfold w3. rewrite <- Rs.
    destruct (read_s w2 entry) as [[]|] eqn:Es; simpl; try exact Hforce;
      (split; [exact Hwf2|]; repeat split; done). }
  clearbody w3.
  split.
  { eapply (st_wf [] (others me key)); [apply ut_stable_store; [lia|]|done].
    intros c k Hc. unfold entry_of in Hc. rewrite Ec3, Ec2 in Hc.
    apply (wf_entry _ Hwf1 c k) in Hc. unfold entry in Hc. lia. }
  split; [unfold w'; simpl; lia|].
  split; [unfold w'; rewrite ut_entry_of_store, decide_True by done; by rewrite Ec3, Ec2, Hme1|].
  split.
  { intros c k Hne. unfold w'. rewrite ut_entry_of_store, decide_False by (intros [<- <-]; done).
    unfold entry_of. by rewrite Ec3, Ec2. }
  split; [intros a Ha; unfold w'; simpl; rewrite Hpre3 by done; by apply Hpre2|].
  done.
Qed.

(** One step of [getEntry] in a registry that has no entry for the key. *)
Lemma getEntry_step n me key reg r w :
  ctxs w !! reg = Some r → entries r !! key = None →
  getEntry (S n) me key reg w =
    match prev r with
    | Some p =>
        match getEntry n me key p w with
        | (Ok parent, w1) =>
            (Ok (length (heap w1)),
             store me key (length (heap w1))
               match read_s (alloc {| o_s := None; o_v := None; o_d := None;
                                      proto := Some parent |} w1).2 (length (heap w1)) with
               | Some wasRead | None =>
                   write_s (length (heap w1)) hasValue
                     (alloc {| o_s := None; o_v := None; o_d := None;
                               proto := Some parent |} w1).2
               | _ => (alloc {| o_s := None; o_v := None; o_d := None;
                                proto := Some parent |} w1).2
               end)
        | other => other
        end
    | None =>
        (Ok (length (heap w)),
         store me key (length (heap w))
           (alloc {| o_s := Some isUnset; o_v := Some VNull; o_d := Some None;
                     proto := None |} w).2)
    end.
Proof.
  intros Hr He. simpl. rewrite Hr, He. destruct (prev r); [|done].
  by destruct (getEntry n me key n0 w) as [[]].
Qed.

(** The entry that [getEntry] makes when the registry [reg] has none: it is
    a new object, it is stored in [me] and nowhere else, the objects that
    were there are as they were, and it reads what the entry of the nearest
    registry above reads, with the state [hasValue] if that one was read. *)
Lemma getEntry_new n me key reg r w res :
  wf w → chain_ok w → is_Some (ctxs w !! me) → reg < n →
  ctxs w !! reg = Some r → entries r !! key = None →
  nearest (ctxs w) key (prev r) res →
  ∃ b w', getEntry n me key reg w = (Ok b, w') ∧
    length (heap w) ≤ b ∧ b < length (heap w') ∧ wf w' ∧
    entry_of w' me key = Some b ∧
    (∀ c k, (c, k) ≠ (me, key) → entry_of w' c k = entry_of w c k) ∧
    (∀ a, a < length (heap w) → heap w' !! a = heap w !! a) ∧
    match res with
    | Some (_, a) =>
        read_s w' b = inherited_state (read_s w a) ∧
        read_v w' b = read_v w a ∧ read_d w' b = read_d w a
    | None => read_s w' b = Some isUnset ∧ read_v w' b = VNull ∧ read_d w' b = None
    end.
Proof.
  revert reg r w res. induction n as [|n IH]; intros reg r w res Hwf Hch Hme Hn Hr He Hnear;
    [lia|].
  rewrite (getEntry_step n me key reg r w Hr He).
  inversion Hnear as [Hp|p regp a Hrp Hep Hp|p regp res' Hrp Hep Hnear' Hp]; subst;
    try rewrite <- Hp; cbv beta iota.
  - (* no registry above *)
    set (o := {| o_s := Some isUnset; o_v := Some VNull; o_d := Some None; proto := None |}).
    exists (length (heap w)), (store me key (length (heap w)) (alloc o w).2).
    assert (stable [] (others me key) w (alloc o w).2) as St2 by (by apply stable_alloc).
    assert (wf (alloc o w).2) as Hwf2 by (by apply (st_wf _ _ _ _ St2)).
    split; [done|]. split; [done|].
    split; [simpl; rewrite length_app; simpl; lia|].
    split.
    { eapply (st_wf [] (others me key)); [apply ut_stable_store|done].
      - simpl. rewrite length_app. simpl. lia.
      - intros c k Hc. apply (wf_entry _ Hwf c k) in Hc. lia. }
    split; [rewrite ut_entry_of_store, decide_True by done; destruct Hme as [? Hme];
            simpl; by rewrite Hme|].
    split; [intros c k Hne; by rewrite ut_entry_of_store, decide_False by (intros [<- <-]; done)|].
    split; [intros a Ha; simpl; by rewrite lookup_app_l|].
    unfold read_s, read_v, read_d.
    change (heap (store me key (length (heap w)) (alloc o w).2)) with (heap (alloc o w).2).
    rewrite !get_fresh by done. done.
  - (* the registry above has the entry *)
    assert (getEntry n me key p w = (Ok a, w)) as ->.
    { destruct n as [|n']; [specialize (Hch reg r p Hr (eq_sym Hp)); lia|].
      simpl. by rewrite Hrp, Hep. }
    assert (a < length (heap w)) as Ha.
    { apply (wf_entry _ Hwf p key). unfold entry_of. by rewrite Hrp. }
    pose proof (make_entry me key a w Hwf Hme Ha) as H. cbv zeta in H.
    destruct H as (H1 & H2 & H3 & H4 & H5 & H6).
    eexists _, _. split; [reflexivity|]. split; [done|].
    split; [rewrite H2; lia|].
    split; [done|]. split; [done|]. split; [done|]. split; done.
  - (* the walk goes on *)
    assert (p < reg) as Hlt by (apply (Hch reg r p Hr); done).
    destruct (IH p regp w res Hwf Hch Hme ltac:(lia) Hrp Hep Hnear')
      as (b' & w1 & -> & Hb1 & Hb2 & Hwf1 & He1 & Hfr1 & Hpre1 & Hread1).
    assert (is_Some (ctxs w1 !! me)) as Hme1.
    { unfold entry_of in He1. by destruct (ctxs w1 !! me). }
    pose proof (make_entry me key b' w1 Hwf1 Hme1 Hb2) as H. cbv zeta in H.
    destruct H as (H1 & H2 & H3 & H4 & H5 & H6 & H7 & H8).
    eexists _, _. split; [reflexivity|]. split; [lia|]. split; [rewrite H2; lia|].
    split; [done|]. split; [done|].
    split; [intros c k Hne; rewrite H4 by done; by apply Hfr1|].
    split; [intros a Ha; rewrite H5 by lia; by apply Hpre1|].
    destruct res as [[c a]|].
    + destruct Hread1 as (R1 & R2 & R3). rewrite H6, H7, H8, R1, R2, R3.
      by rewrite inherited_state_idem.
    + destruct Hread1 as (R1 & R2 & R3). rewrite H6, H7, H8, R1, R2, R3. done.
Qed.

(** [getEntry(key, registry)] in a context [me] that has no entry for [key]. *)
Lemma entry_for_new me key r w res :
  wf w → chain_ok w → ctxs w !! me = Some r → entries r !! key = None →
  nearest (ctxs w) key (prev r) res →
  ∃ b w', entry_for me key w = (Ok b, w') ∧
    length (heap w) ≤ b ∧ b < length (heap w') ∧ wf w' ∧
    entry_of w' me key = Some b ∧
    (∀ c k, (c, k) ≠ (me, key) → entry_of w' c k = entry_of w c k) ∧
    (∀ a, a < length (heap w) →
       heap w' !! a = heap w !! a ∧
       read_s w' a = read_s w a ∧ read_v w' a = read_v w a ∧ read_d w' a = read_d w a) ∧
    match res with
    | Some (_, a) =>
        read_s w' b = inherited_state (read_s w a) ∧
        read_v w' b = read_v w a ∧ read_d w' b = read_d w a
    | None => read_s w' b = Some isUnset ∧ read_v w' b = VNull ∧ read_d w' b = None
    end.
Proof.
  intros Hwf Hch Hr He Hnear. unfold entry_for.
  destruct (getEntry_new (S (length (ctxs w))) me key me r w res Hwf Hch
              (ex_intro _ r Hr) ltac:(apply lookup_lt_Some in Hr; lia) Hr He Hnear)
    as (b & w' & H & H1 & H2 & H3 & H4 & H5 & H6 & H7).
  exists b, w'. split; [done|]. split; [done|]. split; [done|]. split; [done|].
  split; [done|]. split; [done|]. split; [|done].
  intros a Ha. split; [by apply H6|]. apply reads_prefix; [done|done|lia|done].
Qed.


(** ** What a lookup writes to *)

Lemma ut_target_regular w c : regular w c → target w c = Some c.
Proof. intros (r & p & Hr & Hp). unfold target. by rewrite Hr, Hp. Qed.

Lemma ut_target_other w c : wf w → c ≠ 0 → target w c = Some c ∨ target w c = None.
Proof.
  intros Hwf Hc. unfold target. destruct (ctxs w !! c) as [r|] eqn:Hr; [|by right].
  destruct (proj2 (wf_rooted _ Hwf) c r Hr Hc) as [p ->]. by left.
Qed.

Lemma ut_target_global w : wf w → target w 0 = ctx w.
Proof.
  intros Hwf. destruct (proj1 (wf_rooted _ Hwf)) as (r & Hr & Hp). unfold target.
  by rewrite Hr, Hp.
Qed.

(** *** [keeps] *)

Lemma ut_keeps_refl P w : keeps P w w.
Proof. by split. Qed.

Lemma keeps_same P w w' : heap w' = heap w → ctxs w' = ctxs w → keeps P w w'.
Proof. intros Eh Ec. split; [by rewrite Ec|by rewrite Eh]. Qed.

(** An assignment to an object that a registry outside of [P] holds. *)
Lemma keeps_modify (P : CtxId → Prop) me key b f w :
  entry_of w me key = Some b → ¬ P me → keeps P w (modify b f w).
Proof.
  intros Hb Hme. split; [done|].
  intros a o Ha Hheld. unfold modify. simpl. rewrite list_lookup_alter_ne; [done|].
  intros <-. by apply Hme, (Hheld me key).
Qed.

Lemma keeps_alloc P o w : keeps P w (alloc o w).2.
Proof.
  split; [done|]. intros a o' Ha _. simpl. by apply lookup_app_l_Some.
Qed.

Lemma ut_keeps_store (P : CtxId → Prop) me key a w : ¬ P me → keeps P w (store me key a w).
Proof.
  intros Hme. split; [|done].
  intros c Hc _. unfold store. simpl. rewrite list_lookup_alter_ne; [done|]. by intros ->.
Qed.

Lemma ut_keeps_newCtx P p w : keeps P w (newCtx p w).2.
Proof. split; [|done]. intros c _ Hlt. simpl. by rewrite lookup_app_l. Qed.

(** *** [frame] *)

Lemma frame_refl P w : frame P w w.
Proof. split; [apply ut_keeps_refl| |done..]. intros a d H _. by exists a. Qed.

Lemma frame_trans P w1 w2 w3 : frame P w1 w2 → frame P w2 w3 → frame P w1 w3.
Proof.
  intros [[K1 K2] H2 H3 H4 H5 H6] [[J1 J2] G2 G3 G4 G5 G6].
  split; [split| | |congruence|lia|lia].
  - intros c Hc Hlt. rewrite J1 by (done || lia). by apply K1.
  - intros a o Ha Hheld. apply J2; [by apply K2|].
    intros c k Hck. apply (Hheld c k). apply H3; [done|]. by eapply lookup_lt_Some.
  - intros a d Hd HP. destruct (G2 a d Hd HP) as [a0 Ha0]. by apply (H2 a0).
  - intros c k a Ha Hlt. apply H3; [|done]. apply G3; [done|lia].
Qed.

(** A step that leaves the heap and the registries as they are. *)
Lemma frame_same P w w' :
  heap w' = heap w → ctxs w' = ctxs w → ctx w' = ctx w → frame P w w'.
Proof.
  intros Eh Ec Ex. split; [by apply keeps_same| | |done|by rewrite Ec|by rewrite Eh].
  - intros a d Hd _. exists a. unfold read_d in *. by rewrite <- Eh.
  - intros c k a Ha _. unfold entry_of in *. by rewrite <- Ec.
Qed.

Lemma frame_set_next P n w : frame P w (set_next n w).
Proof. by apply frame_same. Qed.

Lemma ut_ctx_push me key w : ctx (push me key w) = ctx w.
Proof.
  unfold push. destruct (ctx w) eqn:E; [|done]. destruct (used w); [|done].
  by destruct (decide _).
Qed.

Lemma frame_push P me key w : frame P w (push me key w).
Proof. apply frame_same; [apply heap_push|apply ut_ctxs_push|apply ut_ctx_push]. Qed.

(** The dependency record that an object reads after an assignment is the
    one it read before or the one assigned. *)
Lemma get_d_alter f b h n a x :
  (∀ o, proto (f o) = proto o) → (∀ o, o_d (f o) = None → o_d o = None) →
  get o_d n (alter f b h) a = Some x →
  get o_d n h a = Some x ∨ ∃ o, h !! b = Some o ∧ o_d (f o) = Some x.
Proof.
  intros Hp Hd. revert a. induction n as [|n IH]; intros a; simpl; [done|].
  rewrite list_lookup_alter. destruct (decide (b = a)) as [->|Hne].
  - destruct (h !! a) as [o|] eqn:Ho; simpl; [|done].
    destruct (o_d (f o)) as [y|] eqn:Hy.
    + intros [= <-]. right. by exists o.
    + rewrite (Hd o Hy), Hp. destruct (proto o) as [q|]; [|done]. apply IH.
  - destruct (h !! a) as [o|]; [|done]. destruct (o_d o); [by left|].
    destruct (proto o) as [q|]; [|done]. apply IH.
Qed.

Lemma read_d_modify b f w a d :
  (∀ o, proto (f o) = proto o) → (∀ o, o_d (f o) = None → o_d o = None) →
  read_d (modify b f w) a = Some d →
  read_d w a = Some d ∨ ∃ o, heap w !! b = Some o ∧ o_d (f o) = Some (Some d).
Proof.
  intros Hp Hd. unfold read_d, modify. simpl. rewrite length_alter.
  destruct (get o_d (length (heap w)) (alter f b (heap w)) a) as [x|] eqn:E; [|done].
  simpl. intros ->. destruct (get_d_alter f b _ _ a _ Hp Hd E) as [->|H]; [by left|by right].
Qed.

(** After an operation from [w0] to [w], an assignment to the entry of
    [key] in [me]; its new dependency record, if any, is one that was there
    in [w0] or has its origin outside of [P]. *)
Lemma frame_modify (P : CtxId → Prop) w0 me key b f w :
  frame P w0 w → entry_of w me key = Some b → ¬ P me →
  (∀ o, proto (f o) = proto o) → (∀ o, o_d (f o) = None → o_d o = None) →
  (∀ o d, heap w !! b = Some o → o_d (f o) = Some (Some d) →
          P (d_c d) → ∃ a0, read_d w0 a0 = Some d) →
  frame P w0 (modify b f w).
Proof.
  intros F Hb Hme Hp Hd Hnew.
  destruct F as [[K1 K2] H2 H3 H4 H5 H6].
  split; [split| | |done|done|by unfold modify; simpl; rewrite length_alter].
  - intros c Hc Hlt. by apply K1.
  - intros a o Ha Hheld. unfold modify. simpl. rewrite list_lookup_alter_ne; [by apply K2|].
    intros <-. apply Hme. apply (Hheld me key). apply H3; [done|]. by eapply lookup_lt_Some.
  - intros a d Ha HP. destruct (read_d_modify b f w a d Hp Hd Ha) as [H|(o & Ho & Hod)].
    + by apply (H2 a).
    + by apply (Hnew o d).
  - intros c k a. apply H3.
Qed.

Lemma frame_write_svd (P : CtxId → Prop) w0 me key b s x d w :
  frame P w0 w → entry_of w me key = Some b → ¬ P me →
  (∀ d', d = Some d' → P (d_c d') → ∃ a0, read_d w0 a0 = Some d') →
  frame P w0 (write_d b d (write_v b x (write_s b s w))).
Proof.
  intros F Hb Hme Hd. rewrite write_svd. apply (frame_modify P w0 me key); try done.
  simpl. intros o d' _ [= ->]. by apply Hd.
Qed.

Lemma frame_write_sv (P : CtxId → Prop) w0 me key b s x w :
  frame P w0 w → entry_of w me key = Some b → ¬ P me →
  frame P w0 (write_v b x (write_s b s w)).
Proof.
  intros F Hb Hme. rewrite write_sv. apply (frame_modify P w0 me key); try done.
  simpl. intros o d' Ho Hd HP. assert (heap w !! b = Some o) as Ho' by done.
  apply (f_prov _ _ _ F b); [|done]. unfold read_d. apply lookup_lt_Some in Ho' as Hlt.
  destruct (length (heap w)) as [|n] eqn:E; [lia|]. simpl. by rewrite Ho', Hd.
Qed.

Lemma frame_write_d (P : CtxId → Prop) w0 me key b d w :
  frame P w0 w → entry_of w me key = Some b → ¬ P me →
  (∀ d', d = Some d' → P (d_c d') → ∃ a0, read_d w0 a0 = Some d') →
  frame P w0 (write_d b d w).
Proof.
  intros F Hb Hme Hd. apply (frame_modify P w0 me key); try done.
  simpl. intros o d' _ [= ->]. by apply Hd.
Qed.

(** [inv] goes along an operation that keeps what was frozen. *)
Lemma inv_step P w w' :
  inv P w → evolves w w' →
  (∀ a d, read_d w' a = Some d → P (d_c d) → ∃ a0, read_d w a0 = Some d) →
  inv P w'.
Proof.
  intros [Hwf Hdeps] E Hprov. split; [by apply (evolves_wf w)|].
  intros a d Hd HP. destruct (Hprov a d Hd HP) as [a0 Ha0].
  destruct (Hdeps a0 d Ha0 HP) as [Hreg Hk]. split; [by apply (ut_regular_stable _ _ w w' _ E)|].
  intros k Hin. destruct (Hk k Hin) as [x Hx]. exists x. by apply (ut_resolved_stable w w').
Qed.

Lemma inv_ambient P c u w : inv P (set_ambient c u w) ↔ inv P w.
Proof.
  split; intros [Hwf Hdeps]; (split; [by apply (wf_ambient c u)|done]).
Qed.


(** *** [getEntry] *)

Lemma read_d_beyond w a : length (heap w) ≤ a → read_d w a = None.
Proof.
  intros Ha. unfold read_d. destruct (length (heap w)) as [|n] eqn:E; [done|]. simpl.
  by rewrite lookup_ge_None_2 by lia.
Qed.

(** [Object.create(parent)], the state made writable, and the entry stored,
    in a registry outside of [P]. *)
Lemma frame_make (P : CtxId → Prop) me key parent w1 :
  wf w1 → is_Some (ctxs w1 !! me) → parent < length (heap w1) → ¬ P me →
  let entry := length (heap w1) in
  let w2 := (alloc {| o_s := None; o_v := None; o_d := None; proto := Some parent |} w1).2 in
  let w3 := match read_s w2 entry with
            | Some wasRead | None => write_s entry hasValue w2
            | _ => w2
            end in
  frame P w1 (store me key entry w3).
Proof.
  intros Hwf1 Hme1 Hparent HP entry w2 w3.
  pose proof (make_entry me key parent w1 Hwf1 Hme1 Hparent) as H. cbv zeta in H.
  fold entry w2 w3 in H. destruct H as (Hwf' & Hlen & He & Hfr & Hpre & _ & _ & Hd).
  assert (ctxs w3 = ctxs w1) as Ec.
  { unfold w3. by destruct (read_s w2 entry) as [[]|]. }
  split; [split| | |..].
  - intros c Hc _. unfold store. simpl. rewrite list_lookup_alter_ne by (by intros ->).
    by rewrite Ec.
  - intros a o Ha _. rewrite Hpre; [done|]. by eapply lookup_lt_Some.
  - intros a d Ha _. destruct (decide (a < length (heap w1))) as [Hlt|Hge].
    + exists a. destruct (reads_prefix w1 (store me key entry w3) a Hwf1 Hpre
                            ltac:(rewrite Hlen; lia) Hlt) as (_ & _ & <-). done.
    + destruct (decide (a = entry)) as [->|Hne].
      * exists parent. by rewrite <- Hd.
      * rewrite read_d_beyond in Ha; [done|]. rewrite Hlen. unfold entry in Hne. lia.
  - intros c k a Ha Hlt. destruct (decide ((c, k) = (me, key))) as [[= -> ->]|Hne].
    + rewrite He in Ha. injection Ha as <-. unfold entry in Hlt. lia.
    + by rewrite <- Hfr.
  - unfold w3. by destruct (read_s w2 entry) as [[]|].
  - unfold store. simpl. rewrite length_alter, Ec. done.
  - rewrite Hlen. lia.
Qed.

Lemma frame_getEntry (P : CtxId → Prop) n me key reg w :
  wf w → is_Some (ctxs w !! me) → ¬ P me → frame P w (getEntry n me key reg w).2.
Proof.
  intros Hwf Hme HP. revert reg. induction n as [|n IH]; intros reg; [apply frame_refl|].
  destruct (ctxs w !! reg) as [r|] eqn:Hr; [|simpl; rewrite Hr; apply frame_refl].
  destruct (entries r !! key) as [entry|] eqn:He; [simpl; rewrite Hr, He; apply frame_refl|].
  rewrite (getEntry_step n me key reg r w Hr He). destruct (prev r) as [p|].
  - specialize (IH p).
    destruct (stable_getEntry (heap w) n me key p w Hwf (le_n _) Hme) as [St Hb].
    destruct (getEntry n me key p w) as [[parent|e|] w1]; simpl in *; [|done..].
    destruct (Hb parent eq_refl) as [Hparent _].
    assert (wf w1) as Hwf1 by (by apply (st_wf _ _ _ _ St)).
    assert (is_Some (ctxs w1 !! me)) as Hme1.
    { destruct Hme as [rme Hrme]. destruct (st_prev _ _ _ _ St me rme Hrme) as (r' & Hr' & _).
      by exists r'. }
    eapply frame_trans; [exact IH|]. by apply frame_make.
  - simpl.
    set (o := {| o_s := Some isUnset; o_v := Some VNull; o_d := Some None; proto := None |}).
    split; [split| | |..]; simpl.
    + intros c Hc _. rewrite list_lookup_alter_ne by (by intros ->). done.
    + intros a o' Ha _. by apply lookup_app_l_Some.
    + intros a d Ha _. destruct (decide (a < length (heap w))) as [Hlt|Hge].
      * exists a. rewrite <- Ha. unfold read_d. simpl. rewrite length_app. simpl.
        rewrite (get_app _ _ _ _ _ (wf_proto _ Hwf) Hlt).
        by rewrite (get_fuel _ (heap w) (length (heap w) + 1) (length (heap w)) a
                      (wf_proto _ Hwf)) by lia.
      * destruct (decide (a = length (heap w))) as [->|Hne].
        -- unfold read_d in Ha.
           change (heap (store me key (length (heap w)) (set_heap (heap w ++ [o]) w)))
             with (heap (alloc o w).2) in Ha.
           rewrite get_fresh in Ha by done. done.
        -- rewrite read_d_beyond in Ha; [done|]. simpl. rewrite length_app. simpl. lia.
    + intros c k a. change (set_heap (heap w ++ [o]) w) with (alloc o w).2.
      rewrite ut_entry_of_store. destruct (decide _) as [[<- <-]|].
      * destruct (ctxs (alloc o w).2 !! me); [|done]. intros [= <-]. lia.
      * done.
    + done.
    + by rewrite length_alter.
    + rewrite length_app. lia.
Qed.

Lemma frame_entry_for (P : CtxId → Prop) me key w :
  wf w → ¬ P me → frame P w (entry_for me key w).2.
Proof.
  intros Hwf HP. unfold entry_for. destruct (ctxs w !! me) as [r|] eqn:Hr.
  - by apply frame_getEntry.
  - simpl. rewrite Hr. apply frame_refl.
Qed.

(** *** The ambient context *)

Lemma frame_exec {A} P me deps (body : M World A) w :
  frame P (set_ambient (Some me) deps w) (body (set_ambient (Some me) deps w)).2 →
  frame P w (exec me deps body w).2.
Proof.
  unfold exec. destruct (body _) as [r w']. simpl.
  intros [[K1 K2] H2 H3 H4 H5 H6]. split; [split| | |done..]; done.
Qed.

Lemma target_cases w c t : target w c = Some t → t = c ∨ ctx w = Some t.
Proof.
  unfold target. destruct (ctxs w !! c) as [r|]; [|done].
  destruct (prev r); [intros [= <-]; by left|by right].
Qed.


(** *** Every operation outside of [P] *)

Section Frame.
Context (code : nat → nat → nat → Prog) (shape : nat → KeyShape).
Hypothesis Hreaders : readers code.
Context (P : nat → Prop) (N : nat).
Hypothesis HPN : ∀ c, P c → c < N.
Hypothesis Hdec : ∀ c, P c ∨ ¬ P c.
Context (look : nat → nat → M World Value).
Hypothesis Hev : ∀ c k w, wf w → evolves w (look c k w).2.
Hypothesis Hframe : ∀ c k w,
  inv P w → N ≤ length (ctxs w) → (∀ t, target w c = Some t → ¬ P t) →
  frame P w (look c k w).2.
Hypothesis Hpure : ∀ c k w x,
  wf w → regular w c → resolved w c k x →
  heap (look c k w).2 = heap w ∧ ctxs (look c k w).2 = ctxs w ∧ ctx (look c k w).2 = ctx w.

(** What holds after a step of a factory that runs in [me]. *)
Lemma after_step L me w w1 :
  inv P w → evolves w w1 → frame P w w1 →
  ctx w = Some me → regular w me → L ≤ length (ctxs w) →
  inv P w1 ∧ ctx w1 = Some me ∧ regular w1 me ∧ L ≤ length (ctxs w1).
Proof.
  intros Hi E F Hc Hreg HL. split; [apply (inv_step P w); [done..|apply (f_prov _ _ _ F)]|].
  split; [by rewrite (f_ctx _ _ _ F)|]. split; [by apply (ut_regular_stable _ _ w w1 _ E)|].
  pose proof (f_ctxs _ _ _ F). lia.
Qed.

Lemma frame_fork me key w :
  inv P w → N ≤ length (ctxs w) → frame P w (fork look me key w).2.
Proof.
  intros Hi HN. unfold fork, method.
  destruct (ctxs w !! me) as [r|] eqn:Hr; [|apply frame_refl].
  assert (me < length (ctxs w)) as Hme by (by eapply lookup_lt_Some).
  set (w1 := (newCtx (Some me) w).2).
  assert (frame P w w1) as F1.
  { split; [apply ut_keeps_newCtx| | |done| |done].
    - intros a d Hd _. by exists a.
    - intros c k a Ha _. unfold w1 in Ha. by rewrite ut_entry_of_newCtx in Ha.
    - unfold w1. simpl. rewrite length_app. lia. }
  assert (evolves w w1) as E1 by (by apply ut_stable_newCtx).
  unfold bind. simpl. fold w1. destruct key as [k|]; [|exact F1].
  eapply frame_trans; [exact F1|]. apply Hframe.
  - apply (inv_step P w); [done..|apply (f_prov _ _ _ F1)].
  - simpl. rewrite length_app. lia.
  - intros t. unfold target, w1. simpl. rewrite lookup_app_r by lia.
    rewrite Nat.sub_diag. simpl. intros [= <-] Ht. apply HPN in Ht. lia.
Qed.

Lemma frame_run L me p w :
  reader L me p → inv P w → ctx w = Some me → ¬ P me → regular w me →
  me < L → N ≤ L → L ≤ length (ctxs w) →
  frame P w (run (api look) p w).2.
Proof.
  intros Hp. revert w.
  induction Hp as [x|x|cont _ IH|n cont _ IH|c key cont Hc _ IH|cont _ IH|c cont _ IH
                  |c key cont _ IH|body handler cont _ IHb _ IHh _ IHc];
    intros w Hi Hctx HPme Hreg Hme HN HL; simpl.
  - apply frame_refl.
  - apply frame_refl.
  - unfold bind. simpl.
    eapply frame_trans; [apply (frame_set_next P (S (next w)))|].
    apply IH; try done. apply (inv_step P w); [done| |by eauto].
    apply ut_stable_set_next. simpl. lia.
  - unfold bind. simpl.
    eapply frame_trans; [apply (frame_set_next P (S (next w)))|].
    apply IH; try done. apply (inv_step P w); [done| |by eauto].
    apply ut_stable_set_next. simpl. lia.
  - assert (frame P w (look c key w).2) as F1.
    { apply Hframe; [done|lia|]. intros t Ht.
      destruct Hc as [->|[->|Hc]].
      - rewrite (ut_target_global w (i_wf _ _ Hi)), Hctx in Ht. by injection Ht as <-.
      - rewrite (ut_target_regular w me Hreg) in Ht. by injection Ht as <-.
      - destruct (ut_target_other w c (i_wf _ _ Hi) ltac:(lia)) as [H|H]; rewrite H in Ht; [|done].
        injection Ht as <-. intros Hc'. apply HPN in Hc'. lia. }
    pose proof (Hev c key w (i_wf _ _ Hi)) as E1.
    unfold bind. destruct (look c key w) as [[x|e|] w1]; simpl in *; try done.
    destruct (after_step L me w w1 Hi E1 F1 Hctx Hreg HL) as (Hi1 & Hc1 & Hr1 & HL1).
    eapply frame_trans; [exact F1|]. by apply IH.
  - unfold bind, this. rewrite Hctx. by apply IH.
  - assert (frame P w (fork look c None w).2) as F1 by (apply frame_fork; [done|lia]).
    pose proof (ut_evolves_fork look Hev c None w (i_wf _ _ Hi)) as E1.
    unfold bind. destruct (fork look c None w) as [[x|e|] w1] eqn:Hf; simpl in *; try done.
    destruct (after_step L me w w1 Hi E1 F1 Hctx Hreg HL) as (Hi1 & Hc1 & Hr1 & HL1).
    eapply frame_trans; [exact F1|].
    assert (∃ c', x = VCtx c' ∧ L ≤ c') as (c' & -> & Hc').
    { unfold fork, method in Hf. destruct (ctxs w !! c); [|done].
      unfold bind in Hf. simpl in Hf. injection Hf as <- <-. eauto. }
    by apply IH.
  - assert (frame P w (fork look c (Some key) w).2) as F1 by (apply frame_fork; [done|lia]).
    pose proof (ut_evolves_fork look Hev c (Some key) w (i_wf _ _ Hi)) as E1.
    unfold bind. destruct (fork look c (Some key) w) as [[x|e|] w1] eqn:Hf; simpl in *; try done.
    destruct (after_step L me w w1 Hi E1 F1 Hctx Hreg HL) as (Hi1 & Hc1 & Hr1 & HL1).
    eapply frame_trans; [exact F1|]. by apply IH.
  - pose proof (IHb w Hi Hctx HPme Hreg Hme HN HL) as F1.
    pose proof (ut_evolves_run look Hev body w (i_wf _ _ Hi)) as E1.
    destruct (run (api look) body w) as [[x|e|] w1]; simpl in *; try done.
    + destruct (after_step L me w w1 Hi E1 F1 Hctx Hreg HL) as (Hi1 & Hc1 & Hr1 & HL1).
      eapply frame_trans; [exact F1|]. by apply IHc.
    + destruct (after_step L me w w1 Hi E1 F1 Hctx Hreg HL) as (Hi1 & Hc1 & Hr1 & HL1).
      eapply frame_trans; [exact F1|].
      pose proof (IHh e w1 Hi1 Hc1 HPme Hr1 Hme HN HL1) as F2.
      pose proof (ut_evolves_run look Hev (handler e) w1 (i_wf _ _ Hi1)) as E2.
      unfold bind. destruct (run (api look) (handler e) w1) as [[x|e'|] w2]; simpl in *; try done.
      destruct (after_step L me w1 w2 Hi1 E2 F2 Hc1 Hr1 HL1) as (Hi2 & Hc2 & Hr2 & HL2).
      eapply frame_trans; [exact F2|]. by apply IHc.
Qed.

Lemma frame_new_error {X} cls msg w : frame P w (@new_error X cls msg w).2.
Proof. apply frame_set_next. Qed.

Lemma frame_call fn me key w :
  inv P w → ctx w = Some me → ¬ P me → regular w me → N ≤ length (ctxs w) →
  frame P w (call code shape look fn me key w).2.
Proof.
  intros Hi Hctx HPme Hreg HN.
  assert (me < length (ctxs w)) as Hme.
  { destruct Hreg as (r & p & Hr & _). by eapply lookup_lt_Some. }
  assert (∀ f, frame P w (run (api look) (code f me key) w).2) as Hrun.
  { intros f. apply (frame_run (length (ctxs w)) me); try done. by apply Hreaders. }
  unfold call, defaultLookup. destruct fn; try apply frame_new_error; [apply Hrun|].
  destruct (shape key); [apply Hrun|apply Hrun|apply frame_new_error].
Qed.

Lemma frame_every me origin keys w :
  inv P w → ctx w = Some me → ¬ P me → regular w me → N ≤ length (ctxs w) →
  (P origin → regular w origin ∧ ∀ k, k ∈ keys → ∃ x, resolved w origin k x) →
  frame P w (every look me origin keys w).2.
Proof.
  revert w. induction keys as [|k keys IH]; intros w Hi Hctx HPme Hreg HN Ho; simpl.
  - apply frame_refl.
  - assert (frame P w (look me k w).2) as F1.
    { apply Hframe; [done..|]. intros t. rewrite (ut_target_regular w me Hreg).
      by intros [= <-]. }
    pose proof (Hev me k w (i_wf _ _ Hi)) as E1.
    unfold bind. destruct (look me k w) as [[a|e|] w1]; simpl in *; try done.
    destruct (after_step N me w w1 Hi E1 F1 Hctx Hreg HN) as (Hi1 & Hc1 & Hr1 & HN1).
    assert (P origin → regular w1 origin ∧ ∀ k0, k0 ∈ k :: keys → ∃ x, resolved w1 origin k0 x)
      as Ho1.
    { intros HPo. destruct (Ho HPo) as [Hro Hk]. split; [by apply (ut_regular_stable _ _ w w1 _ E1)|].
      intros k0 Hin. destruct (Hk k0 Hin) as [x Hx]. exists x. by apply (ut_resolved_stable w w1). }
    assert (frame P w1 (look origin k w1).2) as F2.
    { destruct (Hdec origin) as [HPo|HPo].
      - destruct (Ho1 HPo) as [Hro Hk]. destruct (Hk k ltac:(by left)) as [x Hx].
        destruct (Hpure origin k w1 x (i_wf _ _ Hi1) Hro Hx) as (Eh & Ec & Ex).
        by apply frame_same.
      - apply Hframe; [done..|]. intros t Ht.
        destruct (target_cases w1 origin t Ht) as [->|Hct]; [done|].
        rewrite Hc1 in Hct. by injection Hct as <-. }
    pose proof (Hev origin k w1 (i_wf _ _ Hi1)) as E2.
    eapply frame_trans; [exact F1|].
    destruct (look origin k w1) as [[b|e|] w2]; simpl in *; try done.
    destruct (after_step N me w1 w2 Hi1 E2 F2 Hc1 Hr1 HN1) as (Hi2 & Hc2 & Hr2 & HN2).
    eapply frame_trans; [exact F2|].
    destruct (strict_eq a b); [|apply frame_refl].
    apply IH; try done.
    intros HPo. destruct (Ho1 HPo) as [Hro Hk]. split; [by apply (ut_regular_stable _ _ w1 w2 _ E2)|].
    intros k0 Hin. destruct (Hk k0 ltac:(by right)) as [x Hx]. exists x.
    by apply (ut_resolved_stable w1 w2).
Qed.

Lemma frame_resolve me key entry factory w :
  inv P w → ¬ P me → regular w me → N ≤ length (ctxs w) →
  entry_of w me key = Some entry → (∀ y, ¬ frozen (heap w) entry y) →
  frame P w (resolve code shape look me key entry factory w).2.
Proof.
  intros Hi HPme Hreg HN He Hnf. unfold resolve.
  set (w1 := write_v entry factory (write_s entry isCreating w)).
  assert (frame P w w1) as F1 by (by apply (frame_write_sv P w me key); [apply frame_refl|..]).
  assert (evolves w w1) as E1 by (by apply stable_write_sv).
  assert (inv P w1) as Hi1 by (apply (inv_step P w); [done..|apply (f_prov _ _ _ F1)]).
  assert (regular w1 me) as Hr1 by done.
  set (wa := set_ambient (Some me) (Some []) w1).
  assert (frame P w1 (exec me (Some []) (call code shape look factory me key) w1).2) as Fx.
  { apply frame_exec. apply frame_call; try done. by apply inv_ambient. }
  pose proof (evolves_exec me (Some []) (call code shape look factory me key) w1
                (ut_evolves_call code shape look Hev _ _ _ _
                   (proj2 (wf_ambient _ _ _) (i_wf _ _ Hi1)))) as Ex.
  destruct (exec me (Some []) (call code shape look factory me key) w1) as [[r keys] w2].
  simpl in Fx, Ex.
  assert (frame P w w2) as F2 by (by eapply frame_trans).
  destruct r as [x|e|]; simpl; try exact F2.
  assert (entry_of w2 me key = Some entry) as He2 by (by apply (st_entry _ _ _ _ Ex)).
  unfold setEntry.
  set (w3 := write_d entry None (write_v entry x (write_s entry wasRead w2))).
  assert (frame P w w3) as F3 by (by apply (frame_write_svd P w me key)).
  assert (frame P w
            (case_wasRead me key entry
               match keys with
               | Some ((_ :: _) as ks) =>
                   write_d entry (Some {| d_c := me; d_k := ks; d_f := factory |}) w3
               | _ => w3
               end).2) as F4.
  { destruct keys as [[|k ks]|]; unfold case_wasRead; simpl;
      try (eapply frame_trans; [exact F3|apply frame_push]).
    eapply frame_trans; [|apply frame_push].
    apply (frame_write_d P w me key); try done. by intros d' [= <-] HP. }
  destruct (read_s w2 entry) as [[]|]; simpl; try exact F4;
    (eapply frame_trans; [exact F2|apply frame_set_next]).
Qed.

Lemma frame_case_hasValue me key entry w :
  inv P w → ¬ P me → regular w me → N ≤ length (ctxs w) →
  entry_of w me key = Some entry → (∀ y, ¬ frozen (heap w) entry y) →
  frame P w (case_hasValue code shape look me key entry w).2.
Proof.
  intros Hi HPme Hreg HN He Hnf. unfold case_hasValue.
  assert (∀ deps w', frame P w w' → entry_of w' me key = Some entry →
            (∀ d', deps = Some d' → P (d_c d') → ∃ a0, read_d w a0 = Some d') →
            frame P w
              (case_wasRead me key entry
                 (write_d entry deps
                    (write_v entry (read_v (write_s entry wasRead w') entry)
                       (write_s entry wasRead w')))).2) as Hshare.
  { intros deps w' F He' Hd. unfold case_wasRead. simpl.
    eapply frame_trans; [|apply frame_push]. by apply (frame_write_svd P w me key). }
  destruct (read_d w entry) as [deps|] eqn:Hd; [|by apply Hshare; [apply frame_refl|..]].
  assert (frame P w (exec me None (every look me (d_c deps) (d_k deps)) w).2) as Fv.
  { apply frame_exec. apply frame_every; try done; [by apply inv_ambient|].
    intros HPo. by apply (i_deps _ _ Hi entry deps). }
  pose proof (evolves_exec me None (every look me (d_c deps) (d_k deps)) w
                (ut_evolves_every look Hev _ _ _ _ (proj2 (wf_ambient _ _ _) (i_wf _ _ Hi))))
    as Ev.
  destruct (exec me None (every look me (d_c deps) (d_k deps)) w) as [[r log] w'].
  simpl in Fv, Ev.
  assert (entry_of w' me key = Some entry) as He' by (by apply (st_entry _ _ _ _ Ev)).
  assert (wf w') as Hwf' by (by apply (evolves_wf w), (i_wf _ _ Hi)).
  destruct r as [[]|e|]; simpl; try exact Fv.
  - apply Hshare; [done..|]. intros d' [= <-] _. by exists entry.
  - set (w'' := write_d entry None (write_v entry (d_f deps) (write_s entry hasFactory w'))).
    assert (frame P w w'') as F2 by (by apply (frame_write_svd P w me key)).
    assert (evolves w w'') as E2.
    { eapply ut_stable_trans; [exact Ev|]. by apply stable_write_svd. }
    assert (inv P w'') as Hi2 by (apply (inv_step P w); [done..|apply (f_prov _ _ _ F2)]).
    eapply frame_trans; [exact F2|]. apply frame_resolve; try done.
    + by apply (ut_regular_stable _ _ w w'' _ E2).
    + pose proof (f_ctxs _ _ _ F2). lia.
    + intros y Hy. apply (frozen_read w'' entry y (i_wf _ _ Hi2)) in Hy as [Hs _].
      unfold w'' in Hs. rewrite write_svd in Hs.
      rewrite (read_s_own entry _ hasFactory) in Hs; [done| |done].
      by apply (wf_entry _ Hwf' me key).
Qed.

Lemma frame_state_machine me key entry w :
  inv P w → ¬ P me → regular w me → N ≤ length (ctxs w) →
  entry_of w me key = Some entry →
  frame P w (state_machine code shape look me key entry w).2.
Proof.
  intros Hi HPme Hreg HN He. unfold state_machine.
  assert (read_s w entry ≠ Some wasRead → ∀ y, ¬ frozen (heap w) entry y) as Hnf.
  { intros Hs y Hy. by apply (frozen_read w entry y (i_wf _ _ Hi)) in Hy as [? _]. }
  destruct (read_s w entry) as [[]|] eqn:Hs.
  - apply frame_push.
  - apply frame_resolve; try done. by apply Hnf.
  - apply frame_case_hasValue; try done. by apply Hnf.
  - apply frame_resolve; try done. by apply Hnf.
  - unfold setEntry. change (read_s (set_next (S (next w)) w) entry) with (read_s w entry).
    rewrite Hs. simpl.
    by apply (frame_write_svd P w me key); [apply frame_set_next|..].
  - apply frame_refl.
  - apply frame_refl.
Qed.

Lemma frame_lookup me key w :
  inv P w → N ≤ length (ctxs w) → (∀ t, target w me = Some t → ¬ P t) →
  frame P w (lookup code shape look me key w).2.
Proof.
  intros Hi HN Ht. unfold lookup. unfold target in Ht.
  destruct (ctxs w !! me) as [reg|] eqn:Hr; [|apply frame_refl].
  destruct (prev reg) as [p|] eqn:Hp.
  - assert (regular w me) as Hreg by (by exists reg, p).
    assert (¬ P me) as HPme by (by apply Ht).
    pose proof (frame_entry_for P me key w (i_wf _ _ Hi) HPme) as F0.
    destruct (entry_for_spec me key w (i_wf _ _ Hi)) as [E0 Hb].
    unfold bind. destruct (entry_for me key w) as [[entry|e|] w1]; simpl in *; try done.
    destruct (Hb entry eq_refl) as (_ & He & _).
    eapply frame_trans; [exact F0|]. apply frame_state_machine; try done.
    + apply (inv_step P w); [done..|apply (f_prov _ _ _ F0)].
    + by apply (ut_regular_stable _ _ w w1 _ E0).
    + pose proof (f_ctxs _ _ _ F0). lia.
  - unfold this. destruct (ctx w) as [c|] eqn:Hc; [|apply frame_new_error].
    apply Hframe; [done..|]. intros t Ht'.
    destruct (target_cases w c t Ht') as [->|Hct]; [by apply Ht|].
    apply Ht. congruence.
Qed.

End Frame.

(** With factories that only read, a lookup outside of [P] keeps [P]. *)
Lemma ut_frame_invoke code shape (P : nat → Prop) N :
  readers code → (∀ c, P c → c < N) → (∀ c, P c ∨ ¬ P c) →
  ∀ fuel me key w,
    inv P w → N ≤ length (ctxs w) → (∀ t, target w me = Some t → ¬ P t) →
    frame P w (invoke code shape fuel me key w).2.
Proof.
  intros Hreaders HPN Hdec. induction fuel as [|n IH]; intros me key w Hi HN Ht; simpl.
  - apply frame_refl.
  - apply (frame_lookup code shape Hreaders P N HPN Hdec); try done.
    + intros c k w0. apply ut_evolves_invoke.
    + intros c k w0 x Hwf Hreg Hx. destruct n as [|n]; [done|]. simpl.
      rewrite (ut_lookup_resolved code shape _ c k x w0 Hwf Hreg Hx). simpl.
      by rewrite heap_push, ut_ctxs_push, ut_ctx_push.
Qed.

(** The registries of the other contexts and the entry objects that they
    hold are as they were. *)
Lemma others_kept code shape fuel me key w :
  readers code → inv (λ c, c ≠ me ∧ c < length (ctxs w)) w → regular w me →
  ∀ c, c ≠ me → c < length (ctxs w) →
    ctxs (invoke code shape fuel me key w).2 !! c = ctxs w !! c ∧
    ∀ k a, entry_of w c k = Some a →
           heap (invoke code shape fuel me key w).2 !! a = heap w !! a.
Proof.
  intros Hreaders Hi Hreg c Hc Hlt.
  pose proof (ut_frame_invoke code shape (λ c, c ≠ me ∧ c < length (ctxs w)) (length (ctxs w))
                Hreaders ltac:(by intros ? [_ ?])
                ltac:(intros c0; destruct (decide (c0 ≠ me ∧ c0 < length (ctxs w))); auto)
                fuel me key w Hi (le_n _)) as F.
  destruct F as [[K1 K2] _ _ _ _ _].
  { intros t. rewrite (ut_target_regular w me Hreg). intros [= <-] [H _]. done. }
  split; [by apply K1|]. intros k a Ha.
  assert (a < length (heap w)) as Hlt' by (by apply (wf_entry _ (i_wf _ _ Hi) c k)).
  destruct (lookup_lt_is_Some_2 _ _ Hlt') as [o Ho]. rewrite Ho. apply K2; [done|].
  intros c' k' Ha'. by destruct (wf_inj _ (i_wf _ _ Hi) c k c' k' a Ha Ha') as [<- _].
Qed.

(** [inv] holds when the library starts, and a lookup outside of [P] keeps
    it. *)
Lemma inv_init P : inv P init.
Proof.
  split; [apply wf_init|]. intros a d Hd. by rewrite read_d_beyond in Hd by (simpl; lia).
Qed.

Lemma inv_invoke code shape (P : nat → Prop) N :
  readers code → (∀ c, P c → c < N) → (∀ c, P c ∨ ¬ P c) →
  ∀ fuel me key w,
    inv P w → N ≤ length (ctxs w) → (∀ t, target w me = Some t → ¬ P t) →
    inv P (invoke code shape fuel me key w).2.
Proof.
  intros Hreaders HPN Hdec fuel me key w Hi HN Ht.
  apply (inv_step P w); [done|by apply ut_evolves_invoke, (i_wf _ _ Hi)|].
  by apply (f_prov _ _ _ (ut_frame_invoke code shape P N Hreaders HPN Hdec fuel me key w Hi HN Ht)).
Qed.

End UseThisFacts.


(** * The specification, claim by claim *)

(** The worlds of the examples are worlds of the library. *)
Lemma wf_use_this p : U.wf (Examples.use_this p).
Proof.
  apply (UseThisFacts.evolves_wf U.init);
    [apply UseThisFacts.ut_evolves_script|]; apply UseThisFacts.wf_init.
Qed.

Lemma chain_ok_to_use p : T.chain_ok (Examples.to_use p).
Proof.
  apply (T.st_chain _ _ _ (ToUseFacts.evolves_script _ _ _ _ _)).
  intros [|[|c]] r q Hr Hq; simpl in Hr; [injection Hr as <-; done|done..].
Qed.

Lemma chain_ok_use_this p : U.chain_ok (Examples.use_this p).
Proof.
  apply (U.st_chain _ _ _ _ (UseThisFacts.ut_evolves_script _ _ _ _ _ UseThisFacts.wf_init)).
  intros [|[|c]] r q Hr Hq; simpl in Hr; [injection Hr as <-; done|done..].
Qed.

Lemma readers_examples : readers Examples.code.
Proof.
  intros f me key L Hlt. destruct f as [|[|[|[|f]]]]; simpl; repeat constructor; auto.
Qed.





(** C2. Idempotence of lookup.  In [use-this.ts] it fails for a lookup that
    failed: [c1.def(1, f)] with a factory [f] that throws; the first
    [c1(1)] throws the error of [f] and leaves the entry [isCreating], the
    second [c1(1)] throws another error, a new "didn't resolve" one.  In
    [to-use.ts] the second lookup throws the error of the first. *)
Theorem C2_failed_lookup_not_idempotent :
  let first := U.invoke Examples.code Examples.shape 10 1 1 (Examples.use_this Examples.failing) in
  let second := U.invoke Examples.code Examples.shape 10 1 1 first.2 in
  let first' := T.invoke Examples.code Examples.shape 10 1 1 (Examples.to_use Examples.failing) in
  let second' := T.invoke Examples.code Examples.shape 10 1 1 first'.2 in
  first.1 = Thrown (VErr 0 Error (Custom 7)) ∧
  second.1 = Thrown (VErr 1 Error (DidntResolve (ShownFun 1) 1)) ∧
  first.1 ≠ second.1 ∧
  first'.1 = Thrown (VErr 0 Error (Custom 7)) ∧
  second'.1 = first'.1.
Proof. vm_compute. repeat split; done. Qed.

(** C3. Write-after-read rejection.  It fails for a lookup that failed, in
    both revisions: after [c1.def(1, f)] with a factory [f] that throws and
    a first [c1(1)] that threw, [c1.set(1, 42)] and [c1.def(1, g)] return
    the context, and the next [c1(1)] returns 42. *)
Theorem C3_write_after_failed_lookup :
  let failed := (T.invoke Examples.code Examples.shape 10 1 1
                   (Examples.to_use Examples.failing)) in
  let failed' := (U.invoke Examples.code Examples.shape 10 1 1
                    (Examples.use_this Examples.failing)) in
  (failed.1 = Thrown (VErr 0 Error (Custom 7)) ∧
   (T.set 1 1 (VNum 42) failed.2).1 = Ok (VCtx 1) ∧
   (T.def 1 1 (VFun 2) failed.2).1 = Ok (VCtx 1) ∧
   (T.invoke Examples.code Examples.shape 10 1 1 (T.set 1 1 (VNum 42) failed.2).2).1
     = Ok (VNum 42)) ∧
  (failed'.1 = Thrown (VErr 0 Error (Custom 7)) ∧
   (U.set 1 1 (VNum 42) failed'.2).1 = Ok (VCtx 1) ∧
   (U.def 1 1 (VFun 2) failed'.2).1 = Ok (VCtx 1) ∧
   (U.invoke Examples.code Examples.shape 10 1 1 (U.set 1 1 (VNum 42) failed'.2).2).1
     = Ok (VNum 42)).
Proof. vm_compute. repeat split; done. Qed.

(** C4. Factory error caching.  In [use-this.ts] the error of a factory is
    not caught: after [c1.def(1, f)] with a factory [f] that throws and a
    first [c1(1)], the entry of key 1 in [c1] is [isCreating] with the
    factory as payload, not [hasError] with the error.  In [to-use.ts] the
    entry is [hasError], with the error and no dependency record. *)
Theorem C4_factory_error_not_stored :
  let failed := (U.invoke Examples.code Examples.shape 10 1 1
                   (Examples.use_this Examples.failing)) in
  let failed' := (T.invoke Examples.code Examples.shape 10 1 1
                    (Examples.to_use Examples.failing)) in
  (failed.1 = Thrown (VErr 0 Error (Custom 7)) ∧
   U.entry_of failed.2 1 1 = Some 1 ∧
   U.read_s failed.2 1 = Some U.isCreating ∧
   U.read_v failed.2 1 = VFun 1) ∧
  (failed'.1 = Thrown (VErr 0 Error (Custom 7)) ∧
   T.entry_of failed'.2 1 1
     = Some {| T.e_s := T.hasError; T.e_v := VErr 0 Error (Custom 7); T.e_d := None |}).
Proof. vm_compute. repeat split; done. Qed.




(** C6. Materialize, as the code has it.  A lookup of [key] in a context
    [me] whose registry has no entry for it makes a local entry from the
    entry of the nearest registry above that has one: the payload and the
    dependency record are that entry's, and so is the state, except that
    [wasRead] becomes [hasValue]; an entry in state [hasFactory] is
    inherited in state [hasFactory].  When no registry above has an entry,
    [to-use.ts] makes an entry in state [hasFactory] with [defaultLookup] as
    payload, and [use-this.ts] one in state [isUnset] with payload [null].
    In [use-this.ts] the local entry is a new object and reads these through
    its prototype.  The entry is stored in the registry of [me]. *)
Theorem C6_materialize (me key : nat) :
  (∀ (w : T.World) (reg : T.Registry) (res : option (nat * T.Entry)),
     T.chain_ok w → T.ctxs w !! me = Some reg → T.entries reg !! key = None →
     T.nearest (T.ctxs w) key (T.prev reg) res →
     T.entry_of (T.materialize me key w) me key =
       Some (match res with
             | Some (_, entry) => T.spread entry
             | None => {| T.e_s := T.hasFactory; T.e_v := VDefault; T.e_d := None |}
             end))
  ∧
  (∀ (w : U.World) (r : U.Registry) (res : option (nat * nat)),
     U.wf w → U.chain_ok w → U.ctxs w !! me = Some r → U.entries r !! key = None →
     U.nearest (U.ctxs w) key (U.prev r) res →
     ∃ b w', U.entry_for me key w = (Ok b, w') ∧
       length (U.heap w) ≤ b ∧ U.entry_of w' me key = Some b ∧
       match res with
       | Some (_, a) =>
           U.read_s w' b = U.inherited_state (U.read_s w a) ∧
           U.read_v w' b = U.read_v w a ∧ U.read_d w' b = U.read_d w a
       | None =>
           U.read_s w' b = Some U.isUnset ∧ U.read_v w' b = VNull ∧ U.read_d w' b = None
       end).
Proof.
  split.
  - intros w reg res Hch Hr He Hn.
    by destruct (ToUseFacts.materialize_spec me key w reg res Hch Hr He Hn) as [H _].
  - intros w r res Hwf Hch Hr He Hn.
    destruct (UseThisFacts.entry_for_new me key r w res Hwf Hch Hr He Hn)
      as (b & w' & H & H1 & _ & _ & H2 & _ & _ & H3).
    by exists b, w'.
Qed.

(** [c2] inherits [S2] from [c1], where it was read: the local entry has the
    state [hasValue], the value and the dependency record. *)
Lemma C6_materialize_witness :
  T.entry_of (T.materialize 2 6 (Examples.to_use Examples.shared)) 2 6
    = Some Examples.inherited_t ∧
  ∃ b w', U.entry_for 2 6 (Examples.use_this Examples.shared) = (Ok b, w') ∧
    U.read_s w' b = Some U.hasValue ∧ U.read_v w' b = VObj 1 ∧
    U.read_d w' b = Some Examples.deps_u.
Proof.
  split.
  - assert (T.nearest (T.ctxs (Examples.to_use Examples.shared)) 6 (Some 1)
              (Some (1, {| T.e_s := T.wasRead; T.e_v := VObj 1;
                           T.e_d := Some Examples.deps_t |}))) as Hn
      by (eapply T.nearest_here; vm_compute; reflexivity).
    rewrite (proj1 (C6_materialize 2 6) (Examples.to_use Examples.shared)
               {| T.entries := ∅; T.prev := Some 1 |} _ (chain_ok_to_use _)
               ltac:(vm_compute; reflexivity) ltac:(vm_compute; reflexivity) Hn).
    reflexivity.
  - assert (U.nearest (U.ctxs (Examples.use_this Examples.shared)) 6 (Some 1)
              (Some (1, 1))) as Hn
      by (eapply U.nearest_here; vm_compute; reflexivity).
    destruct (proj2 (C6_materialize 2 6) (Examples.use_this Examples.shared)
                {| U.entries := ∅; U.prev := Some 1 |} _ (wf_use_this _)
                (chain_ok_use_this _)
                ltac:(vm_compute; reflexivity) ltac:(vm_compute; reflexivity) Hn)
      as (b & w' & H & _ & _ & H1 & H2 & H3).
    exists b, w'. split; [done|]. rewrite H1, H2, H3. vm_compute. repeat split; reflexivity.
Defined.

(** [c1.def(1, S1)] and a lookup of key 1 in the child [c2]: the entry that
    [c2] gets is in state [hasFactory], not [hasValue]. *)
Lemma C6_materialize_counterexample :
  let parent := {| T.e_s := T.hasFactory; T.e_v := VFun 2; T.e_d := None |} in
  (T.nearest (T.ctxs (Examples.to_use Examples.defined)) 1 (Some 1) (Some (1, parent)) ∧
   T.entry_of (T.materialize 2 1 (Examples.to_use Examples.defined)) 2 1 = Some parent ∧
   Some parent ≠ Some (T.forced parent)) ∧
  (U.entry_of (Examples.use_this Examples.defined) 1 1 = Some 1 ∧
   U.read_s (Examples.use_this Examples.defined) 1 = Some U.hasFactory ∧
   ∃ b w', U.entry_for 2 1 (Examples.use_this Examples.defined) = (Ok b, w') ∧
           U.read_s w' b = Some U.hasFactory ∧ U.read_s w' b ≠ Some U.hasValue).
Proof.
  cbv zeta. split.
  - split; [eapply T.nearest_here; vm_compute; reflexivity|].
    split; [vm_compute; reflexivity|]. by intros [= ].
  - split; [vm_compute; reflexivity|]. split; [vm_compute; reflexivity|].
    eexists _, _. split; [vm_compute; reflexivity|].
    split; [vm_compute; reflexivity|]. vm_compute. by intros [= ].
Qed.








(** C10. Validation resolves the dependencies that it could look up.
    While [me(key)] checks the dependency record of an inherited entry, no
    dependency log is open, and none is when the check ends; every key
    whose lookup in [me] returned ([seen]) is then an entry of [me] that
    was read, also when the check succeeded and the value is inherited.
    After the lookup and whatever program is run from where it ended, which
    for a lookup made at top level is all that comes later, [me.set] and
    [me.def] on such a key throw the "Already read" error: in [to-use.ts]
    for every such key but [key] itself when its value is made anew, in
    [use-this.ts] when the check threw, or has not read the entry of [key]
    itself.  In both revisions. *)
Theorem C10_validation_resolves (code : nat → nat → nat → Prog) (shape : nat → KeyShape)
    (n me key : nat) (v : Verdict) (seen : list nat) :
  (∀ (w w1 : T.World) (e : T.Entry) (deps : T.Deps),
     T.regular w me →
     T.entry_of (T.materialize me key w) me key = Some e →
     T.e_s e = T.hasValue → T.e_d e = Some deps →
     checked (T.invoke code shape n) me (T.d_c deps) (T.d_k deps) v seen
             (T.set_ambient (Some me) None (T.materialize me key w)) w1 →
     T.used w1 = None ∧
     (∀ k, k ∈ seen → ∃ x, T.resolved w1 me k x) ∧
     ∀ r w', T.invoke code shape (S n) me key w = (r, w') →
       ∀ k, k ∈ seen → v ≠ Differ ∨ k ≠ key →
       ∀ fuel p r2 w2, T.script code shape fuel p w' = (r2, w2) →
       ∀ y, T.set me k y w2
              = (Thrown (VErr (T.next w2) Error (AlreadyRead k)), T.set_next (S (T.next w2)) w2)
          ∧ T.def me k y w2
              = (Thrown (VErr (T.next w2) Error (AlreadyRead k)), T.set_next (S (T.next w2)) w2))
  ∧
  (∀ (w wm w1 : U.World) (entry : nat) (deps : U.Deps),
     U.wf w → U.regular w me →
     U.entry_for me key w = (Ok entry, wm) →
     U.read_s wm entry = Some U.hasValue → U.read_d wm entry = Some deps →
     checked (U.invoke code shape n) me (U.d_c deps) (U.d_k deps) v seen
             (U.set_ambient (Some me) None wm) w1 →
     U.used w1 = None ∧
     (∀ k, k ∈ seen → ∃ x, U.resolved w1 me k x) ∧
     ((∃ err, v = Raised err) ∨ U.read_s w1 entry ≠ Some U.wasRead →
      ∀ r w', U.invoke code shape (S n) me key w = (r, w') →
       ∀ k, k ∈ seen →
       ∀ fuel p r2 w2, U.script code shape fuel p w' = (r2, w2) →
       ∀ y, U.set me k y w2
              = (Thrown (VErr (U.next w2) Error (AlreadyRead k)), U.set_next (S (U.next w2)) w2)
          ∧ U.def me k y w2
              = (Thrown (VErr (U.next w2) Error (AlreadyRead k)),
                 U.set_next (S (U.next w2)) w2))).
Proof.
  split.
  - intros w w1 e deps. apply ToUseFacts.validation_resolves.
  - intros w wm w1 entry deps. apply UseThisFacts.ut_validation_resolves.
Qed.

(** [c2(S2)] after [c1(S2)]: the check looks [S1] up in [c2], the value of
    [c1] is inherited, and [c2.set(S1, 0)] then throws; and so it does
    after [c2.set(S1, 3); c2(S2)], where the value is made anew. *)
Lemma C10_validation_resolves_witness :
  ((T.invoke Examples.code Examples.shape 11 2 6 (Examples.to_use Examples.shared)).1
     = Ok (VObj 1) ∧
   (T.set 2 5 (VNum 0)
      (T.invoke Examples.code Examples.shape 11 2 6 (Examples.to_use Examples.shared)).2).1
     = Thrown (VErr 2 Error (AlreadyRead 5)) ∧
   (T.set 2 5 (VNum 0)
      (T.invoke Examples.code Examples.shape 11 2 6 (Examples.to_use Scenarios.replaced)).2).1
     = Thrown (VErr 3 Error (AlreadyRead 5))) ∧
  ((U.invoke Examples.code Examples.shape 11 2 6 (Examples.use_this Examples.shared)).1
     = Ok (VObj 1) ∧
   (U.set 2 5 (VNum 0)
      (U.invoke Examples.code Examples.shape 11 2 6 (Examples.use_this Examples.shared)).2).1
     = Thrown (VErr 2 Error (AlreadyRead 5)) ∧
   (U.set 2 5 (VNum 0)
      (U.invoke Examples.code Examples.shape 11 2 6 (Examples.use_this Scenarios.replaced)).2).1
     = Thrown (VErr 3 Error (AlreadyRead 5))).
Proof.
  split.
  - split; [vm_compute; reflexivity|]. split.
    + set (w := Examples.to_use Examples.shared).
      assert (T.regular w 2) as H1 by (eexists _, _; vm_compute; split; reflexivity).
      assert (T.entry_of (T.materialize 2 6 w) 2 6 = Some Examples.inherited_t) as H2
        by (vm_compute; reflexivity).
      assert (checked (T.invoke Examples.code Examples.shape 10) 2 1 [5] Same [5]
                (T.set_ambient (Some 2) None (T.materialize 2 6 w))
                Examples.validated_t) as H3.
      { eapply checked_same; [vm_compute; reflexivity|vm_compute; reflexivity|reflexivity|].
        apply checked_nil. }
      destruct (proj1 (C10_validation_resolves Examples.code Examples.shape 10 2 6 Same [5])
                  _ _ _ Examples.deps_t H1 H2 eq_refl eq_refl H3) as (_ & _ & H).
      destruct (H _ _ (surjective_pairing _) 5 ltac:(apply list_elem_of_singleton; done)
                  ltac:(by left) 0 (Ret VNull) _ _ eq_refl (VNum 0)) as [Hs _].
      subst w. rewrite Hs. vm_compute. reflexivity.
    + set (w := Examples.to_use Scenarios.replaced).
      assert (T.regular w 2) as H1 by (eexists _, _; vm_compute; split; reflexivity).
      assert (T.entry_of (T.materialize 2 6 w) 2 6 = Some Examples.inherited_t) as H2
        by (vm_compute; reflexivity).
      assert (checked (T.invoke Examples.code Examples.shape 10) 2 1 [5] Differ [5]
                (T.set_ambient (Some 2) None (T.materialize 2 6 w))
                (T.every (T.invoke Examples.code Examples.shape 10) 2 1 [5]
                   (T.set_ambient (Some 2) None (T.materialize 2 6 w))).2) as H3
        by (eapply checked_diff; [vm_compute; reflexivity|vm_compute; reflexivity|reflexivity]).
      destruct (proj1 (C10_validation_resolves Examples.code Examples.shape 10 2 6 Differ [5])
                  _ _ _ Examples.deps_t H1 H2 eq_refl eq_refl H3) as (_ & _ & H).
      destruct (H _ _ (surjective_pairing _) 5 ltac:(apply list_elem_of_singleton; done)
                  ltac:(by right) 0 (Ret VNull) _ _ eq_refl (VNum 0)) as [Hs _].
      subst w. rewrite Hs. vm_compute. reflexivity.
  - split; [vm_compute; reflexivity|]. split.
    + set (w := Examples.use_this Examples.shared).
      assert (U.regular w 2) as H1 by (eexists _, _; vm_compute; split; reflexivity).
      assert (U.entry_for 2 6 w = (Ok 4, Examples.inherited_u)) as H2
        by (vm_compute; reflexivity).
      assert (checked (U.invoke Examples.code Examples.shape 10) 2 1 [5] Same [5]
                (U.set_ambient (Some 2) None Examples.inherited_u)
                Examples.validated_u) as H5.
      { eapply checked_same; [vm_compute; reflexivity|vm_compute; reflexivity|reflexivity|].
        apply checked_nil. }
      destruct (proj2 (C10_validation_resolves Examples.code Examples.shape 10 2 6 Same [5])
                  _ _ _ _ Examples.deps_u (wf_use_this _) H1 H2
                  ltac:(vm_compute; reflexivity) ltac:(vm_compute; reflexivity) H5)
        as (_ & _ & H).
      destruct (H ltac:(right; vm_compute; intros [= ]) _ _ (surjective_pairing _) 5
                  ltac:(apply list_elem_of_singleton; done)
                  0 (Ret VNull) _ _ eq_refl (VNum 0)) as [Hs _].
      subst w. rewrite Hs. vm_compute. reflexivity.
    + set (w := Examples.use_this Scenarios.replaced).
      assert (U.regular w 2) as H1 by (eexists _, _; vm_compute; split; reflexivity).
      assert (U.entry_for 2 6 w = (Ok 5, (U.entry_for 2 6 w).2)) as H2
        by (vm_compute; reflexivity).
      assert (checked (U.invoke Examples.code Examples.shape 10) 2 1 [5] Differ [5]
                (U.set_ambient (Some 2) None (U.entry_for 2 6 w).2)
                (U.every (U.invoke Examples.code Examples.shape 10) 2 1 [5]
                   (U.set_ambient (Some 2) None (U.entry_for 2 6 w).2)).2) as H5
        by (eapply checked_diff; [vm_compute; reflexivity|vm_compute; reflexivity|reflexivity]).
      destruct (proj2 (C10_validation_resolves Examples.code Examples.shape 10 2 6 Differ [5])
                  _ _ _ _ Examples.deps_u (wf_use_this _) H1 H2
                  ltac:(vm_compute; reflexivity) ltac:(vm_compute; reflexivity) H5)
        as (_ & _ & H).
      destruct (H ltac:(right; vm_compute; intros [= ]) _ _ (surjective_pairing _) 5
                  ltac:(apply list_elem_of_singleton; done)
                  0 (Ret VNull) _ _ eq_refl (VNum 0)) as [Hs _].
      subst w. rewrite Hs. vm_compute. reflexivity.
Defined.

(** [c1(S2); c2.def(S1, () => { throw new Error }); c2(S2)]: the check of the
    record of [S2] reaches its key [S1] and the lookup [c2(S1)] throws.
    When [c2(S2)] has ended, the entry of [S1] in [c2] was not read, it is
    in state [hasError] or [isCreating], and [c2.set] and [c2.def] on [S1]
    return [c2]. *)
Lemma C10_validation_resolves_counterexample :
  (let w := Examples.to_use Scenarios.broken in
   let w' := (T.invoke Examples.code Examples.shape 11 2 6 w).2 in
   T.entry_of (T.materialize 2 6 w) 2 6 = Some Examples.inherited_t ∧
   T.entry_of w 2 5 = Some {| T.e_s := T.hasFactory; T.e_v := VFun 1; T.e_d := None |} ∧
   T.entry_of w' 2 5
     = Some {| T.e_s := T.hasError; T.e_v := VErr 2 Error (Custom 7); T.e_d := None |} ∧
   (T.set 2 5 (VNum 0) w').1 = Ok (VCtx 2) ∧ (T.def 2 5 (VFun 2) w').1 = Ok (VCtx 2)) ∧
  (let w := Examples.use_this Scenarios.broken in
   let w' := (U.invoke Examples.code Examples.shape 11 2 6 w).2 in
   (∃ wm, U.entry_for 2 6 w = (Ok 5, wm) ∧ U.read_s wm 5 = Some U.hasValue ∧
          U.read_d wm 5 = Some Examples.deps_u) ∧
   U.entry_of w 2 5 = Some 4 ∧ U.read_s w 4 = Some U.hasFactory ∧
   U.entry_of w' 2 5 = Some 4 ∧ U.read_s w' 4 = Some U.isCreating ∧
   (U.set 2 5 (VNum 0) w').1 = Ok (VCtx 2) ∧ (U.def 2 5 (VFun 2) w').1 = Ok (VCtx 2)).
Proof.
  cbv zeta. split.
  - split; [|split; [|split; [|split]]]; vm_compute; reflexivity.
  - split; [eexists; split; [|split]; vm_compute; reflexivity|].
    split; [|split; [|split; [|split; [|split]]]]; vm_compute; reflexivity.
Qed.
(** * Further properties of [to-use.ts] *)

Module ToUseMore.
Import ToUse ToUseFacts.

(** The walk over the ancestors ends: the chain of [prev] links goes down. *)
Lemma t_nearest_total w key r :
  chain_ok w → (∀ c, r = Some c → c < length (ctxs w)) →
  ∃ res, nearest (ctxs w) key r res.
Proof.
  intros Hch. destruct r as [c|]; [|intros _; exists None; constructor].
  intros Hc. specialize (Hc c eq_refl). revert Hc.
  induction (lt_wf c) as [c _ IH]. intros Hc.
  destruct (lookup_lt_is_Some_2 _ _ Hc) as [reg Hreg].
  destruct (entries reg !! key) as [e|] eqn:He.
  - exists (Some (c, e)). by eapply nearest_here.
  - destruct (prev reg) as [p|] eqn:Hp.
    + destruct (IH p) as [res Hres]; [by apply (Hch c reg)|pose proof (Hch c reg p Hreg Hp); lia|].
      exists res. eapply nearest_up; [done..|]. by rewrite Hp.
    + exists None. eapply nearest_up; [done..|]. rewrite Hp. constructor.
Qed.

(** The first lines of a lookup allocate nothing. *)
Lemma t_next_materialize me key w : next (materialize me key w) = next w.
Proof. unfold materialize. by repeat case_match. Qed.

(** ** The module variables after a lookup *)

Lemma t_ambient_setEntry c key s x w :
  ctx (setEntry c key s x w).2 = ctx w ∧ used (setEntry c key s x w).2 = used w.
Proof. unfold setEntry. by repeat case_match. Qed.

Lemma t_ambient_materialize me key w :
  ctx (materialize me key w) = ctx w ∧ used (materialize me key w) = used w.
Proof. unfold materialize. by repeat case_match. Qed.

Lemma t_ambient_push me key w w' :
  ctx w' = ctx w → used w' = used w →
  ctx (push me key w') = ctx w ∧ used (push me key w') = used (push me key w).
Proof.
  intros Hc Hu. unfold push. rewrite Hc, Hu.
  destruct (ctx w) as [c|] eqn:E1; destruct (used w) as [l|] eqn:E2; simpl;
    try (split; congruence).
  destruct (decide (c = me)); simpl; split; congruence.
Qed.

Section Log.
Context (code : nat → nat → nat → Prog) (shape : nat → KeyShape).
Context (look : nat → nat → M World Value).

Lemma t_traces_case_wasRead me key w w' :
  ctx w' = ctx w → used w' = used w → Ambient.t_traces me key w (case_wasRead me key w').
Proof.
  intros Hc Hu. unfold Ambient.t_traces, case_wasRead.
  destruct (entry_of w' me key); simpl; [by apply t_ambient_push|done].
Qed.

Lemma t_traces_case_hasFactory me key w w' :
  ctx w' = ctx w → used w' = used w →
  Ambient.t_traces me key w (case_hasFactory code shape look me key w').
Proof.
  intros Hc Hu. unfold case_hasFactory.
  set (w1 := update me key (with_s isCreating) w').
  destruct (entry_of w1 me key) as [entry|]; [|done].
  unfold exec. destruct (call _ _ _ _ _ _ _) as [[x|e|] w2]; [|done..].
  set (w2' := set_ambient (ctx w1) (used w1) w2).
  destruct (t_ambient_setEntry me key wasRead x w2') as [Hc3 Hu3].
  destruct (setEntry me key wasRead x w2') as [[[]|e|] w3]; simpl in Hc3, Hu3.
  - apply t_traces_case_wasRead.
    + destruct (used w2) as [[|k ks]|]; simpl; by rewrite ?Hc3.
    + destruct (used w2) as [[|k ks]|]; simpl; by rewrite ?Hu3.
  - split; simpl; congruence.
  - split; simpl; [congruence|done].
Qed.

Lemma t_traces_case_hasValue me key entry w w' :
  ctx w' = ctx w → used w' = used w →
  Ambient.t_traces me key w (case_hasValue code shape look me key entry w').
Proof.
  intros Hc Hu. unfold case_hasValue. destruct (e_d entry) as [deps|].
  - unfold exec. destruct (every _ _ _ _ _) as [[[]|e|] w2];
      [by apply t_traces_case_wasRead|by apply t_traces_case_hasFactory|done..].
  - by apply t_traces_case_wasRead.
Qed.

Lemma t_traces_state_machine me key w w' :
  ctx w' = ctx w → used w' = used w →
  Ambient.t_traces me key w (state_machine code shape look me key w').
Proof.
  intros Hc Hu. unfold state_machine. destruct (entry_of w' me key) as [entry|]; [|done].
  destruct (e_s entry).
  - by apply t_traces_case_wasRead.
  - by apply t_traces_case_hasValue.
  - by apply t_traces_case_hasFactory.
  - done.
  - done.
Qed.

Hypothesis Hlook : ∀ c k w,
  ctx (look c k w).2 = ctx w ∧
  match (look c k w).1 with
  | Ok _ => ∃ t, target w c = Some t ∧ used (look c k w).2 = used (push t k w)
  | Thrown _ => used (look c k w).2 = used w
  | Diverge => True
  end.

Lemma t_log_lookup me key w :
  ctx (lookup code shape look me key w).2 = ctx w ∧
  match (lookup code shape look me key w).1 with
  | Ok _ => ∃ t, target w me = Some t ∧
                 used (lookup code shape look me key w).2 = used (push t key w)
  | Thrown _ => used (lookup code shape look me key w).2 = used w
  | Diverge => True
  end.
Proof.
  unfold lookup, target. destruct (ctxs w !! me) as [reg|] eqn:Hr; [|done].
  destruct (prev reg) as [p|] eqn:Hp.
  - destruct (t_ambient_materialize me key w) as [Hc Hu].
    destruct (t_traces_state_machine me key w (materialize me key w) Hc Hu) as [H1 H2].
    split; [done|]. destruct (state_machine _ _ _ _ _ _).1; [by exists me|done..].
  - unfold this. destruct (ctx w) as [c|] eqn:Hctx; [|done].
    destruct (Hlook c key w) as [H1 H2]. split; [congruence|].
    destruct (look c key w).1; [|done..].
    destruct H2 as (t & Ht & H2). exists c. split; [done|].
    unfold target in Ht. destruct (ctxs w !! c) as [rc|]; [|done].
    destruct (prev rc); congruence.
Qed.

End Log.

Lemma t_log_invoke code shape fuel c key w :
  ctx (invoke code shape fuel c key w).2 = ctx w ∧
  match (invoke code shape fuel c key w).1 with
  | Ok _ => ∃ t, target w c = Some t ∧
                 used (invoke code shape fuel c key w).2 = used (push t key w)
  | Thrown _ => used (invoke code shape fuel c key w).2 = used w
  | Diverge => True
  end.
Proof.
  revert c key w. induction fuel as [|n IH]; intros c key w; [done|].
  simpl. by apply t_log_lookup.
Qed.

(** ** The global registry is never read *)

Lemma t_rooted_alter c g w :
  (∀ r, prev (g r) = prev r) →
  (c ≠ 0 ∨ ∀ r, Root.t_unread r → Root.t_unread (g r)) →
  Root.t_rooted w → Root.t_rooted (set_ctxs (alter g c (ctxs w)) w).
Proof.
  intros Hp Hc [(r & Hr & Hpr & Hu) Hoth]. split.
  - simpl. destruct (decide (c = 0)) as [->|Hne].
    + exists (g r). rewrite list_lookup_alter_eq, Hr. split; [done|].
      split; [by rewrite Hp|]. destruct Hc as [?|Hc]; [done|]. by apply Hc.
    + exists r. by rewrite list_lookup_alter_ne.
  - simpl. intros c' r'. rewrite list_lookup_alter.
    destruct (decide (c = c')) as [->|_].
    + destruct (ctxs w !! c') as [r0|] eqn:H0; [|done]. simpl. intros [= <-] Hne.
      rewrite Hp. by apply (Hoth c').
    + apply Hoth.
Qed.

Lemma t_rooted_same w w' : ctxs w' = ctxs w → Root.t_rooted w → Root.t_rooted w'.
Proof. unfold Root.t_rooted. by intros ->. Qed.

Lemma t_rooted_update me key f w :
  me ≠ 0 → Root.t_rooted w → Root.t_rooted (update me key f w).
Proof. intros Hne. apply t_rooted_alter; [done|by left]. Qed.

Lemma t_rooted_store me key e w :
  me ≠ 0 ∨ e_s e ≠ wasRead → Root.t_rooted w → Root.t_rooted (store me key e w).
Proof.
  intros [Hne|Hs]; apply t_rooted_alter; try done; [by left|]. right.
  intros r Hu k e'. simpl. destruct (decide (k = key)) as [->|Hk].
  - rewrite lookup_insert_eq. by intros [= <-].
  - rewrite lookup_insert_ne by done. apply Hu.
Qed.

Lemma t_rooted_setEntry c key s x w :
  c ≠ 0 ∨ s ≠ wasRead → Root.t_rooted w → Root.t_rooted (setEntry c key s x w).2.
Proof.
  intros Hc HG. unfold setEntry. destruct (entry_of w c key) as [entry|].
  - destruct (e_s entry); simpl; try done;
      (apply t_rooted_alter; [done| |done]; destruct Hc as [?|Hs]; [by left|right];
       intros r Hu k e'; simpl; destruct (decide (k = key)) as [->|Hk];
       [rewrite lookup_alter_eq; destruct (entries r !! key); [by intros [= <-]|done]
       |rewrite lookup_alter_ne by done; apply Hu]).
  - by apply t_rooted_store.
Qed.

Lemma t_rooted_newCtx me w : Root.t_rooted w → Root.t_rooted (newCtx (Some me) w).2.
Proof.
  intros [(r & Hr & Hpr & Hu) Hoth]. split; simpl.
  - exists r. split; [|done]. apply lookup_app_l_Some. done.
  - intros c r'. destruct (decide (c < length (ctxs w))) as [Hlt|Hge].
    + rewrite lookup_app_l by done. apply Hoth.
    + rewrite lookup_app_r by lia. destruct (c - length (ctxs w)) as [|i]; [|done].
      simpl. by intros [= <-] _.
Qed.

Lemma t_rooted_regular w me : Root.t_rooted w → regular w me → me ≠ 0.
Proof.
  intros [(r & Hr & Hpr & _) _] (r' & p & Hr' & Hp) ->. congruence.
Qed.

Lemma t_rooted_init : Root.t_rooted init.
Proof.
  split.
  - exists {| entries := ∅; prev := None |}. split; [done|]. split; [done|].
    intros k e. simpl. by rewrite lookup_empty.
  - intros [|c] r; [done|]. done.
Qed.

Section RootStep.
Context (code : nat → nat → nat → Prog) (shape : nat → KeyShape).
Context (look : nat → nat → M World Value).
Hypothesis Hlook : ∀ c k w, Root.t_rooted w → Root.t_rooted (look c k w).2.

Lemma t_rooted_method {A} me (m : M World A) w :
  (Root.t_rooted w → Root.t_rooted (m w).2) → Root.t_rooted w → Root.t_rooted (method me m w).2.
Proof. unfold method. by destruct (ctxs w !! me). Qed.

Lemma t_rooted_set me key x w : Root.t_rooted w → Root.t_rooted (set me key x w).2.
Proof.
  apply t_rooted_method. intros HG. unfold bind.
  pose proof (t_rooted_setEntry me key hasValue x w ltac:(by right) HG) as H.
  by destruct (setEntry me key hasValue x w) as [[[]|e|] w1].
Qed.

Lemma t_rooted_def me key x w : Root.t_rooted w → Root.t_rooted (def me key x w).2.
Proof.
  apply t_rooted_method. intros HG. unfold bind.
  pose proof (t_rooted_setEntry me key hasFactory x w ltac:(by right) HG) as H.
  by destruct (setEntry me key hasFactory x w) as [[[]|e|] w1].
Qed.

Lemma t_rooted_fork me key w : Root.t_rooted w → Root.t_rooted (fork look me key w).2.
Proof.
  apply t_rooted_method. intros HG. unfold bind. simpl.
  pose proof (t_rooted_newCtx me w HG) as H. destruct key as [k|]; [by apply Hlook|done].
Qed.

Lemma t_rooted_this w : Root.t_rooted w → Root.t_rooted (this w).2.
Proof. unfold this. by destruct (ctx w). Qed.

Lemma t_rooted_run p w : Root.t_rooted w → Root.t_rooted (run (api look) p w).2.
Proof.
  revert w. induction p as [x|x|cont IH|n cont IH|c key cont IH|cont IH|c key x cont IH
                           |c key fac cont IH|c key cont IH|body IHb handler IHh cont IHc];
    intros w HG; simpl; try done.
  - unfold bind. simpl. by apply IH.
  - unfold bind. simpl. by apply IH.
  - unfold bind. pose proof (Hlook c key w HG) as H.
    destruct (look c key w) as [[x|e|] w1]; [by apply IH|done..].
  - unfold bind. pose proof (t_rooted_this w HG) as H.
    destruct (this w) as [[x|e|] w1]; [by apply IH|done..].
  - unfold bind. pose proof (t_rooted_set c key x w HG) as H.
    destruct (set c key x w) as [[y|e|] w1]; [by apply IH|done..].
  - unfold bind. pose proof (t_rooted_def c key fac w HG) as H.
    destruct (def c key fac w) as [[y|e|] w1]; [by apply IH|done..].
  - unfold bind. pose proof (t_rooted_fork c key w HG) as H.
    destruct (fork look c key w) as [[y|e|] w1]; [by apply IH|done..].
  - pose proof (IHb w HG) as H.
    destruct (run (api look) body w) as [[x|e|] w1]; [by apply IHc| |done].
    unfold bind. pose proof (IHh e w1 H) as H'.
    destruct (run (api look) (handler e) w1) as [[x|e'|] w2]; [by apply IHc|done..].
Qed.

Lemma t_rooted_call fn me key w :
  Root.t_rooted w → Root.t_rooted (call code shape look fn me key w).2.
Proof.
  intros HG. unfold call, defaultLookup.
  destruct fn; try done; [by apply t_rooted_run|].
  destruct (shape key); [by apply t_rooted_run..|done].
Qed.

Lemma t_rooted_every me origin keys w :
  Root.t_rooted w → Root.t_rooted (every look me origin keys w).2.
Proof.
  revert w. induction keys as [|k keys IH]; intros w HG; [done|]. simpl. unfold bind.
  pose proof (Hlook me k w HG) as H1. destruct (look me k w) as [[a|e|] w1]; [|done..].
  pose proof (Hlook origin k w1 H1) as H2. destruct (look origin k w1) as [[b|e|] w2]; [|done..].
  destruct (strict_eq a b); [by apply IH|done].
Qed.

Lemma t_rooted_exec {A} me deps (body : M World A) w :
  (∀ w0, Root.t_rooted w0 → Root.t_rooted (body w0).2) →
  Root.t_rooted w → Root.t_rooted (exec me deps body w).2.
Proof.
  intros Hb HG. unfold exec.
  pose proof (Hb (set_ambient (Some me) deps w) HG) as H.
  by destruct (body (set_ambient (Some me) deps w)) as [r w'].
Qed.

Lemma t_rooted_case_wasRead me key w :
  Root.t_rooted w → Root.t_rooted (case_wasRead me key w).2.
Proof.
  intros HG. unfold case_wasRead. destruct (entry_of w me key); [|done]. simpl.
  apply (t_rooted_same w); [apply ctxs_push|done].
Qed.

Lemma t_rooted_case_hasFactory me key w :
  me ≠ 0 → Root.t_rooted w → Root.t_rooted (case_hasFactory code shape look me key w).2.
Proof.
  intros Hne HG. unfold case_hasFactory.
  set (w1 := update me key (with_s isCreating) w).
  assert (Root.t_rooted w1) as HG1 by (by apply t_rooted_update).
  destruct (entry_of w1 me key) as [entry|]; [|done].
  pose proof (t_rooted_exec me (Some []) (call code shape look (e_v entry) me key) w1
                (t_rooted_call _ _ _) HG1) as HG2.
  destruct (exec me (Some []) (call code shape look (e_v entry) me key) w1)
    as [[[x|e|] keys] w2]; simpl in HG2.
  - pose proof (t_rooted_setEntry me key wasRead x w2 ltac:(by left) HG2) as HG3.
    destruct (setEntry me key wasRead x w2) as [[[]|e|] w3]; simpl in HG3.
    + apply t_rooted_case_wasRead. destruct keys as [[|k ks]|]; try done.
      by apply t_rooted_update.
    + by apply t_rooted_update.
    + done.
  - by apply t_rooted_update.
  - done.
Qed.

Lemma t_rooted_case_hasValue me key entry w :
  me ≠ 0 → Root.t_rooted w →
  Root.t_rooted (case_hasValue code shape look me key entry w).2.
Proof.
  intros Hne HG. unfold case_hasValue. destruct (e_d entry) as [deps|].
  - pose proof (t_rooted_exec me None (every look me (d_c deps) (d_k deps)) w
                  (t_rooted_every _ _ _) HG) as HG1.
    destruct (exec me None (every look me (d_c deps) (d_k deps)) w)
      as [[[[]|e|] keys] w1]; simpl in HG1; try done.
    + by apply t_rooted_case_wasRead, t_rooted_update.
    + by apply t_rooted_case_hasFactory, t_rooted_update.
  - by apply t_rooted_case_wasRead, t_rooted_update.
Qed.

Lemma t_rooted_materialize me key w :
  me ≠ 0 → Root.t_rooted w → Root.t_rooted (materialize me key w).
Proof.
  intros Hne HG. unfold materialize. destruct (ctxs w !! me) as [reg|]; [|done].
  destruct (entries reg !! key); [done|]. apply t_rooted_store; [by left|done].
Qed.

Lemma t_rooted_lookup me key w :
  Root.t_rooted w → Root.t_rooted (lookup code shape look me key w).2.
Proof.
  intros HG. unfold lookup. destruct (ctxs w !! me) as [reg|] eqn:Hr; [|done].
  destruct (prev reg) as [p|] eqn:Hp.
  - assert (me ≠ 0) as Hne by (apply (t_rooted_regular w); [done|by exists reg, p]).
    pose proof (t_rooted_materialize me key w Hne HG) as HG1.
    unfold state_machine. destruct (entry_of _ me key) as [entry|]; [|done].
    destruct (e_s entry).
    + by apply t_rooted_case_wasRead.
    + by apply t_rooted_case_hasValue.
    + by apply t_rooted_case_hasFactory.
    + done.
    + done.
  - unfold this. destruct (ctx w) as [c|]; [by apply Hlook|done].
Qed.

End RootStep.

Lemma t_rooted_invoke code shape fuel me key w :
  Root.t_rooted w → Root.t_rooted (invoke code shape fuel me key w).2.
Proof.
  revert me key w. induction fuel as [|n IH]; intros me key w HG; [done|].
  simpl. by apply t_rooted_lookup.
Qed.

Lemma t_rooted_script code shape fuel p w :
  Root.t_rooted w → Root.t_rooted (script code shape fuel p w).2.
Proof. apply t_rooted_run. intros c k w0. apply t_rooted_invoke. Qed.

(** ** A value that is inherited as it is *)

Lemma t_inherits_value code shape look me key c w reg e :
  chain_ok w → regular w me →
  ctxs w !! me = Some reg → entries reg !! key = None →
  nearest (ctxs w) key (prev reg) (Some (c, e)) →
  e_s e = wasRead ∨ e_s e = hasValue → e_d e = None →
  let w' := push me key (update me key (with_s wasRead) (materialize me key w)) in
  lookup code shape look me key w = (Ok (e_v e), w') ∧
  entry_of w' me key = Some {| e_s := wasRead; e_v := e_v e; e_d := None |} ∧
  (∀ c' k', (c', k') ≠ (me, key) → entry_of w' c' k' = entry_of w c' k').
Proof.
  intros Hch Hreg Hr He Hn Hs Hd w'.
  destruct (materialize_spec me key w reg _ Hch Hr He Hn) as (Hm & Hoth & _).
  unfold w'. clear w'. set (wm := materialize me key w) in *.
  assert (e_s (spread e) = hasValue) as Hs'
    by (unfold spread; simpl; by destruct Hs as [-> | ->]).
  assert (regular wm me) as Hregm.
  { eapply regular_stable; [|exact Hreg]. apply (stable_materialize (λ _ _, True)). }
  split; [|split].
  - transitivity (lookup code shape look me key wm).
    + unfold lookup. destruct Hreg as (r0 & p & Hr0 & Hp).
      destruct Hregm as (r1 & p1 & Hr1 & Hp1). rewrite Hr0, Hp, Hr1, Hp1.
      fold wm. by rewrite (materialize_present me key (spread e) wm).
    + exact (lookup_plain_value code shape look me key (spread e) wm Hregm Hm Hs' Hd).
  - rewrite entry_of_push, entry_of_update_eq, Hm. simpl.
    unfold with_s. simpl. by rewrite Hd.
  - intros c' k' Hne. rewrite entry_of_push, entry_of_update_ne by congruence.
    by apply Hoth.
Qed.

(** ** A child that has overridden nothing shares the value *)

Lemma t_plain_ctxs me origin K w w' :
  ctxs w' = ctxs w → Sharing.t_plain me origin K w → Sharing.t_plain me origin K w'.
Proof.
  unfold Sharing.t_plain, chain_ok, regular, entry_of. by intros ->.
Qed.

Lemma t_plain_origin me origin K w : Sharing.t_plain me origin K w → origin ≠ me.
Proof.
  intros (Hch & (r & Hr & Hp) & _). specialize (Hch me r origin Hr Hp). lia.
Qed.

(** The world after a step that wrote at most the entry of [k] in [me],
    which is now the one of [origin]. *)
Lemma t_plain_step me origin K k ek w w' :
  Sharing.t_plain me origin K w → evolves w w' →
  entry_of w origin k = Some ek →
  entry_of w' me k = Some ek →
  (∀ c' k', (c', k') ≠ (me, k) → entry_of w' c' k' = entry_of w c' k') →
  Sharing.t_plain me origin K w'.
Proof.
  intros HJ E Hek Hme Hoth. pose proof (t_plain_origin _ _ _ _ HJ) as Hne.
  destruct HJ as (Hch & (r & Hr & Hp) & Hro & HK).
  split; [by apply (st_chain _ _ _ E)|]. split; [|split].
  - destruct (st_prev _ _ _ E me r Hr) as (r' & Hr' & Hp'). exists r'. split; [done|congruence].
  - by apply (regular_stable _ w w' origin E).
  - intros k' Hk'. destruct (HK k' Hk') as (ek' & H1 & H2 & H3 & Hn' & H4).
    exists ek'. rewrite (Hoth origin k') by congruence.
    split; [done|]. split; [done|]. split; [done|]. split; [done|].
    destruct (decide (k' = k)) as [->|Hk].
    + right. congruence.
    + by rewrite (Hoth me k') by congruence.
Qed.

Lemma t_every_plain code shape n me origin K keys w :
  (∀ k, k ∈ keys → k ∈ K) → Sharing.t_plain me origin K w →
  ∃ w', every (invoke code shape (S n)) me origin keys w = (Ok true, w') ∧
        Sharing.t_plain me origin K w' ∧
        (∀ c' k', ¬ (c' = me ∧ k' ∈ keys) → entry_of w' c' k' = entry_of w c' k') ∧
        (∀ k, k ∈ keys → ∃ ek, entry_of w origin k = Some ek ∧ entry_of w' me k = Some ek).
Proof.
  revert w. induction keys as [|k keys IH]; intros w Hin HJ.
  { exists w. split; [done|]. split; [done|]. split; [done|]. intros k Hk.
    by apply elem_of_nil in Hk. }
  pose proof (t_plain_origin _ _ _ _ HJ) as Hne.
  pose proof HJ as (Hch & (r & Hr & Hp) & Hro & HK).
  destruct (HK k (Hin k ltac:(by left))) as (ek & Hek & Hs & Hd & Hnan & Hme).
  assert (ek = {| e_s := wasRead; e_v := e_v ek; e_d := None |}) as Hrec
    by (destruct ek; simpl in *; by subst).
  assert (regular w me) as Hregme by (by exists r, origin).
  (* the lookup in [me] *)
  assert (∃ w1, invoke code shape (S n) me k w = (Ok (e_v ek), w1) ∧
                entry_of w1 me k = Some ek ∧
                (∀ c' k', (c', k') ≠ (me, k) → entry_of w1 c' k' = entry_of w c' k'))
    as (w1 & H1 & Hme1 & Hoth1).
  { destruct Hme as [Hnone|Hsome].
    - assert (entries r !! k = None) as Hnone'
        by (unfold entry_of in Hnone; by rewrite Hr in Hnone).
      assert (nearest (ctxs w) k (prev r) (Some (origin, ek))) as Hn.
      { rewrite Hp. unfold entry_of in Hek. destruct (ctxs w !! origin) as [ro|] eqn:Ho; [|done].
        by eapply nearest_here. }
      destruct (t_inherits_value code shape (invoke code shape n) me k origin w r ek
                  Hch Hregme Hr Hnone' Hn ltac:(by left) Hd) as (Ha & Hb & Hc).
      eexists. split; [exact Ha|]. split; [rewrite Hb; by rewrite <- Hrec|done].
    - exists (push me k w). split; [|split].
      + simpl. apply lookup_resolved; [done|]. by exists ek.
      + by rewrite entry_of_push.
      + intros c' k' _. by rewrite entry_of_push. }
  pose proof (evolves_invoke code shape (S n) me k w) as E1. rewrite H1 in E1. simpl in E1.
  pose proof (t_plain_step me origin K k ek w w1 HJ E1 Hek Hme1 Hoth1) as HJ1.
  (* the lookup in [origin] *)
  assert (invoke code shape (S n) origin k w1 = (Ok (e_v ek), push origin k w1)) as H2.
  { simpl. apply lookup_resolved; [by destruct HJ1 as (_ & _ & ? & _)|].
    exists ek. rewrite (Hoth1 origin k) by congruence. done. }
  assert (Sharing.t_plain me origin K (push origin k w1)) as HJ2
    by (apply (t_plain_ctxs _ _ _ w1); [apply ctxs_push|done]).
  destruct (IH (push origin k w1) ltac:(intros k' Hk'; apply Hin; by right) HJ2)
    as (w' & H3 & HJ' & Hoth' & Hres').
  exists w'. split; [|split; [done|split]].
  - simpl. unfold bind. cbn [invoke] in H1, H2. rewrite H1, H2.
    rewrite strict_eq_refl by done. exact H3.
  - intros c' k' Hnot. rewrite Hoth'.
    + rewrite entry_of_push. apply Hoth1. intros [= -> ->]. apply Hnot. split; [done|by left].
    + intros [-> Hk']. apply Hnot. split; [done|by right].
  - intros k0 Hk0. apply elem_of_cons in Hk0 as [->|Hk0].
    + exists ek. split; [done|].
      destruct (decide (k ∈ keys)) as [Hink|Hnink].
      * destruct (Hres' k Hink) as (ek' & Ha & Hb).
        rewrite entry_of_push, (Hoth1 origin k) in Ha by congruence. congruence.
      * rewrite Hoth' by (by intros [_ ?]). by rewrite entry_of_push.
    + destruct (Hres' k0 Hk0) as (ek' & Ha & Hb). exists ek'. split; [|done].
      rewrite entry_of_push in Ha. rewrite <- Ha. symmetry. apply Hoth1. congruence.
Qed.

Lemma t_plain_frame me origin K w w' :
  Sharing.t_plain me origin K w → evolves w w' →
  (∀ c' k', k' ∈ K → entry_of w' c' k' = entry_of w c' k') →
  Sharing.t_plain me origin K w'.
Proof.
  intros (Hch & (r & Hr & Hp) & Hro & HK) E Hoth.
  split; [by apply (st_chain _ _ _ E)|]. split; [|split].
  - destruct (st_prev _ _ _ E me r Hr) as (r' & Hr' & Hp'). exists r'. split; [done|congruence].
  - by apply (regular_stable _ w w' origin E).
  - intros k Hk. destruct (HK k Hk) as (ek & H1 & H2 & H3 & H4).
    exists ek. by rewrite !Hoth.
Qed.

Lemma t_shares code shape n me key origin w reg e keys f :
  Sharing.t_plain me origin keys w →
  ctxs w !! me = Some reg → entries reg !! key = None →
  entry_of w origin key = Some e → e_s e = wasRead →
  e_d e = Some {| d_c := origin; d_k := keys; d_f := f |} →
  ∃ w', invoke code shape (S (S n)) me key w = (Ok (e_v e), w') ∧
        entry_of w' me key = Some e ∧
        (∀ c' k', c' ≠ me → entry_of w' c' k' = entry_of w c' k') ∧
        (∀ k, k ∈ keys → ∃ ek, entry_of w origin k = Some ek ∧ entry_of w' me k = Some ek).
Proof.
  intros HJ Hr He Hek Hs Hd.
  pose proof (t_plain_origin _ _ _ _ HJ) as Hne.
  pose proof HJ as (Hch & (r & Hr' & Hp) & Hro & HK).
  rewrite Hr in Hr'. injection Hr' as <-.
  assert (regular w me) as Hreg by (by exists reg, origin).
  assert (key ∉ keys) as Hkey.
  { intros Hin. destruct (HK key Hin) as (ek & H1 & _ & H3 & _). congruence. }
  assert (nearest (ctxs w) key (prev reg) (Some (origin, e))) as Hn.
  { rewrite Hp. unfold entry_of in Hek. destruct (ctxs w !! origin) as [ro|] eqn:Ho; [|done].
    by eapply nearest_here. }
  destruct (materialize_spec me key w reg _ Hch Hr He Hn) as (Hm & Hoth & _).
  set (wm := materialize me key w) in *.
  set (deps := {| d_c := origin; d_k := keys; d_f := f |}) in *.
  assert (e_s (spread e) = hasValue) as Hs' by (unfold spread; simpl; by rewrite Hs).
  assert (Sharing.t_plain me origin keys (set_ambient (Some me) None wm)) as HJa.
  { apply (t_plain_ctxs _ _ _ wm); [done|].
    apply (t_plain_frame _ _ _ w); [done|apply (stable_materialize (λ _ _, True))|].
    intros c' k' Hk'. apply Hoth. intros [= -> ->]. done. }
  destruct (t_every_plain code shape n me origin keys keys _ ltac:(done) HJa)
    as (w1 & Hev & HJ1 & Hoth1 & Hres1).
  assert (∃ seen, checked (invoke code shape (S n)) me (d_c deps) (d_k deps) Same seen
                    (set_ambient (Some me) None wm) w1) as [seen Hc]
    by (by apply every_checked).
  assert (entry_of w1 me key = Some (spread e)) as He1.
  { rewrite Hoth1 by (by intros [_ ?]). exact Hm. }
  destruct (smart_sharing code shape (S n) me key w (spread e) deps Same seen w1
              Hreg Hm Hs' Hd Hc) as (e1 & He1' & H1 & H2).
  rewrite He1 in He1'. injection He1' as <-.
  eexists. split; [exact H1|]. split; [|split].
  - rewrite H2. destruct e as [s v d]; simpl in *. by subst.
  - intros c' k' Hc'. rewrite entry_of_push, entry_of_update_ne by congruence.
    rewrite entry_of_set_ambient, Hoth1 by (by intros [? _]).
    rewrite entry_of_set_ambient. apply Hoth. congruence.
  - intros k Hk. destruct (Hres1 k Hk) as (ek & Ha & Hb). exists ek.
    rewrite entry_of_set_ambient in Ha. rewrite Hoth in Ha by congruence.
    split; [done|].
    rewrite entry_of_push, entry_of_update_ne by (intros [= ->]; done).
    by rewrite entry_of_set_ambient.
Qed.

End ToUseMore.


(** * Further properties of [use-this.ts] *)

Module UseThisMore.
Import UseThis UseThisFacts.

Lemma u_nearest_total w key r :
  chain_ok w → (∀ c, r = Some c → c < length (ctxs w)) →
  ∃ res, nearest (ctxs w) key r res.
Proof.
  intros Hch. destruct r as [c|]; [|intros _; exists None; constructor].
  intros Hc. specialize (Hc c eq_refl). revert Hc.
  induction (lt_wf c) as [c _ IH]. intros Hc.
  destruct (lookup_lt_is_Some_2 _ _ Hc) as [reg Hreg].
  destruct (entries reg !! key) as [e|] eqn:He.
  - exists (Some (c, e)). by eapply nearest_here.
  - destruct (prev reg) as [p|] eqn:Hp.
    + destruct (IH p) as [res Hres]; [by apply (Hch c reg)|pose proof (Hch c reg p Hreg Hp); lia|].
      exists res. eapply nearest_up; [done..|]. by rewrite Hp.
    + exists None. eapply nearest_up; [done..|]. rewrite Hp. constructor.
Qed.

Lemma u_nearest_prev w key c r :
  chain_ok w → ctxs w !! c = Some r → ∃ res, nearest (ctxs w) key (prev r) res.
Proof.
  intros Hch Hr. apply u_nearest_total; [done|]. intros p Hp.
  pose proof (Hch c r p Hr Hp). apply lookup_lt_Some in Hr. lia.
Qed.

(** The state that a new entry reads is never [wasRead]. *)
Lemma inherited_state_unread s : inherited_state s ≠ Some wasRead ∧ inherited_state s ≠ None.
Proof. by destruct s as [[]|]. Qed.

(** [getEntry] changes neither the module variables nor the counter of
    identities. *)
Lemma u_getEntry_ambient n me key reg w :
  ctx (getEntry n me key reg w).2 = ctx w ∧
  used (getEntry n me key reg w).2 = used w ∧
  next (getEntry n me key reg w).2 = next w.
Proof.
  revert reg w. induction n as [|n IH]; intros reg w; [done|]. simpl.
  destruct (ctxs w !! reg) as [r|]; [|done].
  destruct (entries r !! key); [done|].
  destruct (prev r) as [p|]; [|done].
  specialize (IH p w). destruct (getEntry n me key p w) as [[parent|e|] w1]; try done.
  simpl in *. by destruct (read_s _ _) as [[]|].
Qed.

Lemma u_getEntry_length n me key reg w :
  length (ctxs (getEntry n me key reg w).2) = length (ctxs w).
Proof.
  revert reg w. induction n as [|n IH]; intros reg w; [done|]. simpl.
  destruct (ctxs w !! reg) as [r|]; [|done].
  destruct (entries r !! key); [done|].
  destruct (prev r) as [p|]; [|simpl; by rewrite length_alter].
  specialize (IH p w). destruct (getEntry n me key p w) as [[parent|e|] w1]; try done.
  simpl in *. destruct (read_s _ _) as [[]|]; simpl; by rewrite length_alter.
Qed.

(** ** The module variables after a lookup *)

Lemma u_ambient_setEntry key s x entry w :
  ctx (setEntry key s x entry w).2 = ctx w ∧ used (setEntry key s x entry w).2 = used w.
Proof. unfold setEntry. by repeat case_match. Qed.

Lemma u_ambient_push me key w w' :
  ctx w' = ctx w → used w' = used w →
  ctx (push me key w') = ctx w ∧ used (push me key w') = used (push me key w).
Proof.
  intros Hc Hu. unfold push. rewrite Hc, Hu.
  destruct (ctx w) as [c|] eqn:E1; destruct (used w) as [l|] eqn:E2; simpl;
    try (split; congruence).
  destruct (decide (c = me)); simpl; split; congruence.
Qed.

Section Log.
Context (code : nat → nat → nat → Prog) (shape : nat → KeyShape).
Context (look : nat → nat → M World Value).

Lemma u_traces_case_wasRead me key entry w w' :
  ctx w' = ctx w → used w' = used w → Ambient.u_traces me key w (case_wasRead me key entry w').
Proof. intros Hc Hu. unfold Ambient.u_traces, case_wasRead. simpl. by apply u_ambient_push. Qed.

Lemma u_traces_resolve me key entry factory w w' :
  ctx w' = ctx w → used w' = used w →
  Ambient.u_traces me key w (resolve code shape look me key entry factory w').
Proof.
  intros Hc Hu. unfold resolve.
  set (w1 := write_v entry factory (write_s entry isCreating w')).
  unfold exec. destruct (call _ _ _ _ _ _ _) as [[x|e|] w2];
    [|split; simpl; [congruence|try done; congruence]..].
  set (w2' := set_ambient (ctx w1) (used w1) w2).
  destruct (u_ambient_setEntry key wasRead x entry w2') as [Hc3 Hu3].
  destruct (setEntry key wasRead x entry w2') as [[[]|e|] w3]; simpl in Hc3, Hu3.
  - apply u_traces_case_wasRead.
    + destruct (used w2) as [[|k ks]|]; simpl; by rewrite ?Hc3.
    + destruct (used w2) as [[|k ks]|]; simpl; by rewrite ?Hu3.
  - split; simpl; congruence.
  - split; simpl; [congruence|done].
Qed.

Lemma u_traces_case_hasValue me key entry w w' :
  ctx w' = ctx w → used w' = used w →
  Ambient.u_traces me key w (case_hasValue code shape look me key entry w').
Proof.
  intros Hc Hu. unfold case_hasValue. destruct (read_d w' entry) as [deps|].
  - unfold exec. destruct (every _ _ _ _ _) as [[[]|e|] w2];
      [by apply u_traces_case_wasRead|by apply u_traces_resolve
      |split; simpl; [congruence|try done; congruence]..].
  - by apply u_traces_case_wasRead.
Qed.

Lemma u_traces_state_machine me key entry w w' :
  ctx w' = ctx w → used w' = used w →
  Ambient.u_traces me key w (state_machine code shape look me key entry w').
Proof.
  intros Hc Hu. unfold state_machine. destruct (read_s w' entry) as [[]|].
  - by apply u_traces_case_wasRead.
  - by apply u_traces_resolve.
  - by apply u_traces_case_hasValue.
  - by apply u_traces_resolve.
  - set (e := VErr _ _ _). set (w0 := set_next (S (next w')) w').
    destruct (u_ambient_setEntry key hasError e entry w0) as [Hc3 Hu3].
    destruct (setEntry key hasError e entry w0) as [[[]|e'|] w3]; simpl in Hc3, Hu3;
      (split; simpl; [congruence|try done; congruence]).
  - split; simpl; congruence.
  - split; simpl; [congruence|done].
Qed.

Hypothesis Hlook : ∀ c k w,
  ctx (look c k w).2 = ctx w ∧
  match (look c k w).1 with
  | Ok _ => ∃ t, target w c = Some t ∧ used (look c k w).2 = used (push t k w)
  | Thrown _ => used (look c k w).2 = used w
  | Diverge => True
  end.

Lemma u_log_lookup me key w :
  ctx (lookup code shape look me key w).2 = ctx w ∧
  match (lookup code shape look me key w).1 with
  | Ok _ => ∃ t, target w me = Some t ∧
                 used (lookup code shape look me key w).2 = used (push t key w)
  | Thrown _ => used (lookup code shape look me key w).2 = used w
  | Diverge => True
  end.
Proof.
  unfold lookup, target. destruct (ctxs w !! me) as [reg|] eqn:Hr; [|done].
  destruct (prev reg) as [p|] eqn:Hp.
  - unfold bind, entry_for.
    destruct (u_getEntry_ambient (S (length (ctxs w))) me key me w) as (Hc & Hu & _).
    destruct (getEntry (S (length (ctxs w))) me key me w) as [[entry|e|] w0];
      simpl in Hc, Hu; [|by split..].
    destruct (u_traces_state_machine me key entry w w0 Hc Hu) as [H1 H2].
    split; [done|]. destruct (state_machine _ _ _ _ _ _ _).1; [by exists me|done..].
  - unfold this. destruct (ctx w) as [c|] eqn:Hctx; [|done].
    destruct (Hlook c key w) as [H1 H2]. split; [congruence|].
    destruct (look c key w).1; [|done..].
    destruct H2 as (t & Ht & H2). exists c. split; [done|].
    unfold target in Ht. destruct (ctxs w !! c) as [rc|]; [|done].
    destruct (prev rc); congruence.
Qed.

End Log.

Lemma u_log_invoke code shape fuel c key w :
  ctx (invoke code shape fuel c key w).2 = ctx w ∧
  match (invoke code shape fuel c key w).1 with
  | Ok _ => ∃ t, target w c = Some t ∧
                 used (invoke code shape fuel c key w).2 = used (push t key w)
  | Thrown _ => used (invoke code shape fuel c key w).2 = used w
  | Diverge => True
  end.
Proof.
  revert c key w. induction fuel as [|n IH]; intros c key w; [done|].
  simpl. by apply u_log_lookup.
Qed.

(** ** The global registry is never read *)

Lemma u_rooted_regular w me : Root.u_rooted w → regular w me → me ≠ 0.
Proof.
  intros [_ (r & Hr & Hpr & _)] (r' & p & Hr' & Hp) ->. congruence.
Qed.

Lemma u_rooted_init : Root.u_rooted init.
Proof.
  split; [apply wf_init|]. exists {| entries := ∅; prev := None |}.
  split; [done|]. split; [done|]. intros k a. simpl. by rewrite lookup_empty.
Qed.

Lemma u_rooted_same w w' :
  heap w' = heap w → ctxs w' = ctxs w → wf w' → Root.u_rooted w → Root.u_rooted w'.
Proof. intros Hh Hc Hwf [_ H]. split; [done|]. by rewrite Hh, Hc. Qed.

(** An assignment to an entry of another registry than the global one. *)
Lemma u_rooted_modify_own me key b f w :
  me ≠ 0 → entry_of w me key = Some b → wf (modify b f w) →
  Root.u_rooted w → Root.u_rooted (modify b f w).
Proof.
  intros Hne Hb Hwf' [Hwf (r & Hr & Hpr & Hu)]. split; [done|].
  exists r. split; [done|]. split; [done|]. intros k a Ha.
  destruct (Hu k a Ha) as (o & s & Ho & Hs & Hs'). exists o, s. split; [|done].
  simpl. rewrite list_lookup_alter_ne; [done|]. intros ->.
  assert (entry_of w 0 k = Some a) as H0 by (unfold entry_of; by rewrite Hr).
  by destruct (wf_inj _ Hwf 0 k me key a H0 Hb).
Qed.

(** An assignment of a state other than [wasRead]. *)
Lemma u_rooted_modify_config b f s w :
  (∀ o, o_s (f o) = Some s) → s ≠ wasRead → wf (modify b f w) →
  Root.u_rooted w → Root.u_rooted (modify b f w).
Proof.
  intros Hf Hs Hwf' [Hwf (r & Hr & Hpr & Hu)]. split; [done|].
  exists r. split; [done|]. split; [done|]. intros k a Ha.
  destruct (Hu k a Ha) as (o & s0 & Ho & Hs0 & Hs0'). simpl. rewrite list_lookup_alter.
  destruct (decide (b = a)) as [->|_].
  - exists (f o), s. by rewrite Ho.
  - by exists o, s0.
Qed.

Lemma u_rooted_alloc o w : wf (alloc o w).2 → Root.u_rooted w → Root.u_rooted (alloc o w).2.
Proof.
  intros Hwf' [Hwf (r & Hr & Hpr & Hu)]. split; [done|].
  exists r. split; [done|]. split; [done|]. intros k a Ha.
  destruct (Hu k a Ha) as (o0 & s & Ho & Hs). exists o0, s. split; [|done].
  simpl. by apply lookup_app_l_Some.
Qed.

Lemma u_rooted_store me key a w :
  wf (store me key a w) →
  (me ≠ 0 ∨ ∃ o s, heap w !! a = Some o ∧ o_s o = Some s ∧ s ≠ wasRead) →
  Root.u_rooted w → Root.u_rooted (store me key a w).
Proof.
  intros Hwf' Hc [Hwf (r & Hr & Hpr & Hu)]. split; [done|]. simpl.
  destruct (decide (me = 0)) as [->|Hne].
  - destruct Hc as [?|(o & s & Ho & Hs)]; [done|].
    exists {| entries := <[key := a]> (entries r); prev := prev r |}.
    rewrite list_lookup_alter_eq, Hr. split; [done|]. split; [done|].
    intros k a'. simpl. destruct (decide (k = key)) as [->|Hk].
    + rewrite lookup_insert_eq. intros [= <-]. by exists o, s.
    + rewrite lookup_insert_ne by done. apply Hu.
  - exists r. by rewrite list_lookup_alter_ne.
Qed.

Lemma u_rooted_newCtx me w :
  me < length (ctxs w) → Root.u_rooted w → Root.u_rooted (newCtx (Some me) w).2.
Proof.
  intros Hme [Hwf (r & Hr & Hpr & Hu)].
  split; [by apply (st_wf _ _ _ _ (ut_stable_newCtx [] (λ _ _, True) me w Hme))|].
  exists r. split; [|done]. simpl. by apply lookup_app_l_Some.
Qed.

Lemma u_rooted_set_next n w : Root.u_rooted w → Root.u_rooted (set_next n w).
Proof. intros [[W1 W2 W3 W4 W5 W6] H]. by split. Qed.

Lemma u_rooted_ambient c u w : Root.u_rooted (set_ambient c u w) ↔ Root.u_rooted w.
Proof. unfold Root.u_rooted. by rewrite wf_ambient. Qed.

Lemma u_rooted_push me key w : Root.u_rooted w → Root.u_rooted (push me key w).
Proof.
  intros HG. unfold push. destruct (ctx w); [|done]. destruct (used w); [|done].
  destruct (decide _); [|done]. by apply u_rooted_ambient.
Qed.

Lemma u_wf_write_svd b s x d w :
  wf w → wf (write_d b d (write_v b x (write_s b s w))).
Proof.
  apply (st_wf [] (λ _ _, True)), stable_write_svd. intros y. apply nothing_frozen.
Qed.

Lemma u_wf_write_sv b s x w : wf w → wf (write_v b x (write_s b s w)).
Proof.
  apply (st_wf [] (λ _ _, True)), stable_write_sv. intros y. apply nothing_frozen.
Qed.

Lemma u_wf_write_d b d w : wf w → wf (write_d b d w).
Proof.
  apply (st_wf [] (λ _ _, True)), stable_write_d. intros y. apply nothing_frozen.
Qed.

(** [getEntry] of the global context works on the global registry alone. *)
Lemma u_rooted_getEntry n me key reg w :
  is_Some (ctxs w !! me) → (me = 0 → reg = 0) →
  Root.u_rooted w → Root.u_rooted (getEntry n me key reg w).2.
Proof.
  revert reg w. induction n as [|n IH]; intros reg w Hme Hreg HG; [done|].
  assert (wf (getEntry (S n) me key reg w).2) as Hwf'.
  { destruct HG as [Hwf _].
    destruct (stable_getEntry [] (S n) me key reg w Hwf ltac:(simpl; lia) Hme) as [St _].
    by apply (st_wf _ _ _ _ St). }
  revert Hwf'. simpl.
  destruct (ctxs w !! reg) as [r|] eqn:Hr; [|done].
  destruct (entries r !! key) as [entry|] eqn:He; [done|].
  destruct (prev r) as [p|] eqn:Hp.
  - assert (me ≠ 0) as Hne.
    { intros ->. rewrite (Hreg eq_refl) in Hr.
      destruct HG as [_ (r0 & Hr0 & Hpr0 & _)]. congruence. }
    specialize (IH p w Hme ltac:(done) HG).
    destruct (getEntry n me key p w) as [[parent|e|] w1]; [|done..].
    simpl in *. intros Hwf'. destruct IH as [Hwf1 (r0 & Hr0 & Hpr0 & Hu0)].
    split; [done|]. exists r0. split; [|split; [done|]].
    + destruct (read_s _ _) as [[]|]; simpl; by rewrite list_lookup_alter_ne.
    + intros k a Ha. destruct (Hu0 k a Ha) as (o & s & Ho & Hs).
      exists o, s. split; [|done].
      assert ((heap w1 ++ [{| o_s := None; o_v := None; o_d := None;
                              proto := Some parent |}]) !! a = Some o) as Happ
        by (by apply lookup_app_l_Some).
      assert (a ≠ length (heap w1)) as Hneq by (apply lookup_lt_Some in Ho; lia).
      destruct (read_s _ _) as [[]|]; simpl; try done; by rewrite list_lookup_alter_ne.
  - simpl. intros Hwf'. destruct HG as [Hwf (r0 & Hr0 & Hpr0 & Hu0)]. split; [done|].
    simpl. destruct (decide (me = 0)) as [->|Hne].
    + exists {| entries := <[key := length (heap w)]> (entries r0); prev := prev r0 |}.
      rewrite list_lookup_alter_eq, Hr0. split; [done|]. split; [done|].
      intros k a. simpl. destruct (decide (k = key)) as [->|Hk].
      * rewrite lookup_insert_eq. intros [= <-]. eexists _, isUnset.
        rewrite lookup_app_r, Nat.sub_diag by lia. done.
      * rewrite lookup_insert_ne by done. intros Ha.
        destruct (Hu0 k a Ha) as (o & s & Ho & Hs). exists o, s.
        split; [by apply lookup_app_l_Some|done].
    + exists r0. rewrite list_lookup_alter_ne by done. split; [done|]. split; [done|].
      intros k a Ha. destruct (Hu0 k a Ha) as (o & s & Ho & Hs). exists o, s.
      split; [by apply lookup_app_l_Some|done].
Qed.

Lemma u_rooted_entry_for me key w :
  Root.u_rooted w → Root.u_rooted (entry_for me key w).2.
Proof.
  intros HG. unfold entry_for. destruct (ctxs w !! me) as [r|] eqn:Hr.
  - apply u_rooted_getEntry; [by exists r|by intros ->|done].
  - simpl. by rewrite Hr.
Qed.

(** [setEntry] with a state other than [wasRead], on any entry, or with any
    state on an entry of another registry than the global one. *)
Lemma u_rooted_setEntry me key s x entry w :
  s ≠ wasRead ∨ (me ≠ 0 ∧ entry_of w me key = Some entry) →
  Root.u_rooted w → Root.u_rooted (setEntry key s x entry w).2.
Proof.
  intros Hc HG. unfold setEntry.
  assert (Root.u_rooted (write_d entry None (write_v entry x (write_s entry s w)))) as H.
  { pose proof (u_wf_write_svd entry s x None w (proj1 HG)) as Hwf'.
    rewrite write_svd in *. destruct Hc as [Hs|[Hne He]].
    - by apply (u_rooted_modify_config entry _ s).
    - by apply (u_rooted_modify_own me key). }
  destruct (read_s w entry) as [[]|]; simpl; try done; by apply u_rooted_set_next.
Qed.

Section RootStep.
Context (code : nat → nat → nat → Prog) (shape : nat → KeyShape).
Context (look : nat → nat → M World Value).
Hypothesis Hev : ∀ c k w, wf w → evolves w (look c k w).2.
Hypothesis Hlook : ∀ c k w, Root.u_rooted w → Root.u_rooted (look c k w).2.

Lemma u_rooted_method {A} me (m : M World A) w :
  (Root.u_rooted w → Root.u_rooted (m w).2) → Root.u_rooted w → Root.u_rooted (method me m w).2.
Proof. unfold method. by destruct (ctxs w !! me). Qed.

Lemma u_rooted_write me key s x w :
  s ≠ wasRead → Root.u_rooted w →
  Root.u_rooted ((let* entry := entry_for me key in
                  let* _ := setEntry key s x entry in ret (VCtx me)) w).2.
Proof.
  intros Hs HG. unfold bind. pose proof (u_rooted_entry_for me key w HG) as H1.
  destruct (entry_for me key w) as [[entry|e|] w1]; [|done..]. simpl in H1.
  pose proof (u_rooted_setEntry me key s x entry w1 ltac:(by left) H1) as H2.
  by destruct (setEntry key s x entry w1) as [[[]|e|] w2].
Qed.

Lemma u_rooted_set me key x w : Root.u_rooted w → Root.u_rooted (set me key x w).2.
Proof. apply u_rooted_method. by apply u_rooted_write. Qed.

Lemma u_rooted_def me key x w : Root.u_rooted w → Root.u_rooted (def me key x w).2.
Proof. apply u_rooted_method. by apply u_rooted_write. Qed.

Lemma u_rooted_fork me key w : Root.u_rooted w → Root.u_rooted (fork look me key w).2.
Proof.
  intros HG. unfold fork, method. destruct (ctxs w !! me) as [r|] eqn:Hr; [|done].
  unfold bind. simpl.
  pose proof (u_rooted_newCtx me w (lookup_lt_Some _ _ _ Hr) HG) as H.
  destruct key as [k|]; [by apply Hlook|done].
Qed.

Lemma u_rooted_this w : Root.u_rooted w → Root.u_rooted (this w).2.
Proof.
  intros HG. unfold this. destruct (ctx w); [done|]. by apply u_rooted_set_next.
Qed.

Lemma u_rooted_run p w : Root.u_rooted w → Root.u_rooted (run (api look) p w).2.
Proof.
  revert w. induction p as [x|x|cont IH|n cont IH|c key cont IH|cont IH|c key x cont IH
                           |c key fac cont IH|c key cont IH|body IHb handler IHh cont IHc];
    intros w HG; simpl; try done.
  - unfold bind. simpl. by apply IH, u_rooted_set_next.
  - unfold bind. simpl. by apply IH, u_rooted_set_next.
  - unfold bind. pose proof (Hlook c key w HG) as H.
    destruct (look c key w) as [[x|e|] w1]; [by apply IH|done..].
  - unfold bind. pose proof (u_rooted_this w HG) as H.
    destruct (this w) as [[x|e|] w1]; [by apply IH|done..].
  - unfold bind. pose proof (u_rooted_set c key x w HG) as H.
    destruct (set c key x w) as [[y|e|] w1]; [by apply IH|done..].
  - unfold bind. pose proof (u_rooted_def c key fac w HG) as H.
    destruct (def c key fac w) as [[y|e|] w1]; [by apply IH|done..].
  - unfold bind. pose proof (u_rooted_fork c key w HG) as H.
    destruct (fork look c key w) as [[y|e|] w1]; [by apply IH|done..].
  - pose proof (IHb w HG) as H.
    destruct (run (api look) body w) as [[x|e|] w1]; [by apply IHc| |done].
    unfold bind. pose proof (IHh e w1 H) as H'.
    destruct (run (api look) (handler e) w1) as [[x|e'|] w2]; [by apply IHc|done..].
Qed.

Lemma u_rooted_call fn me key w :
  Root.u_rooted w → Root.u_rooted (call code shape look fn me key w).2.
Proof.
  intros HG. unfold call, defaultLookup.
  destruct fn; try (by apply u_rooted_set_next); [by apply u_rooted_run|].
  destruct (shape key); [by apply u_rooted_run..|by apply u_rooted_set_next].
Qed.

Lemma u_rooted_every me origin keys w :
  Root.u_rooted w → Root.u_rooted (every look me origin keys w).2.
Proof.
  revert w. induction keys as [|k keys IH]; intros w HG; [done|]. simpl. unfold bind.
  pose proof (Hlook me k w HG) as H1. destruct (look me k w) as [[a|e|] w1]; [|done..].
  pose proof (Hlook origin k w1 H1) as H2. destruct (look origin k w1) as [[b|e|] w2]; [|done..].
  destruct (strict_eq a b); [by apply IH|done].
Qed.

Lemma u_rooted_exec {A} me deps (body : M World A) w :
  (∀ w0, Root.u_rooted w0 → Root.u_rooted (body w0).2) →
  Root.u_rooted w → Root.u_rooted (exec me deps body w).2.
Proof.
  intros Hb HG. unfold exec.
  pose proof (Hb (set_ambient (Some me) deps w) (proj2 (u_rooted_ambient _ _ _) HG)) as H.
  destruct (body (set_ambient (Some me) deps w)) as [r w']. simpl in *.
  by apply u_rooted_ambient.
Qed.

Lemma u_rooted_resolve me key entry factory w :
  me ≠ 0 → entry_of w me key = Some entry →
  Root.u_rooted w → Root.u_rooted (resolve code shape look me key entry factory w).2.
Proof.
  intros Hne He HG. unfold resolve.
  set (w1 := write_v entry factory (write_s entry isCreating w)).
  assert (Root.u_rooted w1) as HG1.
  { pose proof (u_wf_write_sv entry isCreating factory w (proj1 HG)) as Hwf1.
    unfold w1 in *. rewrite write_sv in *. by apply (u_rooted_modify_own me key). }
  pose proof (u_rooted_exec me (Some []) (call code shape look factory me key) w1
                (u_rooted_call _ _ _) HG1) as HG2.
  pose proof (evolves_exec me (Some []) (call code shape look factory me key) w1
                (ut_evolves_call code shape look Hev _ _ _ _
                   (proj2 (wf_ambient _ _ _) (proj1 HG1)))) as Ex.
  destruct (exec me (Some []) (call code shape look factory me key) w1)
    as [[[x|e|] keys] w2]; simpl in HG2, Ex; try done.
  assert (entry_of w2 me key = Some entry) as He2 by (by apply (st_entry _ _ _ _ Ex)).
  pose proof (u_rooted_setEntry me key wasRead x entry w2 ltac:(by right) HG2) as HG3.
  assert (entry_of (setEntry key wasRead x entry w2).2 me key = Some entry) as He3.
  { unfold setEntry. by destruct (read_s w2 entry) as [[]|]. }
  destruct (setEntry key wasRead x entry w2) as [[[]|e|] w3]; simpl in HG3, He3; try done.
  unfold case_wasRead. simpl. apply u_rooted_push.
  destruct keys as [[|k ks]|]; try done.
  pose proof (u_wf_write_d entry (Some {| d_c := me; d_k := k :: ks; d_f := factory |}) w3
                (proj1 HG3)) as Hwf4.
  by apply (u_rooted_modify_own me key).
Qed.

Lemma u_rooted_case_hasValue me key entry w :
  me ≠ 0 → entry_of w me key = Some entry →
  Root.u_rooted w → Root.u_rooted (case_hasValue code shape look me key entry w).2.
Proof.
  intros Hne He HG. unfold case_hasValue.
  assert (∀ deps w', entry_of w' me key = Some entry → Root.u_rooted w' →
            Root.u_rooted
              (case_wasRead me key entry
                 (write_d entry deps
                    (write_v entry (read_v (write_s entry wasRead w') entry)
                       (write_s entry wasRead w')))).2) as Hshare.
  { intros deps w' He' HG'. unfold case_wasRead. simpl. apply u_rooted_push.
    pose proof (u_wf_write_svd entry wasRead (read_v (write_s entry wasRead w') entry) deps w'
                  (proj1 HG')) as Hwf'.
    rewrite write_svd in *. by apply (u_rooted_modify_own me key). }
  destruct (read_d w entry) as [deps|]; [|by apply Hshare].
  pose proof (u_rooted_exec me None (every look me (d_c deps) (d_k deps)) w
                (u_rooted_every _ _ _) HG) as HG1.
  pose proof (evolves_exec me None (every look me (d_c deps) (d_k deps)) w
                (ut_evolves_every look Hev _ _ _ _
                   (proj2 (wf_ambient _ _ _) (proj1 HG)))) as Ev.
  destruct (exec me None (every look me (d_c deps) (d_k deps)) w)
    as [[[[]|e|] keys] w1]; simpl in HG1, Ev; try done.
  - apply Hshare; [|done]. by apply (st_entry _ _ _ _ Ev).
  - assert (entry_of w1 me key = Some entry) as He1 by (by apply (st_entry _ _ _ _ Ev)).
    apply u_rooted_resolve; [done|done|].
    pose proof (u_wf_write_svd entry hasFactory (d_f deps) None w1 (proj1 HG1)) as Hwf'.
    rewrite write_svd in *. by apply (u_rooted_modify_own me key).
Qed.

Lemma u_rooted_state_machine me key entry w :
  me ≠ 0 → entry_of w me key = Some entry →
  Root.u_rooted w → Root.u_rooted (state_machine code shape look me key entry w).2.
Proof.
  intros Hne He HG. unfold state_machine. destruct (read_s w entry) as [[]|] eqn:Hs.
  - by apply u_rooted_push.
  - by apply u_rooted_resolve.
  - by apply u_rooted_case_hasValue.
  - by apply u_rooted_resolve.
  - set (e := VErr _ _ _). set (w0 := set_next (S (next w)) w).
    pose proof (u_rooted_setEntry me key hasError e entry w0 ltac:(by left)
                  (u_rooted_set_next _ _ HG)) as H.
    by destruct (setEntry key hasError e entry w0) as [[[]|e'|] w1].
  - done.
  - done.
Qed.

Lemma u_rooted_lookup me key w :
  Root.u_rooted w → Root.u_rooted (lookup code shape look me key w).2.
Proof.
  intros HG. unfold lookup. destruct (ctxs w !! me) as [reg|] eqn:Hr; [|done].
  destruct (prev reg) as [p|] eqn:Hp.
  - assert (me ≠ 0) as Hne by (apply (u_rooted_regular w); [done|by exists reg, p]).
    unfold bind. pose proof (u_rooted_entry_for me key w HG) as HG1.
    destruct (entry_for_spec me key w (proj1 HG)) as [_ Hb].
    destruct (entry_for me key w) as [[entry|e|] w1]; [|done..]. simpl in *.
    destruct (Hb entry eq_refl) as (_ & He & _).
    by apply u_rooted_state_machine.
  - unfold this. destruct (ctx w) as [c|]; [by apply Hlook|by apply u_rooted_set_next].
Qed.

End RootStep.

Lemma u_rooted_invoke code shape fuel me key w :
  Root.u_rooted w → Root.u_rooted (invoke code shape fuel me key w).2.
Proof.
  revert me key w. induction fuel as [|n IH]; intros me key w HG; [done|].
  simpl. apply u_rooted_lookup; [|done|done]. intros c k w0. apply ut_evolves_invoke.
Qed.

Lemma u_rooted_script code shape fuel p w :
  Root.u_rooted w → Root.u_rooted (script code shape fuel p w).2.
Proof. apply u_rooted_run. intros c k w0. apply u_rooted_invoke. Qed.

(** ** A value that is inherited as it is *)

Lemma u_inherits_value code shape n me key c w reg a :
  wf w → chain_ok w → regular w me →
  ctxs w !! me = Some reg → entries reg !! key = None →
  nearest (ctxs w) key (prev reg) (Some (c, a)) →
  read_s w a = Some wasRead ∨ read_s w a = Some hasValue → read_d w a = None →
  ∃ w', invoke code shape (S n) me key w = (Ok (read_v w a), w') ∧
        resolved w' me key (read_v w a) ∧
        (∀ c' k', (c', k') ≠ (me, key) → entry_of w' c' k' = entry_of w c' k') ∧
        (∀ b, b < length (heap w) → heap w' !! b = heap w !! b).
Proof.
  intros Hwf Hch Hreg Hr He Hn Hs Hd.
  destruct (entry_for_new me key reg w _ Hwf Hch Hr He Hn)
    as (b & w0 & Hb & Hge & Hlt & Hwf0 & Hent & Hoth & Hold & Hs0 & Hv0 & Hd0).
  assert (read_s w0 b = Some hasValue) as Hs0'
    by (rewrite Hs0; by destruct Hs as [-> | ->]).
  rewrite Hd in Hd0.
  destruct (entry_for_spec me key w Hwf) as [E0 _]. rewrite Hb in E0. simpl in E0.
  pose proof (ut_regular_stable _ _ w w0 me E0 Hreg) as Hreg0.
  pose proof (ut_lookup_plain_value code shape (invoke code shape n)
                me key b w0 Hreg0 Hent Hlt Hs0' Hd0) as Hl.
  assert (invoke code shape (S n) me key w
          = lookup code shape (invoke code shape n) me key w0) as Hsame.
  { simpl. unfold lookup. destruct Hreg as (r0 & p & Hr0 & Hp).
    destruct Hreg0 as (r1 & p1 & Hr1 & Hp1). rewrite Hr0, Hp, Hr1, Hp1.
    unfold bind. by rewrite Hb, (entry_for_present me key b w0 Hent). }
  rewrite Hl, Hv0 in Hsame.
  eexists. split; [exact Hsame|]. split; [|split].
  - by apply (ut_invoke_ok_resolved code shape (S n) me key w _ _ Hwf Hreg).
  - intros c' k' Hne. rewrite ut_entry_of_push. rewrite <- (Hoth c' k' Hne). done.
  - intros b' Hb'. destruct (Hold b' Hb') as [<- _].
    rewrite heap_push, write_svd. unfold modify. simpl.
    apply list_lookup_alter_ne. lia.
Qed.

(** ** A child that has overridden nothing shares the value *)

Lemma u_plain_origin me origin K w : Sharing.u_plain me origin K w → origin ≠ me.
Proof.
  intros (_ & Hch & (r & Hr & Hp) & _). specialize (Hch me r origin Hr Hp). lia.
Qed.

Lemma u_plain_same me origin K w w' :
  heap w' = heap w → ctxs w' = ctxs w → wf w' →
  Sharing.u_plain me origin K w → Sharing.u_plain me origin K w'.
Proof.
  intros Hh Hc Hwf' (Hwf & H). split; [done|].
  unfold chain_ok, regular, entry_of, resolved, read_d, entry_of in *.
  by rewrite Hh, Hc.
Qed.

(** The world after a step that kept the objects that were there and the
    entries of the keys of [K], but for keys that [me] has now read with
    the value of [origin]. *)
Lemma u_plain_step me origin K w w' :
  Sharing.u_plain me origin K w → evolves w w' →
  (∀ b, b < length (heap w) → heap w' !! b = heap w !! b) →
  (∀ k x, k ∈ K → resolved w origin k x →
          entry_of w' me k = entry_of w me k ∨ resolved w' me k x) →
  Sharing.u_plain me origin K w'.
Proof.
  intros (Hwf & Hch & (r & Hr & Hp) & Hro & HK) E Hpre Hme.
  split; [by apply (evolves_wf w)|]. split; [by apply (st_chain _ _ _ _ E)|].
  split; [|split].
  - destruct (st_prev _ _ _ _ E me r Hr) as (r' & Hr' & Hp'). exists r'.
    split; [done|congruence].
  - by apply (ut_regular_stable _ _ w w' origin E).
  - intros k Hk. destruct (HK k Hk) as (a & x & Ha & Hf & Hd & Hnan & Hmek).
    exists a, x. split; [by apply (st_entry _ _ _ _ E)|].
    split; [eapply kept_frozen; [|exact Hf]; apply (st_kept _ _ _ _ E), kept_refl|].
    split; [|split; [done|]].
    + destruct (reads_prefix w w' a Hwf Hpre (st_heap _ _ _ _ E) (frozen_lt _ _ _ Hf))
        as (_ & _ & ->). done.
    + destruct (Hme k x Hk ltac:(by exists a)) as [Hsame|Hres]; [|by right].
      rewrite Hsame. destruct Hmek as [?|Hres]; [by left|right].
      by apply (ut_resolved_stable w w').
Qed.

Lemma u_every_plain code shape n me origin K keys w :
  (∀ k, k ∈ keys → k ∈ K) → Sharing.u_plain me origin K w →
  ∃ w', every (invoke code shape (S n)) me origin keys w = (Ok true, w') ∧
        Sharing.u_plain me origin K w' ∧ evolves w w' ∧
        (∀ c' k', ¬ (c' = me ∧ k' ∈ keys) → entry_of w' c' k' = entry_of w c' k') ∧
        (∀ b, b < length (heap w) → heap w' !! b = heap w !! b) ∧
        (∀ k, k ∈ keys → ∃ x, resolved w origin k x ∧ resolved w' me k x).
Proof.
  revert w. induction keys as [|k keys IH]; intros w Hin HJ.
  { exists w. split; [done|]. split; [done|]. split; [apply evolves_refl|].
    split; [done|]. split; [done|]. intros k Hk. by apply elem_of_nil in Hk. }
  pose proof (u_plain_origin _ _ _ _ HJ) as Hne.
  pose proof HJ as (Hwf & Hch & (r & Hr & Hp) & Hro & HK).
  destruct (HK k (Hin k ltac:(by left))) as (a & x & Ha & Hf & Hd & Hnan & Hme).
  destruct (frozen_read w a x Hwf Hf) as [Hsa Hva].
  assert (regular w me) as Hregme by (by exists r, origin).
  assert (resolved w origin k x) as Hres0 by (by exists a).
  (* the lookup in [me] *)
  assert (∃ w1, invoke code shape (S n) me k w = (Ok x, w1) ∧
                resolved w1 me k x ∧
                (∀ c' k', (c', k') ≠ (me, k) → entry_of w1 c' k' = entry_of w c' k') ∧
                (∀ b, b < length (heap w) → heap w1 !! b = heap w !! b))
    as (w1 & H1 & Hme1 & Hoth1 & Hpre1).
  { destruct Hme as [Hnone|Hsome].
    - assert (entries r !! k = None) as Hnone'
        by (unfold entry_of in Hnone; by rewrite Hr in Hnone).
      assert (nearest (ctxs w) k (prev r) (Some (origin, a))) as Hn.
      { rewrite Hp. unfold entry_of in Ha. destruct (ctxs w !! origin) as [ro|] eqn:Ho; [|done].
        by eapply nearest_here. }
      destruct (u_inherits_value code shape n me k origin w r a Hwf Hch Hregme Hr Hnone' Hn
                  ltac:(by left) Hd) as (w1 & Ha1 & Hb1 & Hc1 & Hd1).
      rewrite Hva in Ha1, Hb1. by exists w1.
    - exists (push me k w). split; [|split; [|split]].
      + simpl. by apply ut_lookup_resolved.
      + by apply resolved_push.
      + intros c' k' _. by rewrite ut_entry_of_push.
      + intros b _. by rewrite heap_push. }
  pose proof (ut_evolves_invoke code shape (S n) me k w Hwf) as E1. rewrite H1 in E1.
  simpl in E1.
  assert (Sharing.u_plain me origin K w1) as HJ1.
  { apply (u_plain_step me origin K w w1 HJ E1 Hpre1). intros k' x' Hk' Hres'.
    destruct (decide (k' = k)) as [->|Hk].
    - right. destruct Hres' as (a' & Ha' & Hf'). rewrite Ha in Ha'. injection Ha' as <-.
      destruct (frozen_read w a x' Hwf Hf') as [_ Hx']. congruence.
    - left. apply Hoth1. congruence. }
  (* the lookup in [origin] *)
  pose proof (ut_resolved_stable w w1 origin k x E1 Hres0) as Hres1.
  assert (invoke code shape (S n) origin k w1 = (Ok x, push origin k w1)) as H2.
  { simpl. apply ut_lookup_resolved; [by destruct HJ1|by destruct HJ1 as (_ & _ & _ & ? & _)|done]. }
  assert (Sharing.u_plain me origin K (push origin k w1)) as HJ2.
  { apply (u_plain_same _ _ _ w1); [apply heap_push|apply ut_ctxs_push| |done].
    apply (st_wf _ _ _ _ (ut_stable_push [] (λ _ _, True) origin k w1)). by destruct HJ1. }
  destruct (IH (push origin k w1) ltac:(intros k' Hk'; apply Hin; by right) HJ2)
    as (w' & H3 & HJ' & E' & Hoth' & Hpre' & Hres').
  assert (evolves w w') as E.
  { eapply evolves_trans; [exact E1|]. eapply evolves_trans; [|exact E'].
    apply ut_stable_push. }
  exists w'. split; [|split; [done|split; [done|split; [|split]]]].
  - simpl. unfold bind. cbn [invoke] in H1, H2. rewrite H1, H2.
    rewrite strict_eq_refl by done. exact H3.
  - intros c' k' Hnot. rewrite Hoth'.
    + rewrite ut_entry_of_push. apply Hoth1. intros [= -> ->]. apply Hnot. split; [done|by left].
    + intros [-> Hk']. apply Hnot. split; [done|by right].
  - intros b Hb. rewrite Hpre'.
    + rewrite heap_push. by apply Hpre1.
    + rewrite heap_push. pose proof (st_heap _ _ _ _ E1). lia.
  - intros k0 Hk0. apply elem_of_cons in Hk0 as [->|Hk0].
    + exists x. split; [done|]. apply (ut_resolved_stable (push origin k w1) w' me k x E').
      by apply resolved_push.
    + destruct (Hres' k0 Hk0) as (x0 & Ha0 & Hb0). exists x0. split; [|done].
      destruct (HK k0 (Hin k0 ltac:(by right))) as (a0 & x0' & Ha0' & Hf0' & _).
      assert (resolved (push origin k w1) origin k0 x0') as Hr0'.
      { apply resolved_push. apply (ut_resolved_stable w w1 origin k0 x0' E1). by exists a0. }
      destruct Ha0 as (a1 & Ha1 & Hf1). destruct Hr0' as (a2 & Ha2 & Hf2).
      rewrite Ha1 in Ha2. injection Ha2 as <-.
      assert (wf (push origin k w1)) as Hwfp by (by destruct HJ2).
      destruct (frozen_read _ a1 x0 Hwfp Hf1) as [_ Hx1].
      destruct (frozen_read _ a1 x0' Hwfp Hf2) as [_ Hx2].
      assert (x0 = x0') as -> by congruence. by exists a0.
Qed.

Lemma u_shares code shape n me key origin w reg a x keys f :
  Sharing.u_plain me origin keys w →
  ctxs w !! me = Some reg → entries reg !! key = None →
  entry_of w origin key = Some a → frozen (heap w) a x →
  read_d w a = Some {| d_c := origin; d_k := keys; d_f := f |} →
  ∃ w', invoke code shape (S (S n)) me key w = (Ok x, w') ∧
        resolved w' me key x ∧
        (∀ c' k', c' ≠ me → entry_of w' c' k' = entry_of w c' k') ∧
        (∀ b, b < length (heap w) → heap w' !! b = heap w !! b) ∧
        (∀ k, k ∈ keys → ∃ xk, resolved w origin k xk ∧ resolved w' me k xk).
Proof.
  intros HJ Hr He Ha Hf Hd.
  pose proof (u_plain_origin _ _ _ _ HJ) as Hne.
  pose proof HJ as (Hwf & Hch & (r & Hr' & Hp) & Hro & HK).
  rewrite Hr in Hr'. injection Hr' as <-.
  assert (regular w me) as Hreg by (by exists reg, origin).
  destruct (frozen_read w a x Hwf Hf) as [Hsa Hva].
  assert (key ∉ keys) as Hkey.
  { intros Hin. destruct (HK key Hin) as (a' & x' & H1 & _ & H3 & _). congruence. }
  assert (nearest (ctxs w) key (prev reg) (Some (origin, a))) as Hn.
  { rewrite Hp. unfold entry_of in Ha. destruct (ctxs w !! origin) as [ro|] eqn:Ho; [|done].
    by eapply nearest_here. }
  destruct (entry_for_new me key reg w _ Hwf Hch Hr He Hn)
    as (b & wm & Hb & Hge & Hlt & Hwfm & Hent & Hoth & Hold & Hs0 & Hv0 & Hd0).
  rewrite Hsa in Hs0. simpl in Hs0. rewrite Hva in Hv0. rewrite Hd in Hd0.
  set (deps := {| d_c := origin; d_k := keys; d_f := f |}) in *.
  destruct (entry_for_spec me key w Hwf) as [E0 _]. rewrite Hb in E0. simpl in E0.
  assert (Sharing.u_plain me origin keys (set_ambient (Some me) None wm)) as HJa.
  { apply (u_plain_same _ _ _ wm); [done|done|by apply wf_ambient|].
    apply (u_plain_step me origin keys w wm HJ E0).
    - intros b' Hb'. by destruct (Hold b' Hb').
    - intros k' x' Hk' _. left. apply Hoth. intros [= ->]. done. }
  destruct (u_every_plain code shape n me origin keys keys _ ltac:(done) HJa)
    as (w1 & Hev & HJ1 & E1 & Hoth1 & Hpre1 & Hres1).
  assert (∃ seen, checked (invoke code shape (S n)) me (d_c deps) (d_k deps) Same seen
                    (set_ambient (Some me) None wm) w1) as [seen Hc]
    by (by apply ut_every_checked).
  assert (wf w1) as Hwf1 by (by destruct HJ1).
  assert (read_s w1 b = read_s wm b ∧ read_v w1 b = read_v wm b ∧ read_d w1 b = read_d wm b)
    as (Hs1 & Hv1 & Hd1).
  { apply (reads_prefix (set_ambient (Some me) None wm) w1 b); [by apply wf_ambient|done| |done].
    apply (st_heap _ _ _ _ E1). }
  pose proof (ut_smart_sharing code shape (S n) me key w b wm deps Same seen w1
                Hwf Hreg Hb Hs0 Hd0 Hc) as (H1 & H2 & H3 & H4).
  rewrite Hv1, Hv0 in H1, H2, H3, H4.
  set (w2 := set_ambient (ctx wm) (used wm) w1) in *.
  set (w3 := write_d b (Some deps) (write_v b x (write_s b wasRead w2))) in *.
  assert (entry_of w1 me key = Some b) as Hent1.
  { rewrite Hoth1 by (by intros [_ ?]). exact Hent. }
  assert (evolves w2 (push me key w3)) as E2.
  { eapply evolves_trans; [|apply ut_stable_push].
    apply stable_write_svd. intros y Hy.
    destruct (frozen_read w2 b y ltac:(by apply wf_ambient) Hy) as [Hsy _].
    change (read_s w1 b = Some wasRead) in Hsy. congruence. }
  exists (push me key w3). split; [exact H1|]. split; [|split; [|split]].
  - by apply (ut_invoke_ok_resolved code shape (S (S n)) me key w _ _ Hwf Hreg).
  - intros c' k' Hc'. rewrite ut_entry_of_push.
    change (entry_of w1 c' k' = entry_of w c' k').
    rewrite Hoth1 by (by intros [? _]).
    change (entry_of wm c' k' = entry_of w c' k'). apply Hoth. congruence.
  - intros b' Hb'. rewrite heap_push. unfold w3. rewrite write_svd. unfold modify. simpl.
    rewrite list_lookup_alter_ne by lia.
    rewrite Hpre1 by (simpl; pose proof (st_heap _ _ _ _ E0); lia).
    by destruct (Hold b' Hb').
  - intros k Hk. destruct (Hres1 k Hk) as (xk & Ho & Hm). exists xk. split.
    + destruct Ho as (ao & Hao & Hfo). destruct (HK k Hk) as (a' & x' & Ha' & Hf' & _).
      change (entry_of wm origin k = Some ao) in Hao.
      rewrite Hoth in Hao by congruence. rewrite Ha' in Hao. injection Hao as <-.
      exists a'. split; [done|].
      assert (x' = xk) as <-; [|done].
      destruct (frozen_read w a' x' Hwf Hf') as [_ <-].
      destruct (frozen_read (set_ambient (Some me) None wm) a' xk
                  ltac:(by apply wf_ambient) Hfo) as [_ <-].
      symmetry. by destruct (Hold a' (frozen_lt _ _ _ Hf')) as (_ & _ & ? & _).
    + apply (ut_resolved_stable w2 (push me key w3) me k xk E2). exact Hm.
Qed.

End UseThisMore.


(** * Further properties of the library, for both revisions *)

(** X1.  What a context has read, it returns for good.  Once the entry of
    [key] in [c] is read, with the value [x], then after any program of the
    client (lookups, [set], [def] and [fork] on any context, with whatever
    factories, whether it returns or throws), [c(key)] returns [x], the
    identical value, and changes nothing but the dependency log of a
    factory that runs in [c].  No write to an ancestor, a descendant or [c]
    itself changes the value.  In both revisions. *)
Theorem X1_resolved_for_good (code : nat → nat → nat → Prog) (shape : nat → KeyShape)
    (fuel : nat) (p : Prog) (n c key : nat) (x : Value) :
  (∀ w : T.World,
     T.regular w c → T.resolved w c key x →
     let w' := (T.script code shape fuel p w).2 in
     T.invoke code shape (S n) c key w' = (Ok x, T.push c key w'))
  ∧
  (∀ w : U.World,
     U.wf w → U.regular w c → U.resolved w c key x →
     let w' := (U.script code shape fuel p w).2 in
     U.invoke code shape (S n) c key w' = (Ok x, U.push c key w')).
Proof.
  split.
  - intros w Hreg Hres w'.
    pose proof (ToUseFacts.evolves_script code shape fuel p w) as E. fold w' in E.
    apply ToUseFacts.lookup_resolved.
    + by apply (ToUseFacts.regular_stable _ w w' c E).
    + by apply (ToUseFacts.resolved_stable w w').
  - intros w Hwf Hreg Hres w'.
    pose proof (UseThisFacts.ut_evolves_script code shape fuel p w Hwf) as E. fold w' in E.
    apply UseThisFacts.ut_lookup_resolved.
    + by apply (UseThisFacts.evolves_wf w).
    + by apply (UseThisFacts.ut_regular_stable _ _ w w' c E).
    + by apply (UseThisFacts.ut_resolved_stable w w').
Qed.

(** [c1(S2)], then [c2.set(S1, 3); c2(S2)]: [c1(S2)] is the instance it
    was. *)
Lemma X1_resolved_for_good_witness :
  (T.invoke Examples.code Examples.shape 1 1 6
     (T.script Examples.code Examples.shape 20 Scenarios.overriding
        (Examples.to_use Examples.shared)).2).1 = Ok (VObj 1) ∧
  (U.invoke Examples.code Examples.shape 1 1 6
     (U.script Examples.code Examples.shape 20 Scenarios.overriding
        (Examples.use_this Examples.shared)).2).1 = Ok (VObj 1).
Proof.
  pose proof (X1_resolved_for_good Examples.code Examples.shape 20 Scenarios.overriding
                0 1 6 (VObj 1)) as [A A'].
  split.
  - rewrite (A (Examples.to_use Examples.shared)); [done| |].
    + eexists _, _. vm_compute. split; reflexivity.
    + eexists. vm_compute. repeat split; reflexivity.
  - rewrite (A' (Examples.use_this Examples.shared)); [done|apply wf_use_this| |].
    + eexists _, _. vm_compute. split; reflexivity.
    + exists 1. split; [vm_compute; reflexivity|].
      eapply U.frozen_own; vm_compute; reflexivity.
Defined.

(** X2.  A key that was read cannot be configured any more.  Once a context
    [c] has resolved [key], then after any program of the client (lookups,
    [set], [def] and [fork] on any context, with any factories), both
    [c.set(key, y)] and [c.def(key, y)] throw a new [Error] "Already read:
    key" and change nothing else.  In both revisions. *)
Theorem X2_already_read (code : nat → nat → nat → Prog) (shape : nat → KeyShape)
    (fuel : nat) (p : Prog) (c key : nat) (x y : Value) :
  (∀ w : T.World,
     T.resolved w c key x →
     let w' := (T.script code shape fuel p w).2 in
     let thrown := (Thrown (VErr (T.next w') Error (AlreadyRead key)),
                    T.set_next (S (T.next w')) w') in
     T.set c key y w' = thrown ∧ T.def c key y w' = thrown)
  ∧
  (∀ w : U.World,
     U.wf w → U.resolved w c key x →
     let w' := (U.script code shape fuel p w).2 in
     let thrown := (Thrown (VErr (U.next w') Error (AlreadyRead key)),
                    U.set_next (S (U.next w')) w') in
     U.set c key y w' = thrown ∧ U.def c key y w' = thrown).
Proof.
  split.
  - intros w Hres w' thrown.
    pose proof (ToUseFacts.evolves_script code shape fuel p w) as E. fold w' in E.
    pose proof (ToUseFacts.resolved_stable w w' c key x E Hres) as Hres'.
    split; [by eapply ToUseFacts.set_resolved|by eapply ToUseFacts.def_resolved].
  - intros w Hwf Hres w' thrown.
    pose proof (UseThisFacts.ut_evolves_script code shape fuel p w Hwf) as E. fold w' in E.
    pose proof (UseThisFacts.ut_resolved_stable w w' c key x E Hres) as Hres'.
    pose proof (UseThisFacts.evolves_wf w w' E Hwf) as Hwf'.
    split; [by eapply UseThisFacts.ut_set_resolved|by eapply UseThisFacts.ut_def_resolved].
Qed.

(** [c1(S2)], then [c2.set(S1, 3); c2(S2)]: [c1.set(S2, 42)] throws. *)
Lemma X2_already_read_witness :
  (T.set 1 6 (VNum 42)
     (T.script Examples.code Examples.shape 20 Scenarios.overriding
        (Examples.to_use Examples.shared)).2).1
    = Thrown (VErr 3 Error (AlreadyRead 6)) ∧
  (U.def 1 6 (VNum 42)
     (U.script Examples.code Examples.shape 20 Scenarios.overriding
        (Examples.use_this Examples.shared)).2).1
    = Thrown (VErr 3 Error (AlreadyRead 6)).
Proof.
  pose proof (X2_already_read Examples.code Examples.shape 20 Scenarios.overriding
                1 6 (VObj 1) (VNum 42)) as [A A'].
  split.
  - destruct (A (Examples.to_use Examples.shared)) as [H _].
    + eexists. vm_compute. repeat split; reflexivity.
    + cbv zeta in H. rewrite H. vm_compute. reflexivity.
  - destruct (A' (Examples.use_this Examples.shared)) as [_ H].
    + apply wf_use_this.
    + exists 1. split; [vm_compute; reflexivity|].
      eapply U.frozen_own; vm_compute; reflexivity.
    + cbv zeta in H. rewrite H. vm_compute. reflexivity.
Defined.

(** X3.  A context can always configure a key that it holds no entry for,
    whatever its ancestors hold, read or not: [c.set(key, y)] returns [c],
    it touches no other entry of any registry (in [use-this.ts], no entry
    object that was there either), and the next [c(key)] returns [y].  In
    both revisions. *)
Theorem X3_override_in_child (code : nat → nat → nat → Prog) (shape : nat → KeyShape)
    (c key : nat) (y : Value) :
  (∀ (w : T.World) (r : T.Registry),
     T.ctxs w !! c = Some r → T.entries r !! key = None →
     ∃ w1, T.set c key y w = (Ok (VCtx c), w1) ∧
           (∀ c' k', (c', k') ≠ (c, key) → T.entry_of w1 c' k' = T.entry_of w c' k') ∧
           (T.regular w c → ∀ n, (T.invoke code shape (S n) c key w1).1 = Ok y))
  ∧
  (∀ (w : U.World) (r : U.Registry),
     U.wf w → U.chain_ok w → U.ctxs w !! c = Some r → U.entries r !! key = None →
     ∃ w1, U.set c key y w = (Ok (VCtx c), w1) ∧
           (∀ c' k', (c', k') ≠ (c, key) → U.entry_of w1 c' k' = U.entry_of w c' k') ∧
           (∀ a, a < length (U.heap w) → U.heap w1 !! a = U.heap w !! a) ∧
           (U.regular w c → ∀ n, (U.invoke code shape (S n) c key w1).1 = Ok y)).
Proof.
  split.
  - intros w r Hr He.
    assert (T.entry_of w c key = None) as Hnone by (unfold T.entry_of; by rewrite Hr).
    destruct (ToUseFacts.setEntry_ok c key T.hasValue y w r Hr) as (w1 & H & _ & Hoth & _).
    { intros e. by rewrite Hnone. }
    assert (T.set c key y w = (Ok (VCtx c), w1)) as Hset.
    { unfold T.set. rewrite (ToUseFacts.method_present c r) by done.
      unfold bind. by rewrite H. }
    exists w1. split; [done|]. split; [done|]. intros Hreg n.
    destruct (ToUseFacts.write_clears_deps code shape c key y w _ w1 Hset) as [_ Hn].
    by destruct (Hn Hreg n) as [-> _].
  - intros w r Hwf Hch Hr He.
    destruct (UseThisMore.u_nearest_prev w key c r Hch Hr) as [res Hres].
    destruct (UseThisFacts.entry_for_new c key r w res Hwf Hch Hr He Hres)
      as (b & w0 & Hb & Hge & Hlt & Hwf0 & Hent & Hoth & Hold & Hread).
    assert (U.read_s w0 b ≠ Some U.wasRead ∧ U.read_s w0 b ≠ None) as [Hs1 Hs2].
    { destruct res as [[c0 a]|].
      - destruct Hread as [-> _]. apply UseThisMore.inherited_state_unread.
      - by destruct Hread as [-> _]. }
    set (w1 := U.write_d b None (U.write_v b y (U.write_s b U.hasValue w0))).
    assert (U.set c key y w = (Ok (VCtx c), w1)) as Hset.
    { unfold U.set. rewrite (UseThisFacts.ut_method_present c r) by done.
      unfold bind. rewrite Hb. unfold U.setEntry.
      by destruct (U.read_s w0 b) as [[]|]. }
    exists w1. split; [done|]. split; [|split].
    + intros c' k' Hne. rewrite <- (Hoth c' k' Hne). done.
    + intros a Ha. destruct (Hold a Ha) as [<- _].
      unfold w1. rewrite UseThisFacts.write_svd. unfold U.modify. simpl.
      apply list_lookup_alter_ne. lia.
    + intros Hreg n.
      destruct (UseThisFacts.ut_write_clears_deps code shape c key y w _ w1 Hwf Hset)
        as (entry & _ & _ & _ & _ & Hn).
      by rewrite (Hn Hreg n).
Qed.

(** [c1(S2)] was read; [c2.set(S2, 9)] is accepted, and [c2(S2)] is 9. *)
Lemma X3_override_in_child_witness :
  (T.set 2 6 (VNum 9) (Examples.to_use Examples.shared)).1 = Ok (VCtx 2) ∧
  (T.invoke Examples.code Examples.shape 1 2 6
     (T.set 2 6 (VNum 9) (Examples.to_use Examples.shared)).2).1 = Ok (VNum 9) ∧
  (U.set 2 6 (VNum 9) (Examples.use_this Examples.shared)).1 = Ok (VCtx 2) ∧
  (U.invoke Examples.code Examples.shape 1 2 6
     (U.set 2 6 (VNum 9) (Examples.use_this Examples.shared)).2).1 = Ok (VNum 9).
Proof.
  pose proof (X3_override_in_child Examples.code Examples.shape 2 6 (VNum 9)) as [A A'].
  destruct (A (Examples.to_use Examples.shared) {| T.entries := ∅; T.prev := Some 1 |})
    as (w1 & H1 & _ & H2); [vm_compute; reflexivity..|].
  destruct (A' (Examples.use_this Examples.shared) {| U.entries := ∅; U.prev := Some 1 |})
    as (w1' & H1' & _ & _ & H2');
    [apply wf_use_this|apply chain_ok_use_this|vm_compute; reflexivity..|].
  rewrite H1, H1'. cbn [fst snd].
  split; [done|]. split; [apply H2; eexists _, _; vm_compute; split; reflexivity|].
  split; [done|]. apply H2'. eexists _, _. vm_compute. split; reflexivity.
Defined.

(** X4.  A context inherits the value of its nearest configured ancestor.
    When [me] holds no entry for [key] and the nearest ancestor that holds
    one has a value there, read or not, with no dependency record (a value
    that was [set], or one whose factory read no key), [me(key)] returns
    that value, identical, and [me] now holds it as read.  No factory runs,
    and no other entry of any registry changes: the entry of the ancestor
    stays as it was, so an ancestor that has not read the key can still
    configure it.  In both revisions. *)
Theorem X4_inherits_value (code : nat → nat → nat → Prog) (shape : nat → KeyShape)
    (n me key c : nat) :
  (∀ (w : T.World) (reg : T.Registry) (e : T.Entry),
     T.chain_ok w → T.regular w me →
     T.ctxs w !! me = Some reg → T.entries reg !! key = None →
     T.nearest (T.ctxs w) key (T.prev reg) (Some (c, e)) →
     T.e_s e = T.wasRead ∨ T.e_s e = T.hasValue → T.e_d e = None →
     ∃ w', T.invoke code shape (S n) me key w = (Ok (T.e_v e), w') ∧
           T.entry_of w' me key
             = Some {| T.e_s := T.wasRead; T.e_v := T.e_v e; T.e_d := None |} ∧
           (∀ c' k', (c', k') ≠ (me, key) → T.entry_of w' c' k' = T.entry_of w c' k'))
  ∧
  (∀ (w : U.World) (reg : U.Registry) (a : nat),
     U.wf w → U.chain_ok w → U.regular w me →
     U.ctxs w !! me = Some reg → U.entries reg !! key = None →
     U.nearest (U.ctxs w) key (U.prev reg) (Some (c, a)) →
     U.read_s w a = Some U.wasRead ∨ U.read_s w a = Some U.hasValue →
     U.read_d w a = None →
     ∃ w', U.invoke code shape (S n) me key w = (Ok (U.read_v w a), w') ∧
           U.resolved w' me key (U.read_v w a) ∧
           (∀ c' k', (c', k') ≠ (me, key) → U.entry_of w' c' k' = U.entry_of w c' k') ∧
           (∀ b, b < length (U.heap w) → U.heap w' !! b = U.heap w !! b)).
Proof.
  split.
  - intros w reg e Hch Hreg Hr He Hn Hs Hd.
    destruct (ToUseMore.t_inherits_value code shape (T.invoke code shape n) me key c w reg e
                Hch Hreg Hr He Hn Hs Hd) as (H1 & H2 & H3).
    eexists. split; [exact H1|]. by split.
  - intros w reg a. apply UseThisMore.u_inherits_value.
Qed.

(** [c1.set(1, 23)]: [c2(1)] is 23, and [c1] has still not read the key. *)
Lemma X4_inherits_value_witness :
  (T.invoke Examples.code Examples.shape 1 2 1 (Examples.to_use Scenarios.configured)).1
    = Ok (VNum 23) ∧
  (U.invoke Examples.code Examples.shape 1 2 1 (Examples.use_this Scenarios.configured)).1
    = Ok (VNum 23).
Proof.
  pose proof (X4_inherits_value Examples.code Examples.shape 0 2 1 1) as [A A'].
  split.
  - destruct (A (Examples.to_use Scenarios.configured)
                {| T.entries := ∅; T.prev := Some 1 |}
                {| T.e_s := T.hasValue; T.e_v := VNum 23; T.e_d := None |})
      as (w' & H & _).
    + apply chain_ok_to_use.
    + eexists _, _. vm_compute. split; reflexivity.
    + vm_compute. reflexivity.
    + vm_compute. reflexivity.
    + eapply T.nearest_here; vm_compute; reflexivity.
    + by right.
    + done.
    + by rewrite H.
  - destruct (A' (Examples.use_this Scenarios.configured)
                {| U.entries := ∅; U.prev := Some 1 |} 1)
      as (w' & H & _).
    + apply wf_use_this.
    + apply chain_ok_use_this.
    + eexists _, _. vm_compute. split; reflexivity.
    + vm_compute. reflexivity.
    + vm_compute. reflexivity.
    + eapply U.nearest_here; vm_compute; reflexivity.
    + right. vm_compute. reflexivity.
    + vm_compute. reflexivity.
    + rewrite H. vm_compute. reflexivity.
Defined.



(** X6.  What a lookup leaves in the module variables [ctx] and [used].
    Whatever the factories do, and whether the call [c(key)] returns or
    throws, the current context is afterwards the one it was: every [exec]
    has restored it.  The dependency log is the one it was, with this
    difference only: when the call returned, the context [t] that served it
    ([c], or the current context when [c] is the global one) has run the
    line [if (ctx === me && used) used.push(key)], once.  No key that a
    nested factory or a validation looked up is in the caller's log, and a
    call that threw has logged nothing.  In both revisions. *)
Theorem X6_log_of_a_lookup (code : nat → nat → nat → Prog) (shape : nat → KeyShape)
    (fuel c key : nat) :
  (∀ w : T.World,
     let r := T.invoke code shape fuel c key w in
     T.ctx r.2 = T.ctx w ∧
     match r.1 with
     | Ok _ => ∃ t, T.target w c = Some t ∧ T.used r.2 = T.used (T.push t key w)
     | Thrown _ => T.used r.2 = T.used w
     | Diverge => True
     end)
  ∧
  (∀ w : U.World,
     let r := U.invoke code shape fuel c key w in
     U.ctx r.2 = U.ctx w ∧
     match r.1 with
     | Ok _ => ∃ t, U.target w c = Some t ∧ U.used r.2 = U.used (U.push t key w)
     | Thrown _ => U.used r.2 = U.used w
     | Diverge => True
     end).
Proof.
  split; intros w r.
  - apply ToUseMore.t_log_invoke.
  - apply UseThisMore.u_log_invoke.
Qed.



(** X8.  The shape of every world that the library reaches.  Whatever
    program the client runs from the module as loaded, with whatever
    factories: the contexts form a tree under the global context (the
    registry of a context other than the global one has a [prev], which is
    a registry made before it, and the global registry has none), and at
    top level no context is current and no dependency log is active.  In
    [use-this.ts], besides, [wf] holds: the prototype of an entry object is
    an older object, so every prototype chain ends; an object without a
    state of its own has no payload of its own; every registry refers to
    objects of the heap, and no object is the entry of two keys or of two
    registries. *)
Theorem X8_reachable_worlds (code : nat → nat → nat → Prog) (shape : nat → KeyShape)
    (fuel : nat) (p : Prog) :
  (let w := (T.script code shape fuel p T.init).2 in
   T.chain_ok w ∧
   (∀ c r, T.ctxs w !! c = Some r → (T.prev r = None ↔ c = 0)) ∧
   T.ctx w = None ∧ T.used w = None)
  ∧
  (let w := (U.script code shape fuel p U.init).2 in
   U.wf w ∧ U.chain_ok w ∧
   (∀ c r, U.ctxs w !! c = Some r → (U.prev r = None ↔ c = 0)) ∧
   U.ctx w = None ∧ U.used w = None).
Proof.
  split; intros w.
  - pose proof (ToUseFacts.evolves_script code shape fuel p T.init) as E. fold w in E.
    pose proof (ToUseMore.t_rooted_script code shape fuel p T.init ToUseMore.t_rooted_init)
      as [(r0 & Hr0 & Hp0 & _) Hoth]. fold w in Hr0, Hoth.
    split; [|split; [|split]].
    + apply (T.st_chain _ _ _ E). intros [|[|c]] r q Hr Hq; simpl in Hr; [|done..].
      by injection Hr as <-.
    + intros c r Hr. split.
      * intros Hp. destruct (decide (c = 0)) as [->|Hne]; [done|].
        destruct (Hoth c r Hr Hne) as [q Hq]. congruence.
      * intros ->. congruence.
    + by rewrite (T.st_ctx _ _ _ E).
    + exact (T.st_used _ _ _ E).
  - pose proof (UseThisFacts.ut_evolves_script code shape fuel p U.init UseThisFacts.wf_init)
      as E. fold w in E.
    assert (U.wf w) as Hwf by (apply (UseThisFacts.evolves_wf _ _ E), UseThisFacts.wf_init).
    split; [done|]. split; [|split; [|split]].
    + apply (U.st_chain _ _ _ _ E). intros [|[|c]] r q Hr Hq; simpl in Hr; [|done..].
      by injection Hr as <-.
    + intros c r Hr. destruct (U.wf_rooted _ Hwf) as [(r0 & Hr0 & Hp0) Hoth]. split.
      * intros Hp. destruct (decide (c = 0)) as [->|Hne]; [done|].
        destruct (Hoth c r Hr Hne) as [q Hq]. congruence.
      * intros ->. congruence.
    + by rewrite (U.st_ctx _ _ _ _ E).
    + exact (U.st_used _ _ _ _ E).
Qed.

(** X9.  The global context can always be configured.  No lookup reads an
    entry of the global registry: a call of the global context is a call of
    the current one, and a context that inherits an entry of the global
    registry works on an entry of its own.  So, after any program of the
    client, from the module as loaded and with whatever factories,
    [use.set(key, y)] and [use.def(key, y)] return [use]: they never throw
    "Already read".  In both revisions. *)
Theorem X9_global_config_accepted (code : nat → nat → nat → Prog) (shape : nat → KeyShape)
    (fuel : nat) (p : Prog) (key : nat) (y : Value) :
  (let w := (T.script code shape fuel p T.init).2 in
   (T.set 0 key y w).1 = Ok (VCtx 0) ∧ (T.def 0 key y w).1 = Ok (VCtx 0))
  ∧
  (let w := (U.script code shape fuel p U.init).2 in
   (U.set 0 key y w).1 = Ok (VCtx 0) ∧ (U.def 0 key y w).1 = Ok (VCtx 0)).
Proof.
  split; intros w.
  - pose proof (ToUseMore.t_rooted_script code shape fuel p T.init ToUseMore.t_rooted_init)
      as [(r0 & Hr0 & Hp0 & Hu) _]. fold w in Hr0.
    destruct (ToUseFacts.write_before_read 0 key y w r0 Hr0) as [(w1 & -> & _) (w2 & -> & _)];
      [|done].
    intros e He. unfold T.entry_of in He. rewrite Hr0 in He. by apply (Hu key e).
  - pose proof (UseThisFacts.ut_evolves_script code shape fuel p U.init UseThisFacts.wf_init)
      as E. fold w in E.
    pose proof (UseThisMore.u_rooted_script code shape fuel p U.init UseThisMore.u_rooted_init)
      as [Hwf (r0 & Hr0 & Hp0 & Hu)]. fold w in Hwf, Hr0, Hu.
    assert (U.chain_ok w) as Hch.
    { apply (U.st_chain _ _ _ _ E). intros [|[|c]] r q Hr Hq; simpl in Hr; [|done..].
      by injection Hr as <-. }
    assert (∃ b w0, U.entry_for 0 key w = (Ok b, w0) ∧
                    U.read_s w0 b ≠ Some U.wasRead ∧ U.read_s w0 b ≠ None)
      as (b & w0 & Hb & Hs1 & Hs2).
    { destruct (U.entries r0 !! key) as [a|] eqn:Ha.
      - exists a, w. split.
        + apply UseThisFacts.entry_for_present. unfold U.entry_of. by rewrite Hr0.
        + destruct (Hu key a Ha) as (o & s & Ho & Hs & Hne).
          assert (U.read_s w a = Some s) as ->; [|split; congruence].
          unfold U.read_s. pose proof (lookup_lt_Some _ _ _ Ho) as Hlt.
          destruct (length (U.heap w)) as [|n]; [lia|]. simpl. by rewrite Ho, Hs.
      - destruct (UseThisFacts.entry_for_new 0 key r0 w None Hwf Hch Hr0 Ha)
          as (b & w0 & Hb & _ & _ & _ & _ & _ & _ & Hs & _).
        { rewrite Hp0. constructor. }
        exists b, w0. split; [done|]. by rewrite Hs. }
    unfold U.set, U.def. rewrite !(UseThisFacts.ut_method_present 0 r0) by done.
    unfold bind. rewrite Hb. unfold U.setEntry.
    by destruct (U.read_s w0 b) as [[]|].
Qed.

(** X10.  [set] and [def] write to one entry.  Whether [c.set(key, y)] or
    [c.def(key, y)] returns or throws, every entry of every registry other
    than the entry of [key] in [c] is afterwards what it was, no context is
    made, and the module variables [ctx] and [used] are what they were.  In
    [use-this.ts], where [getEntry] makes new entry objects, every object
    that was there is as it was, except the one that [c] held for [key]. *)
Theorem X10_writes_are_local (code : nat → nat → nat → Prog) (shape : nat → KeyShape)
    (c key : nat) (y : Value) :
  (∀ (w : T.World) (m : nat → nat → Value → M T.World Value),
     m = T.set ∨ m = T.def →
     let w1 := (m c key y w).2 in
     (∀ c' k', (c', k') ≠ (c, key) → T.entry_of w1 c' k' = T.entry_of w c' k') ∧
     length (T.ctxs w1) = length (T.ctxs w) ∧
     T.ctx w1 = T.ctx w ∧ T.used w1 = T.used w)
  ∧
  (∀ (w : U.World) (m : nat → nat → Value → M U.World Value),
     m = U.set ∨ m = U.def → U.wf w → U.chain_ok w →
     let w1 := (m c key y w).2 in
     (∀ c' k', (c', k') ≠ (c, key) → U.entry_of w1 c' k' = U.entry_of w c' k') ∧
     (∀ a, a < length (U.heap w) → U.entry_of w c key ≠ Some a →
           U.heap w1 !! a = U.heap w !! a) ∧
     length (U.ctxs w1) = length (U.ctxs w) ∧
     U.ctx w1 = U.ctx w ∧ U.used w1 = U.used w).
Proof.
  split.
  - intros w m Hm w1.
    assert (∃ s, w1 = (T.method c (let* _ := T.setEntry c key s y in ret (VCtx c)) w).2)
      as [s ->] by (destruct Hm as [-> | ->]; by eexists).
    unfold T.method. destruct (T.ctxs w !! c) as [r|] eqn:Hr; [|done].
    unfold bind.
    destruct (ToUseMore.t_ambient_setEntry c key s y w) as [Hc Hu].
    assert ((∀ c' k', (c', k') ≠ (c, key) →
               T.entry_of (T.setEntry c key s y w).2 c' k' = T.entry_of w c' k') ∧
            length (T.ctxs (T.setEntry c key s y w).2) = length (T.ctxs w)) as [H1 H2].
    { unfold T.setEntry. destruct (T.entry_of w c key) as [e|].
      - destruct (T.e_s e); simpl; (split; [|by rewrite ?length_alter]); intros c' k' Hne;
          try done; by apply ToUseFacts.entry_of_update_ne.
      - simpl. split; [|by rewrite length_alter]. intros c' k' Hne.
        rewrite ToUseFacts.entry_of_store, decide_False; [done|]. intros [-> ->]. done. }
    by destruct (T.setEntry c key s y w) as [[[]|e|] w2].
  - intros w m Hm Hwf Hch w1.
    assert (∃ s, w1 = (U.method c (let* entry := U.entry_for c key in
                                   let* _ := U.setEntry key s y entry in ret (VCtx c)) w).2)
      as [s ->] by (destruct Hm as [-> | ->]; by eexists).
    unfold U.method. destruct (U.ctxs w !! c) as [r|] eqn:Hr; [|done].
    unfold bind.
    assert (∃ b w0, U.entry_for c key w = (Ok b, w0) ∧
              (∀ c' k', (c', k') ≠ (c, key) → U.entry_of w0 c' k' = U.entry_of w c' k') ∧
              (∀ a, a < length (U.heap w) → U.heap w0 !! a = U.heap w !! a) ∧
              (∀ a, a < length (U.heap w) → U.entry_of w c key ≠ Some a → a ≠ b) ∧
              length (U.ctxs w0) = length (U.ctxs w) ∧
              U.ctx w0 = U.ctx w ∧ U.used w0 = U.used w)
      as (b & w0 & Hb & H1 & H2 & H3 & H4 & H5 & H6).
    { destruct (U.entries r !! key) as [a|] eqn:Ha.
      - exists a, w. assert (U.entry_of w c key = Some a) as He
          by (unfold U.entry_of; by rewrite Hr).
        split; [by apply UseThisFacts.entry_for_present|]. repeat split; try done.
        intros a' _ Hne. congruence.
      - destruct (UseThisMore.u_nearest_prev w key c r Hch Hr) as [res Hres].
        destruct (UseThisFacts.entry_for_new c key r w res Hwf Hch Hr Ha Hres)
          as (b & w0 & Hb & Hge & _ & _ & _ & Hoth & Hold & _).
        exists b, w0. split; [done|]. split; [done|].
        split; [intros a Hlt; by destruct (Hold a Hlt)|].
        split; [intros a Hlt _; lia|].
        destruct (UseThisMore.u_getEntry_ambient (S (length (U.ctxs w))) c key c w)
          as (Hc & Hu & _).
        unfold U.entry_for in Hb. rewrite Hb in Hc, Hu. simpl in Hc, Hu.
        split; [|done].
        pose proof (UseThisMore.u_getEntry_length (S (length (U.ctxs w))) c key c w) as Hl.
        by rewrite Hb in Hl. }
    assert (∀ w2, (U.heap w2 = U.heap w0 ∨ ∃ f, U.heap w2 = alter f b (U.heap w0)) →
              U.ctxs w2 = U.ctxs w0 → U.ctx w2 = U.ctx w0 → U.used w2 = U.used w0 →
              (∀ c' k', (c', k') ≠ (c, key) → U.entry_of w2 c' k' = U.entry_of w c' k') ∧
              (∀ a, a < length (U.heap w) → U.entry_of w c key ≠ Some a →
                    U.heap w2 !! a = U.heap w !! a) ∧
              length (U.ctxs w2) = length (U.ctxs w) ∧
              U.ctx w2 = U.ctx w ∧ U.used w2 = U.used w) as Hfin.
    { intros w2 Hh Hcs Hc Hu. split; [|split; [|split; [|split]]].
      - intros c' k' Hne. rewrite <- (H1 c' k' Hne). unfold U.entry_of. by rewrite Hcs.
      - intros a Hlt Hne. rewrite <- (H2 a Hlt). destruct Hh as [-> | [f ->]]; [done|].
        apply list_lookup_alter_ne. intros ->. by apply (H3 a Hlt Hne).
      - by rewrite Hcs.
      - congruence.
      - congruence. }
    rewrite Hb. unfold U.setEntry.
    destruct (U.read_s w0 b) as [[]|]; unfold U.new_error, ret; cbn [fst snd];
      try (apply Hfin; [by left|done..]);
      (rewrite UseThisFacts.write_svd; apply Hfin; [right; by eexists|done..]).
Qed.

(** [c2.set(S2, 9)] after [c1(S2)]: the entry of [S2] in [c1] and its object
    are as they were. *)
Lemma X10_writes_are_local_witness :
  T.entry_of (T.set 2 6 (VNum 9) (Examples.to_use Examples.shared)).2 1 6
    = T.entry_of (Examples.to_use Examples.shared) 1 6 ∧
  U.entry_of (U.def 2 6 (VFun 2) (Examples.use_this Examples.shared)).2 1 6
    = U.entry_of (Examples.use_this Examples.shared) 1 6 ∧
  U.heap (U.def 2 6 (VFun 2) (Examples.use_this Examples.shared)).2 !! 1
    = U.heap (Examples.use_this Examples.shared) !! 1.
Proof.
  pose proof (X10_writes_are_local Examples.code Examples.shape 2 6 (VNum 9)) as [A _].
  pose proof (X10_writes_are_local Examples.code Examples.shape 2 6 (VFun 2)) as [_ A'].
  destruct (A (Examples.to_use Examples.shared) T.set ltac:(by left)) as [H _].
  destruct (A' (Examples.use_this Examples.shared) U.def ltac:(by right)
              (wf_use_this _) (chain_ok_use_this _)) as (H1 & H2 & _).
  split; [by apply H|]. split; [by apply H1|].
  apply H2; [vm_compute; lia|vm_compute; done].
Defined.

(** X11.  What a lookup returns is what the context has read.  When
    [c(key)] returns [x], the entry of [key] in [c] is [wasRead] with [x] as
    its payload (in [use-this.ts]: it reads [wasRead] and [x]), whatever
    path the lookup took: an entry that was read before, an inherited value
    that was shared, or a factory that ran.  In both revisions. *)
Theorem X11_returned_is_read (code : nat → nat → nat → Prog) (shape : nat → KeyShape)
    (n c key : nat) (x : Value) :
  (∀ w w' : T.World,
     T.regular w c → T.invoke code shape n c key w = (Ok x, w') → T.resolved w' c key x)
  ∧
  (∀ w w' : U.World,
     U.wf w → U.regular w c → U.invoke code shape n c key w = (Ok x, w') →
     U.resolved w' c key x).
Proof.
  split.
  - intros w w'. apply ToUseFacts.invoke_ok_resolved.
  - intros w w'. apply UseThisFacts.ut_invoke_ok_resolved.
Qed.

(** [c2(S2)] after [c1(S2)]: the shared instance is read in [c2]. *)
Lemma X11_returned_is_read_witness :
  T.resolved (T.invoke Examples.code Examples.shape 11 2 6
                (Examples.to_use Examples.shared)).2 2 6 (VObj 1) ∧
  U.resolved (U.invoke Examples.code Examples.shape 11 2 6
                (Examples.use_this Examples.shared)).2 2 6 (VObj 1).
Proof.
  pose proof (X11_returned_is_read Examples.code Examples.shape 11 2 6 (VObj 1)) as [A A'].
  split.
  - apply (A (Examples.to_use Examples.shared)).
    + eexists _, _. vm_compute. split; reflexivity.
    + vm_compute. reflexivity.
  - apply (A' (Examples.use_this Examples.shared)).
    + apply wf_use_this.
    + eexists _, _. vm_compute. split; reflexivity.
    + vm_compute. reflexivity.
Defined.

(** X12.  A stored error is inherited.  When [me] holds no entry for [key]
    and the nearest ancestor that holds one has a stored error there (state
    [hasError]), [me(key)] throws that error, the same object; no factory
    runs in [me], and no other entry of any registry changes.  In
    [to-use.ts] the entry that [me] now holds is a copy of the ancestor's;
    in [use-this.ts] it is a new object that reads [hasError] and the error
    through its prototype, and the objects that were there are as they
    were. *)
Theorem X12_inherits_error (code : nat → nat → nat → Prog) (shape : nat → KeyShape)
    (n me key c : nat) :
  (∀ (w : T.World) (reg : T.Registry) (e : T.Entry),
     T.chain_ok w → T.regular w me →
     T.ctxs w !! me = Some reg → T.entries reg !! key = None →
     T.nearest (T.ctxs w) key (T.prev reg) (Some (c, e)) → T.e_s e = T.hasError →
     T.invoke code shape (S n) me key w = (Thrown (T.e_v e), T.materialize me key w) ∧
     T.entry_of (T.materialize me key w) me key = Some e ∧
     (∀ c' k', (c', k') ≠ (me, key) →
        T.entry_of (T.materialize me key w) c' k' = T.entry_of w c' k'))
  ∧
  (∀ (w : U.World) (reg : U.Registry) (a : nat),
     U.wf w → U.chain_ok w → U.regular w me →
     U.ctxs w !! me = Some reg → U.entries reg !! key = None →
     U.nearest (U.ctxs w) key (U.prev reg) (Some (c, a)) →
     U.read_s w a = Some U.hasError →
     ∃ w' b, U.invoke code shape (S n) me key w = (Thrown (U.read_v w a), w') ∧
             U.entry_of w' me key = Some b ∧ U.read_s w' b = Some U.hasError ∧
             U.read_v w' b = U.read_v w a ∧
             (∀ c' k', (c', k') ≠ (me, key) → U.entry_of w' c' k' = U.entry_of w c' k') ∧
             (∀ b', b' < length (U.heap w) → U.heap w' !! b' = U.heap w !! b')).
Proof.
  split.
  - intros w reg e Hch Hreg Hr He Hn Hs.
    destruct (ToUseFacts.materialize_spec me key w reg _ Hch Hr He Hn) as (Hm & Hoth & _).
    assert (T.spread e = e) as Hsp by (destruct e as [s v d]; simpl in *; by subst).
    rewrite Hsp in Hm. split; [|by split].
    simpl. unfold T.lookup. destruct Hreg as (r0 & p & Hr0 & Hp). rewrite Hr0, Hp.
    unfold T.state_machine. by rewrite Hm, Hs.
  - intros w reg a Hwf Hch Hreg Hr He Hn Hs.
    destruct (UseThisFacts.entry_for_new me key reg w _ Hwf Hch Hr He Hn)
      as (b & w0 & Hb & Hge & Hlt & Hwf0 & Hent & Hoth & Hold & Hs0 & Hv0 & Hd0).
    rewrite Hs in Hs0. simpl in Hs0.
    exists w0, b. split; [|split; [done|split; [done|split; [done|split; [done|]]]]].
    + simpl. unfold U.lookup. destruct Hreg as (r0 & p & Hr0 & Hp). rewrite Hr0, Hp.
      unfold bind. rewrite Hb. unfold U.state_machine. by rewrite Hs0, Hv0.
    + intros b' Hb'. by destruct (Hold b' Hb').
Qed.

(** [c1(1)] ran into a cycle; [c2(1)] throws the error that [c1] stored. *)
Lemma X12_inherits_error_witness :
  (T.invoke Examples.code Examples.shape 1 2 1 (Examples.to_use Scenarios.cycled)).1
    = Thrown (VErr 0 Error (DidntResolve (ShownFun 0) 1)) ∧
  (U.invoke Examples.code Examples.shape 1 2 1 (Examples.use_this Scenarios.cycled)).1
    = Thrown (VErr 0 Error (DidntResolve (ShownFun 0) 1)).
Proof.
  pose proof (X12_inherits_error Examples.code Examples.shape 0 2 1 1) as [A A'].
  split.
  - destruct (A (Examples.to_use Scenarios.cycled)
                {| T.entries := ∅; T.prev := Some 1 |}
                {| T.e_s := T.hasError;
                   T.e_v := VErr 0 Error (DidntResolve (ShownFun 0) 1); T.e_d := None |})
      as (H & _).
    + apply chain_ok_to_use.
    + eexists _, _. vm_compute. split; reflexivity.
    + vm_compute. reflexivity.
    + vm_compute. reflexivity.
    + eapply T.nearest_here; vm_compute; reflexivity.
    + done.
    + by rewrite H.
  - destruct (A' (Examples.use_this Scenarios.cycled)
                {| U.entries := ∅; U.prev := Some 1 |} 1)
      as (w' & b & H & _).
    + apply wf_use_this.
    + apply chain_ok_use_this.
    + eexists _, _. vm_compute. split; reflexivity.
    + vm_compute. reflexivity.
    + vm_compute. reflexivity.
    + eapply U.nearest_here; vm_compute; reflexivity.
    + vm_compute. reflexivity.
    + rewrite H. vm_compute. reflexivity.
Defined.

(** X13.  The result of a factory is stored with what it depended on.  When
    the factory of the entry of [key] in [me] has run and returned [x],
    having logged the keys [keys], and the entry was not read meanwhile,
    [me(key)] returns [x] and the entry is [wasRead] with [x]; its
    dependency record is [{c: me, f: factory, k: keys}] when [keys] is not
    empty, and none when the factory looked up no key.  In [use-this.ts] the
    same holds for the default factory of an entry that was [isUnset]. *)
Theorem X13_result_is_stored (code : nat → nat → nat → Prog) (shape : nat → KeyShape)
    (n me key : nat) (x : Value) (keys : option (list nat)) :
  (∀ (w w2 : T.World) (e : T.Entry),
     T.regular w me →
     T.entry_of (T.materialize me key w) me key = Some e → T.e_s e = T.hasFactory →
     T.exec me (Some []) (T.call code shape (T.invoke code shape n) (T.e_v e) me key)
            (T.update me key (T.with_s T.isCreating) (T.materialize me key w))
       = (Ok x, keys, w2) →
     (∀ e2, T.entry_of w2 me key = Some e2 → T.e_s e2 ≠ T.wasRead) →
     ∃ w', T.invoke code shape (S n) me key w = (Ok x, w') ∧
           T.entry_of w' me key
             = Some {| T.e_s := T.wasRead; T.e_v := x;
                       T.e_d := match keys with
                                | Some ((_ :: _) as ks) =>
                                    Some {| T.d_c := me; T.d_k := ks; T.d_f := T.e_v e |}
                                | _ => None
                                end |})
  ∧
  (∀ (w wm w2 : U.World) (entry : nat) (factory : Value),
     U.wf w → U.regular w me → U.entry_for me key w = (Ok entry, wm) →
     (U.read_s wm entry = Some U.hasFactory ∧ factory = U.read_v wm entry
      ∨ U.read_s wm entry = Some U.isUnset ∧ factory = VDefault) →
     U.exec me (Some []) (U.call code shape (U.invoke code shape n) factory me key)
            (U.write_v entry factory (U.write_s entry U.isCreating wm))
       = (Ok x, keys, w2) →
     (∃ s, U.read_s w2 entry = Some s ∧ s ≠ U.wasRead) →
     ∃ w', U.invoke code shape (S n) me key w = (Ok x, w') ∧
           U.entry_of w' me key = Some entry ∧
           U.read_s w' entry = Some U.wasRead ∧ U.read_v w' entry = x ∧
           U.read_d w' entry
             = match keys with
               | Some ((_ :: _) as ks) => Some {| U.d_c := me; U.d_k := ks; U.d_f := factory |}
               | _ => None
               end).
Proof.
  split.
  - intros w w2 e Hreg He Hs Hx Hne.
    assert (T.regular w2 me) as (r2 & p2 & Hr2 & _).
    { pose proof (ToUseFacts.stable_exec (λ _ _, True) me (Some [])
                    (T.call code shape (T.invoke code shape n) (T.e_v e) me key)
                    (T.update me key (T.with_s T.isCreating) (T.materialize me key w))) as H.
      rewrite Hx in H. eapply ToUseFacts.regular_stable.
      - apply H. apply ToUseFacts.evolves_call. intros c k w'. apply ToUseFacts.evolves_invoke.
      - eapply (ToUseFacts.regular_stable (T.others me key));
          [apply ToUseFacts.stable_update_own|].
        eapply ToUseFacts.regular_stable;
          [apply (ToUseFacts.stable_materialize (λ _ _, True))|done]. }
    set (d := match keys with
              | Some ((_ :: _) as ks) => Some {| T.d_c := me; T.d_k := ks; T.d_f := T.e_v e |}
              | _ => None
              end).
    assert (∃ w3, T.setEntry me key T.wasRead x w2 = (Ok tt, w3) ∧
                  T.entry_of w3 me key
                    = Some {| T.e_s := T.wasRead; T.e_v := x; T.e_d := None |})
      as (w3 & H3 & He3).
    { destruct (ToUseFacts.setEntry_ok me key T.wasRead x w2 r2 Hr2 Hne) as (w3 & H & H' & _).
      by exists w3. }
    set (w4 := match keys with
               | Some ((_ :: _) as ks) =>
                   T.update me key
                     (T.with_d (Some {| T.d_c := me; T.d_k := ks; T.d_f := T.e_v e |})) w3
               | _ => w3
               end).
    assert (T.entry_of w4 me key = Some {| T.e_s := T.wasRead; T.e_v := x; T.e_d := d |})
      as He4.
    { unfold w4, d. destruct keys as [[|k ks]|]; try done.
      by rewrite ToUseFacts.entry_of_update_eq, He3. }
    exists (T.push me key w4). split.
    + simpl. unfold T.lookup. destruct Hreg as (r & p & Hr & Hp). rewrite Hr, Hp.
      unfold T.state_machine. rewrite He, Hs. unfold T.case_hasFactory.
      rewrite ToUseFacts.entry_of_update_eq, He.
      change (T.with_s T.isCreating <$> Some e) with (Some (T.with_s T.isCreating e)).
      cbv beta iota zeta. change (T.e_v (T.with_s T.isCreating e)) with (T.e_v e).
      rewrite Hx. cbv beta iota zeta. rewrite H3. cbv beta iota zeta.
      change (T.case_wasRead me key w4 = (Ok x, T.push me key w4)).
      unfold T.case_wasRead. by rewrite He4.
    + by rewrite ToUseFacts.entry_of_push.
  - intros w wm w2 entry factory Hwf Hreg He Hcase Hx (s & Hs2 & Hne).
    destruct (UseThisFacts.entry_for_spec me key w Hwf) as [E0 Hb]. rewrite He in E0, Hb.
    simpl in E0, Hb. destruct (Hb entry eq_refl) as (Hlt & Hent & _).
    assert (U.wf wm) as Hwfm by (by apply (UseThisFacts.evolves_wf w)).
    set (w1 := U.write_v entry factory (U.write_s entry U.isCreating wm)) in *.
    assert (U.wf w1) as Hwf1 by (by apply UseThisMore.u_wf_write_sv).
    pose proof (UseThisFacts.evolves_exec me (Some [])
                  (U.call code shape (U.invoke code shape n) factory me key) w1
                  (UseThisFacts.ut_evolves_call code shape (U.invoke code shape n)
                     ltac:(intros c0 k0 w0; apply UseThisFacts.ut_evolves_invoke) _ _ _ _
                     (proj2 (UseThisFacts.wf_ambient _ _ _) Hwf1))) as Ex.
    rewrite Hx in Ex. simpl in Ex.
    assert (entry < length (U.heap w2)) as Hlt2.
    { pose proof (U.st_heap _ _ _ _ Ex) as Hh.
      assert (length (U.heap w1) = length (U.heap wm)) as Hl1
        by (unfold w1; rewrite UseThisFacts.write_sv; simpl; by rewrite length_alter).
      lia. }
    assert (U.entry_of w2 me key = Some entry) as Hent2 by (by apply (U.st_entry _ _ _ _ Ex)).
    set (w3 := U.write_d entry None (U.write_v entry x (U.write_s entry U.wasRead w2))).
    set (d := match keys with
              | Some ((_ :: _) as ks) => Some {| U.d_c := me; U.d_k := ks; U.d_f := factory |}
              | _ => None
              end).
    set (w4 := match keys with
               | Some ((_ :: _) as ks) =>
                   U.write_d entry
                     (Some {| U.d_c := me; U.d_k := ks; U.d_f := factory |}) w3
               | _ => w3
               end).
    assert (entry < length (U.heap w3)) as Hlt3
      by (unfold w3; rewrite UseThisFacts.write_svd; simpl; by rewrite length_alter).
    assert (U.read_s w3 entry = Some U.wasRead ∧ U.read_v w3 entry = x ∧
            U.read_d w3 entry = None) as (Hs3 & Hv3 & Hd3).
    { unfold w3. rewrite UseThisFacts.write_svd.
      split; [by apply UseThisFacts.read_s_own|].
      split; [by apply UseThisFacts.read_v_own|by apply UseThisFacts.read_d_own]. }
    assert (U.read_s w4 entry = Some U.wasRead ∧ U.read_v w4 entry = x ∧
            U.read_d w4 entry = d) as (Hs4 & Hv4 & Hd4).
    { unfold w4, d. destruct keys as [[|k ks]|]; try done.
      rewrite UseThisFacts.read_s_write_d, UseThisFacts.read_v_write_d.
      split; [done|]. split; [done|].
      by apply (UseThisFacts.read_d_own entry
                  (λ o, {| U.o_s := U.o_s o; U.o_v := U.o_v o;
                           U.o_d := Some (Some {| U.d_c := me; U.d_k := k :: ks;
                                                  U.d_f := factory |});
                           U.proto := U.proto o |})). }
    assert (U.resolve code shape (U.invoke code shape n) me key entry factory wm
            = (Ok x, U.push me key w4)) as Hres.
    { unfold U.resolve. fold w1. rewrite Hx. unfold U.setEntry. rewrite Hs2.
      assert (∀ (A : Type) (a b : A),
                match s with U.wasRead => a | _ => b end = b) as Hmatch
        by (intros A a b; by destruct s).
      rewrite Hmatch. fold w3. cbv beta iota. fold w4.
      unfold U.case_wasRead. by rewrite Hv4. }
    exists (U.push me key w4). split; [|split; [|split; [|split]]].
    + simpl. unfold U.lookup. destruct Hreg as (r & p & Hr & Hp). rewrite Hr, Hp.
      unfold bind. rewrite He. unfold U.state_machine.
      destruct Hcase as [[-> ->]|[-> ->]]; exact Hres.
    + rewrite UseThisFacts.ut_entry_of_push. unfold w4.
      destruct keys as [[|k ks]|]; exact Hent2.
    + unfold U.read_s. rewrite UseThisFacts.heap_push. exact Hs4.
    + unfold U.read_v. rewrite UseThisFacts.heap_push. exact Hv4.
    + unfold U.read_d. rewrite UseThisFacts.heap_push. exact Hd4.
Qed.

(** [c1(S2)]: the constructor of [S2] reads [S1], and the record of the new
    instance lists [S1]. *)
Lemma X13_result_is_stored_witness :
  T.entry_of (T.invoke Examples.code Examples.shape 11 1 6
                (Examples.to_use Scenarios.forked)).2 1 6
    = Some {| T.e_s := T.wasRead; T.e_v := VObj 1; T.e_d := Some Examples.deps_t |} ∧
  U.read_d (U.invoke Examples.code Examples.shape 11 1 6
              (Examples.use_this Scenarios.forked)).2 1
    = Some Examples.deps_u.
Proof.
  pose proof (X13_result_is_stored Examples.code Examples.shape 10 1 6 (VObj 1) (Some [5]))
    as [A A'].
  split.
  - destruct (A (Examples.to_use Scenarios.forked) Scenarios.built_t
                {| T.e_s := T.hasFactory; T.e_v := VDefault; T.e_d := None |})
      as (w' & H & He).
    + eexists _, _. vm_compute. split; reflexivity.
    + vm_compute. reflexivity.
    + done.
    + vm_compute. reflexivity.
    + intros e2. vm_compute. by intros [= <-].
    + rewrite H. exact He.
  - destruct (A' (Examples.use_this Scenarios.forked) Scenarios.unset_u Scenarios.built_u
                1 VDefault)
      as (w' & H & _ & _ & _ & Hd).
    + apply wf_use_this.
    + eexists _, _. vm_compute. split; reflexivity.
    + vm_compute. reflexivity.
    + right. split; [vm_compute; reflexivity|done].
    + vm_compute. reflexivity.
    + exists U.isCreating. split; [vm_compute; reflexivity|done].
    + rewrite H. exact Hd.
Defined.

(** X14.  A child that has overridden nothing shares the value of its
    parent.  Let [origin] have read [key], with a value [x] that its
    factory made from the keys [keys], each of which [origin] has read as a
    value other than [NaN], without dependencies of its own.  When [me] is
    a child of [origin] that holds no entry for [key] and, for each of
    [keys], no entry or the value of [origin], then [me(key)] returns [x],
    the identical value: the validation finds every dependency [===] to
    itself, and no factory runs.  Afterwards [me] has read [key] and each of [keys], with the
    values of [origin], and the registry of no other context has changed
    (in [use-this.ts], no object that was there either).  In both
    revisions. *)
Theorem X14_child_shares (code : nat → nat → nat → Prog) (shape : nat → KeyShape)
    (n me key origin : nat) (keys : list nat) (f : Value) :
  (∀ (w : T.World) (reg : T.Registry) (e : T.Entry),
     Sharing.t_plain me origin keys w →
     T.ctxs w !! me = Some reg → T.entries reg !! key = None →
     T.entry_of w origin key = Some e → T.e_s e = T.wasRead →
     T.e_d e = Some {| T.d_c := origin; T.d_k := keys; T.d_f := f |} →
     ∃ w', T.invoke code shape (S (S n)) me key w = (Ok (T.e_v e), w') ∧
           T.entry_of w' me key = Some e ∧
           (∀ c' k', c' ≠ me → T.entry_of w' c' k' = T.entry_of w c' k') ∧
           (∀ k, k ∈ keys →
              ∃ ek, T.entry_of w origin k = Some ek ∧ T.entry_of w' me k = Some ek))
  ∧
  (∀ (w : U.World) (reg : U.Registry) (a : nat) (x : Value),
     Sharing.u_plain me origin keys w →
     U.ctxs w !! me = Some reg → U.entries reg !! key = None →
     U.entry_of w origin key = Some a → U.frozen (U.heap w) a x →
     U.read_d w a = Some {| U.d_c := origin; U.d_k := keys; U.d_f := f |} →
     ∃ w', U.invoke code shape (S (S n)) me key w = (Ok x, w') ∧
           U.resolved w' me key x ∧
           (∀ c' k', c' ≠ me → U.entry_of w' c' k' = U.entry_of w c' k') ∧
           (∀ b, b < length (U.heap w) → U.heap w' !! b = U.heap w !! b) ∧
           (∀ k, k ∈ keys → ∃ xk, U.resolved w origin k xk ∧ U.resolved w' me k xk)).
Proof.
  split.
  - intros w reg e. apply ToUseMore.t_shares.
  - intros w reg a x. apply UseThisMore.u_shares.
Qed.

(** [c1(S2)], whose constructor read [S1]; then [c2(S2)] is the instance of
    [c1]. *)
Lemma X14_child_shares_witness :
  (T.invoke Examples.code Examples.shape 2 2 6 (Examples.to_use Examples.shared)).1
    = Ok (VObj 1) ∧
  (U.invoke Examples.code Examples.shape 2 2 6 (Examples.use_this Examples.shared)).1
    = Ok (VObj 1).
Proof.
  pose proof (X14_child_shares Examples.code Examples.shape 0 2 6 1 [5] VDefault) as [A A'].
  split.
  - destruct (A (Examples.to_use Examples.shared) {| T.entries := ∅; T.prev := Some 1 |}
                {| T.e_s := T.wasRead; T.e_v := VObj 1; T.e_d := Some Examples.deps_t |})
      as (w' & H & _).
    + split; [apply chain_ok_to_use|]. split; [eexists; vm_compute; split; reflexivity|].
      split; [eexists _, _; vm_compute; split; reflexivity|].
      intros k ->%list_elem_of_singleton.
      exists {| T.e_s := T.wasRead; T.e_v := VObj 0; T.e_d := None |}.
      split; [vm_compute; reflexivity|]. split; [done|]. split; [done|]. split; [done|].
      left. vm_compute. reflexivity.
    + vm_compute. reflexivity.
    + vm_compute. reflexivity.
    + vm_compute. reflexivity.
    + done.
    + done.
    + by rewrite H.
  - destruct (A' (Examples.use_this Examples.shared) {| U.entries := ∅; U.prev := Some 1 |}
                1 (VObj 1))
      as (w' & H & _).
    + split; [apply wf_use_this|]. split; [apply chain_ok_use_this|].
      split; [eexists; vm_compute; split; reflexivity|].
      split; [eexists _, _; vm_compute; split; reflexivity|].
      intros k ->%list_elem_of_singleton. exists 3, (VObj 0).
      split; [vm_compute; reflexivity|].
      split; [eapply U.frozen_own; vm_compute; reflexivity|].
      split; [vm_compute; reflexivity|]. split; [done|]. left. vm_compute. reflexivity.
    + vm_compute. reflexivity.
    + vm_compute. reflexivity.
    + vm_compute. reflexivity.
    + eapply U.frozen_own; vm_compute; reflexivity.
    + vm_compute. reflexivity.
    + by rewrite H.
Defined.
